(** * Rectangular K2-trees (StaticBasicRectangularTree.hpp)

    A shallow embedding of the class template [KrKcTree<E>] and of its
    [bool] specialisation, together with the properties of the packed
    level-order encoding [(T_, L_)] and of the navigation over it.

    Conventions of the embedding.
    - [size_type] values are natural numbers.  Every quantity below is an
      index into, or a length of, one of the vectors, so the 64-bit wrap
      around of the source is never reached on a structure that fits in
      memory; the two places where the source subtracts are guarded in the
      source ([z >= T_.size()]) or are noted where they are embedded.
    - [std::vector<bool>], [bit_vector_type] and [std::vector<E>] are lists.
      A read [v[i]] is [nth_error v i]: a read past the end is undefined in
      the source and yields [None] here, so that every result [Some _]
      established below also establishes that no such read happens.
    - The recursive member functions descend one tree level per call and the
      loops of the iterative ones are bounded by the tree height; they take
      a [fuel] argument and yield [None] when it is exhausted.  The entry
      points pass the number of levels [h_].
    - [size_type(pow(k, h))] goes through the [double] function [pow]: it
      is the power [k ^ h] as long as that is at most [2 ^ 53], and has no
      value in the embedding beyond ([pow_size_type]). *)

From Stdlib Require Import List Arith PeanoNat Lia Bool ZArith Sorted
  Permutation.
From Stdlib Require String Ascii DecimalString.
Import ListNotations.
Import String.StringSyntax.
Delimit Scope string_scope with string.

Set Default Proof Using "All".

(** ** The option monad used for reads and fuel *)

Definition obind {A B : Type} (m : option A) (k : A -> option B) : option B :=
  match m with
  | Some a => k a
  | None => None
  end.

Notation "x <- m ;; k" := (obind m (fun x => k))
  (at level 61, m at next level, right associativity).

(** [for (x : xs) s = body(x, s)] for a body that may fail. *)
Fixpoint foldM {A S : Type} (body : A -> S -> option S) (xs : list A) (s : S)
  : option S :=
  match xs with
  | [] => Some s
  | x :: xs' =>
      match body x s with
      | Some s' => foldM body xs' s'
      | None => None
      end
  end.

(** A loop whose body may [return true] out of the enclosing function; the
    function returns [false] after the loop. *)
Fixpoint anyM {A : Type} (body : A -> option bool) (xs : list A) : option bool :=
  match xs with
  | [] => Some false
  | x :: xs' =>
      match body x with
      | Some true => Some true
      | Some false => anyM body xs'
      | None => None
      end
  end.

(** A loop that pushes the value of a read that may fail for every element
    of [xs]. *)
Fixpoint mapM {A B : Type} (f : A -> option B) (xs : list A)
  : option (list B) :=
  match xs with
  | [] => Some []
  | x :: xs' => y <- f x ;; ys <- mapM f xs' ;; Some (y :: ys)
  end.

(** [for (auto i = a; i <= b; i++)] *)
Definition range_incl (a b : nat) : list nat := seq a (b + 1 - a).

(** In-place write [v[i] = x]; a write past the end leaves the list as it is
    (callers check the bound first). *)
Fixpoint list_update {A : Type} (l : list A) (i : nat) (x : A) : list A :=
  match l, i with
  | [], _ => []
  | _ :: l', 0 => x :: l'
  | y :: l', S i' => y :: list_update l' i' x
  end.

(** ** Element types *)

(** What the template uses of its parameter [E]: [==] and [!=], the value
    initialisation [E()], the implicit conversion to [bool] (in
    [return L_[...]] of [elemInRange] and in [if (C.back())]) and the
    conversion of the literal [1]. *)
Class ElemType (E : Type) : Type := {
  elem_eqb : E -> E -> bool;
  elem_eqb_eq : forall x y, elem_eqb x y = true <-> x = y;
  elem_default : E;
  elem_to_bool : E -> bool;
  elem_one : E
}.

#[export] Program Instance ElemType_Z : ElemType Z := {
  elem_eqb := Z.eqb;
  elem_default := 0%Z;
  elem_to_bool := fun x => negb (Z.eqb x 0);
  elem_one := 1%Z
}.
Next Obligation. apply Z.eqb_eq. Qed.

#[export] Program Instance ElemType_bool : ElemType bool := {
  elem_eqb := Bool.eqb;
  elem_default := false;
  elem_to_bool := fun x => x;
  elem_one := true
}.
Next Obligation. apply Bool.eqb_true_iff. Qed.

(** ** Utility.hpp *)

(** Number of set bits of a bit sequence. *)
Definition ones (bits : list bool) : nat := length (filter (fun b => b) bits).

(** Modelled from the spec: the rank index [rank_type] of Utility.hpp is not
    part of the sources at hand; [R_.rank(pos)] is "the number of 1-bits in
    the first [pos] positions" of the bit sequence it was built from. *)
Definition rank (T : list bool) (pos : nat) : nat := ones (firstn pos T).

(** Modelled from the spec: [logK] of Utility.hpp is not part of the sources
    at hand; the height is [max(1, ceil(log_kr R), ceil(log_kc C))], so
    [logK n k] is the least exponent [e] with [n <= k^e]. *)
Fixpoint logK_from (fuel n k e : nat) : nat :=
  match fuel with
  | 0 => e
  | S fuel' => if n <=? k ^ e then e else logK_from fuel' n k (S e)
  end.

Definition logK (n k : nat) : nat := logK_from n n k 0.

(** [std::max({(size_type)1, logK(rows, kr_), logK(cols, kc_)})], the height
    every constructor derives from the extent of its input. *)
Definition derived_height (rows cols kr kc : nat) : nat :=
  Nat.max 1 (Nat.max (logK rows kr) (logK cols kc)).

(** [size_type(pow(k, h))], by which every constructor sets [numRows_] and
    [numCols_].  [pow] is the function of [<cmath>] on [double]: its result
    is the power [k ^ h] as long as that is at most [2 ^ 53]; a larger power
    is rounded to a [double], and from [2 ^ 64] on the conversion to
    [size_type] is undefined.  The embedding has a value in the first case
    only. *)
Definition pow_size_type (k h : nat) : option nat :=
  if (Z.of_nat k ^ Z.of_nat h <=? 2 ^ 53)%Z then Some (k ^ h) else None.

(** Modelled from the spec: [isAll] of Utility.hpp is not part of the sources
    at hand; it is the helper "all equal to null?". *)
Definition isAll {E : Type} `{ElemType E} (C : list E) (null : E) : bool :=
  forallb (fun x => elem_eqb x null) C.

(** Modelled from the spec: [isAllZero] of Utility.hpp is not part of the
    sources at hand; it is the helper "all zero?". *)
Definition isAllZero (C : list bool) : bool := forallb negb C.

(** Modelled from the spec: the class [NaiveDynamicRank] is not part of the
    sources at hand; it "supports rank(pos), increaseFrom(pos) to bump all
    ranks at and beyond pos by 1, and insert(pos, count) to reflect count
    new zero bits inserted at pos".  It is kept here as the table of the
    ranks of all prefixes of the bit sequence: entry [pos] is [rank(pos)],
    and the entries of [count] zero bits inserted before entry [pos] repeat
    the rank in front of them. *)
Definition NaiveDynamicRank : Type := list nat.

Definition NaiveDynamicRank_of (T : list bool) : NaiveDynamicRank :=
  map (rank T) (seq 0 (length T + 1)).

Definition dyn_rank (R : NaiveDynamicRank) (pos : nat) : option nat :=
  nth_error R pos.

Definition increaseFrom (R : NaiveDynamicRank) (pos : nat) : NaiveDynamicRank :=
  firstn pos R ++ map S (skipn pos R).

Definition dyn_insert (R : NaiveDynamicRank) (pos count : nat)
  : NaiveDynamicRank :=
  firstn pos R ++ repeat (nth (pos - 1) R 0) count ++ skipn pos R.

(** ** Vector operations of the builders *)

(** [v[i] = x] without a guard in the source: a write past the end is
    undefined there and [None] here. *)
Definition write_at {A : Type} (v : list A) (i : nat) (x : A)
  : option (list A) :=
  if i <? length v then Some (list_update v i x) else None.

(** [v.insert(v.begin() + pos, count, x)] *)
Definition insert_at {A : Type} (v : list A) (pos count : nat) (x : A)
  : option (list A) :=
  if pos <=? length v
  then Some (firstn pos v ++ repeat x count ++ skipn pos v)
  else None.

(** [a - b] on [size_type] where the result is used as a position in a
    vector: below [b] the source wraps around to a position past the end of
    any vector, which is [None] here. *)
Definition offset_from (a b : nat) : option nat :=
  if b <=? a then Some (a - b) else None.

(** ** The class template [KrKcTree<E>] *)

Record SubrowInfo : Type := mkSubrowInfo { si_dq : nat; si_z : nat }.

(** Modelled from the spec: [Subproblem] of Utility.hpp is not part of the
    sources at hand; it is "a contiguous range [left, right) of the pairs
    array together with the submatrix [firstRow, lastRow] x
    [firstCol, lastCol] those pairs belong to", built as
    [Subproblem(firstRow, lastRow, firstCol, lastCol, left, right)]. *)
Record Subproblem : Type := mkSubproblem {
  sp_firstRow : nat; sp_lastRow : nat;
  sp_firstCol : nat; sp_lastCol : nat;
  sp_left : nat; sp_right : nat
}.

(** Modelled from the spec: [ValuedPosition<E>], a (row, col, value) triple
    with the fields [row], [col] and [val], built as
    [ValuedPosition<E>(row, col, val)]. *)
Record ValuedPosition (E : Type) : Type := mkValuedPosition {
  vp_row : nat; vp_col : nat; vp_val : E
}.
Arguments mkValuedPosition {E} _ _ _.
Arguments vp_row {E} _.
Arguments vp_col {E} _.
Arguments vp_val {E} _.

Record ExtendedSubrowInfo : Type := mkExtendedSubrowInfo {
  es_nr : nat; es_nc : nat; es_p : nat; es_dq : nat; es_z : nat; es_j : nat
}.

Section KrKcTree.

Context {E : Type} `{ElemType E}.

(** The data members; the rank index [R_] is determined by [T_]. *)
Record KrKcTree : Type := mkKrKcTree {
  T_ : list bool;
  L_ : list E;
  h_ : nat;
  kr_ : nat;
  kc_ : nat;
  numRows_ : nat;
  numCols_ : nat;
  null_ : E
}.

Definition matrix_type : Type := list (list E).

(** *** Construction from a relation matrix (Mode M) *)

(** The two buffers the recursive builder writes to: the per-level bitmaps
    [levels] and the member [L_]. *)
Record build_state : Type := mkBuildState {
  levels : list (list bool);
  bs_L : list E
}.

(** [levels[i].insert(levels[i].end(), C.begin(), C.end())]: [levels[i]]
    past the end of [levels] is undefined in the source and [None] here. *)
Fixpoint append_level (lvls : list (list bool)) (i : nat) (C : list bool)
  : option (list (list bool)) :=
  match lvls, i with
  | [], _ => None
  | lv :: rest, 0 => Some ((lv ++ C) :: rest)
  | lv :: rest, S i' => rest' <- append_level rest i' C ;; Some (lv :: rest')
  end.

(** The pairs [(i, j)] of the nested loops
    [for (i = 0; i < kr_; i++) for (j = 0; j < kc_; j++)]. *)
Definition child_slots (kr kc : nat) : list (nat * nat) :=
  list_prod (seq 0 kr) (seq 0 kc).

(** The nested loops of the internal case: each iteration runs [body] on the
    buffers and pushes its result to [C]. *)
Fixpoint collect {S : Type} (body : nat * nat -> S -> option (bool * S))
  (slots : list (nat * nat)) (st : S) : option (list bool * S) :=
  match slots with
  | [] => Some ([], st)
  | ij :: slots' =>
      match body ij st with
      | None => None
      | Some (b, st1) =>
          match collect body slots' st1 with
          | None => None
          | Some (C, st2) => Some (b :: C, st2)
          end
      end
  end.

(** [((p < mat.size()) && (q < mat[0].size())) ? mat[p][q] : null_], the
    read of the leaf case.  [mat[0]] is evaluated behind [p < mat.size()]
    only; a row [p] that has no entry [q] is read past its end, which is
    [None]. *)
Definition mat_read (mat : matrix_type) (null : E) (p q : nat) : option E :=
  if p <? length mat then
    row0 <- nth_error mat 0 ;;
    if q <? length row0 then
      row <- nth_error mat p ;;
      nth_error row q
    else Some null
  else Some null.

(** The relation a matrix stands for: its entry at row [p] and column [q],
    and [null] outside of it, in the padding. *)
Definition mat_at (mat : matrix_type) (null : E) (p q : nat) : E :=
  if (p <? length mat) && (q <? length (nth 0 mat []))
  then nth q (nth p mat []) null
  else null.

Section Builder.

Variables (kr kc h : nat) (null : E).

Fixpoint buildFromMatrix (fuel : nat) (mat : matrix_type) (st : build_state)
  (numRows numCols l p q : nat) {struct fuel} : option (bool * build_state) :=
  match fuel with
  | 0 => None
  | S fuel' =>
      if l =? h then
        C <- mapM (fun ij => mat_read mat null (p + fst ij) (q + snd ij))
                  (child_slots kr kc) ;;
        if isAll C null then Some (false, st)
        else Some (true, mkBuildState (levels st) (bs_L st ++ C))
      else
        match
          collect
            (fun ij st' =>
               buildFromMatrix fuel' mat st' (numRows / kr) (numCols / kc) (l + 1)
                 (p + fst ij * (numRows / kr)) (q + snd ij * (numCols / kc)))
            (child_slots kr kc) st
        with
        | None => None
        | Some (C, st') =>
            if isAllZero C then Some (false, st')
            else
              i <- offset_from l 1 ;;
              lvls <- append_level (levels st') i C ;;
              Some (true, mkBuildState lvls (bs_L st'))
        end
  end.

End Builder.

(** [KrKcTree(const matrix_type& mat, kr, kc, null)].  It evaluates
    [mat[0].size()] first, which is undefined on a matrix without rows and
    [None] here. *)
Definition KrKcTree_of_matrix (mat : matrix_type) (kr kc : nat) (null : E)
  : option KrKcTree :=
  row0 <- nth_error mat 0 ;;
  let h := derived_height (length mat) (length row0) kr kc in
  numRows <- pow_size_type kr h ;;
  numCols <- pow_size_type kc h ;;
  match buildFromMatrix kr kc h null h mat
          (mkBuildState (repeat [] (h - 1)) []) numRows numCols 1 0 0 with
  | None => None
  | Some (_, st) =>
      Some (mkKrKcTree (concat (firstn (h - 1) (levels st))) (bs_L st)
                       h kr kc numRows numCols null)
  end.

(** *** Construction from relation lists via dynamic bitmaps (Mode L2) *)

(** [list_type]: one row of the relation as (column, value) pairs. *)
Definition list_type : Type := list (nat * E).

(** The vectors [insert] works on: the locals [T] and [R] of
    [buildFromListsDynamicBitmaps] and the member [L_]. *)
Record dynamic_state : Type := mkDynamicState {
  ds_T : list bool;
  ds_R : NaiveDynamicRank;
  ds_L : list E
}.

Section DynamicBitmaps.

(** The members [kr_], [kc_], [h_], [numRows_], [numCols_] and [null_], set
    by the constructor before the builder runs. *)
Variables (kr kc h rows cols : nat) (null : E).

Fixpoint insert (fuel : nat) (st : dynamic_state)
  (numRows numCols p q : nat) (val : E) (z l : nat) {struct fuel}
  : option dynamic_state :=
  match fuel with
  | 0 => None
  | S fuel' =>
      b <- nth_error (ds_T st) z ;;
      if negb b then
        T1 <- write_at (ds_T st) z true ;;
        let R1 := increaseFrom (ds_R st) (z + 1) in
        r <- dyn_rank R1 (z + 1) ;;
        let y := r * kr * kc + (p / (numRows / kr)) * kc + q / (numCols / kc) in
        if l + 1 =? h then
          pos <- offset_from (r * kr * kc) (length T1) ;;
          L1 <- insert_at (ds_L st) pos (kr * kc) null ;;
          i <- offset_from y (length T1) ;;
          L2 <- write_at L1 i elem_one ;;
          Some (mkDynamicState T1 R1 L2)
        else
          T2 <- insert_at T1 (r * kr * kc) (kr * kc) false ;;
          let R2 := dyn_insert R1 (r * kr * kc + 1) (kr * kc) in
          insert fuel' (mkDynamicState T2 R2 (ds_L st))
            (numRows / kr) (numCols / kc)
            (p mod (numRows / kr)) (q mod (numCols / kc)) val y (l + 1)
      else
        r <- dyn_rank (ds_R st) (z + 1) ;;
        let y := r * kr * kc + (p / (numRows / kr)) * kc + q / (numCols / kc) in
        if l + 1 =? h then
          i <- offset_from y (length (ds_T st)) ;;
          L1 <- write_at (ds_L st) i elem_one ;;
          Some (mkDynamicState (ds_T st) (ds_R st) L1)
        else
          insert fuel' st (numRows / kr) (numCols / kc)
            (p mod (numRows / kr)) (q mod (numCols / kc)) val y (l + 1)
  end.

Definition insertInit (st : dynamic_state) (p q : nat) (val : E)
  : option dynamic_state :=
  let st0 :=
    match ds_T st with
    | [] => let T := repeat false (kr * kc) in
            mkDynamicState T (NaiveDynamicRank_of T) (ds_L st)
    | _ :: _ => st
    end in
  insert h st0 (rows / kr) (cols / kc)
    (p mod (rows / kr)) (q mod (cols / kc)) val
    ((p / (rows / kr)) * kc + q / (cols / kc)) 1.

(** The two nested loops over [lists[i][j]], running [body i lists[i][j]]. *)
Definition for_each_entry {S : Type} (body : nat -> nat * E -> S -> option S)
  (lists : list list_type) (s : S) : option S :=
  foldM (fun irow s' => foldM (body (fst irow)) (snd irow) s')
        (combine (seq 0 (length lists)) lists) s.

(** [buildFromListsDynamicBitmaps(lists)]: the members [T_] and [L_] it
    leaves behind. *)
Definition buildFromListsDynamicBitmaps (lists : list list_type)
  : option (list bool * list E) :=
  if h =? 1 then
    L <- for_each_entry (fun i e L => write_at L (i * kc + fst e) (snd e))
           lists (repeat null (kr * kc)) ;;
    Some ([], if isAll L null then [] else L)
  else
    st <- for_each_entry (fun i e st => insertInit st i (fst e) (snd e))
            lists (mkDynamicState [] [] []) ;;
    Some (ds_T st, ds_L st).

End DynamicBitmaps.

(** [KrKcTree(const std::vector<list_type>& lists, kr, kc, mode, null)] for
    [mode = 2], which is also the [default] branch of its [switch]. *)
Definition KrKcTree_of_lists_dynamic (lists : list list_type) (kr kc : nat)
  (null : E) : option KrKcTree :=
  let maxCol :=
    fold_left (fun m row => fold_left (fun m' e => Nat.max m' (fst e)) row m)
              lists 0 + 1 in
  let h := derived_height (length lists) maxCol kr kc in
  numRows <- pow_size_type kr h ;;
  numCols <- pow_size_type kc h ;;
  match buildFromListsDynamicBitmaps kr kc h numRows numCols null lists with
  | None => None
  | Some (T, L) => Some (mkKrKcTree T L h kr kc numRows numCols null)
  end.

(** *** Construction from relation lists with cursors (Mode L0) *)

(** The nested loops of a leaf group in [buildFromLists]: each iteration
    runs [body] on the cursors and pushes its result to [C]. *)
Fixpoint collect_values {A S : Type} (body : nat * nat -> S -> option (A * S))
  (slots : list (nat * nat)) (st : S) : option (list A * S) :=
  match slots with
  | [] => Some ([], st)
  | ij :: slots' =>
      match body ij st with
      | None => None
      | Some (v, st1) =>
          match collect_values body slots' st1 with
          | None => None
          | Some (C, st2) => Some (v :: C, st2)
          end
      end
  end.

Section ListsBuilder.

Variables (kr kc h : nat) (null : E).

(** One iteration of the leaf loops for row [r] and column [c]: the value
    pushed to [C], and the cursors after [if (C.back()) cursors[r]++].  A
    cursor is the index of the entry it points to; [lists[r].end()] is the
    length of the row. *)
Definition readCursor (lists : list list_type) (cursors : list nat)
  (r c : nat) : option (E * list nat) :=
  v <- (if r <? length lists then
          cur <- nth_error cursors r ;;
          Some (match nth_error (nth r lists []) cur with
                | Some e => if c =? fst e then snd e else null
                | None => null
                end)
        else Some null) ;;
  if elem_to_bool v then
    cur <- nth_error cursors r ;;
    Some (v, list_update cursors r (cur + 1))
  else Some (v, cursors).

Fixpoint buildFromLists (fuel : nat) (lists : list list_type)
  (st : list nat * build_state) (numRows numCols l p q : nat) {struct fuel}
  : option (bool * (list nat * build_state)) :=
  match fuel with
  | 0 => None
  | S fuel' =>
      if l =? h then
        match
          collect_values
            (fun ij cursors =>
               readCursor lists cursors (p + fst ij) (q + snd ij))
            (child_slots kr kc) (fst st)
        with
        | None => None
        | Some (C, cursors') =>
            if isAll C null then Some (false, (cursors', snd st))
            else Some (true, (cursors',
                              mkBuildState (levels (snd st))
                                           (bs_L (snd st) ++ C)))
        end
      else
        match
          collect
            (fun ij st' =>
               buildFromLists fuel' lists st' (numRows / kr) (numCols / kc)
                 (l + 1) (p + fst ij * (numRows / kr))
                 (q + snd ij * (numCols / kc)))
            (child_slots kr kc) st
        with
        | None => None
        | Some (C, st') =>
            if isAllZero C then Some (false, st')
            else
              i <- offset_from l 1 ;;
              lvls <- append_level (levels (snd st')) i C ;;
              Some (true, (fst st', mkBuildState lvls (bs_L (snd st'))))
        end
  end.

End ListsBuilder.

(** [maxCol] as the list constructors compute it, before [maxCol++]. *)
Definition lists_maxCol (lists : list list_type) : nat :=
  fold_left (fun m row => fold_left (fun m' e => Nat.max m' (fst e)) row m)
            lists 0.

(** [KrKcTree(const std::vector<list_type>& lists, kr, kc, mode, null)] for
    [mode = 0]. *)
Definition KrKcTree_of_lists_cursors (lists : list list_type) (kr kc : nat)
  (null : E) : option KrKcTree :=
  let maxCol := lists_maxCol lists + 1 in
  let h := derived_height (length lists) maxCol kr kc in
  numRows <- pow_size_type kr h ;;
  numCols <- pow_size_type kc h ;;
  match buildFromLists kr kc h null h lists
          (map (fun _ => 0) lists, mkBuildState (repeat [] (h - 1)) [])
          numRows numCols 1 0 0 with
  | None => None
  | Some (_, (_, st)) =>
      Some (mkKrKcTree (concat (firstn (h - 1) (levels st))) (bs_L st)
                       h kr kc numRows numCols null)
  end.

(** *** Windowed construction *)

(** [std::to_string] on a [size_type]: its decimal digits. *)
Definition to_string (n : nat) : String.string :=
  DecimalString.NilEmpty.string_of_uint (Nat.to_uint n).

(** Left-to-right [operator+] on [std::string]. *)
Definition string_sum (pieces : list String.string) : String.string :=
  fold_left String.append pieces String.EmptyString.

(** [lhs = rhs] on [std::string]: the left operand takes the value of the
    right one, and that is the value of the expression. *)
Definition string_assign (lhs rhs : String.string) : String.string := rhs.

(** The initialiser of [err] in [checkParameters].  [=] binds weaker than
    [+], so the expression is one assignment: the sum up to [", nc = "] on
    its left, the sum from [std::to_string(nc)] on its right. *)
Definition checkParameters_err (h numRows numCols nr nc kr kc : nat)
  : String.string :=
  string_assign
    (string_sum
       [ String.EmptyString;
         "Unsuitable parameters! "%string;
         "The numbers of rows (nr) and columns (nc) have to be powers of kr resp. kc (using the same exponent h)."%string;
         "But you gave me: nr = "%string; to_string nr; ", nc = "%string ])
    (string_sum
       [ to_string nc;
         ", kr = "%string; to_string kr; " and kc = "%string; to_string kc;
         " leading to h = "%string; to_string h;
         " and "%string; to_string numRows; " rows resp. "%string;
         to_string numCols; " columns."%string ]).

(** [checkParameters(nr, nc, kr, kc)] on the members [h_], [numRows_] and
    [numCols_] it reads: [Some err] is [throw std::runtime_error(err)],
    [None] is the normal return. *)
Definition checkParameters (h numRows numCols nr nc kr kc : nat)
  : option String.string :=
  if negb (numRows =? nr) || negb (numCols =? nc)
  then Some (checkParameters_err h numRows numCols nr nc kr kc)
  else None.

(** The statements every windowed constructor (matrix, lists, pairs) starts
    with: derive [h_], [numRows_] and [numCols_] from the window and call
    [checkParameters].  [inl err] is the exception leaving the
    constructor; [inr None] is a run the embedding has no value for. *)
Definition window_dimensions (nr nc kr kc : nat)
  : String.string + option (nat * nat * nat) :=
  let h := derived_height nr nc kr kc in
  match pow_size_type kr h, pow_size_type kc h with
  | Some numRows, Some numCols =>
      match checkParameters h numRows numCols nr nc kr kc with
      | Some err => inl err
      | None => inr (Some (h, numRows, numCols))
      end
  | _, _ => inr None
  end.

(** [KrKcTree(const matrix_type& mat, x, y, nr, nc, kr, kc, null)] *)
Definition KrKcTree_of_matrix_window (mat : matrix_type)
  (x y nr nc kr kc : nat) (null : E) : String.string + option KrKcTree :=
  match window_dimensions nr nc kr kc with
  | inl err => inl err
  | inr None => inr None
  | inr (Some (h, numRows, numCols)) =>
      inr (match buildFromMatrix kr kc h null h mat
                   (mkBuildState (repeat [] (h - 1)) []) numRows numCols 1 x y
           with
           | None => None
           | Some (_, st) =>
               Some (mkKrKcTree (concat (firstn (h - 1) (levels st))) (bs_L st)
                                h kr kc numRows numCols null)
           end)
  end.

(** *** Navigation *)

Section Navigation.

Variable t : KrKcTree.

Local Abbreviation T := (T_ t).
Local Abbreviation L := (L_ t).
Local Abbreviation kr := (kr_ t).
Local Abbreviation kc := (kc_ t).
Local Abbreviation null := (null_ t).

(** [L_.empty()] *)
Definition L_empty : bool :=
  match L with [] => true | _ => false end.

(** **** [isNotNull] *)

Fixpoint check (fuel numRows numCols p q z : nat) {struct fuel} : option bool :=
  match fuel with
  | 0 => None
  | S fuel' =>
      if length T <=? z then
        v <- nth_error L (z - length T) ;;
        Some (negb (elem_eqb v null))
      else
        b <- nth_error T z ;;
        if b : bool then
          check fuel' (numRows / kr) (numCols / kc)
            (p mod (numRows / kr)) (q mod (numCols / kc))
            (rank T (z + 1) * kr * kc + (p / (numRows / kr)) * kc
             + q / (numCols / kc))
        else Some false
  end.

Definition checkInit (p q : nat) : option bool :=
  if L_empty then Some false
  else check (h_ t) (numRows_ t / kr) (numCols_ t / kc)
         (p mod (numRows_ t / kr)) (q mod (numCols_ t / kc))
         ((p / (numRows_ t / kr)) * kc + q / (numCols_ t / kc)).

(** **** [getElement] *)

Fixpoint get (fuel numRows numCols p q z : nat) {struct fuel} : option E :=
  match fuel with
  | 0 => None
  | S fuel' =>
      if length T <=? z then nth_error L (z - length T)
      else
        b <- nth_error T z ;;
        if b : bool then
          get fuel' (numRows / kr) (numCols / kc)
            (p mod (numRows / kr)) (q mod (numCols / kc))
            (rank T (z + 1) * kr * kc + (p / (numRows / kr)) * kc
             + q / (numCols / kc))
        else Some null
  end.

Definition getInit (p q : nat) : option E :=
  if L_empty then Some null
  else get (h_ t) (numRows_ t / kr) (numCols_ t / kc)
         (p mod (numRows_ t / kr)) (q mod (numCols_ t / kc))
         ((p / (numRows_ t / kr)) * kc + q / (numCols_ t / kc)).

(** **** [getSuccessorPositions] *)

(** [for (j = 0; j < n; j++, dq += nc, z++) queue.push(SubrowInfo(dq, z))] *)
Fixpoint pushSubrows (n dq z nc : nat) (queue : list SubrowInfo)
  : list SubrowInfo :=
  match n with
  | 0 => queue
  | S n' => pushSubrows n' (dq + nc) (z + 1) nc (queue ++ [mkSubrowInfo dq z])
  end.

(** [for (j = 0; j < n; j++, newDq += nc, y++)
       if (L_[y] != null_) succs.push_back(newDq)] *)
Fixpoint scanLeaves (n newDq y nc : nat) (succs : list nat)
  : option (list nat) :=
  match n with
  | 0 => Some succs
  | S n' =>
      v <- nth_error L y ;;
      scanLeaves n' (newDq + nc) (y + 1) nc
        (if negb (elem_eqb v null) then succs ++ [newDq] else succs)
  end.

(** The [while (!queue.empty())] loop of one internal level; [queue.front()]
    is the head of the list. *)
Fixpoint expandQueue (queue nextLevelQueue : list SubrowInfo)
  (relP nr nc : nat) : option (list SubrowInfo) :=
  match queue with
  | [] => Some nextLevelQueue
  | cur :: queue' =>
      b <- nth_error T (si_z cur) ;;
      expandQueue queue'
        (if b : bool then
           pushSubrows kc (si_dq cur)
             (rank T (si_z cur + 1) * kr * kc + kc * (relP / nr)) nc
             nextLevelQueue
         else nextLevelQueue)
        relP nr nc
  end.

(** [for (; nr > 1; relP %= nr, nr /= kr_, nc /= kc_) { ...; queue.swap(nextLevelQueue); }] *)
Fixpoint successorLevels (fuel : nat) (queue : list SubrowInfo)
  (relP nr nc : nat) {struct fuel}
  : option (list SubrowInfo * (nat * (nat * nat))) :=
  match fuel with
  | 0 => None
  | S fuel' =>
      if 1 <? nr then
        queue' <- expandQueue queue [] relP nr nc ;;
        successorLevels fuel' queue' (relP mod nr) (nr / kr) (nc / kc)
      else Some (queue, (relP, (nr, nc)))
  end.

(** The last [while (!queue.empty())] loop, which reads [L_].  The source
    subtracts [lenT] from the position of the child group; the difference is
    taken in the naturals. *)
Fixpoint drainQueue (queue : list SubrowInfo) (relP nr nc lenT : nat)
  (succs : list nat) : option (list nat) :=
  match queue with
  | [] => Some succs
  | cur :: queue' =>
      b <- nth_error T (si_z cur) ;;
      succs' <- (if b : bool then
                   scanLeaves kc (si_dq cur)
                     (rank T (si_z cur + 1) * kr * kc + kc * (relP / nr) - lenT)
                     nc succs
                 else Some succs) ;;
      drainQueue queue' relP nr nc lenT succs'
  end.

Definition allSuccessorPositionsIterative (succs : list nat) (p : nat)
  : option (list nat) :=
  if L_empty then Some succs
  else
    let lenT := length T in
    if lenT =? 0 then
      let offset := p * numCols_ t in
      scanLeaves (numCols_ t) 0 offset 1 succs
    else
      let nr := numRows_ t / kr in
      let nc := numCols_ t / kc in
      let relP := p in
      let queue := pushSubrows kc 0 (kc * (relP / nr)) nc [] in
      let relP := relP mod nr in
      let nr := nr / kr in
      let nc := nc / kc in
      st <- successorLevels (h_ t) queue relP nr nc ;;
      let '(queue, (relP, (nr, nc))) := st in
      drainQueue queue relP nr nc lenT succs.

(** **** [getFirstSuccessor] *)

Inductive loop_result (A S : Type) : Type :=
| Return (a : A)
| Continue (s : S).
Arguments Return {A S} a.
Arguments Continue {A S} s.

(** [cur.dq += cur.nc; cur.z++; cur.j++] *)
Definition advance (cur : ExtendedSubrowInfo) : ExtendedSubrowInfo :=
  mkExtendedSubrowInfo (es_nr cur) (es_nc cur) (es_p cur)
    (es_dq cur + es_nc cur) (es_z cur + 1) (es_j cur + 1).

(** One iteration of [while (!stack.empty())]; the head of the list is
    [stack.top()].  [cur] is a reference into the stack, so the increments
    after [stack.emplace] update the frame below the new top. *)
Definition firstSuccessorStep (stack : list ExtendedSubrowInfo)
  : option (loop_result nat (list ExtendedSubrowInfo)) :=
  match stack with
  | [] => Some (Return (numCols_ t))
  | cur :: rest =>
      if es_j cur =? kc then Some (Continue rest)
      else if length T <=? es_z cur then
        v <- nth_error L (es_z cur - length T) ;;
        if negb (elem_eqb v null) then Some (Return (es_dq cur))
        else Some (Continue (advance cur :: rest))
      else
        b <- nth_error T (es_z cur) ;;
        if b : bool then
          Some (Continue
                  (mkExtendedSubrowInfo (es_nr cur / kr) (es_nc cur / kc)
                     (es_p cur mod (es_nr cur / kr)) (es_dq cur)
                     (rank T (es_z cur + 1) * kr * kc
                      + kc * (es_p cur / (es_nr cur / kr))) 0
                   :: advance cur :: rest))
        else Some (Continue (advance cur :: rest))
  end.

Fixpoint firstSuccessorLoop (fuel : nat) (stack : list ExtendedSubrowInfo)
  {struct fuel} : option nat :=
  match fuel with
  | 0 => None
  | S fuel' =>
      r <- firstSuccessorStep stack ;;
      match r with
      | Return pos => Some pos
      | Continue stack' => firstSuccessorLoop fuel' stack'
      end
  end.

(** [for (i = 0; i < n; i++) if (L_[offset + i] != null_) return i;] *)
Fixpoint firstInRow (n i offset : nat) : option (option nat) :=
  match n with
  | 0 => Some None
  | S n' =>
      v <- nth_error L (offset + i) ;;
      if negb (elem_eqb v null) then Some (Some i)
      else firstInRow n' (i + 1) offset
  end.

(** A frame at a level with [d] levels below it is popped after at most
    [stackFuel d] iterations. *)
Fixpoint stackFuel (d : nat) : nat :=
  match d with
  | 0 => kc + 1
  | S d' => kc * (stackFuel d' + 1) + 1
  end.

Definition firstSuccessorPositionIterative (p : nat) : option nat :=
  if L_empty then Some (numCols_ t)
  else if length T =? 0 then
    r <- firstInRow (numCols_ t) 0 (p * numCols_ t) ;;
    match r with
    | Some i => Some i
    | None => Some (numCols_ t)
    end
  else
    firstSuccessorLoop (stackFuel (h_ t) + 1)
      [mkExtendedSubrowInfo (numRows_ t / kr) (numCols_ t / kc)
         (p mod (numRows_ t / kr)) 0 (kc * (p / (numRows_ t / kr))) 0].

(** **** [getPredecessorPositions] *)

Fixpoint predecessorsPos (fuel : nat) (preds : list nat)
  (numRows numCols q p z : nat) {struct fuel} : option (list nat) :=
  match fuel with
  | 0 => None
  | S fuel' =>
      if length T <=? z then
        v <- nth_error L (z - length T) ;;
        Some (if negb (elem_eqb v null) then preds ++ [p] else preds)
      else
        b <- nth_error T z ;;
        if b : bool then
          let y := rank T (z + 1) * kr * kc + q / (numCols / kc) in
          foldM (fun i preds' =>
                   predecessorsPos fuel' preds' (numRows / kr) (numCols / kc)
                     (q mod (numCols / kc)) (p + (numRows / kr) * i)
                     (y + i * kc))
                (seq 0 kr) preds
        else Some preds
  end.

Definition predecessorsPosInit (preds : list nat) (q : nat)
  : option (list nat) :=
  if L_empty then Some preds
  else
    let y := q / (numCols_ t / kc) in
    foldM (fun i preds' =>
             predecessorsPos (h_ t) preds' (numRows_ t / kr) (numCols_ t / kc)
               (q mod (numCols_ t / kc)) ((numRows_ t / kr) * i) (y + i * kc))
          (seq 0 kr) preds.

(** **** [getPositionsInRange] *)

Definition positions_type : Type := list (nat * nat).

Fixpoint rangePos (fuel : nat) (pairs : positions_type)
  (numRows numCols p1 p2 q1 q2 dp dq z : nat) {struct fuel}
  : option positions_type :=
  match fuel with
  | 0 => None
  | S fuel' =>
      if length T <=? z then
        v <- nth_error L (z - length T) ;;
        Some (if negb (elem_eqb v null) then pairs ++ [(dp, dq)] else pairs)
      else
        b <- nth_error T z ;;
        if b : bool then
          let y := rank T (z + 1) * kr * kc in
          foldM (fun i pairs1 =>
                   let p1Prime :=
                     Nat.b2n (i =? p1 / (numRows / kr)) * (p1 mod (numRows / kr)) in
                   let p2Prime :=
                     if i =? p2 / (numRows / kr) then p2 mod (numRows / kr)
                     else numRows / kr - 1 in
                   foldM (fun j pairs2 =>
                            rangePos fuel' pairs2 (numRows / kr) (numCols / kc)
                              p1Prime p2Prime
                              (Nat.b2n (j =? q1 / (numCols / kc))
                               * (q1 mod (numCols / kc)))
                              (if j =? q2 / (numCols / kc)
                               then q2 mod (numCols / kc)
                               else numCols / kc - 1)
                              (dp + (numRows / kr) * i)
                              (dq + (numCols / kc) * j)
                              (y + kc * i + j))
                         (range_incl (q1 / (numCols / kc)) (q2 / (numCols / kc)))
                         pairs1)
                (range_incl (p1 / (numRows / kr)) (p2 / (numRows / kr)))
                pairs
        else Some pairs
  end.

Definition rangePosInit (pairs : positions_type) (p1 p2 q1 q2 : nat)
  : option positions_type :=
  if L_empty then Some pairs
  else
    let nr := numRows_ t / kr in
    let nc := numCols_ t / kc in
    foldM (fun i pairs1 =>
             let p1Prime := Nat.b2n (i =? p1 / nr) * (p1 mod nr) in
             let p2Prime := if i =? p2 / nr then p2 mod nr else nr - 1 in
             foldM (fun j pairs2 =>
                      rangePos (h_ t) pairs2 nr nc p1Prime p2Prime
                        (Nat.b2n (j =? q1 / nc) * (q1 mod nc))
                        (if j =? q2 / nc then q2 mod nc else nc - 1)
                        (nr * i) (nc * j) (kc * i + j))
                   (range_incl (q1 / nc) (q2 / nc)) pairs1)
          (range_incl (p1 / nr) (p2 / nr)) pairs.

(** **** [containsElement] *)

Fixpoint elemInRange (fuel numRows numCols p1 p2 q1 q2 z : nat) {struct fuel}
  : option bool :=
  match fuel with
  | 0 => None
  | S fuel' =>
      if length T <=? z then
        v <- nth_error L (z - length T) ;;
        Some (elem_to_bool v)
      else
        b <- nth_error T z ;;
        if b : bool then
          if (p1 =? 0) && (q1 =? 0) && (p2 =? numRows - 1) && (q2 =? numCols - 1)
          then Some true
          else
            let y := rank T (z + 1) * kr * kc in
            anyM (fun i =>
                    let p1Prime :=
                      Nat.b2n (i =? p1 / (numRows / kr)) * (p1 mod (numRows / kr)) in
                    let p2Prime :=
                      if i =? p2 / (numRows / kr) then p2 mod (numRows / kr)
                      else numRows / kr - 1 in
                    anyM (fun j =>
                            elemInRange fuel' (numRows / kr) (numCols / kc)
                              p1Prime p2Prime
                              (Nat.b2n (j =? q1 / (numCols / kc))
                               * (q1 mod (numCols / kc)))
                              (if j =? q2 / (numCols / kc)
                               then q2 mod (numCols / kc)
                               else numCols / kc - 1)
                              (y + kc * i + j))
                         (range_incl (q1 / (numCols / kc)) (q2 / (numCols / kc))))
                 (range_incl (p1 / (numRows / kr)) (p2 / (numRows / kr)))
        else Some false
  end.

Definition elemInRangeInit (p1 p2 q1 q2 : nat) : option bool :=
  if L_empty then Some false
  else if (p1 =? 0) && (q1 =? 0) && (p2 =? numRows_ t - 1)
          && (q2 =? numCols_ t - 1)
  then Some true
  else
    let nr := numRows_ t / kr in
    let nc := numCols_ t / kc in
    anyM (fun i =>
            let p1Prime := Nat.b2n (i =? p1 / nr) * (p1 mod nr) in
            let p2Prime := if i =? p2 / nr then p2 mod nr else nr - 1 in
            anyM (fun j =>
                    elemInRange (h_ t) nr nc p1Prime p2Prime
                      (Nat.b2n (j =? q1 / nc) * (q1 mod nc))
                      (if j =? q2 / nc then q2 mod nc else nc - 1)
                      (kc * i + j))
                 (range_incl (q1 / nc) (q2 / nc)))
         (range_incl (p1 / nr) (p2 / nr)).

(** **** [setNull] *)

(** The only member [set] writes is [L_]; the new [L_] is returned. *)
Fixpoint set (fuel numRows numCols p q z : nat) {struct fuel} : option (list E) :=
  match fuel with
  | 0 => None
  | S fuel' =>
      if length T <=? z then
        if z - length T <? length L
        then Some (list_update L (z - length T) null)
        else None
      else
        b <- nth_error T z ;;
        if b : bool then
          set fuel' (numRows / kr) (numCols / kc)
            (p mod (numRows / kr)) (q mod (numCols / kc))
            (rank T (z + 1) * kr * kc + (p / (numRows / kr)) * kc
             + q / (numCols / kc))
        else Some L
  end.

Definition setInit (p q : nat) : option (list E) :=
  if L_empty then Some L
  else set (h_ t) (numRows_ t / kr) (numCols_ t / kc)
         (p mod (numRows_ t / kr)) (q mod (numCols_ t / kc))
         ((p / (numRows_ t / kr)) * kc + q / (numCols_ t / kc)).

(** **** The public interface *)

Definition isNotNull (i j : nat) : option bool := checkInit i j.

Definition getElement (i j : nat) : option E := getInit i j.

Definition getSuccessorPositions (i : nat) : option (list nat) :=
  allSuccessorPositionsIterative [] i.

Definition getPredecessorPositions (j : nat) : option (list nat) :=
  predecessorsPosInit [] j.

Definition getPositionsInRange (i1 i2 j1 j2 : nat) : option positions_type :=
  rangePosInit [] i1 i2 j1 j2.

Definition containsElement (i1 i2 j1 j2 : nat) : option bool :=
  elemInRangeInit i1 i2 j1 j2.

Definition getFirstSuccessor (i : nat) : option nat :=
  firstSuccessorPositionIterative i.

Definition setNull (i j : nat) : option KrKcTree :=
  L' <- setInit i j ;;
  Some (mkKrKcTree T L' (h_ t) kr kc (numRows_ t) (numCols_ t) null).

(** **** The recursive variants of the successor queries

    [getSuccessorPositions] and [getFirstSuccessor] call the iterative
    functions above; the recursive ones they replaced are kept in the
    class. *)

Fixpoint successorsPos (fuel : nat) (succs : list nat)
  (numRows numCols p q z : nat) {struct fuel} : option (list nat) :=
  match fuel with
  | 0 => None
  | S fuel' =>
      if length T <=? z then
        v <- nth_error L (z - length T) ;;
        Some (if negb (elem_eqb v null) then succs ++ [q] else succs)
      else
        b <- nth_error T z ;;
        if b : bool then
          let y := rank T (z + 1) * kr * kc + kc * (p / (numRows / kr)) in
          foldM (fun j succs' =>
                   successorsPos fuel' succs' (numRows / kr) (numCols / kc)
                     (p mod (numRows / kr)) (q + (numCols / kc) * j) (y + j))
                (seq 0 kc) succs
        else Some succs
  end.

Definition successorsPosInit (succs : list nat) (p : nat)
  : option (list nat) :=
  if L_empty then Some succs
  else
    let y := kc * (p / (numRows_ t / kr)) in
    foldM (fun j succs' =>
             successorsPos (h_ t) succs' (numRows_ t / kr) (numCols_ t / kc)
               (p mod (numRows_ t / kr)) ((numCols_ t / kc) * j) (y + j))
          (seq 0 kc) succs.

(** [for (j = 0; j < n && pos == numCols_; j++) pos = body(j)] over the
    remaining values [js] of [j]. *)
Fixpoint untilFound (body : nat -> option nat) (js : list nat) (pos : nat)
  : option nat :=
  match js with
  | [] => Some pos
  | j :: js' =>
      if pos =? numCols_ t then
        pos' <- body j ;; untilFound body js' pos'
      else Some pos
  end.

Fixpoint firstSuccessor (fuel numRows numCols p q z : nat) {struct fuel}
  : option nat :=
  match fuel with
  | 0 => None
  | S fuel' =>
      if length T <=? z then
        v <- nth_error L (z - length T) ;;
        Some (if negb (elem_eqb v null) then q else numCols_ t)
      else
        b <- nth_error T z ;;
        if b : bool then
          let y := rank T (z + 1) * kr * kc + kc * (p / (numRows / kr)) in
          untilFound
            (fun j =>
               firstSuccessor fuel' (numRows / kr) (numCols / kc)
                 (p mod (numRows / kr)) (q + (numCols / kc) * j) (y + j))
            (seq 0 kc) (numCols_ t)
        else Some (numCols_ t)
  end.

Definition firstSuccessorInit (p : nat) : option nat :=
  if L_empty then Some (numCols_ t)
  else
    let y := kc * (p / (numRows_ t / kr)) in
    untilFound
      (fun j =>
         firstSuccessor (h_ t) (numRows_ t / kr) (numCols_ t / kc)
           (p mod (numRows_ t / kr)) ((numCols_ t / kc) * j) (y + j))
      (seq 0 kc) (numCols_ t).

(** **** [getPredecessorElements] *)

Fixpoint predecessorsElem (fuel : nat) (preds : list E)
  (numRows numCols q p z : nat) {struct fuel} : option (list E) :=
  match fuel with
  | 0 => None
  | S fuel' =>
      if length T <=? z then
        v <- nth_error L (z - length T) ;;
        Some (if negb (elem_eqb v null) then preds ++ [v] else preds)
      else
        b <- nth_error T z ;;
        if b : bool then
          let y := rank T (z + 1) * kr * kc + q / (numCols / kc) in
          foldM (fun i preds' =>
                   predecessorsElem fuel' preds' (numRows / kr) (numCols / kc)
                     (q mod (numCols / kc)) (p + (numRows / kr) * i)
                     (y + i * kc))
                (seq 0 kr) preds
        else Some preds
  end.

Definition predecessorsElemInit (preds : list E) (q : nat)
  : option (list E) :=
  if L_empty then Some preds
  else
    let y := q / (numCols_ t / kc) in
    foldM (fun i preds' =>
             predecessorsElem (h_ t) preds' (numRows_ t / kr)
               (numCols_ t / kc) (q mod (numCols_ t / kc))
               ((numRows_ t / kr) * i) (y + i * kc))
          (seq 0 kr) preds.

Definition getPredecessorElements (j : nat) : option (list E) :=
  predecessorsElemInit [] j.

(** **** [getElementsInRange] *)

Fixpoint rangeElem (fuel : nat) (elements : list E)
  (numRows numCols p1 p2 q1 q2 dp dq z : nat) {struct fuel}
  : option (list E) :=
  match fuel with
  | 0 => None
  | S fuel' =>
      if length T <=? z then
        v <- nth_error L (z - length T) ;;
        Some (if negb (elem_eqb v null) then elements ++ [v]
              else elements)
      else
        b <- nth_error T z ;;
        if b : bool then
          let y := rank T (z + 1) * kr * kc in
          foldM (fun i pairs1 =>
                   let p1Prime :=
                     Nat.b2n (i =? p1 / (numRows / kr)) * (p1 mod (numRows / kr)) in
                   let p2Prime :=
                     if i =? p2 / (numRows / kr) then p2 mod (numRows / kr)
                     else numRows / kr - 1 in
                   foldM (fun j pairs2 =>
                            rangeElem fuel' pairs2 (numRows / kr) (numCols / kc)
                              p1Prime p2Prime
                              (Nat.b2n (j =? q1 / (numCols / kc))
                               * (q1 mod (numCols / kc)))
                              (if j =? q2 / (numCols / kc)
                               then q2 mod (numCols / kc)
                               else numCols / kc - 1)
                              (dp + (numRows / kr) * i)
                              (dq + (numCols / kc) * j)
                              (y + kc * i + j))
                         (range_incl (q1 / (numCols / kc)) (q2 / (numCols / kc)))
                         pairs1)
                (range_incl (p1 / (numRows / kr)) (p2 / (numRows / kr)))
                elements
        else Some elements
  end.

Definition rangeElemInit (elements : list E) (p1 p2 q1 q2 : nat)
  : option (list E) :=
  if L_empty then Some elements
  else
    let nr := numRows_ t / kr in
    let nc := numCols_ t / kc in
    foldM (fun i pairs1 =>
             let p1Prime := Nat.b2n (i =? p1 / nr) * (p1 mod nr) in
             let p2Prime := if i =? p2 / nr then p2 mod nr else nr - 1 in
             foldM (fun j pairs2 =>
                      rangeElem (h_ t) pairs2 nr nc p1Prime p2Prime
                        (Nat.b2n (j =? q1 / nc) * (q1 mod nc))
                        (if j =? q2 / nc then q2 mod nc else nc - 1)
                        (nr * i) (nc * j) (kc * i + j))
                   (range_incl (q1 / nc) (q2 / nc)) pairs1)
          (range_incl (p1 / nr) (p2 / nr)) elements.

Definition getElementsInRange (i1 i2 j1 j2 : nat) : option (list E) :=
  rangeElemInit [] i1 i2 j1 j2.

(** **** [getValuedPositionsInRange] *)

Definition pairs_type : Type := list (ValuedPosition E).

Fixpoint rangeValPos (fuel : nat) (pairs : pairs_type)
  (numRows numCols p1 p2 q1 q2 dp dq z : nat) {struct fuel}
  : option (pairs_type) :=
  match fuel with
  | 0 => None
  | S fuel' =>
      if length T <=? z then
        v <- nth_error L (z - length T) ;;
        Some (if negb (elem_eqb v null) then pairs ++ [mkValuedPosition dp dq v]
              else pairs)
      else
        b <- nth_error T z ;;
        if b : bool then
          let y := rank T (z + 1) * kr * kc in
          foldM (fun i pairs1 =>
                   let p1Prime :=
                     Nat.b2n (i =? p1 / (numRows / kr)) * (p1 mod (numRows / kr)) in
                   let p2Prime :=
                     if i =? p2 / (numRows / kr) then p2 mod (numRows / kr)
                     else numRows / kr - 1 in
                   foldM (fun j pairs2 =>
                            rangeValPos fuel' pairs2 (numRows / kr) (numCols / kc)
                              p1Prime p2Prime
                              (Nat.b2n (j =? q1 / (numCols / kc))
                               * (q1 mod (numCols / kc)))
                              (if j =? q2 / (numCols / kc)
                               then q2 mod (numCols / kc)
                               else numCols / kc - 1)
                              (dp + (numRows / kr) * i)
                              (dq + (numCols / kc) * j)
                              (y + kc * i + j))
                         (range_incl (q1 / (numCols / kc)) (q2 / (numCols / kc)))
                         pairs1)
                (range_incl (p1 / (numRows / kr)) (p2 / (numRows / kr)))
                pairs
        else Some pairs
  end.

Definition rangeValPosInit (pairs : pairs_type) (p1 p2 q1 q2 : nat)
  : option (pairs_type) :=
  if L_empty then Some pairs
  else
    let nr := numRows_ t / kr in
    let nc := numCols_ t / kc in
    foldM (fun i pairs1 =>
             let p1Prime := Nat.b2n (i =? p1 / nr) * (p1 mod nr) in
             let p2Prime := if i =? p2 / nr then p2 mod nr else nr - 1 in
             foldM (fun j pairs2 =>
                      rangeValPos (h_ t) pairs2 nr nc p1Prime p2Prime
                        (Nat.b2n (j =? q1 / nc) * (q1 mod nc))
                        (if j =? q2 / nc then q2 mod nc else nc - 1)
                        (nr * i) (nc * j) (kc * i + j))
                   (range_incl (q1 / nc) (q2 / nc)) pairs1)
          (range_incl (p1 / nr) (p2 / nr)) pairs.

Definition getValuedPositionsInRange (i1 i2 j1 j2 : nat) : option pairs_type :=
  rangeValPosInit [] i1 i2 j1 j2.

(** **** [getSuccessorElements]

    The queue of [allSuccessorElementsIterative] is filled as that of
    [allSuccessorPositionsIterative]; the loops that read [L_] push the
    value in place of the column. *)

(** [for (j = 0; j < n; j++, newDq += nc, y++)
       if (L_[y] != null_) succs.push_back(L_[y])] *)
Fixpoint scanLeavesElem (n newDq y nc : nat) (succs : list E)
  : option (list E) :=
  match n with
  | 0 => Some succs
  | S n' =>
      v <- nth_error L y ;;
      scanLeavesElem n' (newDq + nc) (y + 1) nc
        (if negb (elem_eqb v null) then succs ++ [v] else succs)
  end.

Fixpoint drainQueueElem (queue : list SubrowInfo) (relP nr nc lenT : nat)
  (succs : list E) : option (list E) :=
  match queue with
  | [] => Some succs
  | cur :: queue' =>
      b <- nth_error T (si_z cur) ;;
      succs' <- (if b : bool then
                   scanLeavesElem kc (si_dq cur)
                     (rank T (si_z cur + 1) * kr * kc + kc * (relP / nr) - lenT)
                     nc succs
                 else Some succs) ;;
      drainQueueElem queue' relP nr nc lenT succs'
  end.

Definition allSuccessorElementsIterative (succs : list E) (p : nat)
  : option (list E) :=
  if L_empty then Some succs
  else
    let lenT := length T in
    if lenT =? 0 then
      let offset := p * numCols_ t in
      scanLeavesElem (numCols_ t) 0 offset 1 succs
    else
      let nr := numRows_ t / kr in
      let nc := numCols_ t / kc in
      let relP := p in
      let queue := pushSubrows kc 0 (kc * (relP / nr)) nc [] in
      let relP := relP mod nr in
      let nr := nr / kr in
      let nc := nc / kc in
      st <- successorLevels (h_ t) queue relP nr nc ;;
      let '(queue, (relP, (nr, nc))) := st in
      drainQueueElem queue relP nr nc lenT succs.

Definition getSuccessorElements (i : nat) : option (list E) :=
  allSuccessorElementsIterative [] i.

Fixpoint successorsElem (fuel : nat) (succs : list E)
  (numRows numCols p q z : nat) {struct fuel} : option (list E) :=
  match fuel with
  | 0 => None
  | S fuel' =>
      if length T <=? z then
        v <- nth_error L (z - length T) ;;
        Some (if negb (elem_eqb v null) then succs ++ [v] else succs)
      else
        b <- nth_error T z ;;
        if b : bool then
          let y := rank T (z + 1) * kr * kc + kc * (p / (numRows / kr)) in
          foldM (fun j succs' =>
                   successorsElem fuel' succs' (numRows / kr) (numCols / kc)
                     (p mod (numRows / kr)) (q + (numCols / kc) * j) (y + j))
                (seq 0 kc) succs
        else Some succs
  end.

Definition successorsElemInit (succs : list E) (p : nat)
  : option (list E) :=
  if L_empty then Some succs
  else
    let y := kc * (p / (numRows_ t / kr)) in
    foldM (fun j succs' =>
             successorsElem (h_ t) succs' (numRows_ t / kr) (numCols_ t / kc)
               (p mod (numRows_ t / kr)) ((numCols_ t / kc) * j) (y + j))
          (seq 0 kc) succs.

(** **** [getSuccessorValuedPositions] *)

(** [for (j = 0; j < n; j++, newDq += nc, y++)
       if (L_[y] != null_)
         succs.push_back(ValuedPosition<elem_type>(p, newDq, L_[y]))] *)
Fixpoint scanLeavesValPos (p : nat) (n newDq y nc : nat) (succs : pairs_type)
  : option (pairs_type) :=
  match n with
  | 0 => Some succs
  | S n' =>
      v <- nth_error L y ;;
      scanLeavesValPos p n' (newDq + nc) (y + 1) nc
        (if negb (elem_eqb v null) then succs ++ [mkValuedPosition p newDq v] else succs)
  end.

Fixpoint drainQueueValPos (p : nat) (queue : list SubrowInfo) (relP nr nc lenT : nat)
  (succs : pairs_type) : option (pairs_type) :=
  match queue with
  | [] => Some succs
  | cur :: queue' =>
      b <- nth_error T (si_z cur) ;;
      succs' <- (if b : bool then
                   scanLeavesValPos p kc (si_dq cur)
                     (rank T (si_z cur + 1) * kr * kc + kc * (relP / nr) - lenT)
                     nc succs
                 else Some succs) ;;
      drainQueueValPos p queue' relP nr nc lenT succs'
  end.

Definition allSuccessorValuedPositionsIterative (succs : pairs_type) (p : nat)
  : option (pairs_type) :=
  if L_empty then Some succs
  else
    let lenT := length T in
    if lenT =? 0 then
      let offset := p * numCols_ t in
      scanLeavesValPos p (numCols_ t) 0 offset 1 succs
    else
      let nr := numRows_ t / kr in
      let nc := numCols_ t / kc in
      let relP := p in
      let queue := pushSubrows kc 0 (kc * (relP / nr)) nc [] in
      let relP := relP mod nr in
      let nr := nr / kr in
      let nc := nc / kc in
      st <- successorLevels (h_ t) queue relP nr nc ;;
      let '(queue, (relP, (nr, nc))) := st in
      drainQueueValPos p queue relP nr nc lenT succs.

Definition getSuccessorValuedPositions (i : nat) : option pairs_type :=
  allSuccessorValuedPositionsIterative [] i.

(** The recursive variant pushes the triples with row [0]; its entry point
    sets the row of every entry of [succs] once the recursion is over:
    [for (auto& s : succs) s.row = p]. *)
Fixpoint successorsValPos (fuel : nat) (succs : pairs_type)
  (numRows numCols p q z : nat) {struct fuel} : option (pairs_type) :=
  match fuel with
  | 0 => None
  | S fuel' =>
      if length T <=? z then
        v <- nth_error L (z - length T) ;;
        Some (if negb (elem_eqb v null) then succs ++ [mkValuedPosition 0 q v] else succs)
      else
        b <- nth_error T z ;;
        if b : bool then
          let y := rank T (z + 1) * kr * kc + kc * (p / (numRows / kr)) in
          foldM (fun j succs' =>
                   successorsValPos fuel' succs' (numRows / kr) (numCols / kc)
                     (p mod (numRows / kr)) (q + (numCols / kc) * j) (y + j))
                (seq 0 kc) succs
        else Some succs
  end.

Definition successorsValPosInit (succs : pairs_type) (p : nat)
  : option (pairs_type) :=
  if L_empty then Some succs
  else
    succs1 <- (
    let y := kc * (p / (numRows_ t / kr)) in
    foldM (fun j succs' =>
             successorsValPos (h_ t) succs' (numRows_ t / kr) (numCols_ t / kc)
               (p mod (numRows_ t / kr)) ((numCols_ t / kc) * j) (y + j))
          (seq 0 kc) succs) ;;
    Some (map (fun s => mkValuedPosition p (vp_col s) (vp_val s)) succs1).

(** **** [getPredecessorValuedPositions] *)

(** The triples are pushed with column [0]; the entry point sets the column
    of every entry of [preds] at the end: [for (auto& p : preds) p.col = q]. *)
Fixpoint predecessorsValPos (fuel : nat) (preds : pairs_type)
  (numRows numCols q p z : nat) {struct fuel} : option pairs_type :=
  match fuel with
  | 0 => None
  | S fuel' =>
      if length T <=? z then
        v <- nth_error L (z - length T) ;;
        Some (if negb (elem_eqb v null)
              then preds ++ [mkValuedPosition p 0 v] else preds)
      else
        b <- nth_error T z ;;
        if b : bool then
          let y := rank T (z + 1) * kr * kc + q / (numCols / kc) in
          foldM (fun i preds' =>
                   predecessorsValPos fuel' preds' (numRows / kr)
                     (numCols / kc) (q mod (numCols / kc))
                     (p + (numRows / kr) * i) (y + i * kc))
                (seq 0 kr) preds
        else Some preds
  end.

Definition predecessorsValPosInit (preds : pairs_type) (q : nat)
  : option pairs_type :=
  if L_empty then Some preds
  else
    preds1 <- (
    let y := q / (numCols_ t / kc) in
    foldM (fun i preds' =>
             predecessorsValPos (h_ t) preds' (numRows_ t / kr)
               (numCols_ t / kc) (q mod (numCols_ t / kc))
               ((numRows_ t / kr) * i) (y + i * kc))
          (seq 0 kr) preds) ;;
    Some (map (fun s => mkValuedPosition (vp_row s) q (vp_val s)) preds1).

Definition getPredecessorValuedPositions (j : nat) : option pairs_type :=
  predecessorsValPosInit [] j.

(** **** [getAllElements] and [getAllValuedPositions] *)

Definition getAllElements : option (list E) :=
  getElementsInRange 0 (numRows_ t - 1) 0 (numCols_ t - 1).

Definition getAllValuedPositions : option pairs_type :=
  getValuedPositionsInRange 0 (numRows_ t - 1) 0 (numCols_ t - 1).

(** **** [getAllPositions] and [countElements] *)

Definition getAllPositions : option positions_type :=
  getPositionsInRange 0 (numRows_ t - 1) 0 (numCols_ t - 1).

(** [for (i = 0; i < L_.size(); i++) cnt += (L_[i] != null_)] *)
Definition countElements : nat :=
  fold_left (fun cnt v => cnt + Nat.b2n (negb (elem_eqb v null))) L 0.

End Navigation.

(** *** Construction from a list of pairs, in place (Mode P) *)

Section InplaceBuilder.

Variables (kr kc : nat).

(** [computeKey].  For a pair in front of the first row or column of the
    subproblem the differences wrap around, and a width of zero divides by
    zero: both are [None] here. *)
Definition computeKey (pair : ValuedPosition E) (sp : Subproblem)
  (widthRow widthCol : nat) : option nat :=
  r <- offset_from (vp_row pair) (sp_firstRow sp) ;;
  c <- offset_from (vp_col pair) (sp_firstCol sp) ;;
  if (widthRow =? 0) || (widthCol =? 0) then None
  else Some ((r / widthRow) * kc + c / widthCol).

(** [for (i = sp.left; i < sp.right; i++)
       counts[computeKey(pairs[i], sp, widthRow, widthCol)]++] *)
Definition countKeys (pairs : list (ValuedPosition E)) (sp : Subproblem)
  (widthRow widthCol : nat) (counts : list nat) : option (list nat) :=
  foldM (fun i counts1 =>
           pair <- nth_error pairs i ;;
           key <- computeKey pair sp widthRow widthCol ;;
           c <- nth_error counts1 key ;;
           write_at counts1 key (c + 1))
        (seq (sp_left sp) (sp_right sp - sp_left sp)) counts.

(** [for (key = 0; key < sup; key++)
       { tmp = counts[key]; counts[key] = total; total += tmp;
         intervals[key].first = counts[key]; intervals[key].second = total; }]
    on the state [(counts, intervals, total)]. *)
Definition startIndices (sup : nat) (counts : list nat)
  (intervals : list (nat * nat)) : option (list nat * list (nat * nat) * nat) :=
  foldM (fun key st =>
           let '(counts1, intervals1, total) := st in
           tmp <- nth_error counts1 key ;;
           counts2 <- write_at counts1 key total ;;
           intervals2 <- write_at intervals1 key (total, total + tmp) ;;
           Some (counts2, intervals2, total + tmp))
        (seq 0 sup) (counts, intervals, 0).

(** [for (i = sp.left; i < sp.right; i++)
       { tmpPairs[counts[key(i)]] = pairs[i]; counts[key(i)]++; }]
    An entry of [tmpPairs] is [None] until it is assigned: the source
    builds it with the default constructor of [ValuedPosition]. *)
Definition reorder (pairs : list (ValuedPosition E)) (sp : Subproblem)
  (widthRow widthCol : nat) (counts : list nat)
  (tmpPairs : list (option (ValuedPosition E)))
  : option (list nat * list (option (ValuedPosition E))) :=
  foldM (fun i st =>
           let '(counts1, tmpPairs1) := st in
           pair <- nth_error pairs i ;;
           key <- computeKey pair sp widthRow widthCol ;;
           c <- nth_error counts1 key ;;
           tmpPairs2 <- write_at tmpPairs1 c (Some pair) ;;
           counts2 <- write_at counts1 key (c + 1) ;;
           Some (counts2, tmpPairs2))
        (seq (sp_left sp) (sp_right sp - sp_left sp)) (counts, tmpPairs).

(** [for (i = sp.left; i < sp.right; i++) pairs[i] = tmpPairs[i - sp.left]];
    reading an entry that was never assigned is [None]. *)
Definition copyBack (pairs : list (ValuedPosition E)) (sp : Subproblem)
  (tmpPairs : list (option (ValuedPosition E)))
  : option (list (ValuedPosition E)) :=
  foldM (fun i pairs1 =>
           o <- nth_error tmpPairs (i - sp_left sp) ;;
           pair <- o ;;
           write_at pairs1 i pair)
        (seq (sp_left sp) (sp_right sp - sp_left sp)) pairs.

(** [countingSort]: the pairs and the intervals after the call. *)
Definition countingSort (pairs : list (ValuedPosition E))
  (intervals : list (nat * nat)) (sp : Subproblem)
  (widthRow widthCol sup : nat)
  : option (list (ValuedPosition E) * list (nat * nat)) :=
  counts <- countKeys pairs sp widthRow widthCol (repeat 0 sup) ;;
  st <- startIndices sup counts intervals ;;
  let '(counts1, intervals1, _) := st in
  ct <- reorder pairs sp widthRow widthCol counts1
          (repeat None (sp_right sp - sp_left sp + 1)) ;;
  pairs1 <- copyBack pairs sp (snd ct) ;;
  Some (pairs1, intervals1).

(** The state of the loop of [buildFromListsInplace]: the queue, the
    locals [T] and [intervals], the member [L_] and the vector [pairs]. *)
Record inplace_state : Type := mkInplaceState {
  ip_queue : list Subproblem;
  ip_T : list bool;
  ip_L : list E;
  ip_pairs : list (ValuedPosition E);
  ip_intervals : list (nat * nat)
}.

(** [for (i = 0; i < kr_ * kc_; i++)
       if (intervals[i].first < intervals[i].second)
         { T.push_back(true); queue.push(Subproblem(...)); }
       else T.push_back(false);] *)
Definition pushSubproblems (sp : Subproblem) (Sr Sc : nat)
  (intervals : list (nat * nat)) (queue : list Subproblem) (T : list bool)
  : option (list Subproblem * list bool) :=
  foldM (fun i st =>
           let '(queue1, T1) := st in
           iv <- nth_error intervals i ;;
           if fst iv <? snd iv then
             Some (queue1 ++
                   [mkSubproblem
                      (sp_firstRow sp + (i / kc) * (Sr / kr))
                      (sp_firstRow sp + (i / kc + 1) * (Sr / kr) - 1)
                      (sp_firstCol sp + (i mod kc) * (Sc / kc))
                      (sp_firstCol sp + (i mod kc + 1) * (Sc / kc) - 1)
                      (sp_left sp + fst iv) (sp_left sp + snd iv)],
                   T1 ++ [true])
           else Some (queue1, T1 ++ [false]))
        (seq 0 (kr * kc)) (queue, T).

(** [appToL = std::vector<elem_type>(kr_ * kc_)] and
    [for (i = sp.left; i < sp.right; i++)
       appToL[(pairs[i].row - sp.firstRow) * kc_
              + (pairs[i].col - sp.firstCol)] = pairs[i].val] *)
Definition fillLeaves (pairs : list (ValuedPosition E)) (sp : Subproblem)
  : option (list E) :=
  foldM (fun i appToL =>
           pair <- nth_error pairs i ;;
           r <- offset_from (vp_row pair) (sp_firstRow sp) ;;
           c <- offset_from (vp_col pair) (sp_firstCol sp) ;;
           write_at appToL (r * kc + c) (vp_val pair))
        (seq (sp_left sp) (sp_right sp - sp_left sp))
        (repeat elem_default (kr * kc)).

(** One iteration of [while (!queue.empty())] for [sp = queue.front()],
    with [queue] the queue after [queue.pop()]. *)
Definition inplaceStep (sp : Subproblem) (queue : list Subproblem)
  (st : inplace_state) : option inplace_state :=
  let Sr := sp_lastRow sp - sp_firstRow sp + 1 in
  let Sc := sp_lastCol sp - sp_firstCol sp + 1 in
  if kr <? Sr then
    ps <- countingSort (ip_pairs st) (ip_intervals st) sp
            (Sr / kr) (Sc / kc) (kr * kc) ;;
    qt <- pushSubproblems sp Sr Sc (snd ps) queue (ip_T st) ;;
    Some (mkInplaceState (fst qt) (snd qt) (ip_L st) (fst ps) (snd ps))
  else
    appToL <- fillLeaves (ip_pairs st) sp ;;
    Some (mkInplaceState queue (ip_T st) (ip_L st ++ appToL) (ip_pairs st)
                         (ip_intervals st)).

Fixpoint inplaceLoop (fuel : nat) (st : inplace_state) {struct fuel}
  : option inplace_state :=
  match fuel with
  | 0 => None
  | S fuel' =>
      match ip_queue st with
      | [] => Some st
      | sp :: queue =>
          st' <- inplaceStep sp queue st ;;
          inplaceLoop fuel' st'
      end
  end.

(** A tree of height [h] has at most [1 + K + ... + K ^ (h - 1)] blocks
    above the cells, for [K = kr * kc]; each of them is a subproblem at most
    once. *)
Fixpoint queueFuel (d : nat) : nat :=
  match d with
  | 0 => 1
  | S d' => 1 + kr * kc * queueFuel d'
  end.

(** [buildFromListsInplace(pairs)]: [T_], [L_] and [pairs] after the call. *)
Definition buildFromListsInplace (h numRows numCols : nat)
  (pairs : list (ValuedPosition E))
  : option (list bool * list E * list (ValuedPosition E)) :=
  st <- inplaceLoop (queueFuel (h - 1) + 1)
          (mkInplaceState
             [mkSubproblem 0 (numRows - 1) 0 (numCols - 1) 0 (length pairs)]
             [] [] pairs (repeat (0, 0) (kr * kc))) ;;
  Some (ip_T st, ip_L st, ip_pairs st).

End InplaceBuilder.

(** [maxRow] and [maxCol] as the constructor computes them. *)
Definition pairs_maxRow (pairs : list (ValuedPosition E)) : nat :=
  fold_left (fun m p => Nat.max m (vp_row p)) pairs 0.

Definition pairs_maxCol (pairs : list (ValuedPosition E)) : nat :=
  fold_left (fun m p => Nat.max m (vp_col p)) pairs 0.

(** [KrKcTree(pairs_type& pairs, kr, kc, null)]: the structure, and [pairs]
    as the constructor leaves them. *)
Definition KrKcTree_of_pairs (pairs : list (ValuedPosition E)) (kr kc : nat)
  (null : E) : option (KrKcTree * list (ValuedPosition E)) :=
  let h := derived_height (pairs_maxRow pairs + 1) (pairs_maxCol pairs + 1)
                          kr kc in
  numRows <- pow_size_type kr h ;;
  numCols <- pow_size_type kc h ;;
  if length pairs =? 0 then
    Some (mkKrKcTree [] [] h kr kc numRows numCols null, pairs)
  else
    r <- buildFromListsInplace kr kc h numRows numCols pairs ;;
    let '(T, L, pairs') := r in
    Some (mkKrKcTree T L h kr kc numRows numCols null, pairs').

End KrKcTree.

Arguments KrKcTree E : clear implicits.
Arguments matrix_type E : clear implicits.

(** ** The specialisation [KrKcTree<bool>]

    Its members [T_] and [L_] are both bit vectors and [null_] is [false];
    its matrix builder writes the leaf level to the last of its per-level
    buffers, from which the constructor fills [L_]. *)

Module KrKcTree_bool.

Section Builder.

Variables (kr kc h : nat).

(** The loops of the leaf case, filling [C]. *)
Definition leaf_group (mat : matrix_type bool) (p q : nat)
  : option (list bool) :=
  mapM (fun ij => mat_read mat false (p + fst ij) (q + snd ij))
       (child_slots kr kc).

Fixpoint buildFromMatrix (fuel : nat) (mat : matrix_type bool)
  (levels : list (list bool)) (numRows numCols l p q : nat) {struct fuel}
  : option (bool * list (list bool)) :=
  match fuel with
  | 0 => None
  | S fuel' =>
      match
        (if l =? h then C <- leaf_group mat p q ;; Some (C, levels)
         else
           collect
             (fun ij lv =>
                buildFromMatrix fuel' mat lv (numRows / kr) (numCols / kc)
                  (l + 1) (p + fst ij * (numRows / kr))
                  (q + snd ij * (numCols / kc)))
             (child_slots kr kc) levels)
      with
      | None => None
      | Some (C, levels') =>
          if isAllZero C then Some (false, levels')
          else
            i <- offset_from l 1 ;;
            lvls <- append_level levels' i C ;;
            Some (true, lvls)
      end
  end.

End Builder.

(** [KrKcTree(const matrix_type& mat, kr, kc)], which "assumes that all
    rows of mat are equally long" and evaluates [mat[0].size()] first. *)
Definition KrKcTree_of_matrix (mat : matrix_type bool) (kr kc : nat)
  : option (KrKcTree bool) :=
  row0 <- nth_error mat 0 ;;
  let h := derived_height (length mat) (length row0) kr kc in
  numRows <- pow_size_type kr h ;;
  numCols <- pow_size_type kc h ;;
  match buildFromMatrix kr kc h h mat (repeat [] h) numRows numCols 1 0 0 with
  | None => None
  | Some (_, levels) =>
      Some (mkKrKcTree (concat (firstn (h - 1) levels)) (nth (h - 1) levels [])
                       h kr kc numRows numCols false)
  end.

End KrKcTree_bool.

(** ** The level structure of the encoding *)

Section Levels.

Context {E : Type} `{ElemType E}.

Variable t : KrKcTree E.

(** Every node contributes one group of [kr_ * kc_] entries. *)
Definition groupSize : nat := kr_ t * kc_ t.

(** [level k] is the position in [T_ ++ L_] at which the groups of tree
    level [k + 1] start, together with the number of these groups: the
    first level is the root group, and a level has one group per set bit
    of the level above. *)
Fixpoint level (k : nat) : nat * nat :=
  match k with
  | 0 => (0, 1)
  | S k' =>
      (fst (level k') + groupSize * snd (level k'),
       ones (firstn (groupSize * snd (level k')) (skipn (fst (level k')) (T_ t))))
  end.

(** The class invariant every constructor is meant to establish: the
    parameters are consistent, and either the relation is empty or [T_]
    consists of the [h_ - 1] internal levels and [L_] of the leaf level. *)
Definition well_formed : Prop :=
  2 <= kr_ t /\ 2 <= kc_ t /\ 1 <= h_ t /\
  numRows_ t = kr_ t ^ h_ t /\ numCols_ t = kc_ t ^ h_ t /\
  (L_ t = [] \/
   (fst (level (h_ t - 1)) = length (T_ t) /\
    length (L_ t) = groupSize * snd (level (h_ t - 1)))).

(** Every group of [K] consecutive entries holds an entry that satisfies
    [f]. *)
Definition groups_nonzero {A : Type} (f : A -> bool) (K : nat) (l : list A)
  : bool :=
  forallb (fun g => existsb f (firstn K (skipn (K * g) l)))
          (seq 0 (length l / K)).

(** What the builders establish on top of [well_formed], and [setNull] may
    break: no group is kept for a subtree without a value, so that no
    group of [T_] is all zero and no group of [L_] is all [null_]. *)
Definition pruned : Prop :=
  groups_nonzero (fun b : bool => b) groupSize (T_ t) = true /\
  groups_nonzero (fun v => negb (elem_eqb v (null_ t))) groupSize (L_ t) = true.

(** The implicit conversion of an element to [bool] agrees with the
    comparison against [null_]; this is so for [bool] and for the numeric
    element types when [null_] is zero. *)
Definition truthy_not_null : Prop :=
  forall v, elem_to_bool v = negb (elem_eqb v (null_ t)).

(** [y] is the start of a group of level [k + 1]. *)
Definition Grp (k y : nat) : Prop :=
  exists i, i < snd (level k) /\ y = fst (level k) + groupSize * i.

(** The view of the encoding the navigation relies on: [Node d y] holds when
    the group starting at [y] heads a subtree with [d] levels below it. The
    entries of a group with [d = 0] are in [L_]; those of a group with
    [d > 0] are bits of [T_], and each set bit leads, through [rank], to the
    group of a subtree with one level less.  Groups are aligned: [g] is the
    number of the group within [L_], respectively within [T_]. *)
Inductive Node : nat -> nat -> Prop :=
| Node_leaf : forall y g,
    y = length (T_ t) + groupSize * g ->
    y + groupSize <= length (T_ t) + length (L_ t) ->
    Node 0 y
| Node_inner : forall d y g,
    y = groupSize * g ->
    y + groupSize <= length (T_ t) ->
    (forall s, s < groupSize ->
       nth_error (T_ t) (y + s) = Some true ->
       Node d (rank (T_ t) (y + s + 1) * kr_ t * kc_ t)) ->
    Node (S d) y.

(** The slot of the child that holds cell [(p, q)] of a block whose
    children have [numRows] rows and [numCols] columns. *)
Definition slot (numRows numCols p q : nat) : nat :=
  (p / numRows) * kc_ t + q / numCols.

(** The index in [L_] that the descent for a cell ends at, [None] when it
    ends at a bit that is not set: the descent shared by [check], [get] and
    [set]. *)
Fixpoint leaf_index (fuel numRows numCols p q z : nat) {struct fuel}
  : option (option nat) :=
  match fuel with
  | 0 => None
  | S fuel' =>
      if length (T_ t) <=? z then Some (Some (z - length (T_ t)))
      else
        b <- nth_error (T_ t) z ;;
        if b : bool then
          leaf_index fuel' (numRows / kr_ t) (numCols / kc_ t)
            (p mod (numRows / kr_ t)) (q mod (numCols / kc_ t))
            (rank (T_ t) (z + 1) * kr_ t * kc_ t
             + (p / (numRows / kr_ t)) * kc_ t + q / (numCols / kc_ t))
        else Some None
  end.

(** The descent for cell [(p, q)] of the block of the group at [y], which
    has [d] levels below it. *)
Definition leafG (d y p q : nat) : option (option nat) :=
  leaf_index (S d) (kr_ t ^ d) (kc_ t ^ d)
    (p mod kr_ t ^ d) (q mod kc_ t ^ d)
    (y + (p / kr_ t ^ d) * kc_ t + q / kc_ t ^ d).

(** The value [getElement] yields for cell [(p, q)] of that block. *)
Definition getG (d y p q : nat) : option E :=
  get t (S d) (kr_ t ^ d) (kc_ t ^ d)
    (p mod kr_ t ^ d) (q mod kc_ t ^ d)
    (y + (p / kr_ t ^ d) * kc_ t + q / kc_ t ^ d).

(** The value [get] yields from the entry at [z], whose block has [d]
    levels below it, for cell [(p, q)] of that block. *)
Definition getU (d z p q : nat) : option E :=
  get t (S d) (kr_ t ^ d) (kc_ t ^ d) p q z.

(** [z] is an entry of a group whose blocks have [d] levels below them: a
    leaf for [d = 0], and otherwise a bit that, when set, leads to the
    group of the block. *)
Definition Entry (d z : nat) : Prop :=
  match d with
  | 0 => length (T_ t) <= z < length (T_ t) + length (L_ t)
  | S d' =>
      z < length (T_ t) /\
      (nth_error (T_ t) z = Some true ->
       Node d' (rank (T_ t) (z + 1) * kr_ t * kc_ t))
  end.

(** [v != null_] for the outcome of a read. *)
Definition not_null (o : option E) : bool :=
  match o with
  | Some v => negb (elem_eqb v (null_ t))
  | None => false
  end.

(** The columns of row [p], and the rows of column [q], at which the block
    of an entry holds a value other than [null_]; the same for the block of
    a group. *)
Definition rowCols (d z p : nat) : list nat :=
  filter (fun q => not_null (getU d z p q)) (seq 0 (kc_ t ^ d)).

Definition colRows (d z q : nat) : list nat :=
  filter (fun p => not_null (getU d z p q)) (seq 0 (kr_ t ^ d)).

Definition rowG (d y p : nat) : list nat :=
  filter (fun q => not_null (getG d y p q)) (seq 0 (kc_ t ^ S d)).

Definition colG (d y q : nat) : list nat :=
  filter (fun p => not_null (getG d y p q)) (seq 0 (kr_ t ^ S d)).

(** The columns an entry of the queue of [allSuccessorPositionsIterative]
    stands for, and those a whole queue stands for. *)
Definition subrowCols (d p : nat) (e : SubrowInfo) : list nat :=
  map (fun q => si_dq e + q) (rowCols d (si_z e) p).

Definition queueCols (d p : nat) (queue : list SubrowInfo) : list nat :=
  flat_map (subrowCols d p) queue.

(** A frame of the stack of [firstSuccessorPositionIterative] walks along
    the [kc_] entries of one row of blocks of a group; [d] is the number of
    levels below these entries. *)
Definition FrameOK (d : nat) (fr : ExtendedSubrowInfo) : Prop :=
  es_nr fr = kr_ t ^ d /\ es_nc fr = kc_ t ^ d /\ es_p fr < kr_ t ^ d /\
  es_j fr <= kc_ t /\
  forall s, s < kc_ t - es_j fr -> Entry d (es_z fr + s).

(** The columns the entries a frame has not visited yet stand for. *)
Definition frameCols (d : nat) (fr : ExtendedSubrowInfo) : list nat :=
  flat_map (fun s => map (fun q => es_dq fr + s * kc_ t ^ d + q)
                         (rowCols d (es_z fr + s) (es_p fr)))
           (seq 0 (kc_ t - es_j fr)).

(** The iterations one entry with [d] levels below it accounts for, and
    those a stack accounts for. *)
Definition slotCost (d : nat) : nat :=
  match d with
  | 0 => 1
  | S d' => stackFuel t d' + 1
  end.

Definition stackWeight (gs : list (nat * ExtendedSubrowInfo)) : nat :=
  list_sum (map (fun f => (kc_ t - es_j (snd f)) * slotCost (fst f) + 1) gs).

(** The position in [L_] at which the entry points [getInit], [checkInit]
    and [setInit] end for cell [(p, q)]; [Some None] when [L_] is empty or
    the descent ends at a bit that is not set. *)
Definition cell_leaf (p q : nat) : option (option nat) :=
  if L_empty t then Some None
  else leaf_index (h_ t) (numRows_ t / kr_ t) (numCols_ t / kc_ t)
         (p mod (numRows_ t / kr_ t)) (q mod (numCols_ t / kc_ t))
         ((p / (numRows_ t / kr_ t)) * kc_ t + q / (numCols_ t / kc_ t)).

(** The structure with [L_] replaced. *)
Definition with_L (L' : list E) : KrKcTree E :=
  mkKrKcTree (T_ t) L' (h_ t) (kr_ t) (kc_ t) (numRows_ t) (numCols_ t)
             (null_ t).

(** The value a read yields, [null_] for a read that fails. *)
Definition value_of (o : option E) : E :=
  match o with
  | Some v => v
  | None => null_ t
  end.

(** What a call of [rangePos] on an entry appends. *)
Definition RangeOut (run : positions_type -> option positions_type)
  (dp dq p1 p2 q1 q2 : nat) (cell : nat -> nat -> option E) : Prop :=
  forall pairs,
  exists out,
    run pairs = Some (pairs ++ out) /\
    forall ab, In ab out <->
      exists p q, ab = (dp + p, dq + q) /\ p1 <= p <= p2 /\ q1 <= q <= q2 /\
                  not_null (cell p q) = true.

(** A call of [rangePos] appends positions of the block of [m] rows and
    [n] columns at [(dp, dq)], and none of them twice. *)
Definition RangeOnce (run : positions_type -> option positions_type)
  (dp dq m n : nat) : Prop :=
  forall pairs,
  exists out,
    run pairs = Some (pairs ++ out) /\ NoDup out /\
    forall ab, In ab out ->
               dp <= fst ab < dp + m /\ dq <= snd ab < dq + n.

(** What a call of [elemInRange] returns. *)
Definition ContainsOut (run : option bool) (p1 p2 q1 q2 : nat)
  (cell : nat -> nat -> option E) : Prop :=
  exists b,
    run = Some b /\
    (b = true <->
     exists p q, p1 <= p <= p2 /\ q1 <= q <= q2 /\
                 not_null (cell p q) = true).

End Levels.

(** ** What the matrix builder computes

    The conceptual tree of a matrix: a block is given by its origin and
    covers [kr ^ d] rows and [kc ^ d] columns; it is kept when it holds a
    value other than [null], and a level of the encoding lists the groups
    of the kept blocks of one size from left to right. *)

Section BuilderSpec.

Context {E : Type} `{ElemType E}.

Variables (mat : matrix_type E) (kr kc : nat) (null : E).

(** The children, of size [kr ^ d] times [kc ^ d], of a block. *)
Definition kids (d : nat) (pq : nat * nat) : list (nat * nat) :=
  map (fun ij => (fst pq + fst ij * kr ^ d, snd pq + snd ij * kc ^ d))
      (child_slots kr kc).

(** The block of size [kr ^ d] times [kc ^ d] at [pq] holds a value. *)
Fixpoint nonempty (d : nat) (pq : nat * nat) : bool :=
  match d with
  | 0 => negb (elem_eqb (mat_at mat null (fst pq) (snd pq)) null)
  | S d' => existsb (nonempty d') (kids d' pq)
  end.

(** For a list [F] of blocks whose children have size [kr ^ d]: the bits
    of their groups, and their kept children. *)
Definition groupBits (d : nat) (F : list (nat * nat)) : list bool :=
  map (nonempty d) (flat_map (kids d) F).

Definition nextForest (d : nat) (F : list (nat * nat)) : list (nat * nat) :=
  filter (nonempty d) (flat_map (kids d) F).

(** The [d] internal levels and the leaf level below the blocks [F] of
    size [kr ^ S d]. *)
Fixpoint levelsOf (d : nat) (F : list (nat * nat)) : list (list bool) :=
  match d with
  | 0 => []
  | S d' => groupBits d F :: levelsOf d' (nextForest d F)
  end.

Fixpoint leavesOf (d : nat) (F : list (nat * nat)) : list E :=
  match d with
  | 0 => map (fun pq => mat_at mat null (fst pq) (snd pq)) (flat_map (kids 0) F)
  | S d' => leavesOf d' (nextForest d F)
  end.

(** Appending [new] level by level to the buffers from index [skip] on. *)
Fixpoint add_levels (lvls : list (list bool)) (skip : nat)
  (new : list (list bool)) : list (list bool) :=
  match lvls with
  | [] => []
  | lv :: rest =>
      match skip with
      | S skip' => lv :: add_levels rest skip' new
      | 0 =>
          match new with
          | [] => lv :: rest
          | x :: new' => (lv ++ x) :: add_levels rest 0 new'
          end
      end
  end.

Definition add_state (st : build_state) (skip d : nat) (F : list (nat * nat))
  : build_state :=
  mkBuildState (add_levels (levels st) skip (levelsOf d F))
               (bs_L st ++ leavesOf d F).

Fixpoint zip_app (a b : list (list bool)) : list (list bool) :=
  match a, b with
  | x :: a', y :: b' => (x ++ y) :: zip_app a' b'
  | _, _ => []
  end.

(** The kept blocks of level [k + 1] of a tree of height [h], from the root
    block on. *)
Fixpoint forestAt (h k : nat) : list (nat * nat) :=
  match k with
  | 0 => [(0, 0)]
  | S k' => nextForest (h - 1 - k') (forestAt h k')
  end.

(** The structure the matrix constructor is shown to build for height
    [h]. *)
Definition rootForest (h : nat) : list (nat * nat) :=
  if nonempty h (0, 0) then [(0, 0)] else [].

Definition matrixTree (h : nat) : KrKcTree E :=
  mkKrKcTree (concat (levelsOf (h - 1) (rootForest h)))
             (leavesOf (h - 1) (rootForest h))
             h kr kc (kr ^ h) (kc ^ h) null.

(** The group at [y] is the group of the kept block [n], which has [d]
    levels below it, in the structure of height [h]. *)
Definition NodeAt (h d y : nat) (n : nat * nat) : Prop :=
  d <= h - 1 /\
  exists i, nth_error (forestAt h (h - 1 - d)) i = Some n /\
            y = fst (level (matrixTree h) (h - 1 - d)) + (kr * kc) * i.

End BuilderSpec.

(** A list that consists of groups of [K] entries, each with an entry that
    satisfies [f]. *)
Inductive Chunked {A : Type} (f : A -> bool) (K : nat) : list A -> Prop :=
| Chunked_nil : Chunked f K []
| Chunked_cons : forall c l,
    length c = K -> existsb f c = true -> Chunked f K l -> Chunked f K (c ++ l).

(** ** What the cursors of Mode L0 stand for *)

(** The number of entries of a row of relation lists in front of column
    [c]. *)
Definition entries_before {E : Type} (c : nat) (row : list (nat * E)) : nat :=
  length (filter (fun e => fst e <? c) row).

(** Every cursor points behind the entries in front of the column [B r] its
    row has been read up to. *)
Definition CursorsAt {E : Type} (lists : list (list (nat * E)))
  (B : nat -> nat) (cursors : list nat) : Prop :=
  length cursors = length lists /\
  forall r, r < length lists ->
            nth_error cursors r = Some (entries_before (B r) (nth r lists [])).

(** The rows [a .. a + len - 1] read up to column [c]. *)
Definition bump (B : nat -> nat) (a len c : nat) : nat -> nat :=
  fun r => if (a <=? r) && (r <? a + len) then c else B r.

(** ** What Mode P sorts and stores *)

(** The entries [a .. b - 1] of a vector. *)
Definition slice {A : Type} (l : list A) (a b : nat) : list A :=
  firstn (b - a) (skipn a l).

(** The pair lies in the block of [m] rows and [n] columns at [(p, q)]. *)
Definition in_block {E : Type} (p q m n : nat) (s : ValuedPosition E) : bool :=
  (p <=? vp_row s) && (vp_row s <? p + m) &&
  (q <=? vp_col s) && (vp_col s <? q + n).

(** The value a list of pairs gives to a cell: that of its last pair for
    the cell, and [def] when it has none. *)
Definition pair_value {E : Type} (def : E) (pairs : list (ValuedPosition E))
  (i j : nat) : E :=
  match find (fun s => (vp_row s =? i) && (vp_col s =? j)) (rev pairs) with
  | Some s => vp_val s
  | None => def
  end.

(** A list of pairs as a dense matrix. *)
Definition matrix_of_pairs {E : Type} (pairs : list (ValuedPosition E))
  (def : E) (rows cols : nat) : matrix_type E :=
  map (fun i => map (pair_value def pairs i) (seq 0 cols)) (seq 0 rows).

(** The blocks of the subproblems of a queue. *)
Definition blocks (queue : list Subproblem) : list (nat * nat) :=
  map (fun sp => (sp_firstRow sp, sp_firstCol sp)) queue.

(** The subproblem stands for a block with [e] levels below it, and its
    range of [pairs] holds the pairs of [orig] in the block, in the order
    of [orig]. *)
Definition GoodSubproblem {E : Type} (kr kc : nat)
  (orig : list (ValuedPosition E)) (e : nat)
  (pairs : list (ValuedPosition E)) (sp : Subproblem) : Prop :=
  sp_lastRow sp = sp_firstRow sp + kr ^ S e - 1 /\
  sp_lastCol sp = sp_firstCol sp + kc ^ S e - 1 /\
  sp_left sp <= sp_right sp <= length pairs /\
  slice pairs (sp_left sp) (sp_right sp)
  = filter (in_block (sp_firstRow sp) (sp_firstCol sp) (kr ^ S e) (kc ^ S e))
           orig.

(** The iterations of the loop of [buildFromListsInplace] for the blocks
    [F], which have [e] levels below them, and the blocks below them. *)
Fixpoint stepsOf {E : Type} `{ElemType E} (mat : matrix_type E)
  (kr kc : nat) (null : E) (e : nat) (F : list (nat * nat)) : nat :=
  match e with
  | 0 => length F
  | S d => length F + stepsOf mat kr kc null d (nextForest mat kr kc null e F)
  end.

(** ** Runs that stay related *)

(** Two runs fail together, or end in related states. *)
Definition osim {S S' : Type} (R : S -> S' -> Prop)
  (o : option S) (o' : option S') : Prop :=
  match o, o' with
  | Some s, Some s' => R s s'
  | None, None => True
  | _, _ => False
  end.

(** The structure that keeps the values that pass [f] and holds [null_] in
    place of the others. *)
Definition restrict {E : Type} `{ElemType E} (t : KrKcTree E) (f : E -> bool)
  : KrKcTree E :=
  with_L t (map (fun v => if f v then v else null_ t) (L_ t)).

(** The position of a triple. *)
Definition vp_pos {E : Type} (s : ValuedPosition E) : nat * nat :=
  (vp_row s, vp_col s).

(** A client's loop [for ((i, j) : cells) setNull(i, j)]. *)
Definition setNull_all {E : Type} `{ElemType E} (t : KrKcTree E)
  (cells : list (nat * nat)) : option (KrKcTree E) :=
  foldM (fun ij t' => setNull t' (fst ij) (snd ij)) cells t.

(** ** A running example

    Scenario A of the specification: [kr = kc = 2], [null = 0] and a 4x4
    matrix with values at [(0,0)], [(1,3)] and [(3,2)]. *)

Definition exampleMatrix : matrix_type Z :=
  [[1; 0; 0; 0]; [0; 0; 0; 1]; [0; 0; 0; 0]; [0; 0; 1; 0]]%Z.

Definition exampleTree : KrKcTree Z :=
  mkKrKcTree [true; true; false; true]
             [1; 0; 0; 0;  0; 0; 0; 1;  0; 0; 1; 0]%Z
             2 2 2 4 4 0%Z.

(** The example after [setNull] on each of its three values. *)
Definition clearedTree : KrKcTree Z :=
  mkKrKcTree [true; true; false; true]
             [0; 0; 0; 0;  0; 0; 0; 0;  0; 0; 0; 0]%Z
             2 2 2 4 4 0%Z.

(** The same relation with three different values, as a matrix and as
    relation lists. *)
Definition valuedMatrix : matrix_type Z :=
  [[5; 0; 0; 0]; [0; 0; 0; 7]; [0; 0; 0; 0]; [0; 0; 9; 0]]%Z.

Definition valuedLists : list (list (nat * Z)) :=
  [[(0, 5%Z)]; [(3, 7%Z)]; []; [(2, 9%Z)]].

(** The rows of a matrix as relation lists: the cells other than [null],
    by ascending column. *)
Definition lists_of_matrix {E : Type} `{ElemType E} (mat : matrix_type E)
  (null : E) : list (list (nat * E)) :=
  map (fun row =>
         filter (fun e => negb (elem_eqb (snd e) null))
                (combine (seq 0 (length row)) row))
      mat.

(** The value relation lists give to column [c] of a row: the value of the
    entry of the row for [c], and [null] when the row has none. *)
Definition list_value {E : Type} (null : E) (row : list (nat * E)) (c : nat)
  : E :=
  match find (fun e => fst e =? c) row with
  | Some e => snd e
  | None => null
  end.

(** Relation lists as a dense matrix of [cols] columns. *)
Definition matrix_of_lists {E : Type} (lists : list (list (nat * E)))
  (null : E) (cols : nat) : matrix_type E :=
  map (fun row => map (list_value null row) (seq 0 cols)) lists.

(** The part of a matrix from row [x] and column [y] on. *)
Definition window {E : Type} (mat : matrix_type E) (x y : nat)
  : matrix_type E :=
  map (skipn y) (skipn x mat).

(** The buffers of the [bool] builder are those of the generic builder at
    [E = bool], with [L_] as the last level. *)
Definition buffers_of (o : option (bool * build_state (E := bool)))
  : option (bool * list (list bool)) :=
  match o with
  | Some (b, st) => Some (b, levels st ++ [bs_L st])
  | None => None
  end.

(** A 4x4 bit matrix whose only set bit is at [(0,0)]. *)
Definition cornerMatrix : matrix_type bool :=
  [[true; false; false; false]; [false; false; false; false];
   [false; false; false; false]; [false; false; false; false]].

(** * Properties *)

(** ** Bit counting *)

Lemma ones_app (a b : list bool) : ones (a ++ b) = ones a + ones b.
Proof. unfold ones. now rewrite filter_app, length_app. Qed.

Lemma ones_le_length (a : list bool) : ones a <= length a.
Proof. unfold ones. apply filter_length_le. Qed.

Lemma firstn_add {A : Type} (a b : nat) (l : list A) :
  firstn (a + b) l = firstn a l ++ firstn b (skipn a l).
Proof.
  revert l. induction a as [|a IH]; intros l; simpl; [reflexivity|].
  destruct l as [|x l]; simpl.
  - now rewrite firstn_nil.
  - now rewrite IH.
Qed.

Lemma rank_add (T : list bool) (a b : nat) :
  rank T (a + b) = rank T a + ones (firstn b (skipn a T)).
Proof. unfold rank. now rewrite firstn_add, ones_app. Qed.

Lemma ones_firstn_S (l : list bool) (n : nat) (b : bool) :
  nth_error l n = Some b ->
  ones (firstn (S n) l) = ones (firstn n l) + Nat.b2n b.
Proof.
  revert l. induction n as [|n IH]; intros [|x l] Hn; simpl in Hn; try discriminate.
  - injection Hn as ->. unfold ones. destruct b; reflexivity.
  - specialize (IH l Hn). unfold ones in *.
    change (firstn (S (S n)) (x :: l)) with (x :: firstn (S n) l).
    change (firstn (S n) (x :: l)) with (x :: firstn n l).
    cbn [filter]. destruct x; cbn [length]; lia.
Qed.

Lemma ones_firstn_mono (l : list bool) (n m : nat) :
  n <= m -> ones (firstn n l) <= ones (firstn m l).
Proof.
  intros Hle. replace m with (n + (m - n)) by lia.
  rewrite firstn_add, ones_app. lia.
Qed.

Lemma ones_firstn_lt (l : list bool) (n m : nat) :
  n < m -> nth_error l n = Some true ->
  ones (firstn n l) < ones (firstn m l).
Proof.
  intros Hlt Hn.
  pose proof (ones_firstn_S l n true Hn) as HS. cbn [Nat.b2n] in HS.
  pose proof (ones_firstn_mono l (S n) m ltac:(lia)). lia.
Qed.

Lemma rank_S (T : list bool) (z : nat) (b : bool) :
  nth_error T z = Some b -> rank T (z + 1) = rank T z + Nat.b2n b.
Proof.
  intros Hz. unfold rank. rewrite Nat.add_1_r. now apply ones_firstn_S.
Qed.

Lemma rank_mono (T : list bool) (a b : nat) : a <= b -> rank T a <= rank T b.
Proof. apply ones_firstn_mono. Qed.

(** Two distinct set bits have distinct ranks. *)
Lemma rank_set_inj (T : list bool) (z1 z2 : nat) :
  nth_error T z1 = Some true -> nth_error T z2 = Some true ->
  rank T (z1 + 1) = rank T (z2 + 1) -> z1 = z2.
Proof.
  intros H1 H2 Heq.
  rewrite (rank_S T z1 true H1), (rank_S T z2 true H2) in Heq.
  cbn [Nat.b2n] in Heq.
  destruct (Nat.lt_trichotomy z1 z2) as [Hlt|[->|Hlt]]; [|reflexivity|].
  - pose proof (ones_firstn_lt T z1 z2 Hlt H1). unfold rank in Heq. lia.
  - pose proof (ones_firstn_lt T z2 z1 Hlt H2). unfold rank in Heq. lia.
Qed.

(** ** The level structure *)

Section LevelFacts.

Context {E : Type} `{ElemType E}.

Variable t : KrKcTree E.

Local Abbreviation T := (T_ t).
Local Abbreviation L := (L_ t).
Local Abbreviation K := (groupSize t).

(** The groups of a level start right after one group per set bit of all the
    bits before that level, plus the root group. *)
Lemma level_rank (k : nat) :
  K * (1 + rank T (fst (level t k))) = fst (level t k) + K * snd (level t k).
Proof.
  induction k as [|k IH].
  - simpl. unfold rank. simpl. unfold ones. simpl. lia.
  - cbn [level fst snd]. rewrite rank_add.
    set (c := ones _) in *. lia.
Qed.

Lemma level_off_mono (k k' : nat) :
  k <= k' -> fst (level t k) <= fst (level t k').
Proof.
  induction 1 as [|k' _ IH]; [lia|]. cbn [level fst]. lia.
Qed.

Lemma level_off_aligned (k : nat) : exists g, fst (level t k) = K * g.
Proof.
  induction k as [|k [g Hg]].
  - exists 0. simpl. lia.
  - exists (g + snd (level t k)). cbn [level fst]. rewrite Hg. lia.
Qed.

Lemma Grp_root : Grp t 0 0.
Proof. exists 0. simpl. lia. Qed.

Lemma Grp_slot_lt (k y s : nat) :
  Grp t k y -> s < K -> y + s < fst (level t (S k)).
Proof.
  intros (i & Hi & ->) Hs. cbn [level fst]. nia.
Qed.

Lemma Grp_step_index (k i s : nat) :
  i < snd (level t k) -> s < K ->
  nth_error T (fst (level t k) + K * i + s) = Some true ->
  rank T (fst (level t k) + K * i + s + 1) * kr_ t * kc_ t =
    fst (level t (S k))
    + K * ones (firstn (K * i + s) (skipn (fst (level t k)) T)) /\
  ones (firstn (K * i + s) (skipn (fst (level t k)) T)) < snd (level t (S k)).
Proof.
  intros Hi Hs Hbit.
  set (o := fst (level t k)) in *. set (n := snd (level t k)) in *.
  assert (Hsk : nth_error (skipn o T) (K * i + s) = Some true).
  { rewrite nth_error_skipn. rewrite <- Hbit. f_equal. lia. }
  split.
  - cbn [level fst]. fold o n.
    rewrite (rank_S T _ true Hbit). cbn [Nat.b2n].
    replace (o + K * i + s) with (o + (K * i + s)) by lia.
    rewrite rank_add.
    pose proof (level_rank k) as Hr. fold o n in Hr.
    unfold groupSize in *. nia.
  - cbn [level snd]. fold o n. apply ones_firstn_lt; [nia|exact Hsk].
Qed.

Lemma Grp_step (k y s : nat) :
  Grp t k y -> s < K -> nth_error T (y + s) = Some true ->
  Grp t (S k) (rank T (y + s + 1) * kr_ t * kc_ t).
Proof.
  intros (i & Hi & ->) Hs Hbit.
  set (o := fst (level t k)) in *. set (n := snd (level t k)) in *.
  exists (ones (firstn (K * i + s) (skipn o T))).
  assert (Hsk : nth_error (skipn o T) (K * i + s) = Some true).
  { rewrite nth_error_skipn. rewrite <- Hbit. f_equal. lia. }
  split.
  - cbn [level snd]. fold o n. apply ones_firstn_lt; [nia|exact Hsk].
  - cbn [level fst]. fold o n.
    rewrite (rank_S T _ true Hbit). cbn [Nat.b2n].
    replace (o + K * i + s) with (o + (K * i + s)) by lia.
    rewrite rank_add.
    pose proof (level_rank k) as Hr. fold o n in Hr.
    unfold groupSize in *. nia.
Qed.

(** Two distinct groups of one level share no position. *)
Lemma Grp_disjoint (k y1 y2 s1 s2 : nat) :
  Grp t k y1 -> Grp t k y2 -> s1 < K -> s2 < K ->
  y1 + s1 = y2 + s2 -> y1 = y2 /\ s1 = s2.
Proof.
  intros (i1 & _ & ->) (i2 & _ & ->) H1 H2 Heq.
  assert (i1 = i2) by nia. subst i2. lia.
Qed.

Hypothesis Hshape :
  fst (level t (h_ t - 1)) = length T /\
  length L = K * snd (level t (h_ t - 1)).

Lemma Grp_Node (d : nat) :
  forall k y, k + d = h_ t - 1 -> Grp t k y -> Node t d y.
Proof.
  induction d as [|d IH]; intros k y Hk Hg.
  - replace k with (h_ t - 1) in Hg by lia.
    destruct Hg as (i & Hi & ->). destruct Hshape as [Ho Hl].
    apply (Node_leaf t _ i); rewrite ?Ho, ?Hl; [lia|nia].
  - destruct (level_off_aligned k) as [g0 Hg0].
    destruct Hg as (i & Hi & Hy).
    apply (Node_inner t d y (g0 + i)).
    + rewrite Hy, Hg0. lia.
    + pose proof (level_off_mono (S k) (h_ t - 1) ltac:(lia)) as Hm.
      destruct Hshape as [Ho _]. subst y.
      cbn [level fst] in Hm. nia.
    + intros s Hs Hbit. apply (IH (S k)); [lia|].
      apply Grp_step; [exists i; auto|exact Hs|exact Hbit].
Qed.

Lemma Node_root : Node t (h_ t - 1) 0.
Proof. apply (Grp_Node (h_ t - 1) 0); [lia|apply Grp_root]. Qed.

End LevelFacts.

(** ** Arithmetic of block sizes *)

Lemma pow_ge_1 (k d : nat) : 1 <= k -> 1 <= k ^ d.
Proof.
  intros Hk. induction d as [|d IH]; simpl; [lia|]. nia.
Qed.

Lemma pow_div (k d : nat) : 1 <= k -> k ^ S d / k = k ^ d.
Proof.
  intros Hk. rewrite Nat.pow_succ_r', Nat.mul_comm. apply Nat.div_mul. lia.
Qed.

Lemma div_pow_lt (k d p : nat) : 1 <= k -> p < k ^ S d -> p / k ^ d < k.
Proof.
  intros Hk Hp. pose proof (pow_ge_1 k d Hk).
  apply Nat.Div0.div_lt_upper_bound. rewrite Nat.pow_succ_r' in Hp. lia.
Qed.

Lemma mod_pow_lt (k d p : nat) : 1 <= k -> p mod k ^ d < k ^ d.
Proof.
  intros Hk. pose proof (pow_ge_1 k d Hk). apply Nat.mod_upper_bound. lia.
Qed.

Lemma slot_lt (kr kc a b : nat) : a < kr -> b < kc -> a * kc + b < kr * kc.
Proof. intros. nia. Qed.

Lemma slot_inj (kc a b a' b' : nat) :
  b < kc -> b' < kc -> a * kc + b = a' * kc + b' -> a = a' /\ b = b'.
Proof. intros. assert (a = a') by nia. subst. lia. Qed.

Lemma div_mod_inj (m p p' : nat) :
  p / m = p' / m -> p mod m = p' mod m -> p = p'.
Proof.
  intros Hd Hm. rewrite (Nat.div_mod_eq p m), (Nat.div_mod_eq p' m). now rewrite Hd, Hm.
Qed.

(** ** The descent for a cell *)

Section Descent.

Context {E : Type} `{ElemType E}.

Variable t : KrKcTree E.

Local Abbreviation T := (T_ t).
Local Abbreviation L := (L_ t).
Local Abbreviation kr := (kr_ t).
Local Abbreviation kc := (kc_ t).
Local Abbreviation K := (groupSize t).

Lemma get_leaf_index (fuel numRows numCols p q z : nat) :
  get t fuel numRows numCols p q z =
  match leaf_index t fuel numRows numCols p q z with
  | Some (Some i) => nth_error L i
  | Some None => Some (null_ t)
  | None => None
  end.
Proof.
  revert numRows numCols p q z.
  induction fuel as [|fuel IH]; intros; cbn [get leaf_index]; [reflexivity|].
  destruct (length T <=? z); [reflexivity|].
  destruct (nth_error T z) as [[|]|]; cbn [obind]; auto.
Qed.

Lemma check_leaf_index (fuel numRows numCols p q z : nat) :
  check t fuel numRows numCols p q z =
  match leaf_index t fuel numRows numCols p q z with
  | Some (Some i) => v <- nth_error L i ;; Some (negb (elem_eqb v (null_ t)))
  | Some None => Some false
  | None => None
  end.
Proof.
  revert numRows numCols p q z.
  induction fuel as [|fuel IH]; intros; cbn [check leaf_index]; [reflexivity|].
  destruct (length T <=? z); [reflexivity|].
  destruct (nth_error T z) as [[|]|]; cbn [obind]; auto.
Qed.

Lemma set_leaf_index (fuel numRows numCols p q z : nat) :
  set t fuel numRows numCols p q z =
  match leaf_index t fuel numRows numCols p q z with
  | Some (Some i) =>
      if i <? length L then Some (list_update L i (null_ t)) else None
  | Some None => Some L
  | None => None
  end.
Proof.
  revert numRows numCols p q z.
  induction fuel as [|fuel IH]; intros; cbn [set leaf_index]; [reflexivity|].
  destruct (length T <=? z); [reflexivity|].
  destruct (nth_error T z) as [[|]|]; cbn [obind]; auto.
Qed.

(** [isNotNull(i, j)] is [getElement(i, j) != null_]. *)
Lemma checkInit_getInit (p q : nat) :
  checkInit t p q = v <- getInit t p q ;; Some (negb (elem_eqb v (null_ t))).
Proof.
  unfold checkInit, getInit. destruct (L_empty t).
  - cbn [obind]. destruct (elem_eqb_eq (null_ t) (null_ t)) as [_ ->]; reflexivity.
  - rewrite check_leaf_index, get_leaf_index.
    destruct (leaf_index _ _ _ _ _ _ _) as [[i|]|]; cbn [obind]; try reflexivity.
    destruct (elem_eqb_eq (null_ t) (null_ t)) as [_ ->]; reflexivity.
Qed.

Lemma getG_leafG (d y p q : nat) :
  getG t d y p q =
  match leafG t d y p q with
  | Some (Some i) => nth_error L i
  | Some None => Some (null_ t)
  | None => None
  end.
Proof. unfold getG, leafG. apply get_leaf_index. Qed.

Hypothesis Hkr : 2 <= kr.
Hypothesis Hkc : 2 <= kc.

Lemma leafG_S (d y p q : nat) :
  leafG t (S d) y p q =
  let z := y + (p / kr ^ S d) * kc + q / kc ^ S d in
  if length T <=? z then Some (Some (z - length T))
  else
    b <- nth_error T z ;;
    if b : bool then
      leafG t d (rank T (z + 1) * kr * kc) (p mod kr ^ S d) (q mod kc ^ S d)
    else Some None.
Proof.
  unfold leafG. cbn [leaf_index]. cbv zeta.
  rewrite !pow_div by lia. reflexivity.
Qed.

Lemma slot_bound (d p q : nat) :
  p < kr ^ S d -> q < kc ^ S d -> (p / kr ^ d) * kc + q / kc ^ d < K.
Proof.
  intros Hp Hq. apply slot_lt; apply div_pow_lt; lia.
Qed.

Lemma leafG_Node_0 (y p q : nat) :
  Node t 0 y -> p < kr ^ 1 -> q < kc ^ 1 ->
  leafG t 0 y p q = Some (Some (y + p * kc + q - length T)) /\
  y + p * kc + q - length T < length L.
Proof.
  intros HN Hp Hq. inversion HN as [y' g Hy HL|]; subst y'.
  pose proof (slot_bound 0 p q Hp Hq) as Hs.
  unfold leafG. cbn [leaf_index]. rewrite !Nat.pow_0_r, !Nat.div_1_r in *.
  destruct (Nat.leb_spec (length T) (y + p * kc + q)); [|lia].
  split; [reflexivity|lia].
Qed.

Lemma leafG_Node (d : nat) :
  forall y p q, Node t d y -> p < kr ^ S d -> q < kc ^ S d ->
  exists r, leafG t d y p q = Some r /\
            forall i, r = Some i -> i < length L.
Proof.
  induction d as [|d IH]; intros y p q HN Hp Hq.
  - destruct (leafG_Node_0 y p q HN Hp Hq) as [-> Hlt].
    eexists; split; [reflexivity|]. intros i [= <-]. exact Hlt.
  - inversion HN as [|d' y' g Hy HT Hsub]; subst d' y'.
    pose proof (slot_bound (S d) p q Hp Hq) as Hs.
    rewrite leafG_S. cbv zeta.
    set (z := y + p / kr ^ S d * kc + q / kc ^ S d).
    assert (Hz : z < length T) by (unfold z; lia).
    destruct (Nat.leb_spec (length T) z); [lia|].
    destruct (nth_error T z) as [[|]|] eqn:Hb; cbn [obind].
    + apply IH.
      * replace (z + 1) with (y + (p / kr ^ S d * kc + q / kc ^ S d) + 1)
          by (unfold z; lia).
        apply Hsub; [exact Hs|]. rewrite <- Hb. f_equal. unfold z. lia.
      * apply mod_pow_lt; lia.
      * apply mod_pow_lt; lia.
    + eexists; split; [reflexivity|]. intros i [=].
    + apply nth_error_None in Hb. lia.
Qed.

End Descent.

(** ** Distinct cells end at distinct leaves *)

Lemma length_list_update {A : Type} (l : list A) (i : nat) (x : A) :
  length (list_update l i x) = length l.
Proof.
  revert i. induction l as [|y l IH]; intros [|i]; simpl; auto.
Qed.

Lemma nth_error_list_update_eq {A : Type} (l : list A) (i : nat) (x : A) :
  i < length l -> nth_error (list_update l i x) i = Some x.
Proof.
  revert i. induction l as [|y l IH]; intros [|i] Hi; simpl in *; try lia; auto.
  apply IH. lia.
Qed.

Lemma nth_error_list_update_neq {A : Type} (l : list A) (i j : nat) (x : A) :
  i <> j -> nth_error (list_update l i x) j = nth_error l j.
Proof.
  revert i j. induction l as [|y l IH]; intros [|i] [|j] Hij; simpl; auto;
    try lia.
Qed.

Section Injective.

Context {E : Type} `{ElemType E}.

Variable t : KrKcTree E.

Local Abbreviation T := (T_ t).
Local Abbreviation L := (L_ t).
Local Abbreviation kr := (kr_ t).
Local Abbreviation kc := (kc_ t).
Local Abbreviation K := (groupSize t).

Hypothesis Hkr : 2 <= kr.
Hypothesis Hkc : 2 <= kc.
Hypothesis Hshape :
  fst (level t (h_ t - 1)) = length T /\
  length L = K * snd (level t (h_ t - 1)).

Lemma leafG_inj (d : nat) :
  forall k y1 y2 p1 q1 p2 q2 a,
    k + d = h_ t - 1 -> Grp t k y1 -> Grp t k y2 ->
    p1 < kr ^ S d -> q1 < kc ^ S d -> p2 < kr ^ S d -> q2 < kc ^ S d ->
    leafG t d y1 p1 q1 = Some (Some a) ->
    leafG t d y2 p2 q2 = Some (Some a) ->
    y1 = y2 /\ p1 = p2 /\ q1 = q2.
Proof.
  induction d as [|d IH];
    intros k y1 y2 p1 q1 p2 q2 a Hk Hg1 Hg2 Hp1 Hq1 Hp2 Hq2 H1 H2.
  - pose proof (Grp_Node t Hshape 0 k y1 Hk Hg1) as HN1.
    pose proof (Grp_Node t Hshape 0 k y2 Hk Hg2) as HN2.
    destruct (leafG_Node_0 t Hkr Hkc y1 p1 q1 HN1 Hp1 Hq1) as [E1 B1].
    destruct (leafG_Node_0 t Hkr Hkc y2 p2 q2 HN2 Hp2 Hq2) as [E2 B2].
    rewrite E1 in H1. rewrite E2 in H2.
    injection H1 as H1. injection H2 as H2.
    inversion HN1 as [? g1 HT1 _|]. inversion HN2 as [? g2 HT2 _|].
    pose proof (slot_bound t Hkr Hkc 0 p1 q1 Hp1 Hq1) as Hs1.
    pose proof (slot_bound t Hkr Hkc 0 p2 q2 Hp2 Hq2) as Hs2.
    rewrite !Nat.pow_0_r, !Nat.div_1_r in Hs1, Hs2.
    destruct (Grp_disjoint t k y1 y2 (p1 * kc + q1) (p2 * kc + q2) Hg1 Hg2 Hs1 Hs2)
      as [Hy Hs]; [lia|].
    split; [exact Hy|]. rewrite Nat.pow_1_r in *.
    apply (slot_inj kc); lia.
  - pose proof (Grp_Node t Hshape (S d) k y1 Hk Hg1) as HN1.
    pose proof (Grp_Node t Hshape (S d) k y2 Hk Hg2) as HN2.
    inversion HN1 as [|? ? g1 _ HT1 _]. inversion HN2 as [|? ? g2 _ HT2 _].
    pose proof (slot_bound t Hkr Hkc (S d) p1 q1 Hp1 Hq1) as Hs1.
    pose proof (slot_bound t Hkr Hkc (S d) p2 q2 Hp2 Hq2) as Hs2.
    rewrite leafG_S in H1, H2 by assumption. cbv zeta in H1, H2.
    set (z1 := y1 + p1 / kr ^ S d * kc + q1 / kc ^ S d) in *.
    set (z2 := y2 + p2 / kr ^ S d * kc + q2 / kc ^ S d) in *.
    destruct (Nat.leb_spec (length T) z1); [unfold z1 in *; lia|].
    destruct (Nat.leb_spec (length T) z2); [unfold z2 in *; lia|].
    destruct (nth_error T z1) as [[|]|] eqn:Hb1; cbn [obind] in H1; try discriminate.
    destruct (nth_error T z2) as [[|]|] eqn:Hb2; cbn [obind] in H2; try discriminate.
    assert (Hb1' : nth_error T (y1 + (p1 / kr ^ S d * kc + q1 / kc ^ S d)) = Some true).
    { rewrite <- Hb1. f_equal. unfold z1. lia. }
    assert (Hb2' : nth_error T (y2 + (p2 / kr ^ S d * kc + q2 / kc ^ S d)) = Some true).
    { rewrite <- Hb2. f_equal. unfold z2. lia. }
    pose proof (Grp_step t k y1 _ Hg1 Hs1 Hb1') as Hg1'.
    pose proof (Grp_step t k y2 _ Hg2 Hs2 Hb2') as Hg2'.
    replace (y1 + (p1 / kr ^ S d * kc + q1 / kc ^ S d) + 1) with (z1 + 1) in Hg1'
      by (unfold z1; lia).
    replace (y2 + (p2 / kr ^ S d * kc + q2 / kc ^ S d) + 1) with (z2 + 1) in Hg2'
      by (unfold z2; lia).
    destruct (IH (S k) _ _ _ _ _ _ a ltac:(lia) Hg1' Hg2'
                ltac:(apply mod_pow_lt; lia) ltac:(apply mod_pow_lt; lia)
                ltac:(apply mod_pow_lt; lia) ltac:(apply mod_pow_lt; lia) H1 H2)
      as (Hy & Hp & Hq).
    assert (Hrank : rank T (z1 + 1) = rank T (z2 + 1)).
    { apply Nat.mul_cancel_r in Hy; [|lia]. apply Nat.mul_cancel_r in Hy; [|lia].
      exact Hy. }
    pose proof (rank_set_inj T z1 z2 Hb1 Hb2 Hrank) as Hz.
    destruct (Grp_disjoint t k y1 y2 _ _ Hg1 Hg2 Hs1 Hs2) as [Hy' Hs];
      [unfold z1, z2 in Hz; lia|].
    split; [exact Hy'|].
    destruct (slot_inj kc (p1 / kr ^ S d) (q1 / kc ^ S d)
                (p2 / kr ^ S d) (q2 / kc ^ S d)
                ltac:(apply div_pow_lt; lia) ltac:(apply div_pow_lt; lia) Hs)
      as [Hdp Hdq].
    split; eapply div_mod_inj; eassumption.
Qed.

End Injective.

(** ** Entry points on a well-formed structure *)

Section EntryPoints.

Context {E : Type} `{ElemType E}.

Variable t : KrKcTree E.

Hypothesis Hwf : well_formed t.

Lemma wf_kr : 2 <= kr_ t.
Proof. apply Hwf. Qed.

Lemma wf_kc : 2 <= kc_ t.
Proof. apply Hwf. Qed.

Lemma wf_h : S (h_ t - 1) = h_ t.
Proof. destruct Hwf as (_ & _ & Hh & _). lia. Qed.

Lemma wf_numRows : numRows_ t = kr_ t ^ S (h_ t - 1).
Proof. rewrite wf_h. apply Hwf. Qed.

Lemma wf_numCols : numCols_ t = kc_ t ^ S (h_ t - 1).
Proof. rewrite wf_h. apply Hwf. Qed.

Lemma wf_numRows_div : numRows_ t / kr_ t = kr_ t ^ (h_ t - 1).
Proof. rewrite wf_numRows. apply pow_div. pose proof wf_kr. lia. Qed.

Lemma wf_numCols_div : numCols_ t / kc_ t = kc_ t ^ (h_ t - 1).
Proof. rewrite wf_numCols. apply pow_div. pose proof wf_kc. lia. Qed.

Lemma L_empty_false_shape :
  L_empty t = false ->
  fst (level t (h_ t - 1)) = length (T_ t) /\
  length (L_ t) = groupSize t * snd (level t (h_ t - 1)).
Proof.
  intros HL. destruct Hwf as (_ & _ & _ & _ & _ & [Hnil|Hs]); [|exact Hs].
  unfold L_empty in HL. rewrite Hnil in HL. discriminate.
Qed.

Lemma wf_root : L_empty t = false -> Node t (h_ t - 1) 0.
Proof. intros HL. apply Node_root, L_empty_false_shape, HL. Qed.

Lemma getInit_getG (p q : nat) :
  L_empty t = false -> getInit t p q = getG t (h_ t - 1) 0 p q.
Proof.
  intros HL. unfold getInit, getG. rewrite HL.
  rewrite wf_numRows_div, wf_numCols_div, wf_h. reflexivity.
Qed.

Lemma setInit_leafG (p q : nat) :
  L_empty t = false ->
  setInit t p q =
  match leafG t (h_ t - 1) 0 p q with
  | Some (Some i) =>
      if i <? length (L_ t) then Some (list_update (L_ t) i (null_ t)) else None
  | Some None => Some (L_ t)
  | None => None
  end.
Proof.
  intros HL. unfold setInit, leafG. rewrite HL, set_leaf_index.
  rewrite wf_numRows_div, wf_numCols_div, wf_h. reflexivity.
Qed.

End EntryPoints.

Lemma leaf_index_ext {E : Type} `{ElemType E} (t t' : KrKcTree E) :
  T_ t' = T_ t -> kr_ t' = kr_ t -> kc_ t' = kc_ t ->
  forall fuel numRows numCols p q z,
    leaf_index t' fuel numRows numCols p q z =
    leaf_index t fuel numRows numCols p q z.
Proof.
  intros HT Hr Hc fuel.
  induction fuel as [|fuel IH]; intros; cbn [leaf_index]; [reflexivity|].
  rewrite HT, Hr, Hc.
  destruct (length (T_ t) <=? z); [reflexivity|].
  destruct (nth_error (T_ t) z) as [[|]|]; cbn [obind]; auto.
Qed.

Lemma L_empty_length {E : Type} `{ElemType E} (t t' : KrKcTree E) :
  length (L_ t') = length (L_ t) -> L_empty t' = L_empty t.
Proof.
  unfold L_empty. destruct (L_ t), (L_ t'); simpl; intros; congruence.
Qed.

(** ** Claim C9: [setNull] *)

(** C9. On a well-formed structure and an in-range cell [(i, j)],
    [setNull(i, j)] terminates, leaves [T_], [h_], [kr_], [kc_], [numRows_],
    [numCols_] and the length of [L_] unchanged, makes [getElement(i, j)]
    return [null_], and leaves [getElement(i', j')] unchanged for every
    other in-range cell. *)
Theorem setNull_frame {E : Type} `{ElemType E} (t : KrKcTree E) (i j : nat) :
  well_formed t -> i < numRows_ t -> j < numCols_ t ->
  exists t',
    setNull t i j = Some t' /\
    T_ t' = T_ t /\ h_ t' = h_ t /\ kr_ t' = kr_ t /\ kc_ t' = kc_ t /\
    numRows_ t' = numRows_ t /\ numCols_ t' = numCols_ t /\
    length (L_ t') = length (L_ t) /\
    getElement t' i j = Some (null_ t) /\
    forall i' j', i' < numRows_ t -> j' < numCols_ t -> (i', j') <> (i, j) ->
                  getElement t' i' j' = getElement t i' j'.
Proof.
  intros Hwf Hi Hj. unfold setNull, getElement.
  destruct (L_empty t) eqn:HL.
  - (* the empty relation: nothing is written *)
    unfold setInit. rewrite HL. cbn [obind].
    eexists; repeat (split; [reflexivity|]).
    assert (HL' : forall p q,
               getInit (mkKrKcTree (T_ t) (L_ t) (h_ t) (kr_ t) (kc_ t)
                          (numRows_ t) (numCols_ t) (null_ t)) p q
               = Some (null_ t)).
    { intros p q. unfold getInit.
      rewrite (L_empty_length t (mkKrKcTree _ _ _ _ _ _ _ _) eq_refl), HL.
      reflexivity. }
    split; [apply HL'|]. intros i' j' _ _ _. rewrite HL'.
    unfold getInit. now rewrite HL.
  - pose proof (wf_kr t Hwf) as Hkr. pose proof (wf_kc t Hwf) as Hkc.
    pose proof (L_empty_false_shape t Hwf HL) as Hshape.
    pose proof (wf_root t Hwf HL) as Hroot.
    rewrite (wf_numRows t Hwf) in Hi. rewrite (wf_numCols t Hwf) in Hj.
    rewrite (setInit_leafG t Hwf i j HL).
    destruct (leafG_Node t Hkr Hkc (h_ t - 1) 0 i j Hroot Hi Hj) as (r & Hr & Hb).
    rewrite Hr.
    (* reading the structure after the write *)
    assert (Hread : forall L', length L' = length (L_ t) ->
              forall p q,
                getInit (mkKrKcTree (T_ t) L' (h_ t) (kr_ t) (kc_ t)
                           (numRows_ t) (numCols_ t) (null_ t)) p q =
                match leafG t (h_ t - 1) 0 p q with
                | Some (Some a) => nth_error L' a
                | Some None => Some (null_ t)
                | None => None
                end).
    { intros L' HL' p q. unfold getInit.
      rewrite (L_empty_length t (mkKrKcTree _ _ _ _ _ _ _ _) HL'), HL.
      rewrite get_leaf_index. cbn [T_ L_ h_ kr_ kc_ numRows_ numCols_ null_].
      rewrite (leaf_index_ext t
                 (mkKrKcTree (T_ t) L' (h_ t) (kr_ t) (kc_ t)
                    (numRows_ t) (numCols_ t) (null_ t))
                 eq_refl eq_refl eq_refl).
      unfold leafG.
      rewrite (wf_numRows_div t Hwf), (wf_numCols_div t Hwf), (wf_h t Hwf).
      reflexivity. }
    assert (Hold : forall p q,
              getInit t p q =
              match leafG t (h_ t - 1) 0 p q with
              | Some (Some a) => nth_error (L_ t) a
              | Some None => Some (null_ t)
              | None => None
              end).
    { intros p q. rewrite (getInit_getG t Hwf p q HL).
      apply getG_leafG. }
    destruct r as [a|].
    + specialize (Hb a eq_refl).
      destruct (Nat.ltb_spec a (length (L_ t))); [|lia]. cbn [obind].
      eexists; repeat (split; [reflexivity|]). cbn [L_].
      split; [apply length_list_update|].
      split.
      * rewrite (Hread _ (length_list_update _ _ _)), Hr.
        now apply nth_error_list_update_eq.
      * intros i' j' Hi' Hj' Hne.
        rewrite (Hread _ (length_list_update _ _ _)), Hold.
        destruct (leafG t (h_ t - 1) 0 i' j') as [[a'|]|] eqn:Hr'; try reflexivity.
        apply nth_error_list_update_neq. intros ->.
        rewrite (wf_numRows t Hwf) in Hi'. rewrite (wf_numCols t Hwf) in Hj'.
        destruct (leafG_inj t Hkr Hkc Hshape (h_ t - 1) 0 0 0 i j i' j' a'
                    ltac:(lia) (Grp_root t) (Grp_root t) Hi Hj Hi' Hj' Hr Hr')
          as (_ & -> & ->).
        now apply Hne.
    + cbn [obind]. eexists; repeat (split; [reflexivity|]).
      split; [rewrite (Hread _ eq_refl), Hr; reflexivity|].
      intros i' j' _ _ _. now rewrite (Hread _ eq_refl), Hold.
Qed.

(** ** Lists of positions *)

Lemma foldM_app_spec {A B : Type} (body : A -> list B -> option (list B))
  (g : A -> list B) (xs : list A) :
  (forall x s, In x xs -> body x s = Some (s ++ g x)) ->
  forall s, foldM body xs s = Some (s ++ flat_map g xs).
Proof.
  induction xs as [|x xs IH]; intros Hb s; cbn [foldM flat_map].
  - now rewrite app_nil_r.
  - rewrite Hb by (left; reflexivity).
    rewrite IH by (intros; apply Hb; right; assumption).
    now rewrite app_assoc.
Qed.

Lemma map_flat_map {A B C : Type} (f : B -> C) (g : A -> list B) (l : list A) :
  map f (flat_map g l) = flat_map (fun x => map f (g x)) l.
Proof.
  induction l as [|x l IH]; cbn [flat_map map]; [reflexivity|].
  now rewrite map_app, IH.
Qed.

Lemma flat_map_ext_in {A B : Type} (f g : A -> list B) (l : list A) :
  (forall x, In x l -> f x = g x) -> flat_map f l = flat_map g l.
Proof.
  induction l as [|x l IH]; intros Hfg; cbn [flat_map]; [reflexivity|].
  rewrite Hfg by (left; reflexivity).
  rewrite IH by (intros; apply Hfg; right; assumption). reflexivity.
Qed.

Lemma filter_ext_in' {A : Type} (f g : A -> bool) (l : list A) :
  (forall x, In x l -> f x = g x) -> filter f l = filter g l.
Proof.
  induction l as [|x l IH]; intros Hfg; cbn [filter]; [reflexivity|].
  rewrite Hfg by (left; reflexivity).
  rewrite IH by (intros; apply Hfg; right; assumption). reflexivity.
Qed.

Lemma filter_map_comm {A B : Type} (f : B -> bool) (g : A -> B) (l : list A) :
  filter f (map g l) = map g (filter (fun x => f (g x)) l).
Proof.
  induction l as [|x l IH]; cbn [map filter]; [reflexivity|].
  destruct (f (g x)); cbn [map]; now rewrite IH.
Qed.

Lemma seq_from (a m : nat) : seq a m = map (fun x => a + x) (seq 0 m).
Proof.
  induction a as [|a IH].
  - now rewrite map_id.
  - rewrite <- seq_shift, IH, map_map. reflexivity.
Qed.

Lemma filter_seq_from (f : nat -> bool) (a m : nat) :
  filter f (seq a m) =
  map (fun x => a + x) (filter (fun x => f (a + x)) (seq 0 m)).
Proof. now rewrite seq_from, filter_map_comm. Qed.

(** The positions below [n * m], taken in [n] consecutive blocks of [m]. *)
Lemma filter_seq_mul (f : nat -> bool) (n m : nat) :
  filter f (seq 0 (n * m)) =
  flat_map (fun i => map (fun x => i * m + x)
                         (filter (fun x => f (i * m + x)) (seq 0 m)))
           (seq 0 n).
Proof.
  induction n as [|n IH].
  - reflexivity.
  - replace (S n * m) with (n * m + m) by lia.
    rewrite seq_app, filter_app, IH. cbn [Nat.add].
    rewrite (seq_S n 0), flat_map_app. cbn [flat_map Nat.add].
    rewrite app_nil_r. f_equal. apply filter_seq_from.
Qed.

Lemma filter_false {A : Type} (f : A -> bool) (l : list A) :
  (forall x, In x l -> f x = false) -> filter f l = [].
Proof.
  induction l as [|x l IH]; intros Hf; cbn [filter]; [reflexivity|].
  rewrite Hf by (left; reflexivity). apply IH. intros; apply Hf; now right.
Qed.

Lemma div_mul_add (j m q : nat) : q < m -> (j * m + q) / m = j.
Proof.
  intros Hq. rewrite Nat.div_add_l by lia. rewrite Nat.div_small by lia. lia.
Qed.

Lemma mod_mul_add (j m q : nat) : q < m -> (j * m + q) mod m = q.
Proof.
  intros Hq. rewrite Nat.add_comm, Nat.Div0.mod_add. now apply Nat.mod_small.
Qed.

(** ** Blocks of entries and of groups *)

Section Blocks.

Context {E : Type} `{ElemType E}.

Variable t : KrKcTree E.

Local Abbreviation T := (T_ t).
Local Abbreviation L := (L_ t).
Local Abbreviation kr := (kr_ t).
Local Abbreviation kc := (kc_ t).
Local Abbreviation K := (groupSize t).

Lemma not_null_null : not_null t (Some (null_ t)) = false.
Proof.
  unfold not_null. destruct (elem_eqb_eq (null_ t) (null_ t)) as [_ ->]; reflexivity.
Qed.

Lemma not_null_true (o : option E) :
  not_null t o = true <-> exists v, o = Some v /\ v <> null_ t.
Proof.
  unfold not_null. destruct o as [v|].
  - rewrite negb_true_iff. split.
    + intros Hv. exists v. split; [reflexivity|]. intros ->.
      destruct (elem_eqb_eq (null_ t) (null_ t)) as [_ Ht]. rewrite Ht in Hv; [discriminate|reflexivity].
    + intros (v' & Hv & Hne). injection Hv as Hv. subst v'.
      destruct (elem_eqb v (null_ t)) eqn:He; [|reflexivity].
      apply (elem_eqb_eq v (null_ t)) in He. contradiction.
  - split; [discriminate|]. intros (v & [=] & _).
Qed.

Lemma Node_Entry (d y s : nat) : Node t d y -> s < K -> Entry t d (y + s).
Proof.
  intros HN Hs. destruct d as [|d].
  - inversion HN as [? g Hy HL|]. cbn [Entry]. lia.
  - inversion HN as [|? ? g Hy HT Hsub]. cbn [Entry]. split; [lia|].
    intros Hb. now apply Hsub.
Qed.

Lemma getU_0 (z p q : nat) :
  Entry t 0 z -> getU t 0 z p q = nth_error L (z - length T).
Proof.
  cbn [Entry]. intros Hz. unfold getU. cbn [get].
  destruct (Nat.leb_spec (length T) z); [reflexivity|lia].
Qed.

Lemma Entry_0_read (z : nat) :
  Entry t 0 z -> exists v, nth_error L (z - length T) = Some v.
Proof.
  cbn [Entry]. intros Hz.
  destruct (nth_error L (z - length T)) as [v|] eqn:Hv; [now exists v|].
  apply nth_error_None in Hv. lia.
Qed.

Lemma Entry_S_read (d z : nat) :
  Entry t (S d) z -> exists b, nth_error T z = Some b.
Proof.
  cbn [Entry]. intros [Hz _].
  destruct (nth_error T z) as [b|] eqn:Hb; [now exists b|].
  apply nth_error_None in Hb. lia.
Qed.

Lemma Entry_S_not_leaf (d z : nat) :
  Entry t (S d) z -> (length T <=? z) = false.
Proof. cbn [Entry]. intros [Hz _]. apply Nat.leb_gt. exact Hz. Qed.

Lemma Entry_0_leaf (z : nat) : Entry t 0 z -> (length T <=? z) = true.
Proof. cbn [Entry]. intros Hz. apply Nat.leb_le. lia. Qed.

Lemma rowCols_0 (z p : nat) :
  Entry t 0 z ->
  rowCols t 0 z p = if not_null t (nth_error L (z - length T)) then [0] else [].
Proof.
  intros Hz. unfold rowCols. cbn [Nat.pow seq filter].
  now rewrite getU_0.
Qed.

Lemma colRows_0 (z q : nat) :
  Entry t 0 z ->
  colRows t 0 z q = if not_null t (nth_error L (z - length T)) then [0] else [].
Proof.
  intros Hz. unfold colRows. cbn [Nat.pow seq filter].
  now rewrite getU_0.
Qed.

Hypothesis Hkr : 2 <= kr.
Hypothesis Hkc : 2 <= kc.

Lemma getU_S (d z p q : nat) :
  Entry t (S d) z ->
  getU t (S d) z p q =
  match nth_error T z with
  | Some true => getG t d (rank T (z + 1) * kr * kc) p q
  | _ => Some (null_ t)
  end.
Proof.
  intros Hz. unfold getU. cbn [get].
  rewrite (Entry_S_not_leaf d z Hz).
  destruct (Entry_S_read d z Hz) as [b ->]. cbn [obind].
  destruct b; [|reflexivity].
  rewrite !pow_div by lia. reflexivity.
Qed.

Lemma rowCols_S (d z p : nat) :
  Entry t (S d) z ->
  rowCols t (S d) z p =
  match nth_error T z with
  | Some true => rowG t d (rank T (z + 1) * kr * kc) p
  | _ => []
  end.
Proof.
  intros Hz. unfold rowCols, rowG.
  destruct (nth_error T z) as [[|]|] eqn:Hb.
  - apply filter_ext_in'. intros q _. now rewrite getU_S, Hb.
  - apply filter_false. intros q _. rewrite getU_S, Hb by assumption.
    apply not_null_null.
  - apply filter_false. intros q _. rewrite getU_S, Hb by assumption.
    apply not_null_null.
Qed.

Lemma colRows_S (d z q : nat) :
  Entry t (S d) z ->
  colRows t (S d) z q =
  match nth_error T z with
  | Some true => colG t d (rank T (z + 1) * kr * kc) q
  | _ => []
  end.
Proof.
  intros Hz. unfold colRows, colG.
  destruct (nth_error T z) as [[|]|] eqn:Hb.
  - apply filter_ext_in'. intros p _. now rewrite getU_S, Hb.
  - apply filter_false. intros p _. rewrite getU_S, Hb by assumption.
    apply not_null_null.
  - apply filter_false. intros p _. rewrite getU_S, Hb by assumption.
    apply not_null_null.
Qed.

Lemma rowG_chunks (d y p : nat) :
  rowG t d y p =
  flat_map (fun j => map (fun q => j * kc ^ d + q)
                         (rowCols t d (y + (p / kr ^ d) * kc + j) (p mod kr ^ d)))
           (seq 0 kc).
Proof.
  unfold rowG. rewrite Nat.pow_succ_r', filter_seq_mul.
  apply flat_map_ext_in. intros j _. f_equal. unfold rowCols.
  apply filter_ext_in'. intros q Hq. apply in_seq in Hq.
  unfold getG, getU.
  rewrite div_mul_add, mod_mul_add by lia. reflexivity.
Qed.

Lemma colG_chunks (d y q : nat) :
  colG t d y q =
  flat_map (fun i => map (fun p => i * kr ^ d + p)
                         (colRows t d (y + i * kc + q / kc ^ d) (q mod kc ^ d)))
           (seq 0 kr).
Proof.
  unfold colG. rewrite Nat.pow_succ_r', filter_seq_mul.
  apply flat_map_ext_in. intros i _. f_equal. unfold colRows.
  apply filter_ext_in'. intros p Hp. apply in_seq in Hp.
  unfold getG, getU.
  rewrite div_mul_add, mod_mul_add by lia. reflexivity.
Qed.

End Blocks.

(** ** Predecessors *)

Section Predecessors.

Context {E : Type} `{ElemType E}.

Variable t : KrKcTree E.

Local Abbreviation T := (T_ t).
Local Abbreviation L := (L_ t).
Local Abbreviation kr := (kr_ t).
Local Abbreviation kc := (kc_ t).
Local Abbreviation K := (groupSize t).

Hypothesis Hkr : 2 <= kr.
Hypothesis Hkc : 2 <= kc.

(** The loop over the [kr_] entries of a group that lie in the column. *)
Lemma predecessors_group (fuel d y q p0 : nat) (preds : list nat) :
  (forall z q' p0' preds',
      Entry t d z -> q' < kc ^ d ->
      predecessorsPos t fuel preds' (kr ^ d) (kc ^ d) q' p0' z =
      Some (preds' ++ map (fun p => p0' + p) (colRows t d z q'))) ->
  Node t d y -> q < kc ^ S d ->
  foldM (fun i preds' =>
           predecessorsPos t fuel preds' (kr ^ d) (kc ^ d) (q mod kc ^ d)
             (p0 + kr ^ d * i) (y + q / kc ^ d + i * kc))
        (seq 0 kr) preds =
  Some (preds ++ map (fun p => p0 + p) (colG t d y q)).
Proof.
  intros Hentry HN Hq.
  rewrite (foldM_app_spec _
             (fun i => map (fun p => p0 + kr ^ d * i + p)
                           (colRows t d (y + q / kc ^ d + i * kc) (q mod kc ^ d)))).
  - f_equal. f_equal. rewrite colG_chunks, map_flat_map by assumption.
    apply flat_map_ext_in. intros i _. rewrite map_map.
    replace (y + i * kc + q / kc ^ d) with (y + q / kc ^ d + i * kc) by lia.
    apply map_ext. intros p. lia.
  - intros i s Hi. apply in_seq in Hi. apply Hentry.
    + replace (y + q / kc ^ d + i * kc) with (y + (i * kc + q / kc ^ d)) by lia.
      apply Node_Entry; [exact HN|].
      apply slot_lt; [lia|apply div_pow_lt; lia].
    + apply mod_pow_lt; lia.
Qed.

(** Any fuel above the number of levels below the entry is enough. *)
Lemma predecessorsPos_entry (d : nat) :
  forall fuel z q p0 preds,
    d < fuel -> Entry t d z -> q < kc ^ d ->
    predecessorsPos t fuel preds (kr ^ d) (kc ^ d) q p0 z =
    Some (preds ++ map (fun p => p0 + p) (colRows t d z q)).
Proof.
  induction d as [|d IH]; intros [|fuel] z q p0 preds Hf Hz Hq; try lia.
  - cbn [predecessorsPos]. rewrite (Entry_0_leaf t z Hz).
    destruct (Entry_0_read t z Hz) as [v Hv]. rewrite Hv. cbn [obind].
    rewrite colRows_0, Hv by assumption. cbn [not_null].
    destruct (negb (elem_eqb v (null_ t))); cbn [map].
    + now rewrite Nat.add_0_r.
    + now rewrite app_nil_r.
  - cbn [predecessorsPos]. rewrite (Entry_S_not_leaf t d z Hz).
    destruct (Entry_S_read t d z Hz) as [b Hb]. rewrite Hb. cbn [obind].
    rewrite colRows_S, Hb by assumption.
    destruct b.
    + cbv zeta. rewrite !pow_div by lia.
      destruct Hz as [_ Hsub]. specialize (Hsub Hb).
      apply predecessors_group; [|assumption|assumption].
      intros. apply IH; [lia|assumption|assumption].
    + now rewrite app_nil_r.
Qed.

End Predecessors.

Lemma getElement_empty {E : Type} `{ElemType E} (t : KrKcTree E) (i j : nat) :
  L_empty t = true -> getElement t i j = Some (null_ t).
Proof. intros HL. unfold getElement, getInit. now rewrite HL. Qed.

(** [getPredecessorPositions(j)] lists, in ascending order, the rows [i]
    with [getElement(i, j) != null_]. *)
Lemma getPredecessorPositions_spec {E : Type} `{ElemType E}
  (t : KrKcTree E) (j : nat) :
  well_formed t -> j < numCols_ t ->
  getPredecessorPositions t j =
  Some (filter (fun i => not_null t (getElement t i j)) (seq 0 (numRows_ t))).
Proof.
  intros Hwf Hj. unfold getPredecessorPositions, predecessorsPosInit.
  destruct (L_empty t) eqn:HL.
  - f_equal. symmetry. apply filter_false. intros i _.
    rewrite getElement_empty by assumption.
    apply not_null_null.
  - pose proof (wf_kr t Hwf) as Hkr. pose proof (wf_kc t Hwf) as Hkc.
    rewrite (wf_numCols t Hwf) in Hj.
    cbv zeta.
    rewrite (wf_numRows_div t Hwf), (wf_numCols_div t Hwf).
    pose proof (wf_h t Hwf) as Hh.
    pose proof (predecessors_group t Hkr Hkc (h_ t) (h_ t - 1) 0 j 0 []
                  (fun z q' p0' preds' =>
                     predecessorsPos_entry t Hkr Hkc (h_ t - 1) (h_ t)
                       z q' p0' preds' ltac:(lia))
                  (wf_root t Hwf HL) Hj) as Hg.
    cbn [Nat.add app] in Hg. rewrite Hg. f_equal.
    rewrite map_id. unfold colG. rewrite <- (wf_numRows t Hwf).
    apply filter_ext_in'. intros i _. unfold getElement.
    now rewrite (getInit_getG t Hwf i j HL).
Qed.

(** ** Successors *)

Lemma flat_map_map {A B C : Type} (f : B -> list C) (g : A -> B) (l : list A) :
  flat_map f (map g l) = flat_map (fun x => f (g x)) l.
Proof.
  induction l as [|x l IH]; cbn [map flat_map]; [reflexivity|]. now rewrite IH.
Qed.

Lemma flat_map_if {A B : Type} (f : A -> bool) (g : A -> B) (l : list A) :
  flat_map (fun x => if f x then [g x] else []) l = map g (filter f l).
Proof.
  induction l as [|x l IH]; cbn [flat_map filter map]; [reflexivity|].
  destruct (f x); cbn [map app]; now rewrite IH.
Qed.

Section Successors.

Context {E : Type} `{ElemType E}.

Variable t : KrKcTree E.

Local Abbreviation T := (T_ t).
Local Abbreviation L := (L_ t).
Local Abbreviation kr := (kr_ t).
Local Abbreviation kc := (kc_ t).
Local Abbreviation K := (groupSize t).

Lemma pushSubrows_spec (n : nat) :
  forall dq z nc queue,
    pushSubrows n dq z nc queue =
    queue ++ map (fun j => mkSubrowInfo (dq + j * nc) (z + j)) (seq 0 n).
Proof.
  induction n as [|n IH]; intros dq z nc queue; cbn [pushSubrows].
  - cbn. now rewrite app_nil_r.
  - rewrite IH. cbn [seq map]. rewrite <- seq_shift, map_map, <- app_assoc.
    cbn [app]. f_equal. f_equal.
    + f_equal; lia.
    + apply map_ext. intros j. f_equal; lia.
Qed.

Lemma scanLeaves_spec (n : nat) :
  forall newDq y nc succs,
    y + n <= length L ->
    scanLeaves t n newDq y nc succs =
    Some (succs ++ map (fun j => newDq + j * nc)
                       (filter (fun j => not_null t (nth_error L (y + j)))
                               (seq 0 n))).
Proof.
  induction n as [|n IH]; intros newDq y nc succs Hy; cbn [scanLeaves].
  - cbn. now rewrite app_nil_r.
  - destruct (nth_error L y) as [v|] eqn:Hv;
      [|apply nth_error_None in Hv; lia].
    cbn [obind]. rewrite IH by lia.
    cbn [seq filter]. rewrite Nat.add_0_r, Hv. cbn [not_null].
    assert (Htl : map (fun j => newDq + nc + j * nc)
                    (filter (fun j => not_null t (nth_error L (y + 1 + j)))
                            (seq 0 n)) =
                  map (fun j => newDq + j * nc)
                    (filter (fun j => not_null t (nth_error L (y + j)))
                            (seq 1 n))).
    { rewrite <- seq_shift, filter_map_comm, map_map.
      rewrite (filter_ext_in'
                 (fun j => not_null t (nth_error L (y + S j)))
                 (fun j => not_null t (nth_error L (y + 1 + j)))).
      - apply map_ext. intros j. lia.
      - intros j _. do 2 f_equal. lia. }
    rewrite Htl.
    destruct (negb (elem_eqb v (null_ t))); cbn [map].
    + rewrite <- app_assoc. cbn [app]. do 3 f_equal. lia.
    + reflexivity.
Qed.

Hypothesis Hkr : 2 <= kr.
Hypothesis Hkc : 2 <= kc.

(** The entries pushed for a queue entry whose bit is set stand for the
    same columns as that entry. *)
Lemma subrowCols_S (d p : nat) (e : SubrowInfo) :
  Entry t (S d) (si_z e) ->
  subrowCols t (S d) p e =
  match nth_error T (si_z e) with
  | Some true =>
      queueCols t d (p mod kr ^ d)
        (map (fun j => mkSubrowInfo (si_dq e + j * kc ^ d)
                         (rank T (si_z e + 1) * kr * kc + kc * (p / kr ^ d) + j))
             (seq 0 kc))
  | _ => []
  end.
Proof.
  intros Hz. unfold subrowCols, queueCols. rewrite rowCols_S by assumption.
  destruct (nth_error T (si_z e)) as [[|]|]; try reflexivity.
  rewrite rowG_chunks, map_flat_map, flat_map_map by assumption.
  apply flat_map_ext_in. intros j _. unfold subrowCols. cbn [si_dq si_z].
  rewrite map_map.
  replace (rank T (si_z e + 1) * kr * kc + p / kr ^ d * kc + j)
    with (rank T (si_z e + 1) * kr * kc + kc * (p / kr ^ d) + j) by lia.
  apply map_ext. intros q. lia.
Qed.

Lemma expandQueue_spec (d relP : nat) (queue : list SubrowInfo) :
  forall next,
    Forall (fun e => Entry t (S d) (si_z e)) queue ->
    relP < kr ^ S d ->
    exists added,
      expandQueue t queue next relP (kr ^ d) (kc ^ d) = Some (next ++ added) /\
      Forall (fun e => Entry t d (si_z e)) added /\
      queueCols t d (relP mod kr ^ d) added = queueCols t (S d) relP queue.
Proof.
  induction queue as [|cur queue IH]; intros next HF Hp; cbn [expandQueue].
  - exists []. rewrite app_nil_r. repeat split. constructor.
  - inversion HF as [|? ? Hcur HF']; subst.
    destruct (Entry_S_read t d _ Hcur) as [b Hb]. rewrite Hb. cbn [obind].
    unfold queueCols at 2. cbn [flat_map].
    rewrite (subrowCols_S d relP cur Hcur), Hb.
    destruct b.
    + rewrite pushSubrows_spec.
      destruct (IH (next ++ map (fun j => mkSubrowInfo (si_dq cur + j * kc ^ d)
                                   (rank T (si_z cur + 1) * kr * kc
                                    + kc * (relP / kr ^ d) + j)) (seq 0 kc))
                  HF' Hp) as (added & Hex & Hent & Hcols).
      eexists. rewrite Hex, <- app_assoc. split; [reflexivity|]. split.
      * apply Forall_app. split; [|exact Hent].
        apply Forall_forall. intros e He. apply in_map_iff in He.
        destruct He as (j & <- & Hj). apply in_seq in Hj. cbn [si_z].
        destruct Hcur as [_ Hsub]. specialize (Hsub Hb).
        replace (rank T (si_z cur + 1) * kr * kc + kc * (relP / kr ^ d) + j)
          with (rank T (si_z cur + 1) * kr * kc + ((relP / kr ^ d) * kc + j)) by lia.
        apply Node_Entry; [exact Hsub|].
        apply slot_lt; [apply div_pow_lt; lia|lia].
      * unfold queueCols in *. rewrite flat_map_app, Hcols. reflexivity.
    + destruct (IH next HF' Hp) as (added & Hex & Hent & Hcols).
      exists added. repeat split; assumption.
Qed.

Lemma successorLevels_spec (d : nat) :
  forall fuel queue relP,
    d < fuel ->
    Forall (fun e => Entry t (S d) (si_z e)) queue ->
    relP < kr ^ S d ->
    exists queue' relP',
      successorLevels t fuel queue relP (kr ^ d) (kc ^ d) =
        Some (queue', (relP', (1, 1))) /\
      Forall (fun e => Entry t 1 (si_z e)) queue' /\
      relP' < kr ^ 1 /\
      queueCols t 1 relP' queue' = queueCols t (S d) relP queue.
Proof.
  induction d as [|d IH]; intros [|fuel] queue relP Hf HF Hp; try lia;
    cbn [successorLevels].
  - cbn [Nat.pow Nat.ltb Nat.leb]. exists queue, relP. repeat split; assumption.
  - assert (Hgt : (1 <? kr ^ S d) = true).
    { apply Nat.ltb_lt. pose proof (pow_ge_1 kr d ltac:(lia)).
      rewrite Nat.pow_succ_r'. nia. }
    rewrite Hgt.
    destruct (expandQueue_spec (S d) relP queue [] HF Hp) as (added & Hex & Hent & Hcols).
    rewrite Hex. cbn [obind app]. rewrite !pow_div by lia.
    destruct (IH fuel added (relP mod kr ^ S d) ltac:(lia) Hent
                ltac:(apply mod_pow_lt; lia)) as (queue' & relP' & Hs & HF' & Hp' & Hc').
    exists queue', relP'. repeat split; try assumption. now rewrite Hc'.
Qed.

Lemma drainQueue_spec (relP : nat) (queue : list SubrowInfo) :
  forall succs,
    Forall (fun e => Entry t 1 (si_z e)) queue ->
    relP < kr ^ 1 ->
    drainQueue t queue relP 1 1 (length T) succs =
    Some (succs ++ queueCols t 1 relP queue).
Proof.
  induction queue as [|cur queue IH]; intros succs HF Hp; cbn [drainQueue].
  - cbn. now rewrite app_nil_r.
  - inversion HF as [|? ? Hcur HF']; subst.
    destruct (Entry_S_read t 0 _ Hcur) as [b Hb]. rewrite Hb. cbn [obind].
    unfold queueCols. cbn [flat_map]. fold (queueCols t 1 relP queue).
    unfold subrowCols at 1. rewrite rowCols_S, Hb by assumption.
    destruct b.
    + destruct Hcur as [_ Hsub]. specialize (Hsub Hb).
      set (Y := rank T (si_z cur + 1) * kr * kc) in *.
      inversion Hsub as [? g HY HL|]; subst.
      rewrite Nat.pow_1_r in Hp. rewrite Nat.div_1_r.
      assert (HK : kc * relP + kc <= K) by (unfold groupSize; nia).
      rewrite scanLeaves_spec by lia. cbn [obind].
      rewrite IH by (assumption || (rewrite Nat.pow_1_r; assumption)).
      rewrite <- app_assoc. do 2 f_equal.
      rewrite rowG_chunks by assumption.
      rewrite Nat.pow_0_r, Nat.div_1_r, Nat.mod_1_r.
      rewrite (flat_map_ext_in _
                 (fun j => if not_null t (nth_error L (Y + kc * relP - length T + j))
                           then [j] else [])).
      * f_equal. rewrite flat_map_if, map_id. apply map_ext. intros j. lia.
      * intros j Hj. apply in_seq in Hj.
        rewrite rowCols_0.
        -- replace (Y + relP * kc + j - length T)
             with (Y + kc * relP - length T + j) by lia.
           destruct (not_null t _); cbn [map]; [f_equal; lia|reflexivity].
        -- replace (Y + relP * kc + j) with (Y + (relP * kc + j)) by lia.
           apply Node_Entry; [exact Hsub|]. apply slot_lt; lia.
    + cbn [obind map app]. apply IH; assumption.
Qed.

End Successors.

Lemma level_off_pos {E : Type} `{ElemType E} (t : KrKcTree E) (k : nat) :
  1 <= kr_ t -> 1 <= kc_ t -> groupSize t <= fst (level t (S k)).
Proof.
  intros Hr Hc. pose proof (level_off_mono t 1 (S k) ltac:(lia)) as Hm.
  cbn [level fst snd] in *. lia.
Qed.

Lemma lenT_zero_iff {E : Type} `{ElemType E} (t : KrKcTree E) :
  well_formed t -> L_empty t = false ->
  (length (T_ t) = 0 <-> h_ t - 1 = 0).
Proof.
  intros Hwf HL. destruct (L_empty_false_shape t Hwf HL) as [Ho _].
  pose proof (wf_kr t Hwf). pose proof (wf_kc t Hwf).
  split; intros Hz.
  - destruct (h_ t - 1) as [|k]; [reflexivity|].
    pose proof (level_off_pos t k ltac:(lia) ltac:(lia)) as Hp.
    unfold groupSize in Hp. nia.
  - rewrite Hz in Ho. cbn in Ho. lia.
Qed.

(** [getSuccessorPositions(i)] lists, in ascending order, the columns [j]
    with [getElement(i, j) != null_]. *)
Lemma getSuccessorPositions_spec {E : Type} `{ElemType E}
  (t : KrKcTree E) (i : nat) :
  well_formed t -> i < numRows_ t ->
  getSuccessorPositions t i =
  Some (filter (fun j => not_null t (getElement t i j)) (seq 0 (numCols_ t))).
Proof.
  intros Hwf Hi. unfold getSuccessorPositions, allSuccessorPositionsIterative.
  destruct (L_empty t) eqn:HL.
  - f_equal. symmetry. apply filter_false. intros j _.
    rewrite getElement_empty by assumption. apply not_null_null.
  - pose proof (wf_kr t Hwf) as Hkr. pose proof (wf_kc t Hwf) as Hkc.
    pose proof (wf_root t Hwf HL) as Hroot.
    pose proof (lenT_zero_iff t Hwf HL) as HT0.
    assert (Hget : forall j, getElement t i j = getG t (h_ t - 1) 0 i j)
      by (intros j; apply (getInit_getG t Hwf i j HL)).
    rewrite (filter_ext_in' _ _ _ (fun j _ => f_equal (not_null t) (Hget j))).
    rewrite (wf_numRows t Hwf) in Hi.
    cbv zeta.
    rewrite (wf_numRows_div t Hwf), (wf_numCols_div t Hwf), (wf_numCols t Hwf).
    pose proof (wf_h t Hwf) as Hh.
    destruct (h_ t - 1) as [|d] eqn:Hd.
    + (* a single level: the root group is in [L_] *)
      destruct HT0 as [_ HT0]. specialize (HT0 eq_refl).
      rewrite HT0. cbn [Nat.eqb].
      inversion Hroot as [? g Hy HLen|]; subst.
      rewrite Nat.pow_1_r in *.
      assert (HK : i * kc_ t + kc_ t <= groupSize t) by (unfold groupSize; nia).
      rewrite scanLeaves_spec by lia. cbn [app]. f_equal.
      rewrite (map_ext _ (fun j => j)) by (intros; lia). rewrite map_id.
      apply filter_ext_in'. intros j Hj. apply in_seq in Hj.
      rewrite getG_leafG.
      destruct (leafG_Node_0 t Hkr Hkc 0 i j Hroot
                  ltac:(rewrite Nat.pow_1_r; lia) ltac:(rewrite Nat.pow_1_r; lia))
        as [-> _].
      do 2 f_equal. lia.
    + (* the general case *)
      assert (HTn : (length (T_ t) =? 0) = false).
      { apply Nat.eqb_neq. intros Hz. apply HT0 in Hz. discriminate. }
      rewrite HTn. rewrite !pow_div by lia. rewrite (pushSubrows_spec t). cbn [app].
      set (queue0 := map _ (seq 0 (kc_ t))).
      assert (HF0 : Forall (fun e => Entry t (S d) (si_z e)) queue0).
      { apply Forall_forall. intros e He. apply in_map_iff in He.
        destruct He as (j & <- & Hj). apply in_seq in Hj. cbn [si_z].
        replace (kc_ t * (i / kr_ t ^ S d) + j)
          with (0 + ((i / kr_ t ^ S d) * kc_ t + j)) by lia.
        apply Node_Entry; [exact Hroot|].
        apply slot_lt; [apply div_pow_lt; lia|lia]. }
      destruct (successorLevels_spec t Hkr Hkc d (h_ t) queue0 (i mod kr_ t ^ S d)
                  ltac:(lia) HF0 ltac:(apply mod_pow_lt; lia))
        as (queue' & relP' & Hs & HF' & Hp' & Hc').
      rewrite Hs. cbn [obind].
      rewrite (drainQueue_spec t Hkr Hkc relP' queue' [] HF' Hp'). cbn [app].
      f_equal. rewrite Hc'.
      change (filter _ _) with (rowG t (S d) 0 i).
      rewrite rowG_chunks by assumption.
      unfold queueCols, queue0. rewrite flat_map_map.
      apply flat_map_ext_in. intros j _. unfold subrowCols. cbn [si_dq si_z].
      replace (0 + i / kr_ t ^ S d * kc_ t + j)
        with (kc_ t * (i / kr_ t ^ S d) + j) by lia.
      apply map_ext. intros q. lia.
Qed.

(** ** Claims C3 and C7: successors and predecessors *)

Lemma StronglySorted_seq (a n : nat) : StronglySorted lt (seq a n).
Proof.
  revert a. induction n as [|n IH]; intros a; cbn [seq]; constructor.
  - apply IH.
  - apply Forall_forall. intros x Hx. apply in_seq in Hx. lia.
Qed.

Lemma StronglySorted_filter_lt (f : nat -> bool) (l : list nat) :
  StronglySorted lt l -> StronglySorted lt (filter f l).
Proof.
  induction 1 as [|x l Hs IH Hx]; cbn [filter]; [constructor|].
  destruct (f x); [|exact IH].
  constructor; [exact IH|].
  apply Forall_forall. intros y Hy. apply filter_In in Hy.
  rewrite Forall_forall in Hx. apply Hx, Hy.
Qed.

(** C3. On a well-formed structure and a row [i < numRows_],
    [getSuccessorPositions(i)] terminates with a strictly ascending list
    whose entries are exactly the columns [j] (below [numCols_]) with
    [getElement(i, j) != null_]. *)
Theorem getSuccessorPositions_sorted_complete {E : Type} `{ElemType E}
  (t : KrKcTree E) (i : nat) :
  well_formed t -> i < numRows_ t ->
  exists succs,
    getSuccessorPositions t i = Some succs /\
    StronglySorted lt succs /\
    forall j, In j succs <->
              (j < numCols_ t /\
               exists v, getElement t i j = Some v /\ v <> null_ t).
Proof.
  intros Hwf Hi. eexists. split; [apply getSuccessorPositions_spec; assumption|].
  split.
  - apply StronglySorted_filter_lt, StronglySorted_seq.
  - intros j. rewrite filter_In, in_seq, not_null_true. cbn [Nat.add].
    split; intros [Hj Hv]; (split; [lia|exact Hv]).
Qed.

(** C7. On a well-formed structure, for [i < numRows_] and [j < numCols_],
    both queries terminate, and [i] is among [getPredecessorPositions(j)]
    exactly when [j] is among [getSuccessorPositions(i)]. *)
Theorem predecessor_successor_symmetry {E : Type} `{ElemType E}
  (t : KrKcTree E) (i j : nat) :
  well_formed t -> i < numRows_ t -> j < numCols_ t ->
  exists preds succs,
    getPredecessorPositions t j = Some preds /\
    getSuccessorPositions t i = Some succs /\
    (In i preds <-> In j succs).
Proof.
  intros Hwf Hi Hj. do 2 eexists.
  split; [apply getPredecessorPositions_spec; assumption|].
  split; [apply getSuccessorPositions_spec; assumption|].
  rewrite !filter_In, !in_seq. cbn [Nat.add].
  split; intros [_ Hv]; (split; [lia|exact Hv]).
Qed.

(** ** First successor *)

Section FirstSuccessor.

Context {E : Type} `{ElemType E}.

Variable t : KrKcTree E.

Local Abbreviation T := (T_ t).
Local Abbreviation L := (L_ t).
Local Abbreviation kr := (kr_ t).
Local Abbreviation kc := (kc_ t).
Local Abbreviation K := (groupSize t).

Lemma stackFuel_slotCost (d : nat) : stackFuel t d = kc * slotCost t d + 1.
Proof. destruct d; cbn [stackFuel slotCost]; lia. Qed.

Lemma slotCost_pos (d : nat) : 1 <= slotCost t d.
Proof. destruct d; cbn [slotCost]; lia. Qed.

Lemma stackWeight_cons (d : nat) (fr : ExtendedSubrowInfo)
  (gs : list (nat * ExtendedSubrowInfo)) :
  stackWeight t ((d, fr) :: gs) =
  (kc - es_j fr) * slotCost t d + 1 + stackWeight t gs.
Proof. reflexivity. Qed.

Lemma firstInRow_spec (n : nat) :
  forall i offset,
    offset + i + n <= length L ->
    firstInRow t n i offset =
    Some (match filter (fun j => not_null t (nth_error L (offset + i + j)))
                       (seq 0 n) with
          | [] => None
          | j :: _ => Some (i + j)
          end).
Proof.
  induction n as [|n IH]; intros i offset Hb; cbn [firstInRow]; [reflexivity|].
  destruct (nth_error L (offset + i)) as [v|] eqn:Hv;
    [|apply nth_error_None in Hv; lia].
  cbn [obind seq filter]. rewrite Nat.add_0_r, Hv. cbn [not_null].
  destruct (negb (elem_eqb v (null_ t))).
  - now rewrite Nat.add_0_r.
  - rewrite IH by lia. rewrite <- seq_shift, filter_map_comm.
    rewrite (filter_ext_in'
               (fun j => not_null t (nth_error L (offset + (i + 1) + j)))
               (fun j => not_null t (nth_error L (offset + i + S j))))
      by (intros j _; do 2 f_equal; lia).
    destruct (filter _ (seq 0 n)) as [|j l]; cbn [map]; [reflexivity|].
    do 2 f_equal. lia.
Qed.

Hypothesis Hkr : 2 <= kr.
Hypothesis Hkc : 2 <= kc.

Lemma frameCols_done (d : nat) (fr : ExtendedSubrowInfo) :
  es_j fr = kc -> frameCols t d fr = [].
Proof. intros Hj. unfold frameCols. rewrite Hj, Nat.sub_diag. reflexivity. Qed.

Lemma frameCols_advance (d : nat) (fr : ExtendedSubrowInfo) :
  es_j fr < kc -> es_nc fr = kc ^ d ->
  frameCols t d fr =
  map (fun q => es_dq fr + q) (rowCols t d (es_z fr) (es_p fr))
  ++ frameCols t d (advance fr).
Proof.
  intros Hj Hnc. unfold frameCols, advance.
  cbn [es_dq es_z es_p es_j es_nc].
  replace (kc - es_j fr) with (S (kc - (es_j fr + 1))) by lia.
  cbn [seq flat_map]. replace (es_z fr + 0) with (es_z fr) by lia. f_equal.
  - apply map_ext. intros q. lia.
  - rewrite <- seq_shift, flat_map_map. apply flat_map_ext_in. intros s _.
    replace (es_z fr + 1 + s) with (es_z fr + S s) by lia.
    apply map_ext. intros q. rewrite Hnc. lia.
Qed.

Lemma FrameOK_advance (d : nat) (fr : ExtendedSubrowInfo) :
  es_j fr < kc -> FrameOK t d fr -> FrameOK t d (advance fr).
Proof.
  intros Hj (Hnr & Hnc & Hp & Hjk & Hent). unfold FrameOK, advance.
  cbn [es_nr es_nc es_p es_j es_z]. repeat split; try assumption; try lia.
  intros s Hs. replace (es_z fr + 1 + s) with (es_z fr + S s) by lia.
  apply Hent. lia.
Qed.

Lemma firstSuccessorLoop_spec (fuel : nat) :
  forall gs,
    stackWeight t gs < fuel ->
    Forall (fun f => FrameOK t (fst f) (snd f)) gs ->
    firstSuccessorLoop t fuel (map snd gs) =
    Some (hd (numCols_ t) (flat_map (fun f => frameCols t (fst f) (snd f)) gs)).
Proof.
  induction fuel as [|fuel IH]; intros gs Hw HF; [lia|].
  cbn [firstSuccessorLoop].
  destruct gs as [|[d cur] gs]; [reflexivity|].
  inversion HF as [|? ? Hcur HF']; subst. cbn [fst snd] in Hcur.
  pose proof Hcur as (Hnr & Hnc & Hp & Hjk & Hent).
  cbn [map snd firstSuccessorStep flat_map fst].
  rewrite stackWeight_cons in Hw.
  destruct (Nat.eqb_spec (es_j cur) kc) as [Hj|Hj].
  - (* the frame is exhausted *)
    cbn [obind]. rewrite frameCols_done by assumption. cbn [app].
    apply IH; [lia|assumption].
  - assert (Hjlt : es_j cur < kc) by lia.
    pose proof (Hent 0 ltac:(lia)) as Hz. rewrite Nat.add_0_r in Hz.
    pose proof (slotCost_pos d) as Hc.
    rewrite (frameCols_advance d cur Hjlt Hnc).
    assert (Hadv : forall gs',
               stackWeight t ((d, advance cur) :: gs') =
               (kc - es_j cur - 1) * slotCost t d + 1 + stackWeight t gs').
    { intros gs'. rewrite stackWeight_cons. unfold advance. cbn [es_j].
      replace (kc - (es_j cur + 1)) with (kc - es_j cur - 1) by lia. lia. }
    assert (Hmul : (kc - es_j cur) * slotCost t d =
                   (kc - es_j cur - 1) * slotCost t d + slotCost t d) by nia.
    destruct d as [|d].
    + (* the entries are leaves *)
      rewrite (Entry_0_leaf t _ Hz).
      destruct (Entry_0_read t _ Hz) as [v Hv]. rewrite Hv. cbn [obind].
      rewrite rowCols_0, Hv by assumption. cbn [not_null].
      destruct (negb (elem_eqb v (null_ t))); cbn [obind map app hd].
      * now rewrite Nat.add_0_r.
      * apply (IH ((0, advance cur) :: gs)).
        -- rewrite Hadv. lia.
        -- constructor; [apply FrameOK_advance; assumption|assumption].
    + rewrite (Entry_S_not_leaf t d _ Hz).
      destruct (Entry_S_read t d _ Hz) as [b Hb]. rewrite Hb. cbn [obind].
      rewrite rowCols_S, Hb by assumption.
      destruct b; cbn [obind].
      * (* descend: a new frame for the row of blocks of the child group *)
        set (new := mkExtendedSubrowInfo _ _ _ _ _ _).
        destruct Hz as [_ Hsub]. specialize (Hsub Hb).
        assert (Hnew : FrameOK t d new).
        { unfold FrameOK, new. cbn [es_nr es_nc es_p es_j es_z].
          rewrite Hnr, Hnc, !pow_div by lia.
          repeat split; try lia.
          - apply mod_pow_lt; lia.
          - intros s Hs.
            replace (rank T (es_z cur + 1) * kr * kc
                     + kc * (es_p cur / kr ^ d) + s)
              with (rank T (es_z cur + 1) * kr * kc
                    + ((es_p cur / kr ^ d) * kc + s)) by lia.
            apply Node_Entry; [exact Hsub|].
            apply slot_lt; [apply div_pow_lt; lia|lia]. }
        assert (Hcols : frameCols t d new =
                        map (fun q => es_dq cur + q)
                            (rowG t d (rank T (es_z cur + 1) * kr * kc) (es_p cur))).
        { unfold frameCols, new. cbn [es_dq es_z es_p es_j].
          rewrite Hnr, !pow_div, Nat.sub_0_r by lia.
          rewrite rowG_chunks, map_flat_map by assumption.
          apply flat_map_ext_in. intros s _. rewrite map_map.
          replace (rank T (es_z cur + 1) * kr * kc + es_p cur / kr ^ d * kc + s)
            with (rank T (es_z cur + 1) * kr * kc + kc * (es_p cur / kr ^ d) + s)
            by lia.
          apply map_ext. intros q. lia. }
        assert (HI : firstSuccessorLoop t fuel
                       (map snd ((d, new) :: (S d, advance cur) :: gs)) =
                     Some (hd (numCols_ t)
                             (flat_map (fun f => frameCols t (fst f) (snd f))
                                ((d, new) :: (S d, advance cur) :: gs)))).
        { apply IH.
          - rewrite stackWeight_cons, Hadv. unfold new at 1. cbn [es_j].
            rewrite Nat.sub_0_r. cbn [slotCost] in *.
            rewrite stackFuel_slotCost in *. lia.
          - constructor; [exact Hnew|].
            constructor; [apply FrameOK_advance; assumption|assumption]. }
        cbn [map snd] in HI. rewrite HI.
        cbn [flat_map fst snd]. rewrite Hcols, app_assoc. reflexivity.
      * cbn [app]. apply (IH ((S d, advance cur) :: gs)).
        -- rewrite Hadv. lia.
        -- constructor; [apply FrameOK_advance; assumption|assumption].
Qed.

End FirstSuccessor.

Lemma stackFuel_mono_S {E : Type} `{ElemType E} (t : KrKcTree E) (d : nat) :
  1 <= kc_ t -> stackFuel t d <= stackFuel t (S d).
Proof. intros Hk. cbn [stackFuel]. nia. Qed.

(** [getFirstSuccessor(i)] is the first column [j] with
    [getElement(i, j) != null_], and [numCols_] when there is none. *)
Lemma getFirstSuccessor_spec {E : Type} `{ElemType E}
  (t : KrKcTree E) (i : nat) :
  well_formed t -> i < numRows_ t ->
  getFirstSuccessor t i =
  Some (hd (numCols_ t)
          (filter (fun j => not_null t (getElement t i j))
                  (seq 0 (numCols_ t)))).
Proof.
  intros Hwf Hi. unfold getFirstSuccessor, firstSuccessorPositionIterative.
  destruct (L_empty t) eqn:HL.
  - rewrite filter_false; [reflexivity|]. intros j _.
    rewrite getElement_empty by assumption. apply not_null_null.
  - pose proof (wf_kr t Hwf) as Hkr. pose proof (wf_kc t Hwf) as Hkc.
    pose proof (wf_root t Hwf HL) as Hroot.
    pose proof (lenT_zero_iff t Hwf HL) as HT0.
    assert (Hget : forall j, getElement t i j = getG t (h_ t - 1) 0 i j)
      by (intros j; apply (getInit_getG t Hwf i j HL)).
    rewrite (filter_ext_in' _ _ _ (fun j _ => f_equal (not_null t) (Hget j))).
    rewrite (wf_numRows t Hwf) in Hi.
    rewrite (wf_numRows_div t Hwf), (wf_numCols_div t Hwf).
    pose proof (wf_h t Hwf) as Hh.
    pose proof (wf_numCols t Hwf) as HnC.
    destruct (h_ t - 1) as [|d] eqn:Hd.
    + destruct HT0 as [_ HT0]. specialize (HT0 eq_refl).
      rewrite HT0. cbn [Nat.eqb].
      inversion Hroot as [? g Hy HLen|]; subst.
      rewrite Nat.pow_1_r in *.
      assert (HK : i * kc_ t + kc_ t <= groupSize t) by (unfold groupSize; nia).
      rewrite firstInRow_spec by lia. cbn [obind].
      rewrite (filter_ext_in'
                 (fun j => not_null t (getG t 0 0 i j))
                 (fun j => not_null t (nth_error (L_ t) (i * numCols_ t + 0 + j)))).
      * destruct (filter _ _); reflexivity.
      * intros j Hj. apply in_seq in Hj. rewrite getG_leafG.
        destruct (leafG_Node_0 t Hkr Hkc 0 i j Hroot
                    ltac:(rewrite Nat.pow_1_r; lia) ltac:(rewrite Nat.pow_1_r; lia))
          as [-> _].
        do 2 f_equal. lia.
    + assert (HTn : (length (T_ t) =? 0) = false).
      { apply Nat.eqb_neq. intros Hz. apply HT0 in Hz. discriminate. }
      rewrite HTn.
      set (fr0 := mkExtendedSubrowInfo _ _ _ _ _ _).
      assert (HI : firstSuccessorLoop t (stackFuel t (h_ t) + 1)
                     (map snd [(S d, fr0)]) =
                   Some (hd (numCols_ t)
                           (flat_map (fun f => frameCols t (fst f) (snd f))
                              [(S d, fr0)]))).
      { apply (firstSuccessorLoop_spec t Hkr Hkc).
        - rewrite stackWeight_cons. unfold fr0 at 1. cbn [es_j stackWeight map list_sum].
          rewrite Nat.sub_0_r, <- stackFuel_slotCost.
          change (stackWeight t []) with 0.
          pose proof (stackFuel_mono_S t (S d) ltac:(lia)). rewrite <- Hh. lia.
        - constructor; [|constructor]. cbn [fst snd].
          unfold FrameOK, fr0. cbn [es_nr es_nc es_p es_j es_z].
          split; [reflexivity|]. split; [reflexivity|].
          split; [apply mod_pow_lt; lia|]. split; [lia|].
          intros s Hs.
          replace (kc_ t * (i / kr_ t ^ S d) + s)
            with (0 + ((i / kr_ t ^ S d) * kc_ t + s)) by lia.
          apply Node_Entry; [exact Hroot|].
          apply slot_lt; [apply div_pow_lt; lia|lia]. }
      cbn [map snd] in HI. rewrite HI. cbn [flat_map fst snd]. rewrite app_nil_r.
      do 2 f_equal. rewrite HnC.
      change (filter _ _) with (rowG t (S d) 0 i).
      rewrite rowG_chunks by assumption.
      unfold frameCols, fr0. cbn [es_dq es_z es_p es_j]. rewrite Nat.sub_0_r.
      apply flat_map_ext_in. intros s _.
      replace (0 + i / kr_ t ^ S d * kc_ t + s)
        with (kc_ t * (i / kr_ t ^ S d) + s) by lia.
      apply map_ext. intros q. lia.
Qed.

(** ** Claim C6: first successor *)

(** C6. On a well-formed structure and a row [i < numRows_], both queries
    terminate; [getFirstSuccessor(i)] is [numCols_] when
    [getSuccessorPositions(i)] is empty, and otherwise it is the least
    element of that list. *)
Theorem getFirstSuccessor_is_minimum {E : Type} `{ElemType E}
  (t : KrKcTree E) (i : nat) :
  well_formed t -> i < numRows_ t ->
  exists succs first,
    getSuccessorPositions t i = Some succs /\
    getFirstSuccessor t i = Some first /\
    (succs = [] -> first = numCols_ t) /\
    (succs <> [] -> In first succs /\ forall j, In j succs -> first <= j).
Proof.
  intros Hwf Hi. do 2 eexists.
  split; [apply getSuccessorPositions_spec; assumption|].
  split; [apply getFirstSuccessor_spec; assumption|].
  pose proof (StronglySorted_filter_lt
                (fun j => not_null t (getElement t i j)) _
                (StronglySorted_seq 0 (numCols_ t))) as Hs.
  destruct (filter _ _) as [|j l]; cbn [hd].
  - split; [reflexivity|]. intros Hne. now contradiction Hne.
  - split; [discriminate|]. intros _. split; [now left|].
    intros j' [<-|Hj']; [lia|].
    inversion Hs as [|? ? _ Hall]; subst. rewrite Forall_forall in Hall.
    specialize (Hall j' Hj'). lia.
Qed.

(** ** Rectangles *)

Lemma in_range_incl (a b i : nat) : In i (range_incl a b) <-> a <= i <= b.
Proof. unfold range_incl. rewrite in_seq. lia. Qed.

(** The part of a range of rows (or columns) that falls into the block of
    child [p / m]. *)
Lemma clip_iff (m p1 p2 p : nat) :
  0 < m -> p1 <= p2 ->
  (p1 <= p <= p2 <->
   (p1 / m <= p / m <= p2 / m /\
    Nat.b2n (p / m =? p1 / m) * (p1 mod m) <= p mod m /\
    p mod m <= (if p / m =? p2 / m then p2 mod m else m - 1))).
Proof.
  intros Hm H12.
  pose proof (Nat.div_mod_eq p m). pose proof (Nat.div_mod_eq p1 m).
  pose proof (Nat.div_mod_eq p2 m).
  pose proof (Nat.mod_upper_bound p m ltac:(lia)).
  pose proof (Nat.mod_upper_bound p1 m ltac:(lia)).
  pose proof (Nat.mod_upper_bound p2 m ltac:(lia)).
  set (a := p / m) in *. set (a1 := p1 / m) in *. set (a2 := p2 / m) in *.
  set (r := p mod m) in *. set (r1 := p1 mod m) in *. set (r2 := p2 mod m) in *.
  destruct (Nat.eqb_spec a a1) as [E1|E1]; destruct (Nat.eqb_spec a a2) as [E2|E2];
    cbn [Nat.b2n]; split; intros; repeat split; try nia.
Qed.

Lemma clip_bounds (m p1 p2 i : nat) :
  0 < m -> p1 <= p2 -> p1 / m <= i <= p2 / m ->
  Nat.b2n (i =? p1 / m) * (p1 mod m)
  <= (if i =? p2 / m then p2 mod m else m - 1) < m.
Proof.
  intros Hm H12 Hi.
  pose proof (Nat.div_mod_eq p1 m). pose proof (Nat.div_mod_eq p2 m).
  pose proof (Nat.mod_upper_bound p1 m ltac:(lia)).
  pose proof (Nat.mod_upper_bound p2 m ltac:(lia)).
  set (a1 := p1 / m) in *. set (a2 := p2 / m) in *.
  set (r1 := p1 mod m) in *. set (r2 := p2 mod m) in *.
  destruct (Nat.eqb_spec i a1) as [E1|E1]; destruct (Nat.eqb_spec i a2) as [E2|E2];
    cbn [Nat.b2n]; split; try nia.
Qed.

Lemma foldM_app_mem {A B : Type} (body : A -> list B -> option (list B))
  (P : A -> B -> Prop) (xs : list A) :
  (forall x s, In x xs ->
     exists out, body x s = Some (s ++ out) /\ forall b, In b out <-> P x b) ->
  forall s,
    exists out, foldM body xs s = Some (s ++ out) /\
                forall b, In b out <-> exists x, In x xs /\ P x b.
Proof.
  induction xs as [|x xs IH]; intros Hb s; cbn [foldM].
  - exists []. rewrite app_nil_r. split; [reflexivity|].
    intros b. split; [contradiction|]. intros (x & [] & _).
  - destruct (Hb x s ltac:(now left)) as (o1 & -> & H1).
    destruct (IH (fun x' s' Hx' => Hb x' s' (or_intror Hx')) (s ++ o1))
      as (o2 & -> & H2).
    exists (o1 ++ o2). rewrite app_assoc. split; [reflexivity|].
    intros b. rewrite in_app_iff, H1, H2. split.
    + intros [Hx|(x' & Hx' & Hp)].
      * exists x. split; [now left|exact Hx].
      * exists x'. split; [now right|exact Hp].
    + intros (x' & [<-|Hx'] & Hp).
      * now left.
      * right. now exists x'.
Qed.

Section Ranges.

Context {E : Type} `{ElemType E}.

Variable t : KrKcTree E.

Local Abbreviation T := (T_ t).
Local Abbreviation L := (L_ t).
Local Abbreviation kr := (kr_ t).
Local Abbreviation kc := (kc_ t).
Local Abbreviation K := (groupSize t).

Hypothesis Hkr : 2 <= kr.
Hypothesis Hkc : 2 <= kc.

(** The nested loops over the children of a group that meet the rectangle. *)
Lemma range_group (fuel d y dp dq p1 p2 q1 q2 : nat) :
  (forall z p1' p2' q1' q2' dp' dq',
      Entry t d z -> p1' <= p2' < kr ^ d -> q1' <= q2' < kc ^ d ->
      RangeOut t
        (fun pairs => rangePos t fuel pairs (kr ^ d) (kc ^ d)
                        p1' p2' q1' q2' dp' dq' z)
        dp' dq' p1' p2' q1' q2' (getU t d z)) ->
  Node t d y -> p1 <= p2 < kr ^ S d -> q1 <= q2 < kc ^ S d ->
  RangeOut t
    (fun pairs =>
       foldM (fun i pairs1 =>
                foldM (fun j pairs2 =>
                         rangePos t fuel pairs2 (kr ^ d) (kc ^ d)
                           (Nat.b2n (i =? p1 / kr ^ d) * (p1 mod kr ^ d))
                           (if i =? p2 / kr ^ d then p2 mod kr ^ d
                            else kr ^ d - 1)
                           (Nat.b2n (j =? q1 / kc ^ d) * (q1 mod kc ^ d))
                           (if j =? q2 / kc ^ d then q2 mod kc ^ d
                            else kc ^ d - 1)
                           (dp + kr ^ d * i) (dq + kc ^ d * j) (y + kc * i + j))
                      (range_incl (q1 / kc ^ d) (q2 / kc ^ d)) pairs1)
             (range_incl (p1 / kr ^ d) (p2 / kr ^ d)) pairs)
    dp dq p1 p2 q1 q2 (getG t d y).
Proof.
  intros Hentry HN Hp Hq pairs.
  pose proof (pow_ge_1 kr d ltac:(lia)) as Hmr.
  pose proof (pow_ge_1 kc d ltac:(lia)) as Hmc.
  pose proof (div_pow_lt kr d p2 ltac:(lia) ltac:(lia)) as Hp2.
  pose proof (div_pow_lt kc d q2 ltac:(lia) ltac:(lia)) as Hq2.
  destruct (foldM_app_mem
              (fun i pairs1 =>
                 foldM (fun j pairs2 =>
                          rangePos t fuel pairs2 (kr ^ d) (kc ^ d)
                            (Nat.b2n (i =? p1 / kr ^ d) * (p1 mod kr ^ d))
                            (if i =? p2 / kr ^ d then p2 mod kr ^ d
                             else kr ^ d - 1)
                            (Nat.b2n (j =? q1 / kc ^ d) * (q1 mod kc ^ d))
                            (if j =? q2 / kc ^ d then q2 mod kc ^ d
                             else kc ^ d - 1)
                            (dp + kr ^ d * i) (dq + kc ^ d * j) (y + kc * i + j))
                       (range_incl (q1 / kc ^ d) (q2 / kc ^ d)) pairs1)
              (fun i ab =>
                 exists j, In j (range_incl (q1 / kc ^ d) (q2 / kc ^ d)) /\
                 exists p q,
                   ab = (dp + kr ^ d * i + p, dq + kc ^ d * j + q) /\
                   Nat.b2n (i =? p1 / kr ^ d) * (p1 mod kr ^ d) <= p
                     <= (if i =? p2 / kr ^ d then p2 mod kr ^ d else kr ^ d - 1) /\
                   Nat.b2n (j =? q1 / kc ^ d) * (q1 mod kc ^ d) <= q
                     <= (if j =? q2 / kc ^ d then q2 mod kc ^ d else kc ^ d - 1) /\
                   not_null t (getU t d (y + kc * i + j) p q) = true)
              (range_incl (p1 / kr ^ d) (p2 / kr ^ d))) with pairs
    as (out & Hrun & Hmem).
  - intros i s Hi. apply in_range_incl in Hi.
    apply foldM_app_mem. intros j s' Hj. apply in_range_incl in Hj.
    apply Hentry.
    + replace (y + kc * i + j) with (y + (i * kc + j)) by lia.
      apply Node_Entry; [exact HN|]. apply slot_lt; lia.
    + apply clip_bounds; lia.
    + apply clip_bounds; lia.
  - exists out. split; [exact Hrun|]. intros ab. rewrite Hmem. split.
    + intros (i & Hi & j & Hj & p & q & -> & Hpr & Hqr & Hnn).
      apply in_range_incl in Hi, Hj.
      pose proof (clip_bounds (kr ^ d) p1 p2 i ltac:(lia) ltac:(lia) Hi) as Hbi.
      pose proof (clip_bounds (kc ^ d) q1 q2 j ltac:(lia) ltac:(lia) Hj) as Hbj.
      exists (i * kr ^ d + p), (j * kc ^ d + q).
      split; [f_equal; lia|].
      assert (Hdp : (i * kr ^ d + p) / kr ^ d = i) by (apply div_mul_add; lia).
      assert (Hmp : (i * kr ^ d + p) mod kr ^ d = p) by (apply mod_mul_add; lia).
      assert (Hdq : (j * kc ^ d + q) / kc ^ d = j) by (apply div_mul_add; lia).
      assert (Hmq : (j * kc ^ d + q) mod kc ^ d = q) by (apply mod_mul_add; lia).
      split; [apply (clip_iff (kr ^ d)); [lia|lia|rewrite Hdp, Hmp; lia]|].
      split; [apply (clip_iff (kc ^ d)); [lia|lia|rewrite Hdq, Hmq; lia]|].
      unfold getG. rewrite Hdp, Hmp, Hdq, Hmq.
      replace (y + i * kc + j) with (y + kc * i + j) by lia. exact Hnn.
    + intros (p & q & -> & Hpr & Hqr & Hnn).
      apply (clip_iff (kr ^ d)) in Hpr; [|lia|lia].
      apply (clip_iff (kc ^ d)) in Hqr; [|lia|lia].
      exists (p / kr ^ d). split; [apply in_range_incl; lia|].
      exists (q / kc ^ d). split; [apply in_range_incl; lia|].
      exists (p mod kr ^ d), (q mod kc ^ d).
      split.
      { f_equal.
        - pose proof (Nat.div_mod_eq p (kr ^ d)). lia.
        - pose proof (Nat.div_mod_eq q (kc ^ d)). lia. }
      split; [lia|]. split; [lia|].
      unfold getG in Hnn.
      replace (y + kc * (p / kr ^ d) + q / kc ^ d)
        with (y + p / kr ^ d * kc + q / kc ^ d) by lia.
      exact Hnn.
Qed.

Lemma rangePos_entry (d : nat) :
  forall fuel z p1 p2 q1 q2 dp dq,
    d < fuel -> Entry t d z -> p1 <= p2 < kr ^ d -> q1 <= q2 < kc ^ d ->
    RangeOut t
      (fun pairs => rangePos t fuel pairs (kr ^ d) (kc ^ d) p1 p2 q1 q2 dp dq z)
      dp dq p1 p2 q1 q2 (getU t d z).
Proof.
  induction d as [|d IH]; intros [|fuel] z p1 p2 q1 q2 dp dq Hf Hz Hp Hq pairs;
    try lia.
  - cbn [rangePos]. rewrite (Entry_0_leaf t z Hz).
    destruct (Entry_0_read t z Hz) as [v Hv]. rewrite Hv. cbn [obind].
    rewrite Nat.pow_0_r in Hp, Hq.
    assert (Hcell : forall p q, not_null t (getU t 0 z p q)
                                = negb (elem_eqb v (null_ t))).
    { intros p q. rewrite getU_0, Hv by assumption. reflexivity. }
    destruct (negb (elem_eqb v (null_ t))) eqn:Hnn.
    + exists [(dp, dq)]. split; [reflexivity|]. intros ab. split.
      * intros [<-|[]]. exists 0, 0. rewrite Hcell.
        repeat split; try lia. f_equal; lia.
      * intros (p & q & -> & Hpr & Hqr & _). left. f_equal; lia.
    + exists []. rewrite app_nil_r. split; [reflexivity|]. intros ab. split.
      * contradiction.
      * intros (p & q & _ & _ & _ & Hc). rewrite Hcell in Hc. discriminate.
  - cbn [rangePos]. rewrite (Entry_S_not_leaf t d z Hz).
    destruct (Entry_S_read t d z Hz) as [b Hb]. rewrite Hb. cbn [obind].
    destruct b.
    + cbv zeta. rewrite !pow_div by lia.
      pose proof Hz as [_ Hsub]. specialize (Hsub Hb).
      destruct (range_group fuel d (rank T (z + 1) * kr * kc) dp dq p1 p2 q1 q2
                  (fun z' p1' p2' q1' q2' dp' dq' Hz' Hp' Hq' =>
                     IH fuel z' p1' p2' q1' q2' dp' dq' ltac:(lia) Hz' Hp' Hq')
                  Hsub Hp Hq pairs) as (out & Hrun & Hmem).
      exists out. split; [exact Hrun|]. intros ab. rewrite Hmem.
      split; intros (p & q & Hab & Hpr & Hqr & Hnn); exists p, q;
        (split; [exact Hab|]); (split; [exact Hpr|]); (split; [exact Hqr|]);
        rewrite getU_S, Hb in * by assumption; exact Hnn.
    + exists []. rewrite app_nil_r. split; [reflexivity|]. intros ab. split.
      * contradiction.
      * intros (p & q & _ & _ & _ & Hc).
        rewrite getU_S, Hb, not_null_null in Hc by assumption. discriminate.
Qed.

End Ranges.

(** ** Claim C4: positions in a rectangle *)

(** C4. On a well-formed structure and a rectangle with
    [i1 <= i2 < numRows_] and [j1 <= j2 < numCols_],
    [getPositionsInRange(i1, i2, j1, j2)] terminates, and the positions it
    returns are exactly the cells [(i, j)] of the rectangle with
    [getElement(i, j) != null_]. *)
Theorem getPositionsInRange_complete {E : Type} `{ElemType E}
  (t : KrKcTree E) (i1 i2 j1 j2 : nat) :
  well_formed t -> i1 <= i2 < numRows_ t -> j1 <= j2 < numCols_ t ->
  exists out,
    getPositionsInRange t i1 i2 j1 j2 = Some out /\
    forall i j, In (i, j) out <->
                (i1 <= i <= i2 /\ j1 <= j <= j2 /\
                 exists v, getElement t i j = Some v /\ v <> null_ t).
Proof.
  intros Hwf Hi Hj. unfold getPositionsInRange, rangePosInit.
  destruct (L_empty t) eqn:HL.
  - exists []. split; [reflexivity|]. intros i j. split; [contradiction|].
    intros (_ & _ & v & Hv & Hne).
    rewrite getElement_empty in Hv by assumption.
    injection Hv as <-. now contradiction Hne.
  - pose proof (wf_kr t Hwf) as Hkr. pose proof (wf_kc t Hwf) as Hkc.
    rewrite (wf_numRows t Hwf) in Hi. rewrite (wf_numCols t Hwf) in Hj.
    cbv zeta. rewrite (wf_numRows_div t Hwf), (wf_numCols_div t Hwf).
    pose proof (wf_h t Hwf) as Hh.
    destruct (range_group t Hkr Hkc (h_ t) (h_ t - 1) 0 0 0 i1 i2 j1 j2
                (fun z p1' p2' q1' q2' dp' dq' Hz' Hp' Hq' =>
                   rangePos_entry t Hkr Hkc (h_ t - 1) (h_ t) z p1' p2' q1' q2'
                     dp' dq' ltac:(lia) Hz' Hp' Hq')
                (wf_root t Hwf HL) Hi Hj []) as (out & Hrun & Hmem).
    cbn [Nat.add app] in Hrun.
    exists out. split; [exact Hrun|]. intros i j. rewrite Hmem. split.
    + intros (p & q & Hab & Hpr & Hqr & Hnn). cbn [Nat.add] in Hab.
      injection Hab as -> ->. split; [exact Hpr|]. split; [exact Hqr|].
      apply not_null_true. unfold getElement.
      now rewrite (getInit_getG t Hwf p q HL).
    + intros (Hpr & Hqr & Hv). exists i, j. split; [reflexivity|].
      split; [exact Hpr|]. split; [exact Hqr|].
      apply not_null_true in Hv. unfold getElement in Hv.
      now rewrite (getInit_getG t Hwf i j HL) in Hv.
Qed.

(** ** Containment *)

Lemma anyM_spec {A : Type} (body : A -> option bool) (P : A -> Prop)
  (xs : list A) :
  (forall x, In x xs -> exists b, body x = Some b /\ (b = true <-> P x)) ->
  exists b, anyM body xs = Some b /\ (b = true <-> exists x, In x xs /\ P x).
Proof.
  induction xs as [|x xs IH]; intros Hb; cbn [anyM].
  - exists false. split; [reflexivity|]. split; [discriminate|].
    intros (x & [] & _).
  - destruct (Hb x ltac:(now left)) as (b & -> & Hx).
    destruct b.
    + exists true. split; [reflexivity|]. split; [|reflexivity].
      intros _. exists x. split; [now left|]. now apply Hx.
    + destruct (IH (fun x' Hx' => Hb x' (or_intror Hx'))) as (b' & -> & Hxs).
      exists b'. split; [reflexivity|]. rewrite Hxs. split.
      * intros (x' & Hx' & Hp). exists x'. split; [now right|exact Hp].
      * intros (x' & [<-|Hx'] & Hp).
        -- apply Hx in Hp. discriminate.
        -- now exists x'.
Qed.

Lemma groups_nonzero_get {A : Type} (f : A -> bool) (K g : nat) (l : list A) :
  groups_nonzero f K l = true -> 0 < K -> K * g + K <= length l ->
  exists s x, s < K /\ nth_error l (K * g + s) = Some x /\ f x = true.
Proof.
  unfold groups_nonzero. intros Hall HK Hg.
  rewrite forallb_forall in Hall.
  assert (Hin : In g (seq 0 (length l / K))).
  { apply in_seq. split; [lia|]. cbn [Nat.add].
    assert (g + 1 <= length l / K); [|lia].
    apply Nat.div_le_lower_bound; lia. }
  specialize (Hall g Hin). apply existsb_exists in Hall.
  destruct Hall as (x & Hx & Hf).
  apply In_nth_error in Hx. destruct Hx as [s Hs].
  rewrite nth_error_firstn in Hs.
  destruct (Nat.ltb_spec s K); [|discriminate].
  rewrite nth_error_skipn in Hs. now exists s, x.
Qed.

Section Containment.

Context {E : Type} `{ElemType E}.

Variable t : KrKcTree E.

Local Abbreviation T := (T_ t).
Local Abbreviation L := (L_ t).
Local Abbreviation kr := (kr_ t).
Local Abbreviation kc := (kc_ t).
Local Abbreviation K := (groupSize t).

Hypothesis Hkr : 2 <= kr.
Hypothesis Hkc : 2 <= kc.
Hypothesis Hpruned : pruned t.
Hypothesis Htruthy : truthy_not_null t.

(** A group that was kept holds a value. *)
Lemma pruned_nonempty (d : nat) :
  forall y, Node t d y ->
  exists p q, p < kr ^ S d /\ q < kc ^ S d /\
              not_null t (getG t d y p q) = true.
Proof.
  assert (HK : 0 < K) by (unfold groupSize; nia).
  induction d as [|d IH]; intros y HN.
  - inversion HN as [? g Hy HL|]; subst.
    destruct Hpruned as [_ HpL].
    destruct (groups_nonzero_get _ K g L HpL HK ltac:(lia)) as (s & v & Hs & Hv & Hf).
    exists (s / kc), (s mod kc).
    assert (Hsd : s / kc < kr).
    { apply Nat.Div0.div_lt_upper_bound. unfold groupSize in Hs. lia. }
    assert (Hsm : s mod kc < kc) by (apply Nat.mod_upper_bound; lia).
    rewrite !Nat.pow_1_r. split; [exact Hsd|]. split; [exact Hsm|].
    rewrite getG_leafG.
    destruct (leafG_Node_0 t Hkr Hkc _ (s / kc) (s mod kc) HN
                ltac:(rewrite Nat.pow_1_r; lia) ltac:(rewrite Nat.pow_1_r; lia))
      as [-> _].
    pose proof (Nat.div_mod_eq s kc) as Hdm.
    replace (length T + K * g + s / kc * kc + s mod kc - length T)
      with (K * g + s) by lia.
    rewrite Hv. exact Hf.
  - inversion HN as [|? ? g Hy HT Hsub]; subst.
    destruct Hpruned as [HpT _].
    destruct (groups_nonzero_get _ K g T HpT HK ltac:(lia)) as (s & b & Hs & Hb & Hf).
    cbn beta in Hf. subst b.
    destruct (IH _ (Hsub s Hs Hb)) as (p' & q' & Hp' & Hq' & Hnn).
    assert (Hsd : s / kc < kr).
    { apply Nat.Div0.div_lt_upper_bound. unfold groupSize in Hs. lia. }
    assert (Hsm : s mod kc < kc) by (apply Nat.mod_upper_bound; lia).
    pose proof (Nat.div_mod_eq s kc) as Hdm.
    exists (s / kc * kr ^ S d + p'), (s mod kc * kc ^ S d + q').
    split; [rewrite (Nat.pow_succ_r' kr (S d)); nia|].
    split; [rewrite (Nat.pow_succ_r' kc (S d)); nia|].
    unfold getG. rewrite !div_mul_add, !mod_mul_add by lia.
    fold (getU t (S d) (K * g + s / kc * kc + s mod kc) p' q').
    replace (K * g + s / kc * kc + s mod kc) with (K * g + s) by lia.
    rewrite getU_S, Hb.
    + exact Hnn.
    + exact Hkr.
    + exact Hkc.
    + apply Node_Entry; assumption.
Qed.

Lemma contains_group (fuel d y p1 p2 q1 q2 : nat) :
  (forall z p1' p2' q1' q2',
      Entry t d z -> p1' <= p2' < kr ^ d -> q1' <= q2' < kc ^ d ->
      ContainsOut t
        (elemInRange t fuel (kr ^ d) (kc ^ d) p1' p2' q1' q2' z)
        p1' p2' q1' q2' (getU t d z)) ->
  Node t d y -> p1 <= p2 < kr ^ S d -> q1 <= q2 < kc ^ S d ->
  ContainsOut t
    (anyM (fun i =>
             anyM (fun j =>
                     elemInRange t fuel (kr ^ d) (kc ^ d)
                       (Nat.b2n (i =? p1 / kr ^ d) * (p1 mod kr ^ d))
                       (if i =? p2 / kr ^ d then p2 mod kr ^ d else kr ^ d - 1)
                       (Nat.b2n (j =? q1 / kc ^ d) * (q1 mod kc ^ d))
                       (if j =? q2 / kc ^ d then q2 mod kc ^ d else kc ^ d - 1)
                       (y + kc * i + j))
                  (range_incl (q1 / kc ^ d) (q2 / kc ^ d)))
          (range_incl (p1 / kr ^ d) (p2 / kr ^ d)))
    p1 p2 q1 q2 (getG t d y).
Proof.
  intros Hentry HN Hp Hq.
  pose proof (pow_ge_1 kr d ltac:(lia)) as Hmr.
  pose proof (pow_ge_1 kc d ltac:(lia)) as Hmc.
  pose proof (div_pow_lt kr d p2 ltac:(lia) ltac:(lia)) as Hp2.
  pose proof (div_pow_lt kc d q2 ltac:(lia) ltac:(lia)) as Hq2.
  destruct (anyM_spec
              (fun i =>
                 anyM (fun j =>
                         elemInRange t fuel (kr ^ d) (kc ^ d)
                           (Nat.b2n (i =? p1 / kr ^ d) * (p1 mod kr ^ d))
                           (if i =? p2 / kr ^ d then p2 mod kr ^ d else kr ^ d - 1)
                           (Nat.b2n (j =? q1 / kc ^ d) * (q1 mod kc ^ d))
                           (if j =? q2 / kc ^ d then q2 mod kc ^ d else kc ^ d - 1)
                           (y + kc * i + j))
                      (range_incl (q1 / kc ^ d) (q2 / kc ^ d)))
              (fun i =>
                 exists j, In j (range_incl (q1 / kc ^ d) (q2 / kc ^ d)) /\
                 exists p q,
                   Nat.b2n (i =? p1 / kr ^ d) * (p1 mod kr ^ d) <= p
                     <= (if i =? p2 / kr ^ d then p2 mod kr ^ d else kr ^ d - 1) /\
                   Nat.b2n (j =? q1 / kc ^ d) * (q1 mod kc ^ d) <= q
                     <= (if j =? q2 / kc ^ d then q2 mod kc ^ d else kc ^ d - 1) /\
                   not_null t (getU t d (y + kc * i + j) p q) = true)
              (range_incl (p1 / kr ^ d) (p2 / kr ^ d)))
    as (b & Hrun & Hmem).
  - intros i Hi. apply in_range_incl in Hi.
    apply anyM_spec. intros j Hj. apply in_range_incl in Hj.
    apply Hentry.
    + replace (y + kc * i + j) with (y + (i * kc + j)) by lia.
      apply Node_Entry; [exact HN|]. apply slot_lt; lia.
    + apply clip_bounds; lia.
    + apply clip_bounds; lia.
  - exists b. split; [exact Hrun|]. rewrite Hmem. split.
    + intros (i & Hi & j & Hj & p & q & Hpr & Hqr & Hnn).
      apply in_range_incl in Hi, Hj.
      pose proof (clip_bounds (kr ^ d) p1 p2 i ltac:(lia) ltac:(lia) Hi) as Hbi.
      pose proof (clip_bounds (kc ^ d) q1 q2 j ltac:(lia) ltac:(lia) Hj) as Hbj.
      exists (i * kr ^ d + p), (j * kc ^ d + q).
      assert (Hdp : (i * kr ^ d + p) / kr ^ d = i) by (apply div_mul_add; lia).
      assert (Hmp : (i * kr ^ d + p) mod kr ^ d = p) by (apply mod_mul_add; lia).
      assert (Hdq : (j * kc ^ d + q) / kc ^ d = j) by (apply div_mul_add; lia).
      assert (Hmq : (j * kc ^ d + q) mod kc ^ d = q) by (apply mod_mul_add; lia).
      split; [apply (clip_iff (kr ^ d)); [lia|lia|rewrite Hdp, Hmp; lia]|].
      split; [apply (clip_iff (kc ^ d)); [lia|lia|rewrite Hdq, Hmq; lia]|].
      unfold getG. rewrite Hdp, Hmp, Hdq, Hmq.
      replace (y + i * kc + j) with (y + kc * i + j) by lia. exact Hnn.
    + intros (p & q & Hpr & Hqr & Hnn).
      apply (clip_iff (kr ^ d)) in Hpr; [|lia|lia].
      apply (clip_iff (kc ^ d)) in Hqr; [|lia|lia].
      exists (p / kr ^ d). split; [apply in_range_incl; lia|].
      exists (q / kc ^ d). split; [apply in_range_incl; lia|].
      exists (p mod kr ^ d), (q mod kc ^ d).
      split; [lia|]. split; [lia|].
      unfold getG in Hnn.
      replace (y + kc * (p / kr ^ d) + q / kc ^ d)
        with (y + p / kr ^ d * kc + q / kc ^ d) by lia.
      exact Hnn.
Qed.

Lemma elemInRange_entry (d : nat) :
  forall fuel z p1 p2 q1 q2,
    d < fuel -> Entry t d z -> p1 <= p2 < kr ^ d -> q1 <= q2 < kc ^ d ->
    ContainsOut t (elemInRange t fuel (kr ^ d) (kc ^ d) p1 p2 q1 q2 z)
      p1 p2 q1 q2 (getU t d z).
Proof.
  induction d as [|d IH]; intros [|fuel] z p1 p2 q1 q2 Hf Hz Hp Hq; try lia.
  - cbn [elemInRange]. rewrite (Entry_0_leaf t z Hz).
    destruct (Entry_0_read t z Hz) as [v Hv]. rewrite Hv. cbn [obind].
    rewrite Nat.pow_0_r in Hp, Hq.
    exists (elem_to_bool v). split; [reflexivity|].
    rewrite Htruthy. split.
    + intros Hnn. exists 0, 0. rewrite getU_0, Hv by assumption.
      repeat split; try lia. exact Hnn.
    + intros (p & q & _ & _ & Hnn). rewrite getU_0, Hv in Hnn by assumption.
      exact Hnn.
  - cbn [elemInRange]. rewrite (Entry_S_not_leaf t d z Hz).
    destruct (Entry_S_read t d z Hz) as [b Hb]. rewrite Hb. cbn [obind].
    destruct b.
    + pose proof Hz as [_ Hsub]. specialize (Hsub Hb).
      destruct ((p1 =? 0) && (q1 =? 0) && (p2 =? kr ^ S d - 1)
                && (q2 =? kc ^ S d - 1)) eqn:Hfull.
      * (* the rectangle is the whole block of a set bit *)
        apply andb_prop in Hfull. destruct Hfull as [Hfull Hq2].
        apply andb_prop in Hfull. destruct Hfull as [Hfull Hp2].
        apply andb_prop in Hfull. destruct Hfull as [Hp1 Hq1].
        apply Nat.eqb_eq in Hp1, Hq1, Hp2, Hq2.
        exists true. split; [reflexivity|]. split; [|reflexivity]. intros _.
        destruct (pruned_nonempty d _ Hsub) as (p & q & Hpb & Hqb & Hnn).
        exists p, q. split; [lia|]. split; [lia|].
        now rewrite getU_S, Hb.
      * cbv zeta. rewrite !pow_div by lia.
        destruct (contains_group fuel d (rank T (z + 1) * kr * kc) p1 p2 q1 q2
                    (fun z' p1' p2' q1' q2' Hz' Hp' Hq' =>
                       IH fuel z' p1' p2' q1' q2' ltac:(lia) Hz' Hp' Hq')
                    Hsub Hp Hq) as (b & Hrun & Hmem).
        exists b. split; [exact Hrun|]. rewrite Hmem.
        split; intros (p & q & Hpr & Hqr & Hnn); exists p, q;
          (split; [exact Hpr|]); (split; [exact Hqr|]);
          rewrite getU_S, Hb in * by assumption; exact Hnn.
    + exists false. split; [reflexivity|]. split; [discriminate|].
      intros (p & q & _ & _ & Hc).
      rewrite getU_S, Hb, not_null_null in Hc by assumption. discriminate.
Qed.

End Containment.

(** ** The running example *)

Example exampleTree_built :
  KrKcTree_of_matrix exampleMatrix 2 2 0%Z = Some exampleTree.
Proof. reflexivity. Qed.

Example exampleTree_well_formed : well_formed exampleTree.
Proof.
  unfold well_formed. cbn [kr_ kc_ h_ numRows_ numCols_ exampleTree].
  repeat split; try lia. right. split; reflexivity.
Qed.

Example exampleTree_pruned : pruned exampleTree.
Proof. split; reflexivity. Qed.

Example clearedTree_reached :
  (t1 <- setNull exampleTree 0 0 ;; t2 <- setNull t1 1 3 ;; setNull t2 3 2)
  = Some clearedTree.
Proof. reflexivity. Qed.

(** ** [setNull] keeps the structure well formed *)

Lemma level_ext {E : Type} `{ElemType E} (t t' : KrKcTree E) :
  T_ t' = T_ t -> kr_ t' = kr_ t -> kc_ t' = kc_ t ->
  forall k, level t' k = level t k.
Proof.
  intros HT Hr Hc k. induction k as [|k IH]; cbn [level]; [reflexivity|].
  unfold groupSize. now rewrite IH, HT, Hr, Hc.
Qed.

Lemma setNull_well_formed {E : Type} `{ElemType E} (t t' : KrKcTree E)
  (i j : nat) :
  well_formed t -> setNull t i j = Some t' -> well_formed t'.
Proof.
  intros Hwf Hset. unfold setNull in Hset.
  destruct (setInit t i j) as [L'|] eqn:HL'; [|discriminate].
  cbn [obind] in Hset. injection Hset as <-.
  assert (Hlen : length L' = length (L_ t)).
  { unfold setInit in HL'. destruct (L_empty t).
    - now injection HL' as <-.
    - rewrite set_leaf_index in HL'.
      destruct (leaf_index _ _ _ _ _ _ _) as [[a|]|]; try discriminate.
      + destruct (a <? length (L_ t)); [|discriminate].
        injection HL' as <-. apply length_list_update.
      + now injection HL' as <-. }
  destruct Hwf as (Hr & Hc & Hh & HnR & HnC & Hs).
  unfold well_formed. cbn [kr_ kc_ h_ numRows_ numCols_ T_ L_].
  repeat (split; [assumption|]).
  destruct Hs as [Hnil|[Ho Hl]].
  - left. rewrite Hnil in Hlen. now destruct L'.
  - right.
    rewrite (level_ext t (mkKrKcTree (T_ t) L' (h_ t) (kr_ t) (kc_ t)
                            (numRows_ t) (numCols_ t) (null_ t))
               eq_refl eq_refl eq_refl).
    unfold groupSize in *. cbn [kr_ kc_]. rewrite Hlen. split; assumption.
Qed.

(** ** Claim C5: containment *)

(** C5, as stated, fails after [setNull]: it keeps the bits of [T_], and
    the shortcut for a rectangle that is the whole block of a set bit
    answers [true] without looking at [L_].  After [setNull] on the three
    values of the running example the structure is still well formed, every
    cell reads [null_], and [containsElement] on the whole matrix is
    [true]. *)
Lemma containsElement_stale_after_setNull :
  (t1 <- setNull exampleTree 0 0 ;; t2 <- setNull t1 1 3 ;; setNull t2 3 2)
    = Some clearedTree /\
  well_formed clearedTree /\
  ~ (containsElement clearedTree 0 3 0 3 = Some true <->
     exists i j, 0 <= i <= 3 /\ 0 <= j <= 3 /\
                 exists v, getElement clearedTree i j = Some v /\
                           v <> null_ clearedTree).
Proof.
  split; [reflexivity|]. split.
  - unfold well_formed. cbn [kr_ kc_ h_ numRows_ numCols_ clearedTree].
    repeat split; try lia. right. split; reflexivity.
  - intros [Hex _]. destruct (Hex eq_refl) as (i & j & Hi & Hj & v & Hv & Hne).
    assert (Hi' : i = 0 \/ i = 1 \/ i = 2 \/ i = 3) by lia.
    assert (Hj' : j = 0 \/ j = 1 \/ j = 2 \/ j = 3) by lia.
    destruct Hi' as [-> | [-> | [-> | ->]]];
      destruct Hj' as [-> | [-> | [-> | ->]]];
      vm_compute in Hv; injection Hv as <-; now apply Hne.
Qed.

(** C5, amended.  On a well-formed structure that is still pruned (as the
    builders leave it, before any [setNull]) and whose element type converts
    to [true] exactly on the values other than [null_], and for a rectangle
    with [i1 <= i2 < numRows_] and [j1 <= j2 < numCols_],
    [containsElement(i1, i2, j1, j2)] terminates, and it returns [true] if
    and only if some cell [(i, j)] of the rectangle has
    [getElement(i, j) != null_]. *)
Theorem containsElement_iff_pruned {E : Type} `{ElemType E}
  (t : KrKcTree E) (i1 i2 j1 j2 : nat) :
  well_formed t -> pruned t -> truthy_not_null t ->
  i1 <= i2 < numRows_ t -> j1 <= j2 < numCols_ t ->
  exists b,
    containsElement t i1 i2 j1 j2 = Some b /\
    (b = true <->
     exists i j, i1 <= i <= i2 /\ j1 <= j <= j2 /\
                 exists v, getElement t i j = Some v /\ v <> null_ t).
Proof.
  intros Hwf Hpr Htr Hi Hj. unfold containsElement, elemInRangeInit.
  destruct (L_empty t) eqn:HL.
  - exists false. split; [reflexivity|]. split; [discriminate|].
    intros (i & j & _ & _ & v & Hv & Hne).
    rewrite getElement_empty in Hv by assumption.
    injection Hv as <-. now contradiction Hne.
  - pose proof (wf_kr t Hwf) as Hkr. pose proof (wf_kc t Hwf) as Hkc.
    pose proof (wf_root t Hwf HL) as Hroot.
    pose proof (wf_h t Hwf) as Hh.
    assert (Hcell : forall i j,
               (exists v, getElement t i j = Some v /\ v <> null_ t) <->
               not_null t (getG t (h_ t - 1) 0 i j) = true).
    { intros i j. rewrite not_null_true. unfold getElement.
      now rewrite (getInit_getG t Hwf i j HL). }
    rewrite (wf_numRows t Hwf) in *. rewrite (wf_numCols t Hwf) in *.
    destruct ((i1 =? 0) && (j1 =? 0) && (i2 =? kr_ t ^ S (h_ t - 1) - 1)
              && (j2 =? kc_ t ^ S (h_ t - 1) - 1)) eqn:Hfull.
    + exists true. split; [reflexivity|]. split; [|reflexivity]. intros _.
      apply andb_prop in Hfull. destruct Hfull as [Hfull Hq2].
      apply andb_prop in Hfull. destruct Hfull as [Hfull Hp2].
      apply andb_prop in Hfull. destruct Hfull as [Hp1 Hq1].
      apply Nat.eqb_eq in Hp1, Hq1, Hp2, Hq2.
      destruct (pruned_nonempty t Hkr Hkc Hpr Htr (h_ t - 1) 0 Hroot)
        as (p & q & Hpb & Hqb & Hnn).
      exists p, q. split; [lia|]. split; [lia|]. now apply Hcell.
    + cbv zeta. rewrite !pow_div by lia.
      destruct (contains_group t Hkr Hkc Hpr Htr (h_ t) (h_ t - 1) 0 i1 i2 j1 j2
                  (fun z p1' p2' q1' q2' Hz' Hp' Hq' =>
                     elemInRange_entry t Hkr Hkc Hpr Htr (h_ t - 1) (h_ t)
                       z p1' p2' q1' q2' ltac:(lia) Hz' Hp' Hq')
                  Hroot Hi Hj) as (b & Hrun & Hmem).
      cbn [Nat.add] in Hrun. exists b. split; [exact Hrun|]. rewrite Hmem.
      split; intros (p & q & Hp & Hq & Hnn); exists p, q;
        (split; [exact Hp|]); (split; [exact Hq|]); now apply Hcell.
Qed.

(** ** The matrix builder *)

Lemma isAllZero_map {A : Type} (f : A -> bool) (l : list A) :
  isAllZero (map f l) = negb (existsb f l).
Proof.
  unfold isAllZero. induction l as [|x l IH]; cbn [map forallb existsb]; [reflexivity|].
  rewrite IH. now destruct (f x), (existsb f l).
Qed.

Lemma isAll_map {E : Type} `{ElemType E} {A : Type} (g : A -> E) (null : E)
  (l : list A) :
  isAll (map g l) null = negb (existsb (fun x => negb (elem_eqb (g x) null)) l).
Proof.
  unfold isAll. induction l as [|x l IH]; cbn [map forallb existsb]; [reflexivity|].
  rewrite IH. now destruct (elem_eqb (g x) null), (existsb _ l).
Qed.

Lemma mapM_map {A B : Type} (f : A -> option B) (g : A -> B) (xs : list A) :
  (forall x, f x = Some (g x)) -> mapM f xs = Some (map g xs).
Proof.
  intros Hf. induction xs as [|x xs IH]; cbn [mapM map]; [reflexivity|].
  now rewrite Hf, IH.
Qed.

Lemma buildFromMatrix_S {E : Type} `{ElemType E} (kr kc h : nat) (null : E)
  (mat : matrix_type E) (fuel : nat) (st : build_state)
  (numRows numCols l p q : nat) :
  buildFromMatrix kr kc h null (S fuel) mat st numRows numCols l p q =
  if l =? h then
    C <- mapM (fun ij => mat_read mat null (p + fst ij) (q + snd ij))
              (child_slots kr kc) ;;
    if isAll C null then Some (false, st)
    else Some (true, mkBuildState (levels st) (bs_L st ++ C))
  else
    match
      collect
        (fun ij st' =>
           buildFromMatrix kr kc h null fuel mat st' (numRows / kr) (numCols / kc)
             (l + 1) (p + fst ij * (numRows / kr)) (q + snd ij * (numCols / kc)))
        (child_slots kr kc) st
    with
    | None => None
    | Some (C, st') =>
        if isAllZero C then Some (false, st')
        else
          i <- offset_from l 1 ;;
          lvls <- append_level (levels st') i C ;;
          Some (true, mkBuildState lvls (bs_L st'))
    end.
Proof. reflexivity. Qed.

(** On a matrix none of whose rows is shorter than the first, the guarded
    read of the builder yields the entry of the padded matrix. *)
Lemma mat_read_mat_at {E : Type} `{ElemType E} (mat : matrix_type E)
  (null : E) (p q : nat) :
  (forall i, i < length mat -> length (nth 0 mat []) <= length (nth i mat [])) ->
  mat_read mat null p q = Some (mat_at mat null p q).
Proof.
  intros Hrect. unfold mat_read, mat_at.
  destruct (Nat.ltb_spec p (length mat)) as [Hp|Hp]; [|reflexivity].
  cbn [andb]. rewrite (nth_error_nth' mat [] (n := 0)) by lia. cbn [obind].
  destruct (Nat.ltb_spec q (length (nth 0 mat []))) as [Hq|Hq]; [|reflexivity].
  rewrite (nth_error_nth' mat [] Hp). cbn [obind].
  apply nth_error_nth'. specialize (Hrect p Hp). lia.
Qed.

Section BuilderFacts.

Context {E : Type} `{ElemType E}.

Variables (mat : matrix_type E) (kr kc : nat) (null : E).

Local Abbreviation cell := (fun pq : nat * nat => mat_at mat null (fst pq) (snd pq)).
Local Abbreviation ne := (nonempty mat kr kc null).

Lemma length_levelsOf (d : nat) :
  forall F, length (levelsOf mat kr kc null d F) = d.
Proof. induction d as [|d IH]; intros F; cbn [levelsOf length]; auto. Qed.

Lemma levelsOf_nil (d : nat) : levelsOf mat kr kc null d [] = repeat [] d.
Proof. induction d as [|d IH]; cbn; [reflexivity|]. now rewrite IH. Qed.

Lemma leavesOf_nil (d : nat) : leavesOf mat kr kc null d [] = [].
Proof. induction d as [|d IH]; cbn; [reflexivity|]. exact IH. Qed.

Lemma groupBits_app (d : nat) (F1 F2 : list (nat * nat)) :
  groupBits mat kr kc null d (F1 ++ F2) =
  groupBits mat kr kc null d F1 ++ groupBits mat kr kc null d F2.
Proof. unfold groupBits. now rewrite flat_map_app, map_app. Qed.

Lemma nextForest_app (d : nat) (F1 F2 : list (nat * nat)) :
  nextForest mat kr kc null d (F1 ++ F2) =
  nextForest mat kr kc null d F1 ++ nextForest mat kr kc null d F2.
Proof. unfold nextForest. now rewrite flat_map_app, filter_app. Qed.

Lemma levelsOf_app (d : nat) :
  forall F1 F2,
    levelsOf mat kr kc null d (F1 ++ F2) =
    zip_app (levelsOf mat kr kc null d F1) (levelsOf mat kr kc null d F2).
Proof.
  induction d as [|d IH]; intros F1 F2; cbn [levelsOf zip_app]; [reflexivity|].
  now rewrite groupBits_app, nextForest_app, IH.
Qed.

Lemma leavesOf_app (d : nat) :
  forall F1 F2,
    leavesOf mat kr kc null d (F1 ++ F2) =
    leavesOf mat kr kc null d F1 ++ leavesOf mat kr kc null d F2.
Proof.
  induction d as [|d IH]; intros F1 F2; cbn [leavesOf].
  - now rewrite flat_map_app, map_app.
  - now rewrite nextForest_app, IH.
Qed.

Lemma add_levels_repeat_nil (lvls : list (list bool)) :
  forall skip d, add_levels lvls skip (repeat [] d) = lvls.
Proof.
  induction lvls as [|lv rest IH]; intros skip d; cbn [add_levels]; [reflexivity|].
  destruct skip as [|skip].
  - destruct d as [|d]; cbn [repeat]; [reflexivity|].
    now rewrite app_nil_r, IH.
  - now rewrite IH.
Qed.

Lemma add_levels_add_levels (lvls : list (list bool)) :
  forall skip a b,
    length a = length b ->
    add_levels (add_levels lvls skip a) skip b = add_levels lvls skip (zip_app a b).
Proof.
  induction lvls as [|lv rest IH]; intros skip a b Hab; cbn [add_levels]; [reflexivity|].
  destruct skip as [|skip].
  - destruct a as [|x a], b as [|y b]; cbn [length] in Hab; try discriminate;
      cbn [add_levels zip_app]; [reflexivity|].
    rewrite <- app_assoc, IH by lia. reflexivity.
  - cbn [add_levels]. now rewrite IH.
Qed.

Lemma length_add_levels (lvls : list (list bool)) :
  forall skip new, length (add_levels lvls skip new) = length lvls.
Proof.
  induction lvls as [|lv rest IH]; intros skip new; cbn [add_levels];
    [reflexivity|].
  destruct skip as [|skip]; [destruct new as [|x new]|]; cbn [length];
    now rewrite ?IH.
Qed.

Lemma append_level_add_levels (lvls : list (list bool)) :
  forall skip C new,
    skip < length lvls ->
    append_level (add_levels lvls (S skip) new) skip C =
    Some (add_levels lvls skip (C :: new)).
Proof.
  induction lvls as [|lv rest IH]; intros skip C new Hs; cbn [length] in Hs;
    [lia|].
  cbn [add_levels]. destruct skip as [|skip]; cbn [append_level].
  - reflexivity.
  - now rewrite IH by lia.
Qed.

Lemma add_levels_all (new : list (list bool)) :
  add_levels (repeat [] (length new)) 0 new = new.
Proof.
  induction new as [|x new IH]; cbn [length repeat add_levels]; [reflexivity|].
  cbn [app]. now rewrite IH.
Qed.

Lemma add_state_nil (st : build_state) (skip d : nat) :
  add_state mat kr kc null st skip d [] = st.
Proof.
  unfold add_state. rewrite levelsOf_nil, leavesOf_nil, add_levels_repeat_nil, app_nil_r.
  now destruct st.
Qed.

Lemma add_state_app (st : build_state) (skip d : nat) (F1 F2 : list (nat * nat)) :
  add_state mat kr kc null (add_state mat kr kc null st skip d F1) skip d F2 =
  add_state mat kr kc null st skip d (F1 ++ F2).
Proof.
  unfold add_state. cbn [levels bs_L].
  rewrite add_levels_add_levels by (now rewrite !length_levelsOf).
  now rewrite levelsOf_app, leavesOf_app, app_assoc.
Qed.

Lemma length_add_state (st : build_state) (skip d : nat)
  (F : list (nat * nat)) :
  length (levels (add_state mat kr kc null st skip d F)) = length (levels st).
Proof. unfold add_state. cbn [levels]. apply length_add_levels. Qed.

(** The loop over the children: the bits it collects and the buffers it
    leaves. *)
Lemma collect_spec (body : nat * nat -> build_state -> option (bool * build_state))
  (kid : nat * nat -> nat * nat) (skip d n : nat) (slots : list (nat * nat)) :
  (forall ij st,
      length (levels st) = n ->
      body ij st =
      Some (ne (S d) (kid ij),
            add_state mat kr kc null st skip d
              (if ne (S d) (kid ij) then [kid ij] else []))) ->
  forall st,
    length (levels st) = n ->
    collect body slots st =
    Some (map (ne (S d)) (map kid slots),
          add_state mat kr kc null st skip d
            (filter (ne (S d)) (map kid slots))).
Proof.
  intros Hbody. induction slots as [|ij slots IH]; intros st Hst;
    cbn [collect map filter].
  - now rewrite add_state_nil.
  - rewrite Hbody by exact Hst.
    rewrite IH by (now rewrite length_add_state).
    rewrite add_state_app.
    destruct (ne (S d) (kid ij)); reflexivity.
Qed.

Hypothesis Hkr : 1 <= kr.
Hypothesis Hkc : 1 <= kc.

(** No row is shorter than the first: the reads of the builder stay within
    the rows. *)
Hypothesis Hrect :
  forall i, i < length mat -> length (nth 0 mat []) <= length (nth i mat []).

Lemma leaf_values (p q : nat) :
  mapM (fun ij => mat_read mat null (p + fst ij) (q + snd ij))
       (child_slots kr kc) =
  Some (map cell (kids kr kc 0 (p, q))).
Proof.
  unfold kids. rewrite map_map.
  rewrite (mapM_map _ (fun ij => mat_at mat null (p + fst ij) (q + snd ij)))
    by (intros ij; now apply mat_read_mat_at).
  f_equal. apply map_ext. intros [i j]. cbn [fst snd].
  now rewrite !Nat.pow_0_r, !Nat.mul_1_r.
Qed.

Variable h : nat.

(** The builder on the block of size [kr ^ S d] at [(p, q)], which is at
    level [h - d]: it returns whether the block holds a value and, if so,
    appends the levels of the block to the buffers. *)
Lemma buildFromMatrix_spec (d : nat) :
  forall st p q,
    d < h -> length (levels st) = h - 1 ->
    buildFromMatrix kr kc h null (S d) mat st (kr ^ S d) (kc ^ S d) (h - d) p q =
    Some (ne (S d) (p, q),
          add_state mat kr kc null st (h - 1 - d) d
            (if ne (S d) (p, q) then [(p, q)] else [])).
Proof.
  induction d as [|d IH]; intros st p q Hd Hst; rewrite buildFromMatrix_S.
  - rewrite Nat.sub_0_r, Nat.eqb_refl.
    rewrite leaf_values. cbn [obind]. rewrite isAll_map. cbn [nonempty].
    destruct (existsb _ _); cbn [negb].
    + unfold add_state. cbn [levelsOf leavesOf flat_map].
      rewrite app_nil_r. f_equal. f_equal. f_equal.
      symmetry. apply (add_levels_repeat_nil _ _ 0).
    + now rewrite add_state_nil.
  - destruct (Nat.eqb_spec (h - S d) h) as [Heq|_]; [lia|].
    rewrite !pow_div by lia.
    rewrite (collect_spec _
               (fun ij => (p + fst ij * kr ^ S d, q + snd ij * kc ^ S d))
               (h - 1 - d) d (h - 1)).
    + change (map (fun ij => (p + fst ij * kr ^ S d, q + snd ij * kc ^ S d))
                  (child_slots kr kc))
        with (kids kr kc (S d) (p, q)).
      rewrite isAllZero_map.
      change (existsb (ne (S d)) (kids kr kc (S d) (p, q))) with (ne (S (S d)) (p, q)).
      destruct (ne (S (S d)) (p, q)) eqn:Hne; cbn [negb].
      * unfold offset_from.
        destruct (Nat.leb_spec 1 (h - S d)) as [_|Hl]; [|lia]. cbn [obind].
        unfold add_state. cbn [levels bs_L levelsOf leavesOf].
        replace (h - 1 - d) with (S (h - 1 - S d)) by lia.
        replace (h - S d - 1) with (h - 1 - S d) by lia.
        rewrite append_level_add_levels by lia. cbn [obind].
        unfold groupBits, nextForest. cbn [flat_map]. rewrite !app_nil_r.
        reflexivity.
      * f_equal. f_equal. rewrite add_state_nil.
        rewrite filter_false; [apply add_state_nil|].
        intros kid Hkid.
        change (ne (S (S d)) (p, q))
          with (existsb (ne (S d)) (kids kr kc (S d) (p, q))) in Hne.
        destruct (ne (S d) kid) eqn:Hk; [|reflexivity].
        assert (Hex : existsb (ne (S d)) (kids kr kc (S d) (p, q)) = true)
          by (apply existsb_exists; exists kid; split; assumption).
        rewrite Hex in Hne. discriminate.
    + intros ij st' Hst'. cbn [fst snd].
      replace (h - S d + 1) with (h - d) by lia.
      apply IH; [lia|exact Hst'].
    + exact Hst.
Qed.

End BuilderFacts.

(** ** The structure built from a matrix *)

Lemma ones_map_filter {A : Type} (f : A -> bool) (l : list A) :
  ones (map f l) = length (filter f l).
Proof.
  unfold ones. induction l as [|x l IH]; cbn [map filter]; [reflexivity|].
  destruct (f x); cbn [length]; now rewrite IH.
Qed.

(** The kept entry at position [z] is found in the filtered list at the
    number of kept entries before it. *)
Lemma nth_error_filter_ones {A : Type} (f : A -> bool) (l : list A) :
  forall z x,
    nth_error l z = Some x -> f x = true ->
    nth_error (filter f l) (ones (firstn z (map f l))) = Some x.
Proof.
  induction l as [|y l IH]; intros [|z] x Hz Hx; cbn in Hz; try discriminate.
  - injection Hz as ->. cbn [filter]. rewrite Hx. reflexivity.
  - cbn [map firstn filter]. unfold ones. cbn [filter].
    destruct (f y); cbn [length nth_error]; now apply IH.
Qed.

Lemma nth_error_flat_map_uniform {A B : Type} (f : A -> list B) (K : nat)
  (F : list A) :
  (forall x, length (f x) = K) ->
  forall i n s,
    nth_error F i = Some n -> s < K ->
    nth_error (flat_map f F) (K * i + s) = nth_error (f n) s.
Proof.
  intros Hlen. induction F as [|x F IH]; intros [|i] n s Hi Hs; cbn in Hi;
    try discriminate; cbn [flat_map].
  - injection Hi as ->. rewrite Nat.mul_0_r. cbn [Nat.add].
    apply nth_error_app1. now rewrite Hlen.
  - rewrite nth_error_app2 by (rewrite Hlen; lia).
    rewrite Hlen. replace (K * S i + s - K) with (K * i + s) by lia.
    now apply IH.
Qed.

Lemma length_flat_map_uniform {A B : Type} (f : A -> list B) (K : nat)
  (F : list A) :
  (forall x, length (f x) = K) -> length (flat_map f F) = K * length F.
Proof.
  intros Hlen. induction F as [|x F IH]; cbn [flat_map length]; [lia|].
  rewrite length_app, Hlen, IH. lia.
Qed.

Lemma nth_error_list_prod {A B : Type} (l1 : list A) (l2 : list B) :
  forall i j a b,
    nth_error l1 i = Some a -> nth_error l2 j = Some b ->
    nth_error (list_prod l1 l2) (i * length l2 + j) = Some (a, b).
Proof.
  induction l1 as [|x l1 IH]; intros [|i] j a b Hi Hj; cbn in Hi;
    try discriminate; cbn [list_prod].
  - injection Hi as ->. cbn [Nat.mul Nat.add].
    rewrite nth_error_app1.
    + now apply map_nth_error.
    + rewrite length_map. apply nth_error_Some. congruence.
  - rewrite nth_error_app2 by (rewrite length_map; cbn [Nat.mul]; lia).
    rewrite length_map.
    replace (S i * length l2 + j - length l2) with (i * length l2 + j)
      by (cbn [Nat.mul]; lia).
    now apply IH.
Qed.

Lemma nth_error_child_slots (kr kc i j : nat) :
  i < kr -> j < kc -> nth_error (child_slots kr kc) (i * kc + j) = Some (i, j).
Proof.
  intros Hi Hj. unfold child_slots.
  pose proof (nth_error_list_prod (seq 0 kr) (seq 0 kc) i j i j) as Hn.
  rewrite length_seq in Hn. apply Hn.
  - rewrite nth_error_seq. destruct (Nat.ltb_spec i kr); [reflexivity|lia].
  - rewrite nth_error_seq. destruct (Nat.ltb_spec j kc); [reflexivity|lia].
Qed.

Lemma skipn_app_length {A : Type} (pre X : list A) (o : nat) :
  length pre = o -> skipn o (pre ++ X) = X.
Proof.
  intros <-. rewrite skipn_app, skipn_all, Nat.sub_diag. reflexivity.
Qed.

Lemma firstn_app_le {A : Type} (X Y : list A) (n : nat) :
  n <= length X -> firstn n (X ++ Y) = firstn n X.
Proof.
  intros Hn. rewrite firstn_app. replace (n - length X) with 0 by lia.
  cbn [firstn]. apply app_nil_r.
Qed.

Lemma length_child_slots (kr kc : nat) : length (child_slots kr kc) = kr * kc.
Proof. unfold child_slots. now rewrite length_prod, !length_seq. Qed.

Section MatrixTree.

Context {E : Type} `{ElemType E}.

Variables (mat : matrix_type E) (kr kc : nat) (null : E).

Local Abbreviation ne := (nonempty mat kr kc null).
Local Abbreviation K := (kr * kc).

Lemma length_kids (d : nat) (n : nat * nat) : length (kids kr kc d n) = K.
Proof. unfold kids. now rewrite length_map, length_child_slots. Qed.

Lemma nth_error_kids (d : nat) (n : nat * nat) (a b : nat) :
  a < kr -> b < kc ->
  nth_error (kids kr kc d n) (a * kc + b) =
  Some (fst n + a * kr ^ d, snd n + b * kc ^ d).
Proof.
  intros Ha Hb. unfold kids.
  now rewrite (map_nth_error _ _ _ (nth_error_child_slots kr kc a b Ha Hb)).
Qed.

Lemma length_groupBits (d : nat) (F : list (nat * nat)) :
  length (groupBits mat kr kc null d F) = K * length F.
Proof.
  unfold groupBits. rewrite length_map.
  apply length_flat_map_uniform. intros n. apply length_kids.
Qed.

Lemma ones_groupBits (d : nat) (F : list (nat * nat)) :
  ones (groupBits mat kr kc null d F) = length (nextForest mat kr kc null d F).
Proof. unfold groupBits, nextForest. apply ones_map_filter. Qed.

Lemma length_leavesOf_0 (F : list (nat * nat)) :
  length (leavesOf mat kr kc null 0 F) = K * length F.
Proof.
  cbn [leavesOf]. rewrite length_map.
  apply length_flat_map_uniform. intros n. apply length_kids.
Qed.

(** A block without a value holds [null] everywhere. *)
Lemma nonempty_false (d : nat) :
  forall n a b,
    ne d n = false -> a < kr ^ d -> b < kc ^ d ->
    mat_at mat null (fst n + a) (snd n + b) = null.
Proof.
  induction d as [|d IH]; intros n a b Hne Ha Hb; cbn [nonempty] in Hne.
  - rewrite Nat.pow_0_r in Ha, Hb.
    replace a with 0 by lia. replace b with 0 by lia. rewrite !Nat.add_0_r.
    apply negb_false_iff in Hne.
    apply (elem_eqb_eq (mat_at mat null (fst n) (snd n)) null). exact Hne.
  - assert (Hr : 1 <= kr).
    { destruct kr; [cbn in Ha; lia|lia]. }
    assert (Hc : 1 <= kc).
    { destruct kc; [cbn in Hb; lia|lia]. }
    pose proof (nth_error_kids d n (a / kr ^ d) (b / kc ^ d)
                  (div_pow_lt kr d a Hr Ha) (div_pow_lt kc d b Hc Hb)) as Hk.
    apply nth_error_In in Hk.
    assert (Hkid : ne d (fst n + a / kr ^ d * kr ^ d, snd n + b / kc ^ d * kc ^ d)
                   = false).
    { destruct (ne d _) eqn:Hv; [|reflexivity].
      assert (Hex : existsb (ne d) (kids kr kc d n) = true)
        by (apply existsb_exists; eexists; split; eassumption).
      rewrite Hex in Hne. discriminate. }
    pose proof (IH _ (a mod kr ^ d) (b mod kc ^ d) Hkid
                  (mod_pow_lt kr d a Hr) (mod_pow_lt kc d b Hc)) as Hcell.
    cbn [fst snd] in Hcell.
    pose proof (Nat.div_mod_eq a (kr ^ d)). pose proof (Nat.div_mod_eq b (kc ^ d)).
    replace (fst n + a) with (fst n + a / kr ^ d * kr ^ d + a mod kr ^ d) by lia.
    replace (snd n + b) with (snd n + b / kc ^ d * kc ^ d + b mod kc ^ d) by lia.
    exact Hcell.
Qed.

Variable h : nat.

Local Abbreviation t := (matrixTree mat kr kc null h).
Local Abbreviation forest := (forestAt mat kr kc null h).
Local Abbreviation nodeAt := (NodeAt mat kr kc null h).

Hypothesis Hkr : 2 <= kr.
Hypothesis Hkc : 2 <= kc.
Hypothesis Hh : 1 <= h.
Hypothesis Hroot : ne h (0, 0) = true.

(** Every level holds a kept block, and all its blocks are kept. *)
Lemma forest_kept (k : nat) :
  k <= h - 1 ->
  forest k <> [] /\ Forall (fun n => ne (S (h - 1 - k)) n = true) (forest k).
Proof.
  induction k as [|k IH]; intros Hk.
  - cbn [forestAt]. split; [discriminate|].
    constructor; [|constructor].
    replace (S (h - 1 - 0)) with h by lia. exact Hroot.
  - destruct (IH ltac:(lia)) as [Hnil Hall].
    cbn [forestAt]. unfold nextForest.
    replace (h - 1 - k) with (S (h - 1 - S k)) in * by lia.
    split.
    + destruct (forest k) as [|n F] eqn:HF; [now contradiction Hnil|].
      inversion Hall as [|? ? Hn _]; subst.
      change (ne (S (S (h - 1 - S k))) n)
        with (existsb (ne (S (h - 1 - S k))) (kids kr kc (S (h - 1 - S k)) n)) in Hn.
      apply existsb_exists in Hn. destruct Hn as (kid & Hin & Hkid).
      intros Hempty.
      assert (Hmem : In kid (filter (ne (S (h - 1 - S k)))
                               (flat_map (kids kr kc (S (h - 1 - S k))) (n :: F)))).
      { apply filter_In. split; [|exact Hkid].
        cbn [flat_map]. apply in_or_app. now left. }
      rewrite Hempty in Hmem. contradiction.
    + apply Forall_forall. intros kid Hkid. apply filter_In in Hkid. apply Hkid.
Qed.

(** The encoding, level by level: what precedes level [k + 1] in [T_], the
    kept blocks of that level, and the levels below them. *)
Lemma forest_levels (k : nat) :
  k <= h - 1 ->
  exists pre,
    T_ t = pre ++ concat (levelsOf mat kr kc null (h - 1 - k) (forest k)) /\
    length pre = fst (level t k) /\
    snd (level t k) = length (forest k) /\
    L_ t = leavesOf mat kr kc null (h - 1 - k) (forest k).
Proof.
  induction k as [|k IH]; intros Hk.
  - exists []. unfold matrixTree, rootForest. rewrite Hroot.
    cbn [T_ L_ app length level fst snd forestAt].
    rewrite Nat.sub_0_r. repeat split.
  - destruct (IH ltac:(lia)) as (pre & HT & Hpre & Hcnt & HL).
    replace (h - 1 - k) with (S (h - 1 - S k)) in HT, HL by lia.
    cbn [levelsOf concat leavesOf] in HT, HL.
    assert (Hf : forest (S k) =
                 nextForest mat kr kc null (S (h - 1 - S k)) (forest k)).
    { cbn [forestAt]. f_equal. lia. }
    exists (pre ++ groupBits mat kr kc null (S (h - 1 - S k)) (forest k)).
    rewrite Hf. split; [now rewrite <- app_assoc|].
    cbn [level fst snd]. unfold groupSize. cbn [kr_ kc_ matrixTree].
    rewrite length_app, length_groupBits, Hpre, Hcnt.
    split; [reflexivity|]. split; [|exact HL].
    change (T_ (matrixTree mat kr kc null h)) with (T_ t). rewrite HT.
    rewrite (skipn_app_length pre _ _ Hpre).
    rewrite firstn_app_le by (rewrite length_groupBits; lia).
    rewrite <- (length_groupBits (S (h - 1 - S k))), firstn_all.
    apply ones_groupBits.
Qed.

Lemma matrixTree_shape :
  fst (level t (h - 1)) = length (T_ t) /\
  length (L_ t) = groupSize t * snd (level t (h - 1)).
Proof.
  destruct (forest_levels (h - 1) ltac:(lia)) as (pre & HT & Hpre & Hcnt & HL).
  rewrite Nat.sub_diag in HT, HL. cbn [levelsOf concat] in HT.
  rewrite app_nil_r in HT. split.
  - now rewrite HT.
  - rewrite HL, length_leavesOf_0, Hcnt. reflexivity.
Qed.

Lemma NodeAt_Node (d y : nat) (n : nat * nat) : nodeAt d y n -> Node t d y.
Proof.
  intros (Hd & i & Hi & Hy).
  apply (Grp_Node t matrixTree_shape d (h - 1 - d)).
  - cbn [h_ matrixTree]. lia.
  - exists i. split; [|exact Hy].
    destruct (forest_levels (h - 1 - d) ltac:(lia)) as (_ & _ & _ & Hcnt & _).
    rewrite Hcnt. apply nth_error_Some. congruence.
Qed.

Lemma NodeAt_root : nodeAt (h - 1) 0 (0, 0).
Proof.
  split; [lia|]. exists 0. rewrite Nat.sub_diag. cbn. split; [reflexivity|lia].
Qed.

Lemma NodeAt_bit (d y : nat) (n : nat * nat) (a b : nat) :
  nodeAt (S d) y n -> a < kr -> b < kc ->
  nth_error (T_ t) (y + (a * kc + b)) =
    Some (ne (S d) (fst n + a * kr ^ S d, snd n + b * kc ^ S d)) /\
  (ne (S d) (fst n + a * kr ^ S d, snd n + b * kc ^ S d) = true ->
   nodeAt d (rank (T_ t) (y + (a * kc + b) + 1) * kr * kc)
     (fst n + a * kr ^ S d, snd n + b * kc ^ S d)).
Proof.
  intros (Hd & i & Hi & Hy) Ha Hb.
  set (k := h - 1 - S d) in *.
  set (kid := (fst n + a * kr ^ S d, snd n + b * kc ^ S d)).
  destruct (forest_levels k ltac:(lia)) as (pre & HT & Hpre & Hcnt & HL).
  replace (h - 1 - k) with (S d) in HT by lia.
  cbn [levelsOf concat] in HT.
  assert (Hs : a * kc + b < K) by (apply slot_lt; assumption).
  assert (Hilt : i < length (forest k)) by (apply nth_error_Some; congruence).
  assert (Hkid : nth_error (flat_map (kids kr kc (S d)) (forest k))
                   (K * i + (a * kc + b)) = Some kid).
  { rewrite (nth_error_flat_map_uniform _ K _ (length_kids (S d)) i n _ Hi Hs).
    now apply nth_error_kids. }
  assert (Hbit : nth_error (T_ t) (y + (a * kc + b)) = Some (ne (S d) kid)).
  { rewrite HT, Hy, <- Hpre.
    rewrite nth_error_app2 by lia.
    replace (length pre + K * i + (a * kc + b) - length pre)
      with (K * i + (a * kc + b)) by lia.
    rewrite nth_error_app1 by (rewrite length_groupBits; nia).
    unfold groupBits. now rewrite (map_nth_error _ _ _ Hkid). }
  split; [exact Hbit|]. intros Hne.
  split; [lia|].
  replace (h - 1 - d) with (S k) by (unfold k; lia).
  rewrite Hne in Hbit. rewrite Hy in Hbit |- *.
  assert (Hbit' : nth_error (T_ t)
                    (fst (level t k) + groupSize t * i + (a * kc + b))
                  = Some true).
  { exact Hbit. }
  destruct (Grp_step_index t k i (a * kc + b) ltac:(lia) Hs Hbit')
    as [Hrank Hlt].
  unfold groupSize in Hrank, Hlt. cbn [kr_ kc_ matrixTree] in Hrank, Hlt.
  exists (ones (firstn (K * i + (a * kc + b))
                  (skipn (fst (level t k)) (T_ t)))).
  split.
  - cbn [forestAt]. replace (h - 1 - k) with (S d) by (unfold k; lia).
    rewrite HT, (skipn_app_length pre _ _ Hpre).
    rewrite firstn_app_le by (rewrite length_groupBits; nia).
    unfold nextForest, groupBits.
    now apply nth_error_filter_ones.
  - rewrite <- Hrank. now rewrite <- Nat.add_assoc.
Qed.

Lemma NodeAt_leaf (y : nat) (n : nat * nat) (a b : nat) :
  nodeAt 0 y n -> a < kr -> b < kc ->
  nth_error (L_ t) (y + a * kc + b - length (T_ t)) =
  Some (mat_at mat null (fst n + a) (snd n + b)).
Proof.
  intros (_ & i & Hi & Hy) Ha Hb. rewrite Nat.sub_0_r in Hi, Hy.
  destruct (forest_levels (h - 1) ltac:(lia)) as (_ & _ & _ & _ & HL).
  rewrite Nat.sub_diag in HL. cbn [leavesOf] in HL.
  destruct matrixTree_shape as [Ho _].
  rewrite Hy, Ho, HL.
  replace (length (T_ t) + K * i + a * kc + b - length (T_ t))
    with (K * i + (a * kc + b)) by lia.
  assert (Hs : a * kc + b < K) by (apply slot_lt; assumption).
  rewrite (map_nth_error _ _ _
             (eq_trans
                (nth_error_flat_map_uniform _ K _ (length_kids 0) i n _ Hi Hs)
                (nth_error_kids 0 n a b Ha Hb))).
  cbn [fst snd]. now rewrite !Nat.pow_0_r, !Nat.mul_1_r.
Qed.

(** Reading a cell of a kept block yields the entry of the matrix. *)
Lemma getG_matrix (d : nat) :
  forall y n p q,
    nodeAt d y n -> p < kr ^ S d -> q < kc ^ S d ->
    getG t d y p q = Some (mat_at mat null (fst n + p) (snd n + q)).
Proof.
  induction d as [|d IH]; intros y n p q HN Hp Hq.
  - rewrite getG_leafG.
    destruct (leafG_Node_0 t Hkr Hkc y p q (NodeAt_Node 0 y n HN) Hp Hq) as [-> _].
    rewrite Nat.pow_1_r in Hp, Hq. now apply NodeAt_leaf.
  - pose proof (div_pow_lt kr (S d) p ltac:(lia) Hp) as Ha.
    pose proof (div_pow_lt kc (S d) q ltac:(lia) Hq) as Hb.
    destruct (NodeAt_bit d y n _ _ HN Ha Hb) as [Hbit Hkid].
    change (getG t (S d) y p q)
      with (getU t (S d) (y + p / kr ^ S d * kc + q / kc ^ S d)
              (p mod kr ^ S d) (q mod kc ^ S d)).
    rewrite (getU_S t Hkr Hkc).
    + rewrite <- Nat.add_assoc, Hbit.
      change (kr_ t) with kr. change (kc_ t) with kc. change (null_ t) with null.
      destruct (ne (S d) _) eqn:Hne.
      * rewrite (IH _ _ _ _ (Hkid eq_refl)
                   (mod_pow_lt kr (S d) p ltac:(lia))
                   (mod_pow_lt kc (S d) q ltac:(lia))).
        cbn [fst snd].
        pose proof (Nat.div_mod_eq p (kr ^ S d)).
        pose proof (Nat.div_mod_eq q (kc ^ S d)).
        do 2 f_equal; lia.
      * f_equal. symmetry.
        pose proof (nonempty_false (S d) _ (p mod kr ^ S d) (q mod kc ^ S d) Hne
                      (mod_pow_lt kr (S d) p ltac:(lia))
                      (mod_pow_lt kc (S d) q ltac:(lia))) as Hcell.
        cbn [fst snd] in Hcell.
        pose proof (Nat.div_mod_eq p (kr ^ S d)).
        pose proof (Nat.div_mod_eq q (kc ^ S d)).
        replace (fst n + p)
          with (fst n + p / kr ^ S d * kr ^ S d + p mod kr ^ S d) by lia.
        replace (snd n + q)
          with (snd n + q / kc ^ S d * kc ^ S d + q mod kc ^ S d) by lia.
        exact Hcell.
    + rewrite <- Nat.add_assoc. apply Node_Entry.
      * exact (NodeAt_Node (S d) y n HN).
      * apply slot_lt; assumption.
Qed.

End MatrixTree.

(** ** Claim C1: the matrix constructor *)

Lemma derived_height_pos (rows cols kr kc : nat) :
  1 <= derived_height rows cols kr kc.
Proof. unfold derived_height. lia. Qed.

Lemma logK_from_spec (k n : nat) :
  2 <= k ->
  forall fuel e, n <= fuel + k ^ e -> n <= k ^ logK_from fuel n k e.
Proof.
  intros Hk fuel. induction fuel as [|fuel IH]; intros e He; cbn [logK_from].
  - exact He.
  - destruct (Nat.leb_spec n (k ^ e)); [assumption|].
    apply IH. rewrite Nat.pow_succ_r'. pose proof (pow_ge_1 k e ltac:(lia)). nia.
Qed.

Lemma logK_spec (k n : nat) : 2 <= k -> n <= k ^ logK n k.
Proof. intros Hk. apply logK_from_spec; [exact Hk|]. cbn. lia. Qed.

(** The extent derived from the dimensions covers them. *)
Lemma derived_height_covers (rows cols kr kc : nat) :
  2 <= kr -> 2 <= kc ->
  rows <= kr ^ derived_height rows cols kr kc /\
  cols <= kc ^ derived_height rows cols kr kc.
Proof.
  intros Hkr Hkc. unfold derived_height. split.
  - etransitivity; [apply (logK_spec kr); exact Hkr|].
    apply Nat.pow_le_mono_r; lia.
  - etransitivity; [apply (logK_spec kc); exact Hkc|].
    apply Nat.pow_le_mono_r; lia.
Qed.

(** [size_type(pow(k, h))] is the power whenever it has a value, and it
    has one up to [2 ^ 53]. *)
Lemma pow_size_type_exact (k h : nat) :
  (Z.of_nat (k ^ h) <= 2 ^ 53)%Z -> pow_size_type k h = Some (k ^ h).
Proof.
  intros Hb. unfold pow_size_type. rewrite <- Nat2Z.inj_pow.
  now destruct (Z.leb_spec (Z.of_nat (k ^ h)) (2 ^ 53)); [|lia].
Qed.

Lemma pow_size_type_Some (k h n : nat) :
  pow_size_type k h = Some n ->
  n = k ^ h /\ (Z.of_nat (k ^ h) <= 2 ^ 53)%Z.
Proof.
  unfold pow_size_type. rewrite <- Nat2Z.inj_pow.
  destruct (Z.leb_spec (Z.of_nat (k ^ h)) (2 ^ 53)); [|discriminate].
  intros [= <-]. now split.
Qed.

Lemma mapM_Some_each {A B : Type} (f : A -> option B) (xs : list A)
  (ys : list B) :
  mapM f xs = Some ys -> forall x, In x xs -> f x <> None.
Proof.
  revert ys. induction xs as [|x0 xs IH]; intros ys Hrun x Hx; [destruct Hx|].
  cbn [mapM] in Hrun. destruct (f x0) as [y|] eqn:Hy; [|discriminate].
  cbn [obind] in Hrun. destruct (mapM f xs) as [ys'|]; [|discriminate].
  destruct Hx as [<-|Hx]; [congruence|]. exact (IH ys' eq_refl x Hx).
Qed.

Lemma collect_Some_each {S : Type}
  (body : nat * nat -> S -> option (bool * S)) (slots : list (nat * nat)) :
  forall st r,
    collect body slots st = Some r ->
    forall ij, In ij slots -> exists st1 r1, body ij st1 = Some r1.
Proof.
  induction slots as [|ij0 slots IH]; intros st r Hrun ij Hij; [destruct Hij|].
  cbn [collect] in Hrun.
  destruct (body ij0 st) as [[b st1]|] eqn:Hb; [|discriminate].
  destruct (collect body slots st1) as [[C st2]|] eqn:Hc; [|discriminate].
  destruct Hij as [<-|Hij].
  - now exists st, (b, st1).
  - exact (IH st1 _ Hc ij Hij).
Qed.

Section MatrixConstructor.

Context {E : Type} `{ElemType E}.

Variables (mat : matrix_type E) (kr kc : nat) (null : E).

Hypothesis Hkr : 2 <= kr.
Hypothesis Hkc : 2 <= kc.

Lemma matrixTree_empty (h : nat) :
  nonempty mat kr kc null h (0, 0) = false ->
  L_ (matrixTree mat kr kc null h) = [].
Proof.
  intros Hne. unfold matrixTree, rootForest. rewrite Hne. cbn [L_].
  apply (leavesOf_nil mat kr kc null).
Qed.

Lemma matrixTree_well_formed (h : nat) :
  1 <= h -> well_formed (matrixTree mat kr kc null h).
Proof.
  intros Hh. unfold well_formed. cbn [kr_ kc_ h_ numRows_ numCols_ matrixTree].
  repeat (split; [assumption || reflexivity|]).
  destruct (nonempty mat kr kc null h (0, 0)) eqn:Hne.
  - right. now apply matrixTree_shape.
  - left. now apply matrixTree_empty.
Qed.

(** A run of the builder on a block has read every cell of the block. *)
Lemma buildFromMatrix_reads (h d : nat) :
  forall st p q r,
    d < h ->
    buildFromMatrix kr kc h null (S d) mat st (kr ^ S d) (kc ^ S d) (h - d) p q
    = Some r ->
    forall a b, a < kr ^ S d -> b < kc ^ S d ->
                mat_read mat null (p + a) (q + b) <> None.
Proof.
  induction d as [|d IH]; intros st p q r Hd Hrun a b Ha Hb;
    rewrite buildFromMatrix_S in Hrun.
  - rewrite Nat.sub_0_r, Nat.eqb_refl in Hrun.
    destruct (mapM _ (child_slots kr kc)) as [C|] eqn:HM; [|discriminate].
    rewrite Nat.pow_1_r in Ha, Hb.
    apply (mapM_Some_each _ _ _ HM (a, b)).
    unfold child_slots. apply in_prod; apply in_seq; lia.
  - destruct (Nat.eqb_spec (h - S d) h) as [Heq|_]; [lia|].
    rewrite !pow_div in Hrun by lia.
    replace (h - S d + 1) with (h - d) in Hrun by lia.
    destruct (collect _ (child_slots kr kc) st) as [[C st']|] eqn:HC;
      [|discriminate].
    destruct (collect_Some_each _ _ _ _ HC (a / kr ^ S d, b / kc ^ S d))
      as (st1 & r1 & Hkid).
    { unfold child_slots. apply in_prod; apply in_seq.
      - pose proof (div_pow_lt kr (S d) a ltac:(lia) Ha). lia.
      - pose proof (div_pow_lt kc (S d) b ltac:(lia) Hb). lia. }
    cbn [fst snd] in Hkid.
    pose proof (IH st1 _ _ r1 ltac:(lia) Hkid (a mod kr ^ S d) (b mod kc ^ S d)
                  (mod_pow_lt kr (S d) a ltac:(lia))
                  (mod_pow_lt kc (S d) b ltac:(lia))) as Hread.
    pose proof (Nat.div_mod_eq a (kr ^ S d)).
    pose proof (Nat.div_mod_eq b (kc ^ S d)).
    replace (p + a) with (p + a / kr ^ S d * kr ^ S d + a mod kr ^ S d) by lia.
    replace (q + b) with (q + b / kc ^ S d * kc ^ S d + b mod kc ^ S d) by lia.
    exact Hread.
Qed.

Local Abbreviation height :=
  (derived_height (length mat) (length (nth 0 mat [])) kr kc).

(** On a matrix that has a first row and no row shorter than it, and while
    the powers are exact, the constructor terminates and yields
    [matrixTree]. *)
Lemma KrKcTree_of_matrix_eq :
  mat <> [] ->
  (forall i, i < length mat -> length (nth 0 mat []) <= length (nth i mat [])) ->
  (Z.of_nat (kr ^ height) <= 2 ^ 53)%Z ->
  (Z.of_nat (kc ^ height) <= 2 ^ 53)%Z ->
  KrKcTree_of_matrix mat kr kc null = Some (matrixTree mat kr kc null height).
Proof.
  intros Hmat Hrect Hbr Hbc.
  unfold KrKcTree_of_matrix.
  rewrite (nth_error_nth' mat [] (n := 0))
    by (destruct mat; [contradiction|cbn; lia]).
  cbn [obind]. cbv zeta.
  rewrite (pow_size_type_exact kr _ Hbr), (pow_size_type_exact kc _ Hbc).
  cbn [obind].
  pose proof (derived_height_pos (length mat) (length (nth 0 mat [])) kr kc) as Hh.
  set (h := derived_height _ _ _ _) in *.
  destruct h as [|h']; [lia|].
  pose proof (buildFromMatrix_spec mat kr kc null ltac:(lia) ltac:(lia) Hrect
                (S h') h' (mkBuildState (repeat [] (S h' - 1)) []) 0 0
                ltac:(lia) (repeat_length _ _)) as Hb.
  replace (S h' - h') with 1 in Hb by lia.
  rewrite Hb. unfold matrixTree, rootForest, add_state. cbn [levels bs_L app].
  replace (S h' - 1 - h') with 0 by lia. replace (S h' - 1) with h' by lia.
  set (F := if nonempty mat kr kc null (S h') (0, 0) then [(0, 0)] else []).
  assert (Hcat : forall lv n,
             length lv = n ->
             concat (firstn n (add_levels (repeat [] n) 0 lv)) = concat lv).
  { intros lv n <-. now rewrite add_levels_all, firstn_all. }
  rewrite (Hcat _ _ (length_levelsOf mat kr kc null h' F)). reflexivity.
Qed.

(** A structure the constructor has built is [matrixTree]: the matrix had
    a first row and no row shorter than it, and the powers were exact. *)
Lemma KrKcTree_of_matrix_inv (t : KrKcTree E) :
  KrKcTree_of_matrix mat kr kc null = Some t ->
  mat <> [] /\
  (forall i, i < length mat -> length (nth 0 mat []) <= length (nth i mat []))
  /\ (Z.of_nat (kr ^ height) <= 2 ^ 53)%Z
  /\ (Z.of_nat (kc ^ height) <= 2 ^ 53)%Z
  /\ t = matrixTree mat kr kc null height.
Proof.
  intros Ht. pose proof Ht as Hrun. unfold KrKcTree_of_matrix in Hrun.
  destruct (nth_error mat 0) as [row0|] eqn:H0; [|discriminate].
  assert (Hmat : mat <> []) by (intros ->; discriminate).
  assert (Hrow0 : nth 0 mat [] = row0) by (now apply nth_error_nth).
  cbn [obind] in Hrun. cbv zeta in Hrun. rewrite <- Hrow0 in Hrun.
  pose proof (derived_height_pos (length mat) (length (nth 0 mat [])) kr kc) as Hh.
  destruct (derived_height_covers (length mat) (length (nth 0 mat [])) kr kc
              Hkr Hkc) as [Hcr Hcc].
  set (h := derived_height _ _ _ _) in *.
  destruct (pow_size_type kr h) as [nR|] eqn:HnR; [|discriminate].
  destruct (pow_size_type kc h) as [nC|] eqn:HnC; [|discriminate].
  cbn [obind] in Hrun.
  destruct (pow_size_type_Some _ _ _ HnR) as [-> Hbr].
  destruct (pow_size_type_Some _ _ _ HnC) as [-> Hbc].
  destruct (buildFromMatrix kr kc h null h mat _ (kr ^ h) (kc ^ h) 1 0 0)
    as [[b st]|] eqn:Hb; [|discriminate].
  assert (Hrect : forall i, i < length mat ->
                    length (nth 0 mat []) <= length (nth i mat [])).
  { intros i Hi.
    destruct (Nat.eq_dec (length (nth 0 mat [])) 0) as [Hz|Hz]; [lia|].
    destruct h as [|h']; [lia|].
    replace 1 with (S h' - h') in Hb by lia.
    pose proof (buildFromMatrix_reads (S h') h' _ 0 0 _ ltac:(lia) Hb
                  i (length (nth 0 mat []) - 1) ltac:(lia) ltac:(lia)) as Hread.
    cbn [Nat.add] in Hread. unfold mat_read in Hread.
    destruct (Nat.ltb_spec i (length mat)); [|lia].
    rewrite H0 in Hread. cbn [obind] in Hread. rewrite <- Hrow0 in Hread.
    destruct (Nat.ltb_spec (length (nth 0 mat []) - 1) (length (nth 0 mat [])));
      [|lia].
    rewrite (nth_error_nth' mat [] Hi) in Hread. cbn [obind] in Hread.
    apply nth_error_Some in Hread. lia. }
  split; [exact Hmat|]. split; [exact Hrect|].
  split; [exact Hbr|]. split; [exact Hbc|].
  rewrite (KrKcTree_of_matrix_eq Hmat Hrect Hbr Hbc) in Ht.
  now injection Ht as <-.
Qed.

Lemma matrixTree_getElement (h i j : nat) :
  1 <= h -> i < kr ^ h -> j < kc ^ h ->
  getElement (matrixTree mat kr kc null h) i j = Some (mat_at mat null i j).
Proof.
  intros Hh Hi Hj.
  destruct (nonempty mat kr kc null h (0, 0)) eqn:Hne.
  - pose proof (matrixTree_well_formed h Hh) as Hwf.
    destruct (L_empty (matrixTree mat kr kc null h)) eqn:HL.
    + (* a kept root has a leaf level *)
      exfalso.
      destruct (matrixTree_shape mat kr kc null h Hkr Hkc Hh Hne) as [_ Hlen].
      destruct (forest_levels mat kr kc null h Hkr Hkc Hh Hne (h - 1) ltac:(lia))
        as (_ & _ & _ & Hcnt & _).
      destruct (forest_kept mat kr kc null h Hkr Hkc Hh Hne (h - 1) ltac:(lia))
        as [Hnil _].
      unfold L_empty in HL.
      destruct (L_ (matrixTree mat kr kc null h)); [|discriminate].
      cbn [length] in Hlen. rewrite Hcnt in Hlen.
      destruct (forestAt mat kr kc null h (h - 1)); [now contradiction Hnil|].
      unfold groupSize in Hlen. cbn [kr_ kc_ matrixTree length] in Hlen. nia.
    + unfold getElement. rewrite (getInit_getG _ Hwf i j HL).
      cbn [h_ matrixTree].
      pose proof (getG_matrix mat kr kc null h Hkr Hkc Hh Hne (h - 1) 0 (0, 0) i j
                    (NodeAt_root mat kr kc null h Hkr Hkc Hh Hne)) as Hg.
      replace (S (h - 1)) with h in Hg by lia.
      now apply Hg.
  - rewrite getElement_empty.
    + f_equal. symmetry.
      apply (nonempty_false mat kr kc null h (0, 0) i j Hne Hi Hj).
    + unfold L_empty. now rewrite matrixTree_empty.
Qed.

End MatrixConstructor.

Lemma rows_of_equal_length {A : Type} (mat : list (list A)) (cols : nat) :
  mat <> [] -> Forall (fun row => length row = cols) mat ->
  length (nth 0 mat []) = cols /\
  forall i, i < length mat -> length (nth 0 mat []) <= length (nth i mat []).
Proof.
  intros Hmat Hrows. rewrite Forall_forall in Hrows.
  assert (Hrow : forall i, i < length mat -> length (nth i mat []) = cols)
    by (intros i Hi; apply Hrows; now apply nth_In).
  assert (0 < length mat) by (destruct mat; [contradiction|cbn; lia]).
  split; [now apply Hrow|]. intros i Hi. rewrite !Hrow by lia. lia.
Qed.

(** C1. For a dense matrix [mat], with at least one row and [cols] entries
    in every row, and as long as the powers [kr ^ h] and [kc ^ h] the
    constructor computes are exact (at most [2 ^ 53]), the matrix
    constructor terminates with a structure of the height [h] derived from
    the dimensions, of [numRows_ = kr ^ h] rows and [numCols_ = kc ^ h]
    columns, which cover the matrix, and on which, for every cell [(i, j)]
    with [i < numRows_] and [j < numCols_], [getElement(i, j)] is the entry
    [mat[i][j]] when [(i, j)] lies within the matrix and [null] in the
    padded region. *)
Theorem KrKcTree_of_matrix_getElement {E : Type} `{ElemType E}
  (mat : matrix_type E) (kr kc : nat) (null : E) (cols : nat) :
  2 <= kr -> 2 <= kc -> mat <> [] ->
  Forall (fun row => length row = cols) mat ->
  (Z.of_nat (kr ^ derived_height (length mat) cols kr kc) <= 2 ^ 53)%Z ->
  (Z.of_nat (kc ^ derived_height (length mat) cols kr kc) <= 2 ^ 53)%Z ->
  exists t,
    KrKcTree_of_matrix mat kr kc null = Some t /\
    kr_ t = kr /\ kc_ t = kc /\ null_ t = null /\
    h_ t = derived_height (length mat) cols kr kc /\
    numRows_ t = kr ^ h_ t /\ numCols_ t = kc ^ h_ t /\
    length mat <= numRows_ t /\ cols <= numCols_ t /\
    forall i j, i < numRows_ t -> j < numCols_ t ->
      getElement t i j =
      Some (if (i <? length mat) && (j <? cols)
            then nth j (nth i mat []) null else null).
Proof.
  intros Hkr Hkc Hmat Hrows Hbr Hbc.
  destruct (rows_of_equal_length mat cols Hmat Hrows) as [Hcols Hrect].
  rewrite <- Hcols in Hbr, Hbc.
  rewrite (KrKcTree_of_matrix_eq mat kr kc null Hkr Hkc Hmat Hrect Hbr Hbc).
  destruct (derived_height_covers (length mat) (length (nth 0 mat [])) kr kc
              Hkr Hkc) as [Hcr Hcc].
  eexists. split; [reflexivity|].
  cbn [kr_ kc_ null_ h_ numRows_ numCols_ matrixTree].
  rewrite <- Hcols.
  repeat (split; [reflexivity || assumption|]).
  intros i j Hi Hj.
  now rewrite (matrixTree_getElement mat kr kc null Hkr Hkc _ i j
                 (derived_height_pos _ _ _ _) Hi Hj).
Qed.

(** ** The matrix constructor establishes the invariants *)

(** The padded extent covers the matrix. *)
Lemma KrKcTree_of_matrix_covers {E : Type} `{ElemType E}
  (mat : matrix_type E) (kr kc : nat) (null : E) (t : KrKcTree E) :
  2 <= kr -> 2 <= kc ->
  KrKcTree_of_matrix mat kr kc null = Some t ->
  length mat <= numRows_ t /\ length (nth 0 mat []) <= numCols_ t.
Proof.
  intros Hkr Hkc Ht.
  destruct (KrKcTree_of_matrix_inv mat kr kc null Hkr Hkc t Ht)
    as (_ & _ & _ & _ & ->).
  cbn [numRows_ numCols_ matrixTree].
  now apply derived_height_covers.
Qed.

Theorem KrKcTree_of_matrix_well_formed {E : Type} `{ElemType E}
  (mat : matrix_type E) (kr kc : nat) (null : E) (t : KrKcTree E) :
  2 <= kr -> 2 <= kc ->
  KrKcTree_of_matrix mat kr kc null = Some t -> well_formed t.
Proof.
  intros Hkr Hkc Ht.
  destruct (KrKcTree_of_matrix_inv mat kr kc null Hkr Hkc t Ht)
    as (_ & _ & _ & _ & ->).
  apply matrixTree_well_formed; try assumption. apply derived_height_pos.
Qed.

Lemma Chunked_app {A : Type} (f : A -> bool) (K : nat) (l1 l2 : list A) :
  Chunked f K l1 -> Chunked f K l2 -> Chunked f K (l1 ++ l2).
Proof.
  induction 1 as [|c l Hc Hf Hl IH]; intros H2; [exact H2|].
  rewrite <- app_assoc. constructor; auto.
Qed.

Lemma Chunked_groups_nonzero {A : Type} (f : A -> bool) (K : nat) (l : list A) :
  0 < K -> Chunked f K l -> groups_nonzero f K l = true.
Proof.
  intros HK Hl. unfold groups_nonzero. apply forallb_forall.
  induction Hl as [|c l Hc Hf Hl IH]; intros g Hg; apply in_seq in Hg.
  - cbn [length] in Hg. rewrite Nat.Div0.div_0_l in Hg. lia.
  - rewrite length_app, Hc in Hg.
    replace (K + length l) with (1 * K + length l) in Hg by lia.
    rewrite Nat.div_add_l in Hg by lia.
    destruct g as [|g].
    + rewrite Nat.mul_0_r. cbn [skipn].
      rewrite firstn_app_le by lia. rewrite <- Hc, firstn_all. exact Hf.
    + rewrite skipn_app, Hc.
      rewrite (skipn_all2 c) by nia. cbn [app].
      replace (K * S g - K) with (K * g) by lia.
      apply IH. apply in_seq. lia.
Qed.

Lemma existsb_map {A B : Type} (f : B -> bool) (g : A -> B) (l : list A) :
  existsb f (map g l) = existsb (fun x => f (g x)) l.
Proof.
  induction l as [|x l IH]; cbn [map existsb]; [reflexivity|]. now rewrite IH.
Qed.

Section MatrixPruned.

Context {E : Type} `{ElemType E}.

Variables (mat : matrix_type E) (kr kc : nat) (null : E).

Local Abbreviation ne := (nonempty mat kr kc null).

Lemma groupBits_Chunked (d : nat) (F : list (nat * nat)) :
  Forall (fun n => ne (S d) n = true) F ->
  Chunked (fun b : bool => b) (kr * kc) (groupBits mat kr kc null d F).
Proof.
  unfold groupBits. induction 1 as [|n F Hn _ IH]; cbn [flat_map map].
  - constructor.
  - rewrite map_app. constructor; [| |exact IH].
    + rewrite length_map. apply (length_kids mat kr kc null).
    + rewrite existsb_map. exact Hn.
Qed.

Lemma nextForest_kept (d : nat) (F : list (nat * nat)) :
  Forall (fun n => ne d n = true) (nextForest mat kr kc null d F).
Proof.
  apply Forall_forall. intros n Hn. apply filter_In in Hn. apply Hn.
Qed.

Lemma levelsOf_Chunked (d : nat) :
  forall F,
    Forall (fun n => ne (S d) n = true) F ->
    Chunked (fun b : bool => b) (kr * kc) (concat (levelsOf mat kr kc null d F)).
Proof.
  induction d as [|d IH]; intros F HF; cbn [levelsOf concat].
  - constructor.
  - apply Chunked_app; [now apply groupBits_Chunked|].
    apply IH, nextForest_kept.
Qed.

Lemma leavesOf_Chunked (d : nat) :
  forall F,
    Forall (fun n => ne (S d) n = true) F ->
    Chunked (fun v => negb (elem_eqb v null)) (kr * kc)
      (leavesOf mat kr kc null d F).
Proof.
  induction d as [|d IH]; intros F HF; cbn [leavesOf].
  - induction HF as [|n F Hn _ IHF]; cbn [flat_map map].
    + constructor.
    + rewrite map_app. constructor; [| |exact IHF].
      * rewrite length_map. apply (length_kids mat kr kc null).
      * rewrite existsb_map. exact Hn.
  - apply IH, nextForest_kept.
Qed.

Lemma matrixTree_pruned (h : nat) :
  1 <= kr -> 1 <= kc -> 1 <= h -> pruned (matrixTree mat kr kc null h).
Proof.
  intros Hkr Hkc Hh.
  assert (HF : Forall (fun n => ne (S (h - 1)) n = true)
                 (rootForest mat kr kc null h)).
  { unfold rootForest. replace (S (h - 1)) with h by lia.
    destruct (ne h (0, 0)) eqn:Hne; repeat constructor. exact Hne. }
  unfold pruned, groupSize. cbn [T_ L_ kr_ kc_ null_ matrixTree]. split.
  - apply Chunked_groups_nonzero; [nia|]. now apply levelsOf_Chunked.
  - apply Chunked_groups_nonzero; [nia|]. now apply leavesOf_Chunked.
Qed.

End MatrixPruned.

Theorem KrKcTree_of_matrix_pruned {E : Type} `{ElemType E}
  (mat : matrix_type E) (kr kc : nat) (null : E) (t : KrKcTree E) :
  2 <= kr -> 2 <= kc ->
  KrKcTree_of_matrix mat kr kc null = Some t -> pruned t.
Proof.
  intros Hkr Hkc Ht.
  destruct (KrKcTree_of_matrix_inv mat kr kc null Hkr Hkc t Ht)
    as (_ & _ & _ & _ & ->).
  apply matrixTree_pruned; try lia. apply derived_height_pos.
Qed.

(** ** Claim C8: the parameter check of the windowed constructors *)

Lemma checkParameters_None (h numRows numCols nr nc kr kc : nat) :
  checkParameters h numRows numCols nr nc kr kc = None <->
  (nr, nc) = (numRows, numCols).
Proof.
  unfold checkParameters.
  destruct (Nat.eqb_spec numRows nr) as [Hr|Hr],
           (Nat.eqb_spec numCols nc) as [Hc|Hc]; cbn [negb orb];
    split; intros Heq; try discriminate; try congruence;
    injection Heq as Ha Hb; congruence.
Qed.

(** The first half of C8: as long as the powers [kr ^ h] and [kc ^ h] are
    exact, the statements shared by the windowed constructors throw exactly
    when the window is not [kr^h] by [kc^h]. *)
Lemma window_dimensions_throws_iff (nr nc kr kc : nat) :
  (Z.of_nat (kr ^ derived_height nr nc kr kc) <= 2 ^ 53)%Z ->
  (Z.of_nat (kc ^ derived_height nr nc kr kc) <= 2 ^ 53)%Z ->
  ((exists err, window_dimensions nr nc kr kc = inl err) <->
   (nr, nc) <> (kr ^ derived_height nr nc kr kc,
                kc ^ derived_height nr nc kr kc)).
Proof.
  intros Hbr Hbc. unfold window_dimensions.
  rewrite (pow_size_type_exact kr _ Hbr), (pow_size_type_exact kc _ Hbc).
  pose proof (checkParameters_None (derived_height nr nc kr kc)
                (kr ^ derived_height nr nc kr kc)
                (kc ^ derived_height nr nc kr kc) nr nc kr kc) as Hc.
  destruct (checkParameters _ _ _ nr nc kr kc) as [err|].
  - split.
    + intros _ Heq. apply Hc in Heq. discriminate.
    + intros _. now exists err.
  - split.
    + intros [err Herr]. discriminate.
    + intros Hne. exfalso. apply Hne, Hc. reflexivity.
Qed.

Lemma KrKcTree_of_matrix_window_throws_iff {E : Type} `{ElemType E}
  (mat : matrix_type E) (x y nr nc kr kc : nat) (null : E) :
  (Z.of_nat (kr ^ derived_height nr nc kr kc) <= 2 ^ 53)%Z ->
  (Z.of_nat (kc ^ derived_height nr nc kr kc) <= 2 ^ 53)%Z ->
  ((exists err, KrKcTree_of_matrix_window mat x y nr nc kr kc null = inl err)
   <->
   (nr, nc) <> (kr ^ derived_height nr nc kr kc,
                kc ^ derived_height nr nc kr kc)).
Proof.
  intros Hbr Hbc.
  rewrite <- (window_dimensions_throws_iff nr nc kr kc Hbr Hbc).
  unfold KrKcTree_of_matrix_window.
  destruct (window_dimensions nr nc kr kc)
    as [err|[[[h numRows] numCols]|]].
  - split; intros _; now exists err.
  - split; intros [err Herr]; discriminate.
  - split; intros [err Herr]; discriminate.
Qed.

(** C8, second half, does not hold of the code.  In [checkParameters] the
    operator between [", nc = "] and [std::to_string(nc)] is [=] where the
    other pieces are joined by [+], so [err] is the right operand alone:
    the text starts at the digits of [nc], and neither [nr] nor the words in
    front of it are part of it.  For the window [nr = 3], [nc = 4] with
    [kr = kc = 2] the constructor throws the text below, and for no input
    does the text depend on [nr]. *)
Theorem checkParameters_err_omits_nr :
  KrKcTree_of_matrix_window exampleMatrix 0 0 3 4 2 2 0%Z =
    inl "4, kr = 2 and kc = 2 leading to h = 2 and 4 rows resp. 4 columns."%string
  /\
  forall h numRows numCols nr nr' nc kr kc : nat,
    checkParameters_err h numRows numCols nr nc kr kc =
    checkParameters_err h numRows numCols nr' nc kr kc.
Proof.
  split.
  - vm_compute. reflexivity.
  - intros. reflexivity.
Qed.

(** ** Claim C10: all-zero leaf groups in the [bool] specialisation *)

(** C10, as stated, fails.  The builder tests [isAllZero(C)] before it
    appends [C], at the leaf level as at every other: on the 4x4 matrix
    whose only set bit is at [(0,0)] the call for the all-zero leaf group at
    [(0,2)] returns [false] and leaves the leaf-level buffer empty, and the
    constructor ends with the four bits of the one non-zero leaf group in
    [L_], not with sixteen. *)
Lemma bool_zero_leaf_group_not_appended :
  KrKcTree_bool.leaf_group 2 2 cornerMatrix 0 2
    = Some [false; false; false; false] /\
  isAllZero [false; false; false; false] = true /\
  KrKcTree_bool.buildFromMatrix 2 2 2 1 cornerMatrix [[]; []] 2 2 2 0 2
    = Some (false, [[]; []]) /\
  KrKcTree_bool.KrKcTree_of_matrix cornerMatrix 2 2
    = Some (mkKrKcTree [true; false; false; false]
                       [true; false; false; false] 2 2 2 4 4 false).
Proof. repeat split. Qed.

(** Appending to a level that exists changes that level, and nothing
    else. *)
Lemma append_level_Some (lv : list (list bool)) (C : list bool) :
  forall i, i < length lv ->
    exists lv',
      append_level lv i C = Some lv' /\
      length lv' = length lv /\
      nth i lv' [] = nth i lv [] ++ C /\
      forall j, j <> i -> nth j lv' [] = nth j lv [].
Proof.
  induction lv as [|x lv IH]; intros i Hi; cbn [length] in Hi; [lia|].
  destruct i as [|i]; cbn [append_level].
  - eexists. split; [reflexivity|]. split; [reflexivity|].
    split; [reflexivity|]. intros [|j] Hj; [lia|reflexivity].
  - destruct (IH i ltac:(lia)) as (lv' & -> & Hlen & Hi' & Hj').
    cbn [obind]. eexists. split; [reflexivity|].
    cbn [length nth]. split; [now rewrite Hlen|]. split; [exact Hi'|].
    intros [|j] Hj; [reflexivity|]. apply Hj'. lia.
Qed.

Lemma rows_rect {A : Type} (mat : list (list A)) (cols : nat) :
  Forall (fun row => length row = cols) mat ->
  forall i, i < length mat -> length (nth 0 mat []) <= length (nth i mat []).
Proof.
  intros Hrows i Hi. rewrite Forall_forall in Hrows.
  rewrite (Hrows (nth 0 mat [])) by (apply nth_In; lia).
  rewrite (Hrows (nth i mat [])) by (now apply nth_In). lia.
Qed.

(** C10, amended.  Take a call of the [bool] matrix builder at the leaf
    level [l = h_], on buffers that have a level [h_ - 1] and a matrix whose
    rows all have [cols] entries, and let [C] be the [kr*kc] bits of its
    leaf group (the bits of the matrix, [false] in the padding).  When the
    bits of [C] are all zero the call returns [false] and leaves every
    level buffer as it was; otherwise it returns [true], and the buffers
    are as before except [levels[h_ - 1]], which is what it was followed
    by [C]. *)
Theorem bool_buildFromMatrix_leaf_group (kr kc h fuel : nat)
  (mat : matrix_type bool) (cols : nat) (levels : list (list bool))
  (numRows numCols p q : nat) :
  1 <= h <= length levels ->
  Forall (fun row => length row = cols) mat ->
  exists b levels',
    KrKcTree_bool.buildFromMatrix kr kc h (S fuel) mat levels numRows numCols
      h p q = Some (b, levels') /\
    let C := map (fun ij => mat_at mat false (p + fst ij) (q + snd ij))
                 (child_slots kr kc) in
    (isAllZero C = true -> b = false /\ levels' = levels) /\
    (isAllZero C = false ->
     b = true /\ length levels' = length levels /\
     nth (h - 1) levels' [] = nth (h - 1) levels [] ++ C /\
     forall i, i <> h - 1 -> nth i levels' [] = nth i levels []).
Proof.
  intros Hh Hrows. cbn [KrKcTree_bool.buildFromMatrix].
  rewrite Nat.eqb_refl. unfold KrKcTree_bool.leaf_group.
  rewrite (mapM_map _ (fun ij => mat_at mat false (p + fst ij) (q + snd ij)))
    by (intros ij; apply mat_read_mat_at, (rows_rect mat cols Hrows)).
  cbn [obind]. cbv zeta.
  destruct (isAllZero _) eqn:Hz.
  - exists false, levels. split; [reflexivity|].
    split; [now intros _|discriminate].
  - unfold offset_from. destruct (Nat.leb_spec 1 h); [|lia]. cbn [obind].
    destruct (append_level_Some levels
                (map (fun ij => mat_at mat false (p + fst ij) (q + snd ij))
                     (child_slots kr kc)) (h - 1) ltac:(lia))
      as (lv' & -> & Hlen & Hat & Hother).
    cbn [obind]. exists true, lv'. split; [reflexivity|].
    split; [discriminate|]. intros _.
    split; [reflexivity|]. split; [exact Hlen|]. split; [exact Hat|exact Hother].
Qed.

Lemma bool_buildFromMatrix_leaf_group_example :
  (1 <= 2 <= length [@nil bool; @nil bool] /\
   Forall (fun row => length row = 4) cornerMatrix) /\
  exists b levels',
    KrKcTree_bool.buildFromMatrix 2 2 2 1 cornerMatrix [[]; []] 2 2 2 0 0
      = Some (b, levels') /\
    let C := map (fun ij => mat_at cornerMatrix false (0 + fst ij) (0 + snd ij))
                 (child_slots 2 2) in
    (isAllZero C = true -> b = false /\ levels' = [[]; []]) /\
    (isAllZero C = false ->
     b = true /\ length levels' = length [@nil bool; @nil bool] /\
     nth (2 - 1) levels' [] = nth (2 - 1) [[]; []] [] ++ C /\
     forall i, i <> 2 - 1 -> nth i levels' [] = nth i [[]; []] []).
Proof.
  split.
  - split; [cbn; lia|repeat constructor].
  - apply (bool_buildFromMatrix_leaf_group 2 2 2 0 cornerMatrix 4 [[]; []]
             2 2 0 0); [cbn; lia|repeat constructor].
Defined.

(** ** Claim C2: the construction modes *)

(** C2 does not hold of the code.  In Mode L2 the recursive [insert] ends
    with [L_[y - T.size()] = 1] in both of its branches: the value [val] it
    is passed is never stored, although the branch of
    [buildFromListsDynamicBitmaps] for [h_ = 1] stores it.  For the relation
    with the values 5, 7 and 9 at [(0,0)], [(1,3)] and [(3,2)], the matrix
    constructor and the list constructor with [mode = 2] agree on [T_] and
    differ on [L_]. *)
Theorem dynamic_bitmaps_store_one :
  valuedLists = lists_of_matrix valuedMatrix 0%Z /\
  KrKcTree_of_matrix valuedMatrix 2 2 0%Z =
    Some (mkKrKcTree [true; true; false; true]
                     [5; 0; 0; 0;  0; 0; 0; 7;  0; 0; 9; 0]%Z
                     2 2 2 4 4 0%Z) /\
  KrKcTree_of_lists_dynamic valuedLists 2 2 0%Z =
    Some (mkKrKcTree [true; true; false; true]
                     [1; 0; 0; 0;  0; 0; 0; 1;  0; 0; 1; 0]%Z
                     2 2 2 4 4 0%Z).
Proof. repeat split. Qed.

(** ** The claims on the running example *)

Ltac example_well_formed :=
  unfold well_formed; cbn [kr_ kc_ h_ numRows_ numCols_ exampleTree];
  repeat split; try lia; right; split; reflexivity.

Lemma KrKcTree_of_matrix_getElement_example :
  (2 <= 2 /\ exampleMatrix <> [] /\
   Forall (fun row => length row = 4) exampleMatrix /\
   (Z.of_nat (2 ^ derived_height (length exampleMatrix) 4 2 2) <= 2 ^ 53)%Z) /\
  exists t,
    KrKcTree_of_matrix exampleMatrix 2 2 0%Z = Some t /\
    kr_ t = 2 /\ kc_ t = 2 /\ null_ t = 0%Z /\
    h_ t = derived_height (length exampleMatrix) 4 2 2 /\
    numRows_ t = 2 ^ h_ t /\ numCols_ t = 2 ^ h_ t /\
    length exampleMatrix <= numRows_ t /\ 4 <= numCols_ t /\
    forall i j, i < numRows_ t -> j < numCols_ t ->
      getElement t i j =
      Some (if (i <? length exampleMatrix) && (j <? 4)
            then nth j (nth i exampleMatrix []) 0%Z else 0%Z).
Proof.
  split.
  - split; [lia|]. split; [discriminate|].
    split; [repeat constructor|cbn; lia].
  - apply (KrKcTree_of_matrix_getElement exampleMatrix 2 2 0%Z 4);
      [lia | lia | discriminate | repeat constructor | cbn; lia | cbn; lia].
Defined.

Lemma getSuccessorPositions_sorted_complete_example :
  (well_formed exampleTree /\ 1 < numRows_ exampleTree) /\
  exists succs,
    getSuccessorPositions exampleTree 1 = Some succs /\
    StronglySorted lt succs /\
    forall j, In j succs <->
              (j < numCols_ exampleTree /\
               exists v, getElement exampleTree 1 j = Some v /\
                         v <> null_ exampleTree).
Proof.
  split.
  - split; [example_well_formed | cbn; lia].
  - apply (getSuccessorPositions_sorted_complete exampleTree 1);
      [example_well_formed | cbn; lia].
Defined.

Lemma getPositionsInRange_complete_example :
  (well_formed exampleTree /\ 0 <= 1 < numRows_ exampleTree /\
   2 <= 3 < numCols_ exampleTree) /\
  exists out,
    getPositionsInRange exampleTree 0 1 2 3 = Some out /\
    forall i j, In (i, j) out <->
                (0 <= i <= 1 /\ 2 <= j <= 3 /\
                 exists v, getElement exampleTree i j = Some v /\
                           v <> null_ exampleTree).
Proof.
  split.
  - split; [example_well_formed | cbn; lia].
  - apply (getPositionsInRange_complete exampleTree 0 1 2 3);
      [example_well_formed | cbn; lia | cbn; lia].
Defined.

Lemma containsElement_iff_pruned_example :
  (well_formed exampleTree /\ pruned exampleTree /\
   truthy_not_null exampleTree /\
   2 <= 3 < numRows_ exampleTree /\ 0 <= 1 < numCols_ exampleTree) /\
  exists b,
    containsElement exampleTree 2 3 0 1 = Some b /\
    (b = true <->
     exists i j, 2 <= i <= 3 /\ 0 <= j <= 1 /\
                 exists v, getElement exampleTree i j = Some v /\
                           v <> null_ exampleTree).
Proof.
  split.
  - split; [example_well_formed|]. split; [split; reflexivity|].
    split; [intros v; reflexivity | cbn; lia].
  - apply (containsElement_iff_pruned exampleTree 2 3 0 1);
      [example_well_formed | split; reflexivity | intros v; reflexivity
       | cbn; lia | cbn; lia].
Defined.

Lemma getFirstSuccessor_is_minimum_example :
  (well_formed exampleTree /\ 3 < numRows_ exampleTree) /\
  exists succs first,
    getSuccessorPositions exampleTree 3 = Some succs /\
    getFirstSuccessor exampleTree 3 = Some first /\
    (succs = [] -> first = numCols_ exampleTree) /\
    (succs <> [] -> In first succs /\ forall j, In j succs -> first <= j).
Proof.
  split.
  - split; [example_well_formed | cbn; lia].
  - apply (getFirstSuccessor_is_minimum exampleTree 3);
      [example_well_formed | cbn; lia].
Defined.

Lemma predecessor_successor_symmetry_example :
  (well_formed exampleTree /\ 1 < numRows_ exampleTree /\
   3 < numCols_ exampleTree) /\
  exists preds succs,
    getPredecessorPositions exampleTree 3 = Some preds /\
    getSuccessorPositions exampleTree 1 = Some succs /\
    (In 1 preds <-> In 3 succs).
Proof.
  split.
  - split; [example_well_formed | cbn; lia].
  - apply (predecessor_successor_symmetry exampleTree 1 3);
      [example_well_formed | cbn; lia | cbn; lia].
Defined.

Lemma setNull_frame_example :
  (well_formed exampleTree /\ 1 < numRows_ exampleTree /\
   3 < numCols_ exampleTree) /\
  exists t',
    setNull exampleTree 1 3 = Some t' /\
    T_ t' = T_ exampleTree /\ h_ t' = h_ exampleTree /\
    kr_ t' = kr_ exampleTree /\ kc_ t' = kc_ exampleTree /\
    numRows_ t' = numRows_ exampleTree /\
    numCols_ t' = numCols_ exampleTree /\
    length (L_ t') = length (L_ exampleTree) /\
    getElement t' 1 3 = Some (null_ exampleTree) /\
    forall i' j', i' < numRows_ exampleTree -> j' < numCols_ exampleTree ->
                  (i', j') <> (1, 3) ->
                  getElement t' i' j' = getElement exampleTree i' j'.
Proof.
  split.
  - split; [example_well_formed | cbn; lia].
  - apply (setNull_frame exampleTree 1 3);
      [example_well_formed | cbn; lia | cbn; lia].
Defined.

(** * Further properties *)

(** ** The leaf of a cell *)

Lemma getElement_cell_leaf {E : Type} `{ElemType E} (t : KrKcTree E)
  (i j : nat) :
  getElement t i j =
  match cell_leaf t i j with
  | Some (Some a) => nth_error (L_ t) a
  | Some None => Some (null_ t)
  | None => None
  end.
Proof.
  unfold getElement, getInit, cell_leaf.
  destruct (L_empty t); [reflexivity|]. apply get_leaf_index.
Qed.

Lemma setNull_cell_leaf {E : Type} `{ElemType E} (t : KrKcTree E)
  (i j : nat) :
  setNull t i j =
  match cell_leaf t i j with
  | Some (Some a) =>
      if a <? length (L_ t)
      then Some (with_L t (list_update (L_ t) a (null_ t)))
      else None
  | Some None => Some (with_L t (L_ t))
  | None => None
  end.
Proof.
  unfold setNull, setInit, cell_leaf, with_L.
  destruct (L_empty t); [reflexivity|]. rewrite set_leaf_index.
  destruct (leaf_index _ _ _ _ _ _ _) as [[a|]|]; try reflexivity.
  now destruct (a <? length (L_ t)).
Qed.

Lemma cell_leaf_with_L {E : Type} `{ElemType E} (t : KrKcTree E)
  (L' : list E) (i j : nat) :
  length L' = length (L_ t) ->
  cell_leaf (with_L t L') i j = cell_leaf t i j.
Proof.
  intros HL. unfold cell_leaf.
  rewrite (L_empty_length t (with_L t L') HL).
  destruct (L_empty t); [reflexivity|].
  cbn [with_L h_ numRows_ numCols_ kr_ kc_].
  apply (leaf_index_ext t (with_L t L')); reflexivity.
Qed.

Lemma with_L_with_L {E : Type} `{ElemType E} (t : KrKcTree E)
  (L1 L2 : list E) : with_L (with_L t L1) L2 = with_L t L2.
Proof. reflexivity. Qed.

Lemma list_update_comm {A : Type} (l : list A) (a b : nat) (x : A) :
  list_update (list_update l a x) b x = list_update (list_update l b x) a x.
Proof.
  revert a b. induction l as [|y l IH]; intros [|a] [|b]; cbn [list_update];
    try reflexivity.
  now rewrite IH.
Qed.

Lemma list_update_idem {A : Type} (l : list A) (a : nat) (x : A) :
  list_update (list_update l a x) a x = list_update l a x.
Proof.
  revert a. induction l as [|y l IH]; intros [|a]; cbn [list_update];
    try reflexivity.
  now rewrite IH.
Qed.

(** One more [setNull] on a structure that differs from [t] in [L_] only. *)
Lemma setNull_with_L {E : Type} `{ElemType E} (t : KrKcTree E)
  (L' : list E) (i j : nat) :
  length L' = length (L_ t) ->
  setNull (with_L t L') i j =
  match cell_leaf t i j with
  | Some (Some a) =>
      if a <? length (L_ t)
      then Some (with_L t (list_update L' a (null_ t)))
      else None
  | Some None => Some (with_L t L')
  | None => None
  end.
Proof.
  intros HL. rewrite setNull_cell_leaf, (cell_leaf_with_L t L' i j HL).
  cbn [with_L L_ null_]. rewrite HL. reflexivity.
Qed.

(** ** [isNotNull] and [getElement] *)

(** [isNotNull(i, j)] is [getElement(i, j) != null_]: on every structure and
    for every pair of arguments the two descents read the same entries, so
    that [isNotNull] answers exactly when [getElement] does, with the
    comparison of its value against [null_]. *)
Theorem isNotNull_getElement {E : Type} `{ElemType E} (t : KrKcTree E)
  (i j : nat) :
  isNotNull t i j =
  (v <- getElement t i j ;; Some (negb (elem_eqb v (null_ t)))).
Proof.
  unfold isNotNull, checkInit. rewrite getElement_cell_leaf. unfold cell_leaf.
  destruct (L_empty t).
  - cbn [obind]. destruct (elem_eqb_eq (null_ t) (null_ t)) as [_ Hn].
    now rewrite (Hn eq_refl).
  - rewrite check_leaf_index.
    now destruct (leaf_index _ _ _ _ _ _ _) as [[a|]|];
      cbn [obind]; try reflexivity;
      destruct (elem_eqb_eq (null_ t) (null_ t)) as [_ Hn];
      rewrite (Hn eq_refl).
Qed.

(** ** [setNull] as an operation *)

(** Two [setNull] calls commute, on every structure and for all arguments:
    both orders fail together or end with the same structure. *)
Theorem setNull_commutes {E : Type} `{ElemType E} (t : KrKcTree E)
  (i j i' j' : nat) :
  (t1 <- setNull t i j ;; setNull t1 i' j') =
  (t2 <- setNull t i' j' ;; setNull t2 i j).
Proof.
  rewrite (setNull_cell_leaf t i j), (setNull_cell_leaf t i' j').
  destruct (cell_leaf t i j) as [[a|]|] eqn:Ha;
    destruct (cell_leaf t i' j') as [[b|]|] eqn:Hb;
    try destruct (Nat.ltb_spec a (length (L_ t))) as [Hla|Hla];
    try destruct (Nat.ltb_spec b (length (L_ t))) as [Hlb|Hlb];
    cbn [obind];
    rewrite ?setNull_with_L by (try apply length_list_update; reflexivity);
    rewrite ?Ha, ?Hb;
    repeat match goal with
           | |- context [?x <? ?n] =>
               destruct (Nat.ltb_spec x n); try lia
           end;
    try reflexivity.
  now rewrite list_update_comm.
Qed.

(** A second [setNull] on the same cell changes nothing. *)
Theorem setNull_idempotent {E : Type} `{ElemType E} (t : KrKcTree E)
  (i j : nat) :
  (t1 <- setNull t i j ;; setNull t1 i j) = setNull t i j.
Proof.
  rewrite (setNull_cell_leaf t i j).
  destruct (cell_leaf t i j) as [[a|]|] eqn:Ha;
    try destruct (Nat.ltb_spec a (length (L_ t))) as [Hla|Hla];
    cbn [obind];
    rewrite ?setNull_with_L by (try apply length_list_update; reflexivity);
    rewrite ?Ha;
    repeat match goal with
           | |- context [?x <? ?n] =>
               destruct (Nat.ltb_spec x n); try lia
           end;
    try reflexivity.
  now rewrite list_update_idem.
Qed.

Lemma well_formed_with_L {E : Type} `{ElemType E} (t : KrKcTree E)
  (L' : list E) :
  well_formed t -> length L' = length (L_ t) -> well_formed (with_L t L').
Proof.
  intros (Hr & Hc & Hh & HnR & HnC & Hs) Hlen.
  unfold well_formed, with_L. cbn [kr_ kc_ h_ numRows_ numCols_ T_ L_].
  repeat (split; [assumption|]).
  destruct Hs as [Hnil|[Ho Hl]].
  - left. rewrite Hnil in Hlen. now destruct L'.
  - right.
    rewrite (level_ext t (mkKrKcTree (T_ t) L' (h_ t) (kr_ t) (kc_ t)
                            (numRows_ t) (numCols_ t) (null_ t))
               eq_refl eq_refl eq_refl).
    unfold groupSize in *. cbn [kr_ kc_]. rewrite Hlen. split; assumption.
Qed.

Lemma cell_leaf_leafG {E : Type} `{ElemType E} (t : KrKcTree E) (p q : nat) :
  well_formed t -> L_empty t = false ->
  cell_leaf t p q = leafG t (h_ t - 1) 0 p q.
Proof.
  intros Hwf HL. unfold cell_leaf, leafG. rewrite HL.
  rewrite (wf_numRows_div t Hwf), (wf_numCols_div t Hwf), (wf_h t Hwf).
  reflexivity.
Qed.

(** On a well-formed structure the descent for an in-range cell ends, and
    it ends inside [L_] when it ends at a leaf. *)
Lemma cell_leaf_in_range {E : Type} `{ElemType E} (t : KrKcTree E)
  (i j : nat) :
  well_formed t -> i < numRows_ t -> j < numCols_ t ->
  exists r, cell_leaf t i j = Some r /\
            forall a, r = Some a -> a < length (L_ t).
Proof.
  intros Hwf Hi Hj. destruct (L_empty t) eqn:HL.
  - exists None. unfold cell_leaf. rewrite HL. split; [reflexivity|].
    discriminate.
  - rewrite (cell_leaf_leafG t i j Hwf HL).
    rewrite (wf_numRows t Hwf) in Hi. rewrite (wf_numCols t Hwf) in Hj.
    exact (leafG_Node t (wf_kr t Hwf) (wf_kc t Hwf) (h_ t - 1) 0 i j
             (wf_root t Hwf HL) Hi Hj).
Qed.

(** Distinct in-range cells end at distinct leaves. *)
Lemma cell_leaf_inj {E : Type} `{ElemType E} (t : KrKcTree E)
  (i j i' j' a : nat) :
  well_formed t ->
  i < numRows_ t -> j < numCols_ t -> i' < numRows_ t -> j' < numCols_ t ->
  cell_leaf t i j = Some (Some a) -> cell_leaf t i' j' = Some (Some a) ->
  i = i' /\ j = j'.
Proof.
  intros Hwf Hi Hj Hi' Hj' Ha Ha'. destruct (L_empty t) eqn:HL.
  - unfold cell_leaf in Ha. rewrite HL in Ha. discriminate.
  - rewrite (cell_leaf_leafG t i j Hwf HL) in Ha.
    rewrite (cell_leaf_leafG t i' j' Hwf HL) in Ha'.
    rewrite (wf_numRows t Hwf) in Hi, Hi'.
    rewrite (wf_numCols t Hwf) in Hj, Hj'.
    pose proof (wf_h t Hwf) as Hh.
    destruct (leafG_inj t (wf_kr t Hwf) (wf_kc t Hwf)
                (L_empty_false_shape t Hwf HL) (h_ t - 1) 0 0 0 i j i' j' a
                ltac:(lia) (Grp_root t) (Grp_root t) Hi Hj Hi' Hj' Ha Ha')
      as (_ & -> & ->).
    now split.
Qed.

(** One [setNull] on a well-formed structure, in terms of [getElement]. *)
Lemma setNull_in_range {E : Type} `{ElemType E} (t : KrKcTree E)
  (i j : nat) :
  well_formed t -> i < numRows_ t -> j < numCols_ t ->
  exists L',
    setNull t i j = Some (with_L t L') /\
    length L' = length (L_ t) /\
    forall i' j', i' < numRows_ t -> j' < numCols_ t ->
      getElement (with_L t L') i' j' =
      if (i' =? i) && (j' =? j) then Some (null_ t) else getElement t i' j'.
Proof.
  intros Hwf Hi Hj. rewrite setNull_cell_leaf.
  destruct (cell_leaf_in_range t i j Hwf Hi Hj) as (r & Hr & Hb).
  rewrite Hr. destruct r as [a|].
  - specialize (Hb a eq_refl).
    destruct (Nat.ltb_spec a (length (L_ t))); [|lia].
    exists (list_update (L_ t) a (null_ t)).
    split; [reflexivity|]. split; [apply length_list_update|].
    intros i' j' Hi' Hj'.
    rewrite (getElement_cell_leaf (with_L t _)), (getElement_cell_leaf t).
    rewrite cell_leaf_with_L by apply length_list_update.
    cbn [with_L L_ null_].
    destruct (Nat.eqb_spec i' i) as [->|Hne];
      [destruct (Nat.eqb_spec j' j) as [->|Hne]|]; cbn [andb].
    + rewrite Hr. now apply nth_error_list_update_eq.
    + destruct (cell_leaf t i j') as [[a'|]|] eqn:Hr'; try reflexivity.
      apply nth_error_list_update_neq. intros ->.
      destruct (cell_leaf_inj t i j i j' a' Hwf Hi Hj Hi' Hj' Hr Hr').
      now apply Hne.
    + destruct (cell_leaf t i' j') as [[a'|]|] eqn:Hr'; try reflexivity.
      apply nth_error_list_update_neq. intros ->.
      destruct (cell_leaf_inj t i j i' j' a' Hwf Hi Hj Hi' Hj' Hr Hr').
      now apply Hne.
  - exists (L_ t). split; [reflexivity|]. split; [reflexivity|].
    intros i' j' Hi' Hj'.
    rewrite (getElement_cell_leaf (with_L t _)), (getElement_cell_leaf t).
    rewrite cell_leaf_with_L by reflexivity. cbn [with_L L_ null_].
    destruct (Nat.eqb_spec i' i) as [->|Hne];
      [destruct (Nat.eqb_spec j' j) as [->|Hne]|]; cbn [andb];
      try reflexivity.
    now rewrite Hr.
Qed.

(** Clearing a list of in-range cells, one [setNull] after the other, on a
    well-formed structure: every call succeeds, the result is well formed
    with the same [T_] and extent, and [getElement] yields [null_] on the
    cleared cells and the former value on all others. *)
Theorem setNull_all_getElement {E : Type} `{ElemType E} (t : KrKcTree E)
  (cells : list (nat * nat)) :
  well_formed t ->
  Forall (fun ij => fst ij < numRows_ t /\ snd ij < numCols_ t) cells ->
  exists t',
    setNull_all t cells = Some t' /\
    well_formed t' /\ T_ t' = T_ t /\
    numRows_ t' = numRows_ t /\ numCols_ t' = numCols_ t /\
    null_ t' = null_ t /\
    forall i j, i < numRows_ t -> j < numCols_ t ->
      getElement t' i j =
      if existsb (fun ij => (i =? fst ij) && (j =? snd ij)) cells
      then Some (null_ t) else getElement t i j.
Proof.
  intros Hwf Hcells. revert t Hwf Hcells.
  induction cells as [|[ci cj] cells IH]; intros t Hwf Hcells.
  - exists t. cbn [setNull_all foldM existsb]. split; [reflexivity|].
    split; [exact Hwf|]. repeat (split; [reflexivity|]). reflexivity.
  - inversion Hcells as [|? ? [Hci Hcj] Hrest]; subst. cbn [fst snd] in Hci, Hcj.
    destruct (setNull_in_range t ci cj Hwf Hci Hcj) as (L' & Hset & Hlen & Hget).
    destruct (IH (with_L t L') (well_formed_with_L t L' Hwf Hlen) Hrest)
      as (t' & Hall & Hwf' & HT & HnR & HnC & Hnull & Hget').
    exists t'. unfold setNull_all in *. cbn [foldM fst snd]. rewrite Hset.
    split; [exact Hall|]. split; [exact Hwf'|].
    cbn [with_L T_ numRows_ numCols_ null_] in HT, HnR, HnC, Hnull, Hget'.
    repeat (split; [assumption|]).
    intros i j Hi Hj. rewrite (Hget' i j Hi Hj). cbn [existsb fst snd].
    rewrite (Hget i j Hi Hj).
    destruct ((i =? ci) && (j =? cj)); cbn [orb]; [|reflexivity].
    now destruct (existsb _ cells).
Qed.

Lemma setNull_all_getElement_example :
  (well_formed exampleTree /\
   Forall (fun ij => fst ij < numRows_ exampleTree /\
                     snd ij < numCols_ exampleTree) [(0, 0); (3, 2)]) /\
  exists t',
    setNull_all exampleTree [(0, 0); (3, 2)] = Some t' /\
    well_formed t' /\ T_ t' = T_ exampleTree /\
    numRows_ t' = numRows_ exampleTree /\
    numCols_ t' = numCols_ exampleTree /\
    null_ t' = null_ exampleTree /\
    forall i j, i < numRows_ exampleTree -> j < numCols_ exampleTree ->
      getElement t' i j =
      if existsb (fun ij => (i =? fst ij) && (j =? snd ij)) [(0, 0); (3, 2)]
      then Some (null_ exampleTree) else getElement exampleTree i j.
Proof.
  split.
  - split; [example_well_formed|]. repeat constructor.
  - apply (setNull_all_getElement exampleTree [(0, 0); (3, 2)]);
      [example_well_formed | repeat constructor].
Defined.

Lemma filter_andb {A : Type} (f g : A -> bool) (l : list A) :
  filter f (filter g l) = filter (fun x => g x && f x) l.
Proof.
  induction l as [|x l IH]; cbn [filter]; [reflexivity|].
  destruct (g x); cbn [filter andb]; rewrite IH; reflexivity.
Qed.

(** [setNull(i, j)] on a well-formed structure, seen through the row and
    column queries: column [j] leaves the successors of row [i], row [i]
    leaves the predecessors of column [j], and the lists of all other rows
    and columns stay as they were. *)
Theorem setNull_successors_predecessors {E : Type} `{ElemType E}
  (t : KrKcTree E) (i j : nat) :
  well_formed t -> i < numRows_ t -> j < numCols_ t ->
  exists t' succs preds,
    setNull t i j = Some t' /\
    getSuccessorPositions t i = Some succs /\
    getPredecessorPositions t j = Some preds /\
    getSuccessorPositions t' i = Some (filter (fun c => negb (c =? j)) succs) /\
    getPredecessorPositions t' j = Some (filter (fun r => negb (r =? i)) preds) /\
    (forall i', i' < numRows_ t -> i' <> i ->
                getSuccessorPositions t' i' = getSuccessorPositions t i') /\
    (forall j', j' < numCols_ t -> j' <> j ->
                getPredecessorPositions t' j' = getPredecessorPositions t j').
Proof.
  intros Hwf Hi Hj.
  destruct (setNull_in_range t i j Hwf Hi Hj) as (L' & Hset & Hlen & Hget).
  pose proof (well_formed_with_L t L' Hwf Hlen) as Hwf'.
  exists (with_L t L'). eexists. eexists.
  split; [exact Hset|].
  split; [apply getSuccessorPositions_spec; assumption|].
  split; [apply getPredecessorPositions_spec; assumption|].
  assert (Hnn : forall i' j', i' < numRows_ t -> j' < numCols_ t ->
            not_null (with_L t L') (getElement (with_L t L') i' j') =
            negb ((i' =? i) && (j' =? j)) && not_null t (getElement t i' j')).
  { intros i' j' Hi' Hj'. rewrite (Hget i' j' Hi' Hj').
    destruct ((i' =? i) && (j' =? j)); cbn [negb andb].
    - apply (not_null_null (with_L t L')).
    - reflexivity. }
  split; [|split; [|split]].
  - rewrite (getSuccessorPositions_spec (with_L t L') i Hwf' Hi).
    f_equal. rewrite filter_andb. apply filter_ext_in'. intros c Hc.
    apply in_seq in Hc. cbn [with_L numCols_] in Hc.
    rewrite (Hnn i c Hi ltac:(lia)), Nat.eqb_refl. cbn [andb].
    apply andb_comm.
  - rewrite (getPredecessorPositions_spec (with_L t L') j Hwf' Hj).
    f_equal. rewrite filter_andb. apply filter_ext_in'. intros r Hr.
    apply in_seq in Hr. cbn [with_L numRows_] in Hr.
    rewrite (Hnn r j ltac:(lia) Hj), Nat.eqb_refl, andb_true_r.
    apply andb_comm.
  - intros i' Hi' Hne.
    rewrite (getSuccessorPositions_spec (with_L t L') i' Hwf' Hi').
    rewrite (getSuccessorPositions_spec t i' Hwf Hi').
    f_equal. apply filter_ext_in'. intros c Hc.
    apply in_seq in Hc. cbn [with_L numCols_] in Hc.
    rewrite (Hnn i' c Hi' ltac:(lia)).
    destruct (Nat.eqb_spec i' i); [contradiction|]. reflexivity.
  - intros j' Hj' Hne.
    rewrite (getPredecessorPositions_spec (with_L t L') j' Hwf' Hj').
    rewrite (getPredecessorPositions_spec t j' Hwf Hj').
    f_equal. apply filter_ext_in'. intros r Hr.
    apply in_seq in Hr. cbn [with_L numRows_] in Hr.
    rewrite (Hnn r j' ltac:(lia) Hj').
    destruct (Nat.eqb_spec j' j); [contradiction|].
    now rewrite andb_false_r.
Qed.

Lemma setNull_successors_predecessors_example :
  (well_formed exampleTree /\ 1 < numRows_ exampleTree /\
   3 < numCols_ exampleTree) /\
  exists t' succs preds,
    setNull exampleTree 1 3 = Some t' /\
    getSuccessorPositions exampleTree 1 = Some succs /\
    getPredecessorPositions exampleTree 3 = Some preds /\
    getSuccessorPositions t' 1 = Some (filter (fun c => negb (c =? 3)) succs) /\
    getPredecessorPositions t' 3 = Some (filter (fun r => negb (r =? 1)) preds) /\
    (forall i', i' < numRows_ exampleTree -> i' <> 1 ->
                getSuccessorPositions t' i' =
                getSuccessorPositions exampleTree i') /\
    (forall j', j' < numCols_ exampleTree -> j' <> 3 ->
                getPredecessorPositions t' j' =
                getPredecessorPositions exampleTree j').
Proof.
  split.
  - split; [example_well_formed | cbn; lia].
  - apply (setNull_successors_predecessors exampleTree 1 3);
      [example_well_formed | cbn; lia | cbn; lia].
Defined.

(** ** Predecessors *)

(** On a well-formed structure and a column [j < numCols_],
    [getPredecessorPositions(j)] terminates with a strictly ascending list
    whose entries are exactly the rows [i] (below [numRows_]) with
    [getElement(i, j) != null_]. *)
Theorem getPredecessorPositions_sorted_complete {E : Type} `{ElemType E}
  (t : KrKcTree E) (j : nat) :
  well_formed t -> j < numCols_ t ->
  exists preds,
    getPredecessorPositions t j = Some preds /\
    StronglySorted lt preds /\
    forall i, In i preds <->
              (i < numRows_ t /\
               exists v, getElement t i j = Some v /\ v <> null_ t).
Proof.
  intros Hwf Hj. eexists.
  split; [apply getPredecessorPositions_spec; assumption|].
  split.
  - apply StronglySorted_filter_lt, StronglySorted_seq.
  - intros i. rewrite filter_In, in_seq, not_null_true. cbn [Nat.add].
    split; intros [Hi Hv]; (split; [lia|exact Hv]).
Qed.

Lemma getPredecessorPositions_sorted_complete_example :
  (well_formed exampleTree /\ 3 < numCols_ exampleTree) /\
  exists preds,
    getPredecessorPositions exampleTree 3 = Some preds /\
    StronglySorted lt preds /\
    forall i, In i preds <->
              (i < numRows_ exampleTree /\
               exists v, getElement exampleTree i 3 = Some v /\
                         v <> null_ exampleTree).
Proof.
  split.
  - split; [example_well_formed | cbn; lia].
  - apply (getPredecessorPositions_sorted_complete exampleTree 3);
      [example_well_formed | cbn; lia].
Defined.

(** ** The recursive successor queries *)

Section RecursiveSuccessors.

Context {E : Type} `{ElemType E}.

Variable t : KrKcTree E.

Local Abbreviation T := (T_ t).
Local Abbreviation L := (L_ t).
Local Abbreviation kr := (kr_ t).
Local Abbreviation kc := (kc_ t).

Hypothesis Hkr : 2 <= kr.
Hypothesis Hkc : 2 <= kc.

(** The loop over the [kc_] entries of a group that lie in the row. *)
Lemma successors_group (fuel d y p q0 : nat) (succs : list nat) :
  (forall z p' q0' succs',
      Entry t d z -> p' < kr ^ d ->
      successorsPos t fuel succs' (kr ^ d) (kc ^ d) p' q0' z =
      Some (succs' ++ map (fun q => q0' + q) (rowCols t d z p'))) ->
  Node t d y -> p < kr ^ S d ->
  foldM (fun j succs' =>
           successorsPos t fuel succs' (kr ^ d) (kc ^ d) (p mod kr ^ d)
             (q0 + kc ^ d * j) (y + kc * (p / kr ^ d) + j))
        (seq 0 kc) succs =
  Some (succs ++ map (fun q => q0 + q) (rowG t d y p)).
Proof.
  intros Hentry HN Hp.
  rewrite (foldM_app_spec _
             (fun j => map (fun q => q0 + kc ^ d * j + q)
                           (rowCols t d (y + kc * (p / kr ^ d) + j)
                                    (p mod kr ^ d)))).
  - f_equal. f_equal. rewrite rowG_chunks, map_flat_map by assumption.
    apply flat_map_ext_in. intros j _. rewrite map_map.
    replace (y + p / kr ^ d * kc + j) with (y + kc * (p / kr ^ d) + j) by lia.
    apply map_ext. intros q. lia.
  - intros j s Hj. apply in_seq in Hj. apply Hentry.
    + replace (y + kc * (p / kr ^ d) + j) with (y + (p / kr ^ d * kc + j)) by lia.
      apply Node_Entry; [exact HN|].
      apply slot_lt; [apply div_pow_lt; lia|lia].
    + apply mod_pow_lt; lia.
Qed.

Lemma successorsPos_entry (d : nat) :
  forall fuel z p q0 succs,
    d < fuel -> Entry t d z -> p < kr ^ d ->
    successorsPos t fuel succs (kr ^ d) (kc ^ d) p q0 z =
    Some (succs ++ map (fun q => q0 + q) (rowCols t d z p)).
Proof.
  induction d as [|d IH]; intros [|fuel] z p q0 succs Hf Hz Hp; try lia.
  - cbn [successorsPos]. rewrite (Entry_0_leaf t z Hz).
    destruct (Entry_0_read t z Hz) as [v Hv]. rewrite Hv. cbn [obind].
    rewrite rowCols_0, Hv by assumption. cbn [not_null].
    destruct (negb (elem_eqb v (null_ t))); cbn [map].
    + now rewrite Nat.add_0_r.
    + now rewrite app_nil_r.
  - cbn [successorsPos]. rewrite (Entry_S_not_leaf t d z Hz).
    destruct (Entry_S_read t d z Hz) as [b Hb]. rewrite Hb. cbn [obind].
    rewrite rowCols_S, Hb by assumption.
    destruct b.
    + cbv zeta. rewrite !pow_div by lia.
      destruct Hz as [_ Hsub]. specialize (Hsub Hb).
      apply successors_group; [|assumption|assumption].
      intros. apply IH; [lia|assumption|assumption].
    + now rewrite app_nil_r.
Qed.

End RecursiveSuccessors.

(** The recursive [successorsPosInit], which [getSuccessorPositions] no
    longer calls, appends to [succs] the list the iterative
    [getSuccessorPositions] returns: on a well-formed structure and a row
    [i < numRows_] the two implementations agree. *)
Theorem successorsPosInit_getSuccessorPositions {E : Type} `{ElemType E}
  (t : KrKcTree E) (i : nat) (succs : list nat) :
  well_formed t -> i < numRows_ t ->
  exists out,
    getSuccessorPositions t i = Some out /\
    successorsPosInit t succs i = Some (succs ++ out).
Proof.
  intros Hwf Hi. eexists.
  split; [apply getSuccessorPositions_spec; assumption|].
  unfold successorsPosInit. destruct (L_empty t) eqn:HL.
  - f_equal. rewrite filter_false; [now rewrite app_nil_r|]. intros j _.
    rewrite getElement_empty by assumption. apply not_null_null.
  - pose proof (wf_kr t Hwf) as Hkr. pose proof (wf_kc t Hwf) as Hkc.
    rewrite (wf_numRows t Hwf) in Hi.
    cbv zeta. rewrite (wf_numRows_div t Hwf), (wf_numCols_div t Hwf).
    pose proof (wf_h t Hwf) as Hh.
    pose proof (successors_group t Hkr Hkc (h_ t) (h_ t - 1) 0 i 0 succs
                  (fun z p' q0' succs' =>
                     successorsPos_entry t Hkr Hkc (h_ t - 1) (h_ t)
                       z p' q0' succs' ltac:(lia))
                  (wf_root t Hwf HL) Hi) as Hg.
    cbn [Nat.add] in Hg. rewrite Hg. f_equal. f_equal.
    rewrite map_id. unfold rowG. rewrite <- (wf_numCols t Hwf).
    apply filter_ext_in'. intros j _. unfold getElement.
    now rewrite (getInit_getG t Hwf i j HL).
Qed.

Lemma successorsPosInit_getSuccessorPositions_example :
  (well_formed exampleTree /\ 1 < numRows_ exampleTree) /\
  exists out,
    getSuccessorPositions exampleTree 1 = Some out /\
    successorsPosInit exampleTree [7] 1 = Some ([7] ++ out).
Proof.
  split.
  - split; [example_well_formed | cbn; lia].
  - apply (successorsPosInit_getSuccessorPositions exampleTree 1 [7]);
      [example_well_formed | cbn; lia].
Defined.

Lemma untilFound_found {E : Type} `{ElemType E} (t : KrKcTree E)
  (body : nat -> option nat) (js : list nat) (pos : nat) :
  pos <> numCols_ t -> untilFound t body js pos = Some pos.
Proof.
  intros Hne. destruct js as [|j js]; cbn [untilFound]; [reflexivity|].
  destruct (Nat.eqb_spec pos (numCols_ t)); [contradiction|reflexivity].
Qed.

(** The loop stops at the first iteration whose result is a column. *)
Lemma untilFound_spec {E : Type} `{ElemType E} (t : KrKcTree E)
  (body : nat -> option nat) (g : nat -> list nat) (js : list nat) :
  (forall j, In j js -> body j = Some (hd (numCols_ t) (g j))) ->
  (forall j x, In j js -> In x (g j) -> x <> numCols_ t) ->
  untilFound t body js (numCols_ t) = Some (hd (numCols_ t) (flat_map g js)).
Proof.
  induction js as [|j js IH]; intros Hb Hx; cbn [untilFound flat_map];
    [reflexivity|].
  rewrite Nat.eqb_refl, (Hb j (or_introl eq_refl)). cbn [obind].
  destruct (g j) as [|x xs] eqn:Hg; cbn [hd app].
  - apply IH; intros; [apply Hb|eapply Hx]; try (right; eassumption);
      eassumption.
  - apply untilFound_found. apply (Hx j x (or_introl eq_refl)).
    rewrite Hg. now left.
Qed.

Section RecursiveFirstSuccessor.

Context {E : Type} `{ElemType E}.

Variable t : KrKcTree E.

Local Abbreviation T := (T_ t).
Local Abbreviation L := (L_ t).
Local Abbreviation kr := (kr_ t).
Local Abbreviation kc := (kc_ t).
Local Abbreviation N := (numCols_ t).

Hypothesis Hkr : 2 <= kr.
Hypothesis Hkc : 2 <= kc.

Lemma rowCols_lt (d z p q : nat) : In q (rowCols t d z p) -> q < kc ^ d.
Proof. unfold rowCols. rewrite filter_In, in_seq. lia. Qed.

Lemma firstSuccessor_group (fuel d y p q0 : nat) :
  (forall z p' q0',
      Entry t d z -> p' < kr ^ d -> q0' + kc ^ d <= N ->
      firstSuccessor t fuel (kr ^ d) (kc ^ d) p' q0' z =
      Some (hd N (map (fun q => q0' + q) (rowCols t d z p')))) ->
  Node t d y -> p < kr ^ S d -> q0 + kc ^ S d <= N ->
  untilFound t
    (fun j => firstSuccessor t fuel (kr ^ d) (kc ^ d) (p mod kr ^ d)
                (q0 + kc ^ d * j) (y + kc * (p / kr ^ d) + j))
    (seq 0 kc) N =
  Some (hd N (map (fun q => q0 + q) (rowG t d y p))).
Proof.
  intros Hentry HN Hp Hq.
  assert (Hle : forall j, j < kc -> q0 + kc ^ d * j + kc ^ d <= N).
  { intros j Hj. rewrite Nat.pow_succ_r' in Hq. nia. }
  rewrite (untilFound_spec t _
             (fun j => map (fun q => q0 + kc ^ d * j + q)
                           (rowCols t d (y + kc * (p / kr ^ d) + j)
                                    (p mod kr ^ d)))).
  - f_equal. f_equal. rewrite rowG_chunks, map_flat_map by assumption.
    apply flat_map_ext_in. intros j _. rewrite map_map.
    replace (y + p / kr ^ d * kc + j) with (y + kc * (p / kr ^ d) + j) by lia.
    apply map_ext. intros q. lia.
  - intros j Hj. apply in_seq in Hj. apply Hentry.
    + replace (y + kc * (p / kr ^ d) + j) with (y + (p / kr ^ d * kc + j)) by lia.
      apply Node_Entry; [exact HN|].
      apply slot_lt; [apply div_pow_lt; lia|lia].
    + apply mod_pow_lt; lia.
    + apply Hle. lia.
  - intros j x Hj Hx. apply in_seq in Hj. apply in_map_iff in Hx.
    destruct Hx as (q & <- & Hq'). apply rowCols_lt in Hq'.
    specialize (Hle j ltac:(lia)). lia.
Qed.

Lemma firstSuccessor_entry (d : nat) :
  forall fuel z p q0,
    d < fuel -> Entry t d z -> p < kr ^ d -> q0 + kc ^ d <= N ->
    firstSuccessor t fuel (kr ^ d) (kc ^ d) p q0 z =
    Some (hd N (map (fun q => q0 + q) (rowCols t d z p))).
Proof.
  induction d as [|d IH]; intros [|fuel] z p q0 Hf Hz Hp Hq; try lia.
  - cbn [firstSuccessor]. rewrite (Entry_0_leaf t z Hz).
    destruct (Entry_0_read t z Hz) as [v Hv]. rewrite Hv. cbn [obind].
    rewrite rowCols_0, Hv by assumption. cbn [not_null].
    destruct (negb (elem_eqb v (null_ t))); cbn [map hd]; [|reflexivity].
    now rewrite Nat.add_0_r.
  - cbn [firstSuccessor]. rewrite (Entry_S_not_leaf t d z Hz).
    destruct (Entry_S_read t d z Hz) as [b Hb]. rewrite Hb. cbn [obind].
    rewrite rowCols_S, Hb by assumption.
    destruct b; [|reflexivity].
    cbv zeta. rewrite !pow_div by lia.
    destruct Hz as [_ Hsub]. specialize (Hsub Hb).
    apply firstSuccessor_group; [|assumption|assumption|assumption].
    intros. apply IH; [lia|assumption|assumption|assumption].
Qed.

End RecursiveFirstSuccessor.

(** The recursive [firstSuccessorInit], which [getFirstSuccessor] no longer
    calls, returns what the iterative [getFirstSuccessor] returns: on a
    well-formed structure and a row [i < numRows_] the two implementations
    agree. *)
Theorem firstSuccessorInit_getFirstSuccessor {E : Type} `{ElemType E}
  (t : KrKcTree E) (i : nat) :
  well_formed t -> i < numRows_ t ->
  exists first,
    getFirstSuccessor t i = Some first /\
    firstSuccessorInit t i = Some first.
Proof.
  intros Hwf Hi. eexists.
  split; [apply getFirstSuccessor_spec; assumption|].
  unfold firstSuccessorInit. destruct (L_empty t) eqn:HL.
  - f_equal. rewrite filter_false; [reflexivity|]. intros j _.
    rewrite getElement_empty by assumption. apply not_null_null.
  - pose proof (wf_kr t Hwf) as Hkr. pose proof (wf_kc t Hwf) as Hkc.
    pose proof (wf_numCols t Hwf) as HN.
    rewrite (wf_numRows t Hwf) in Hi.
    cbv zeta. rewrite (wf_numRows_div t Hwf), (wf_numCols_div t Hwf).
    pose proof (wf_h t Hwf) as Hh.
    pose proof (firstSuccessor_group t Hkr Hkc (h_ t) (h_ t - 1) 0 i 0
                  (fun z p' q0' =>
                     firstSuccessor_entry t Hkr Hkc (h_ t - 1) (h_ t)
                       z p' q0' ltac:(lia))
                  (wf_root t Hwf HL) Hi ltac:(lia)) as Hg.
    cbn [Nat.add] in Hg. rewrite Hg. f_equal. f_equal.
    rewrite map_id. unfold rowG. rewrite <- (wf_numCols t Hwf).
    apply filter_ext_in'. intros j _. unfold getElement.
    now rewrite (getInit_getG t Hwf i j HL).
Qed.

Lemma firstSuccessorInit_getFirstSuccessor_example :
  (well_formed exampleTree /\ 3 < numRows_ exampleTree) /\
  exists first,
    getFirstSuccessor exampleTree 3 = Some first /\
    firstSuccessorInit exampleTree 3 = Some first.
Proof.
  split.
  - split; [example_well_formed | cbn; lia].
  - apply (firstSuccessorInit_getFirstSuccessor exampleTree 3);
      [example_well_formed | cbn; lia].
Defined.

(** ** Predecessor elements *)

Section PredecessorElements.

Context {E : Type} `{ElemType E}.

Variable t : KrKcTree E.

Local Abbreviation T := (T_ t).
Local Abbreviation L := (L_ t).
Local Abbreviation kr := (kr_ t).
Local Abbreviation kc := (kc_ t).

Hypothesis Hkr : 2 <= kr.
Hypothesis Hkc : 2 <= kc.

Lemma colRows_lt (d z q p : nat) : In p (colRows t d z q) -> p < kr ^ d.
Proof. unfold colRows. rewrite filter_In, in_seq. lia. Qed.

Lemma predecessorsElem_group (fuel d y q p0 : nat) (preds : list E) :
  (forall z q' p0' preds',
      Entry t d z -> q' < kc ^ d ->
      predecessorsElem t fuel preds' (kr ^ d) (kc ^ d) q' p0' z =
      Some (preds' ++ map (fun p => value_of t (getU t d z p q'))
                          (colRows t d z q'))) ->
  Node t d y -> q < kc ^ S d ->
  foldM (fun i preds' =>
           predecessorsElem t fuel preds' (kr ^ d) (kc ^ d) (q mod kc ^ d)
             (p0 + kr ^ d * i) (y + q / kc ^ d + i * kc))
        (seq 0 kr) preds =
  Some (preds ++ map (fun p => value_of t (getG t d y p q)) (colG t d y q)).
Proof.
  intros Hentry HN Hq.
  rewrite (foldM_app_spec _
             (fun i => map (fun p => value_of t
                                       (getU t d (y + q / kc ^ d + i * kc) p
                                             (q mod kc ^ d)))
                           (colRows t d (y + q / kc ^ d + i * kc)
                                    (q mod kc ^ d)))).
  - f_equal. f_equal. rewrite colG_chunks, map_flat_map by assumption.
    apply flat_map_ext_in. intros i _. rewrite map_map.
    replace (y + i * kc + q / kc ^ d) with (y + q / kc ^ d + i * kc) by lia.
    apply map_ext_in. intros p Hp. apply colRows_lt in Hp.
    unfold getG, getU. rewrite div_mul_add, mod_mul_add by lia.
    replace (y + i * kc + q / kc ^ d) with (y + q / kc ^ d + i * kc) by lia.
    reflexivity.
  - intros i s Hi. apply in_seq in Hi. apply Hentry.
    + replace (y + q / kc ^ d + i * kc) with (y + (i * kc + q / kc ^ d)) by lia.
      apply Node_Entry; [exact HN|].
      apply slot_lt; [lia|apply div_pow_lt; lia].
    + apply mod_pow_lt; lia.
Qed.

Lemma predecessorsElem_entry (d : nat) :
  forall fuel z q p0 preds,
    d < fuel -> Entry t d z -> q < kc ^ d ->
    predecessorsElem t fuel preds (kr ^ d) (kc ^ d) q p0 z =
    Some (preds ++ map (fun p => value_of t (getU t d z p q))
                       (colRows t d z q)).
Proof.
  induction d as [|d IH]; intros [|fuel] z q p0 preds Hf Hz Hq; try lia.
  - cbn [predecessorsElem]. rewrite (Entry_0_leaf t z Hz).
    destruct (Entry_0_read t z Hz) as [v Hv]. rewrite Hv. cbn [obind].
    rewrite colRows_0, Hv by assumption. cbn [not_null].
    destruct (negb (elem_eqb v (null_ t))); cbn [map].
    + rewrite getU_0, Hv by assumption. reflexivity.
    + now rewrite app_nil_r.
  - cbn [predecessorsElem]. rewrite (Entry_S_not_leaf t d z Hz).
    destruct (Entry_S_read t d z Hz) as [b Hb]. rewrite Hb. cbn [obind].
    rewrite colRows_S, Hb by assumption.
    destruct b.
    + cbv zeta. rewrite !pow_div by lia.
      pose proof Hz as [_ Hsub]. specialize (Hsub Hb).
      rewrite (predecessorsElem_group fuel d _ q p0 preds); [|  |assumption|assumption].
      * f_equal. f_equal. apply map_ext. intros p.
        now rewrite getU_S, Hb by assumption.
      * intros. apply IH; [lia|assumption|assumption].
    + now rewrite app_nil_r.
Qed.

End PredecessorElements.

(** On a well-formed structure and a column [j < numCols_],
    [getPredecessorElements(j)] terminates with the values
    [getElement(i, j)] at the rows [i] that [getPredecessorPositions(j)]
    lists, in the same order. *)
Theorem getPredecessorElements_values {E : Type} `{ElemType E}
  (t : KrKcTree E) (j : nat) :
  well_formed t -> j < numCols_ t ->
  exists preds elems,
    getPredecessorPositions t j = Some preds /\
    getPredecessorElements t j = Some elems /\
    map (fun i => getElement t i j) preds = map Some elems.
Proof.
  intros Hwf Hj.
  exists (filter (fun i => not_null t (getElement t i j)) (seq 0 (numRows_ t))).
  exists (map (fun i => value_of t (getElement t i j))
              (filter (fun i => not_null t (getElement t i j))
                      (seq 0 (numRows_ t)))).
  split; [apply getPredecessorPositions_spec; assumption|].
  split.
  - unfold getPredecessorElements, predecessorsElemInit.
    destruct (L_empty t) eqn:HL.
    + f_equal. rewrite filter_false; [reflexivity|]. intros i _.
      rewrite getElement_empty by assumption. apply not_null_null.
    + pose proof (wf_kr t Hwf) as Hkr. pose proof (wf_kc t Hwf) as Hkc.
      rewrite (wf_numCols t Hwf) in Hj.
      cbv zeta. rewrite (wf_numRows_div t Hwf), (wf_numCols_div t Hwf).
      pose proof (wf_h t Hwf) as Hh.
      pose proof (predecessorsElem_group t Hkr Hkc (h_ t) (h_ t - 1) 0 j 0 []
                    (fun z q' p0' preds' =>
                       predecessorsElem_entry t Hkr Hkc (h_ t - 1) (h_ t)
                         z q' p0' preds' ltac:(lia))
                    (wf_root t Hwf HL) Hj) as Hg.
      cbn [Nat.add app] in Hg. rewrite Hg. f_equal.
      unfold colG. rewrite <- (wf_numRows t Hwf).
      assert (Hcell : forall i, getG t (h_ t - 1) 0 i j = getElement t i j).
      { intros i. unfold getElement. now rewrite (getInit_getG t Hwf i j HL). }
      rewrite (filter_ext_in' _ (fun i => not_null t (getElement t i j)))
        by (intros i _; now rewrite Hcell).
      apply map_ext. intros i. now rewrite Hcell.
  - rewrite map_map. apply map_ext_in. intros i Hi.
    apply filter_In in Hi. destruct Hi as [_ Hnn].
    apply not_null_true in Hnn. destruct Hnn as (v & -> & _). reflexivity.
Qed.

Lemma getPredecessorElements_values_example :
  (well_formed exampleTree /\ 3 < numCols_ exampleTree) /\
  exists preds elems,
    getPredecessorPositions exampleTree 3 = Some preds /\
    getPredecessorElements exampleTree 3 = Some elems /\
    map (fun i => getElement exampleTree i 3) preds = map Some elems.
Proof.
  split.
  - split; [example_well_formed | cbn; lia].
  - apply (getPredecessorElements_values exampleTree 3);
      [example_well_formed | cbn; lia].
Defined.

(** ** The matrix constructor, end to end *)

(** A block that is kept holds a value. *)
Lemma nonempty_true {E : Type} `{ElemType E} (mat : matrix_type E)
  (kr kc : nat) (null : E) (d : nat) :
  forall n,
    nonempty mat kr kc null d n = true ->
    exists a b, a < kr ^ d /\ b < kc ^ d /\
                mat_at mat null (fst n + a) (snd n + b) <> null.
Proof.
  induction d as [|d IH]; intros n Hne; cbn [nonempty] in Hne.
  - exists 0, 0. rewrite !Nat.pow_0_r, !Nat.add_0_r.
    split; [lia|]. split; [lia|]. intros Heq.
    apply (elem_eqb_eq _ null) in Heq. rewrite Heq in Hne. discriminate.
  - apply existsb_exists in Hne. destruct Hne as (kid & Hin & Hkid).
    unfold kids in Hin. apply in_map_iff in Hin.
    destruct Hin as ([i j] & <- & Hij). apply in_prod_iff in Hij.
    destruct Hij as [Hi Hj]. apply in_seq in Hi, Hj.
    destruct (IH _ Hkid) as (a & b & Ha & Hb & Hv). cbn [fst snd] in Hv.
    exists (i * kr ^ d + a), (j * kc ^ d + b).
    rewrite !Nat.pow_succ_r'. split; [nia|]. split; [nia|].
    now rewrite !Nat.add_assoc.
Qed.

Lemma concat_repeat_nil {A : Type} (n : nat) :
  concat (repeat (@nil A) n) = [].
Proof. induction n as [|n IH]; [reflexivity|exact IH]. Qed.

Lemma mat_at_inside {E : Type} `{ElemType E} (mat : matrix_type E)
  (null : E) (i j : nat) :
  i < length mat -> j < length (nth 0 mat []) ->
  mat_at mat null i j = nth j (nth i mat []) null.
Proof.
  intros Hi Hj. unfold mat_at.
  destruct (Nat.ltb_spec i (length mat)); [|lia].
  destruct (Nat.ltb_spec j (length (nth 0 mat []))); [|lia]. reflexivity.
Qed.

Lemma mat_at_outside {E : Type} `{ElemType E} (mat : matrix_type E)
  (null : E) (i j : nat) :
  length mat <= i \/ length (nth 0 mat []) <= j ->
  mat_at mat null i j = null.
Proof.
  intros Hij. unfold mat_at.
  destruct (Nat.ltb_spec i (length mat));
    destruct (Nat.ltb_spec j (length (nth 0 mat []))); cbn [andb];
    try reflexivity.
  lia.
Qed.

(** For [kr, kc >= 2], a matrix with at least one row and [cols] entries
    in every row, and powers [kr ^ h] and [kc ^ h] that are exact (at most
    [2 ^ 53]), the matrix constructor terminates, stores its parameters,
    and leaves a structure that satisfies the class invariant, keeps no
    all-zero group in [T_] and no all-[null] group in [L_], and whose
    extent [numRows_ = kr^h_] by [numCols_ = kc^h_] covers the matrix. *)
Theorem KrKcTree_of_matrix_invariants {E : Type} `{ElemType E}
  (mat : matrix_type E) (kr kc : nat) (null : E) (cols : nat) :
  2 <= kr -> 2 <= kc -> mat <> [] ->
  Forall (fun row => length row = cols) mat ->
  (Z.of_nat (kr ^ derived_height (length mat) cols kr kc) <= 2 ^ 53)%Z ->
  (Z.of_nat (kc ^ derived_height (length mat) cols kr kc) <= 2 ^ 53)%Z ->
  exists t,
    KrKcTree_of_matrix mat kr kc null = Some t /\
    kr_ t = kr /\ kc_ t = kc /\ null_ t = null /\
    well_formed t /\ pruned t /\
    length mat <= numRows_ t /\ cols <= numCols_ t.
Proof.
  intros Hkr Hkc Hmat Hrows Hbr Hbc.
  destruct (rows_of_equal_length mat cols Hmat Hrows) as [Hc0 Hrect].
  subst cols.
  pose proof (KrKcTree_of_matrix_eq mat kr kc null Hkr Hkc Hmat Hrect Hbr Hbc)
    as Heq.
  eexists. split; [exact Heq|].
  repeat (split; [reflexivity|]).
  split; [exact (KrKcTree_of_matrix_well_formed mat kr kc null _ Hkr Hkc Heq)|].
  split; [exact (KrKcTree_of_matrix_pruned mat kr kc null _ Hkr Hkc Heq)|].
  exact (KrKcTree_of_matrix_covers mat kr kc null _ Hkr Hkc Heq).
Qed.

Lemma KrKcTree_of_matrix_invariants_example :
  (2 <= 2 /\ exampleMatrix <> [] /\
   Forall (fun row => length row = 4) exampleMatrix /\
   (Z.of_nat (2 ^ derived_height (length exampleMatrix) 4 2 2) <= 2 ^ 53)%Z) /\
  exists t,
    KrKcTree_of_matrix exampleMatrix 2 2 0%Z = Some t /\
    kr_ t = 2 /\ kc_ t = 2 /\ null_ t = 0%Z /\
    well_formed t /\ pruned t /\
    length exampleMatrix <= numRows_ t /\ 4 <= numCols_ t.
Proof.
  split.
  - split; [lia|]. split; [discriminate|].
    split; [repeat constructor|cbn; lia].
  - apply (KrKcTree_of_matrix_invariants exampleMatrix 2 2 0%Z 4);
      [lia | lia | discriminate | repeat constructor | cbn; lia | cbn; lia].
Defined.

(** Under the same conditions the matrix constructor leaves [L_] empty
    exactly when every entry of the matrix is [null], and then [T_] is
    empty as well: the structure of the empty relation holds no bits at
    all. *)
Theorem KrKcTree_of_matrix_empty {E : Type} `{ElemType E}
  (mat : matrix_type E) (kr kc : nat) (null : E) (cols : nat) :
  2 <= kr -> 2 <= kc -> mat <> [] ->
  Forall (fun row => length row = cols) mat ->
  (Z.of_nat (kr ^ derived_height (length mat) cols kr kc) <= 2 ^ 53)%Z ->
  (Z.of_nat (kc ^ derived_height (length mat) cols kr kc) <= 2 ^ 53)%Z ->
  exists t,
    KrKcTree_of_matrix mat kr kc null = Some t /\
    (L_ t = [] <->
     forall i j, i < length mat -> j < cols ->
                 nth j (nth i mat []) null = null) /\
    (L_ t = [] -> T_ t = []).
Proof.
  intros Hkr Hkc Hmat Hrows Hbr Hbc.
  destruct (rows_of_equal_length mat cols Hmat Hrows) as [Hc0 Hrect].
  subst cols.
  pose proof (KrKcTree_of_matrix_eq mat kr kc null Hkr Hkc Hmat Hrect Hbr Hbc)
    as Heq.
  pose proof (KrKcTree_of_matrix_covers mat kr kc null _ Hkr Hkc Heq)
    as [Hcr Hcc].
  set (h := derived_height (length mat) (length (nth 0 mat [])) kr kc) in *.
  pose proof (derived_height_pos (length mat) (length (nth 0 mat [])) kr kc)
    as Hh. fold h in Hh.
  cbn [numRows_ numCols_ matrixTree] in Hcr, Hcc.
  assert (Hkept : nonempty mat kr kc null h (0, 0) = true ->
                  L_ (matrixTree mat kr kc null h) <> []).
  { intros Hne HL.
    destruct (nonempty_true mat kr kc null h (0, 0) Hne)
      as (a & b & Ha & Hb & Hv). cbn [fst snd Nat.add] in Hv.
    pose proof (matrixTree_getElement mat kr kc null Hkr Hkc h a b Hh Ha Hb)
      as Hget.
    rewrite getElement_empty in Hget by (unfold L_empty; now rewrite HL).
    cbn [null_ matrixTree] in Hget. injection Hget as Hget.
    now apply Hv. }
  eexists. split; [exact Heq|]. split; [split|].
  - intros HL i j Hi Hj.
    destruct (nonempty mat kr kc null h (0, 0)) eqn:Hne;
      [now contradiction (Hkept eq_refl)|].
    rewrite <- (mat_at_inside mat null i j Hi Hj).
    apply (nonempty_false mat kr kc null h (0, 0) i j Hne); lia.
  - intros Hall.
    destruct (nonempty mat kr kc null h (0, 0)) eqn:Hne;
      [|exact (matrixTree_empty mat kr kc null Hkr Hkc h Hne)].
    destruct (nonempty_true mat kr kc null h (0, 0) Hne)
      as (a & b & _ & _ & Hv). cbn [fst snd Nat.add] in Hv.
    exfalso. apply Hv.
    destruct (Nat.lt_ge_cases a (length mat)) as [Ha|Ha];
      [destruct (Nat.lt_ge_cases b (length (nth 0 mat []))) as [Hb|Hb]|].
    + rewrite mat_at_inside by assumption. now apply Hall.
    + apply mat_at_outside. now right.
    + apply mat_at_outside. now left.
  - intros HL.
    destruct (nonempty mat kr kc null h (0, 0)) eqn:Hne;
      [now contradiction (Hkept eq_refl)|].
    unfold matrixTree, rootForest. rewrite Hne. cbn [T_].
    rewrite (levelsOf_nil mat kr kc null). apply concat_repeat_nil.
Qed.

Lemma KrKcTree_of_matrix_empty_example :
  (2 <= 2 /\ exampleMatrix <> [] /\
   Forall (fun row => length row = 4) exampleMatrix /\
   (Z.of_nat (2 ^ derived_height (length exampleMatrix) 4 2 2) <= 2 ^ 53)%Z) /\
  exists t,
    KrKcTree_of_matrix exampleMatrix 2 2 0%Z = Some t /\
    (L_ t = [] <->
     forall i j, i < length exampleMatrix -> j < 4 ->
                 nth j (nth i exampleMatrix []) 0%Z = 0%Z) /\
    (L_ t = [] -> T_ t = []).
Proof.
  split.
  - split; [lia|]. split; [discriminate|].
    split; [repeat constructor|cbn; lia].
  - apply (KrKcTree_of_matrix_empty exampleMatrix 2 2 0%Z 4);
      [lia | lia | discriminate | repeat constructor | cbn; lia | cbn; lia].
Defined.

Lemma filter_seq_split (f : nat -> bool) (n m : nat) :
  n <= m -> (forall x, n <= x < m -> f x = false) ->
  filter f (seq 0 m) = filter f (seq 0 n).
Proof.
  intros Hnm Hf. replace m with (n + (m - n)) by lia.
  rewrite seq_app, filter_app. cbn [Nat.add].
  rewrite (filter_false f (seq n (m - n))); [apply app_nil_r|].
  intros x Hx. apply in_seq in Hx. apply Hf. lia.
Qed.

(** The queries on the structure built from a non-empty matrix whose rows
    all have [cols] entries, while the powers [kr ^ h] and [kc ^ h] are
    exact (at most [2 ^ 53]), in terms of the matrix: the successors of a
    row [i < mat.size()] are the columns [j < cols] with
    [mat[i][j] != null] in ascending order, [getFirstSuccessor(i)] is the
    first of them, or [numCols_] when there is none, and the predecessors
    of a column [j < cols] are the rows [i < mat.size()] with
    [mat[i][j] != null] in ascending order. *)
Theorem KrKcTree_of_matrix_queries {E : Type} `{ElemType E}
  (mat : matrix_type E) (kr kc : nat) (null : E) (cols : nat) :
  2 <= kr -> 2 <= kc -> mat <> [] ->
  Forall (fun row => length row = cols) mat ->
  (Z.of_nat (kr ^ derived_height (length mat) cols kr kc) <= 2 ^ 53)%Z ->
  (Z.of_nat (kc ^ derived_height (length mat) cols kr kc) <= 2 ^ 53)%Z ->
  exists t,
    KrKcTree_of_matrix mat kr kc null = Some t /\
    (forall i, i < length mat ->
       getSuccessorPositions t i =
       Some (filter (fun j => negb (elem_eqb (nth j (nth i mat []) null) null))
                    (seq 0 cols)) /\
       getFirstSuccessor t i =
       Some (hd (numCols_ t)
               (filter (fun j => negb (elem_eqb (nth j (nth i mat []) null) null))
                       (seq 0 cols)))) /\
    (forall j, j < cols ->
       getPredecessorPositions t j =
       Some (filter (fun i => negb (elem_eqb (nth j (nth i mat []) null) null))
                    (seq 0 (length mat)))).
Proof.
  intros Hkr Hkc Hmat Hrect Hbr Hbc.
  destruct (rows_of_equal_length mat cols Hmat Hrect) as [Hc0 Hrect'].
  rewrite <- Hc0 in Hbr, Hbc.
  pose proof (KrKcTree_of_matrix_eq mat kr kc null Hkr Hkc Hmat Hrect' Hbr Hbc)
    as Heq.
  pose proof (KrKcTree_of_matrix_covers mat kr kc null _ Hkr Hkc Heq)
    as [Hrows Hcols].
  pose proof (KrKcTree_of_matrix_well_formed mat kr kc null _ Hkr Hkc Heq)
    as Hwf.
  set (h := derived_height (length mat) (length (nth 0 mat [])) kr kc) in *.
  pose proof (derived_height_pos (length mat) (length (nth 0 mat [])) kr kc)
    as Hh. fold h in Hh.
  set (t := matrixTree mat kr kc null h) in *.
  cbn [numRows_ numCols_ matrixTree t] in Hrows, Hcols.
  rewrite Hc0 in Hcols.
  assert (Hself : negb (elem_eqb null null) = false).
  { destruct (elem_eqb_eq null null) as [_ Hn]. now rewrite (Hn eq_refl). }
  assert (Hget : forall i j, i < kr ^ h -> j < kc ^ h ->
                   not_null t (getElement t i j)
                   = negb (elem_eqb (mat_at mat null i j) null)).
  { intros i j Hi Hj. unfold t.
    rewrite (matrixTree_getElement mat kr kc null Hkr Hkc h i j Hh Hi Hj).
    reflexivity. }
  exists t. split; [exact Heq|]. split.
  - intros i Hi.
    assert (Hlist :
              filter (fun j => not_null t (getElement t i j)) (seq 0 (numCols_ t))
              = filter (fun j => negb (elem_eqb (nth j (nth i mat []) null) null))
                       (seq 0 cols)).
    { cbn [numCols_ t matrixTree].
      rewrite (filter_seq_split _ cols (kc ^ h) Hcols).
      - apply filter_ext_in'. intros j Hj. apply in_seq in Hj.
        rewrite Hget by lia. now rewrite mat_at_inside by lia.
      - intros j Hj. rewrite Hget by lia.
        rewrite mat_at_outside by (right; lia). exact Hself. }
    assert (Hi' : i < numRows_ t) by (cbn [numRows_ t matrixTree]; lia).
    split.
    + rewrite (getSuccessorPositions_spec t i Hwf Hi'). now rewrite Hlist.
    + rewrite (getFirstSuccessor_spec t i Hwf Hi'). now rewrite Hlist.
  - intros j Hj.
    assert (Hj' : j < numCols_ t) by (cbn [numCols_ t matrixTree]; lia).
    rewrite (getPredecessorPositions_spec t j Hwf Hj').
    f_equal. cbn [numRows_ t matrixTree].
    rewrite (filter_seq_split _ (length mat) (kr ^ h) Hrows).
    + apply filter_ext_in'. intros i Hi. apply in_seq in Hi.
      rewrite Hget by lia. now rewrite mat_at_inside by lia.
    + intros i Hi. rewrite Hget by lia.
      rewrite mat_at_outside by (left; lia). exact Hself.
Qed.

Lemma KrKcTree_of_matrix_queries_example :
  (2 <= 2 /\ exampleMatrix <> [] /\
   Forall (fun row => length row = 4) exampleMatrix /\
   (Z.of_nat (2 ^ derived_height (length exampleMatrix) 4 2 2) <= 2 ^ 53)%Z) /\
  exists t,
    KrKcTree_of_matrix exampleMatrix 2 2 0%Z = Some t /\
    (forall i, i < length exampleMatrix ->
       getSuccessorPositions t i =
       Some (filter (fun j => negb (elem_eqb
                                      (nth j (nth i exampleMatrix []) 0%Z) 0%Z))
                    (seq 0 4)) /\
       getFirstSuccessor t i =
       Some (hd (numCols_ t)
               (filter (fun j => negb (elem_eqb
                                         (nth j (nth i exampleMatrix []) 0%Z)
                                         0%Z))
                       (seq 0 4)))) /\
    (forall j, j < 4 ->
       getPredecessorPositions t j =
       Some (filter (fun i => negb (elem_eqb
                                      (nth j (nth i exampleMatrix []) 0%Z) 0%Z))
                    (seq 0 (length exampleMatrix)))).
Proof.
  split.
  - split; [lia|]. split; [discriminate|].
    split; [repeat constructor|cbn; lia].
  - apply (KrKcTree_of_matrix_queries exampleMatrix 2 2 0%Z 4);
      [lia | lia | discriminate | repeat constructor | cbn; lia | cbn; lia].
Defined.

(** ** The windowed matrix constructor *)

Lemma collect_ext {S : Type}
  (body1 body2 : nat * nat -> S -> option (bool * S))
  (slots : list (nat * nat)) :
  (forall ij st, In ij slots -> body1 ij st = body2 ij st) ->
  forall st, collect body1 slots st = collect body2 slots st.
Proof.
  induction slots as [|ij slots IH]; intros Hb st; cbn [collect];
    [reflexivity|].
  rewrite (Hb ij st (or_introl eq_refl)).
  destruct (body2 ij st) as [[b st1]|]; [|reflexivity].
  now rewrite IH by (intros; apply Hb; now right).
Qed.

Lemma mapM_ext {A B : Type} (f g : A -> option B) (xs : list A) :
  (forall x, f x = g x) -> mapM f xs = mapM g xs.
Proof.
  intros Hfg. induction xs as [|x xs IH]; cbn [mapM]; [reflexivity|].
  now rewrite Hfg, IH.
Qed.

(** The builder reads the matrix through the guarded read only: two
    matrices that read alike, from the respective corners on, are built
    alike. *)
Lemma buildFromMatrix_ext {E : Type} `{ElemType E} (kr kc h : nat) (null : E)
  (mat1 mat2 : matrix_type E) (fuel : nat) :
  forall st numRows numCols l p1 q1 p2 q2,
    (forall a b, mat_read mat1 null (p1 + a) (q1 + b)
                 = mat_read mat2 null (p2 + a) (q2 + b)) ->
    buildFromMatrix kr kc h null fuel mat1 st numRows numCols l p1 q1 =
    buildFromMatrix kr kc h null fuel mat2 st numRows numCols l p2 q2.
Proof.
  induction fuel as [|fuel IH]; intros st numRows numCols l p1 q1 p2 q2 Hm;
    [reflexivity|].
  cbn [buildFromMatrix]. destruct (l =? h).
  - rewrite (mapM_ext (fun ij => mat_read mat1 null (p1 + fst ij) (q1 + snd ij))
                      (fun ij => mat_read mat2 null (p2 + fst ij) (q2 + snd ij)))
      by (intros ij; apply Hm).
    reflexivity.
  - rewrite (collect_ext
               (fun ij st' =>
                  buildFromMatrix kr kc h null fuel mat1 st' (numRows / kr)
                    (numCols / kc) (l + 1) (p1 + fst ij * (numRows / kr))
                    (q1 + snd ij * (numCols / kc)))
               (fun ij st' =>
                  buildFromMatrix kr kc h null fuel mat2 st' (numRows / kr)
                    (numCols / kc) (l + 1) (p2 + fst ij * (numRows / kr))
                    (q2 + snd ij * (numCols / kc)))).
    + reflexivity.
    + intros ij st' _. apply IH. intros a b.
      rewrite <- !Nat.add_assoc. apply Hm.
Qed.

Lemma nth_map_skipn {A : Type} (y i : nat) (l : list (list A)) :
  nth i (map (skipn y) l) [] = skipn y (nth i l []).
Proof.
  revert i. induction l as [|r l IH]; intros [|i]; cbn [map nth];
    try (now rewrite skipn_nil); auto.
Qed.

Lemma mat_at_window {E : Type} `{ElemType E} (mat : matrix_type E)
  (null : E) (cols x y p q : nat) :
  Forall (fun row => length row = cols) mat ->
  mat_at (window mat x y) null p q = mat_at mat null (x + p) (y + q).
Proof.
  intros Hrect. unfold mat_at, window.
  rewrite length_map, length_skipn.
  destruct (Nat.ltb_spec (x + p) (length mat)) as [Hr|Hr];
    destruct (Nat.ltb_spec p (length mat - x)); try lia; cbn [andb];
    [|reflexivity].
  assert (Hrow : forall i, i < length mat -> length (nth i mat []) = cols).
  { intros i Hi. rewrite Forall_forall in Hrect. apply Hrect.
    now apply nth_In. }
  rewrite !nth_map_skipn, !nth_skipn, !length_skipn, Nat.add_0_r.
  rewrite (Hrow x) by lia. rewrite (Hrow 0) by lia.
  destruct (Nat.ltb_spec (y + q) cols);
    destruct (Nat.ltb_spec q (cols - y)); try lia; reflexivity.
Qed.

Lemma window_rows {E : Type} (mat : matrix_type E) (cols x y : nat) :
  Forall (fun row => length row = cols) mat ->
  Forall (fun row => length row = cols - y) (window mat x y).
Proof.
  intros Hrect. rewrite Forall_forall in *. intros row Hrow.
  unfold window in Hrow. apply in_map_iff in Hrow.
  destruct Hrow as (row' & <- & Hin).
  rewrite length_skipn, (Hrect row'); [reflexivity|].
  rewrite <- (firstn_skipn x mat). apply in_or_app. now right.
Qed.

Lemma mat_read_window {E : Type} `{ElemType E} (mat : matrix_type E)
  (null : E) (cols x y p q : nat) :
  Forall (fun row => length row = cols) mat ->
  mat_read (window mat x y) null p q = mat_read mat null (x + p) (y + q).
Proof.
  intros Hrect.
  rewrite (mat_read_mat_at (window mat x y))
    by exact (rows_rect _ _ (window_rows mat cols x y Hrect)).
  rewrite (mat_read_mat_at mat) by exact (rows_rect _ _ Hrect).
  f_equal. now apply (mat_at_window mat null cols).
Qed.

(** With enough fuel for its height, the builder leaves the buffers of the
    structure [matrixTree]. *)
Lemma buildFromMatrix_matrixTree {E : Type} `{ElemType E}
  (mat : matrix_type E) (kr kc : nat) (null : E) (h : nat) :
  1 <= kr -> 1 <= kc -> 1 <= h ->
  (forall i, i < length mat -> length (nth 0 mat []) <= length (nth i mat [])) ->
  exists b st,
    buildFromMatrix kr kc h null h mat (mkBuildState (repeat [] (h - 1)) [])
      (kr ^ h) (kc ^ h) 1 0 0 = Some (b, st) /\
    mkKrKcTree (concat (firstn (h - 1) (levels st))) (bs_L st)
               h kr kc (kr ^ h) (kc ^ h) null
    = matrixTree mat kr kc null h.
Proof.
  intros Hkr Hkc Hh Hrect. destruct h as [|h']; [lia|].
  pose proof (buildFromMatrix_spec mat kr kc null Hkr Hkc Hrect (S h') h'
                (mkBuildState (repeat [] (S h' - 1)) []) 0 0 ltac:(lia)
                (repeat_length _ _)) as Hb.
  replace (S h' - h') with 1 in Hb by lia.
  eexists. eexists. split; [exact Hb|].
  unfold matrixTree, rootForest, add_state. cbn [levels bs_L app].
  replace (S h' - 1 - h') with 0 by lia. replace (S h' - 1) with h' by lia.
  set (F := if nonempty mat kr kc null (S h') (0, 0) then [(0, 0)] else []).
  assert (Hcat : forall lv n,
             length lv = n ->
             concat (firstn n (add_levels (repeat [] n) 0 lv)) = concat lv).
  { intros lv n <-. now rewrite add_levels_all, firstn_all. }
  rewrite (Hcat _ _ (length_levelsOf mat kr kc null h' F)). reflexivity.
Qed.

(** As long as the powers [kr ^ h] and [kc ^ h] for the height [h] derived
    from the window are exact (at most [2 ^ 53]), the windowed matrix
    constructor throws exactly when the window is not [kr^h] by [kc^h].
    When it does not throw, and the rows of the matrix all have [cols]
    entries, it builds a structure of the extent of the window on which
    [getElement(i, j)] is the entry [mat[x + i][y + j]], and [null] where
    the window leaves the matrix. *)
Theorem KrKcTree_of_matrix_window_getElement {E : Type} `{ElemType E}
  (mat : matrix_type E) (x y nr nc kr kc : nat) (null : E) (cols : nat) :
  2 <= kr -> 2 <= kc ->
  Forall (fun row => length row = cols) mat ->
  (Z.of_nat (kr ^ derived_height nr nc kr kc) <= 2 ^ 53)%Z ->
  (Z.of_nat (kc ^ derived_height nr nc kr kc) <= 2 ^ 53)%Z ->
  ((exists err,
       KrKcTree_of_matrix_window mat x y nr nc kr kc null = inl err) <->
   (nr, nc) <> (kr ^ derived_height nr nc kr kc,
                kc ^ derived_height nr nc kr kc)) /\
  ((nr, nc) = (kr ^ derived_height nr nc kr kc,
               kc ^ derived_height nr nc kr kc) ->
   exists t,
     KrKcTree_of_matrix_window mat x y nr nc kr kc null = inr (Some t) /\
     kr_ t = kr /\ kc_ t = kc /\ null_ t = null /\
     h_ t = derived_height nr nc kr kc /\
     numRows_ t = nr /\ numCols_ t = nc /\
     forall i j, i < nr -> j < nc ->
       getElement t i j =
       Some (if (x + i <? length mat) && (y + j <? cols)
             then nth (y + j) (nth (x + i) mat []) null else null)).
Proof.
  intros Hkr Hkc Hrect Hbr Hbc.
  split; [now apply KrKcTree_of_matrix_window_throws_iff|].
  intros Hdim. unfold KrKcTree_of_matrix_window, window_dimensions.
  rewrite (pow_size_type_exact kr _ Hbr), (pow_size_type_exact kc _ Hbc).
  set (h := derived_height nr nc kr kc) in *.
  pose proof (derived_height_pos nr nc kr kc) as Hh. fold h in Hh.
  destruct (checkParameters h (kr ^ h) (kc ^ h) nr nc kr kc) as [err|] eqn:Hck.
  { pose proof (proj2 (checkParameters_None h (kr ^ h) (kc ^ h) nr nc kr kc)
                  Hdim). congruence. }
  injection Hdim as Hnr Hnc.
  rewrite (buildFromMatrix_ext kr kc h null mat (window mat x y) h
             _ (kr ^ h) (kc ^ h) 1 x y 0 0)
    by (intros a b; cbn [Nat.add];
        symmetry; apply (mat_read_window mat null cols); exact Hrect).
  destruct (buildFromMatrix_matrixTree (window mat x y) kr kc null h
              ltac:(lia) ltac:(lia) Hh
              (rows_rect _ _ (window_rows mat cols x y Hrect)))
    as (b & st & Hb & Ht).
  rewrite Hb, Ht. eexists. split; [reflexivity|].
  cbn [kr_ kc_ null_ h_ numRows_ numCols_ matrixTree].
  repeat (split; [reflexivity|]).
  split; [now symmetry|]. split; [now symmetry|].
  intros i j Hi Hj.
  rewrite (matrixTree_getElement (window mat x y) kr kc null Hkr Hkc h i j Hh)
    by lia.
  f_equal. rewrite (mat_at_window mat null cols x y i j Hrect).
  unfold mat_at.
  destruct (Nat.ltb_spec (x + i) (length mat)) as [Hr|Hr]; [|reflexivity].
  cbn [andb].
  assert (Hc0 : length (nth 0 mat []) = cols).
  { rewrite Forall_forall in Hrect. apply Hrect. apply nth_In. lia. }
  now rewrite Hc0.
Qed.

Lemma KrKcTree_of_matrix_window_getElement_example :
  (2 <= 2 /\ Forall (fun row => length row = 4) exampleMatrix /\
   (Z.of_nat (2 ^ derived_height 2 2 2 2) <= 2 ^ 53)%Z) /\
  ((exists err,
       KrKcTree_of_matrix_window exampleMatrix 2 2 2 2 2 2 0%Z = inl err) <->
   (2, 2) <> (2 ^ derived_height 2 2 2 2, 2 ^ derived_height 2 2 2 2)) /\
  ((2, 2) = (2 ^ derived_height 2 2 2 2, 2 ^ derived_height 2 2 2 2) ->
   exists t,
     KrKcTree_of_matrix_window exampleMatrix 2 2 2 2 2 2 0%Z = inr (Some t) /\
     kr_ t = 2 /\ kc_ t = 2 /\ null_ t = 0%Z /\
     h_ t = derived_height 2 2 2 2 /\
     numRows_ t = 2 /\ numCols_ t = 2 /\
     forall i j, i < 2 -> j < 2 ->
       getElement t i j =
       Some (if (2 + i <? length exampleMatrix) && (2 + j <? 4)
             then nth (2 + j) (nth (2 + i) exampleMatrix []) 0%Z else 0%Z)).
Proof.
  split.
  - split; [lia|]. split; [repeat constructor|cbn; lia].
  - apply (KrKcTree_of_matrix_window_getElement exampleMatrix 2 2 2 2 2 2 0%Z 4);
      [lia | lia | repeat constructor | cbn; lia | cbn; lia].
Defined.

(** ** The matrix constructor of the [bool] specialisation *)

Lemma isAll_false (C : list bool) : isAll C false = isAllZero C.
Proof.
  unfold isAll, isAllZero.
  induction C as [|[] C IH]; cbn [forallb]; [reflexivity|reflexivity|exact IH].
Qed.

Lemma append_level_app_front (lv r : list (list bool)) (i : nat)
  (C : list bool) :
  i < length lv ->
  append_level (lv ++ r) i C
  = option_map (fun l => l ++ r) (append_level lv i C).
Proof.
  revert i. induction lv as [|x lv IH]; intros [|i] Hi; cbn [length] in Hi;
    try lia; cbn [append_level app]; [reflexivity|].
  rewrite IH by lia. now destruct (append_level lv i C).
Qed.

Lemma append_level_app_last (lv : list (list bool)) (L C : list bool) :
  append_level (lv ++ [L]) (length lv) C = Some (lv ++ [L ++ C]).
Proof.
  induction lv as [|x lv IH]; cbn [length append_level app]; [reflexivity|].
  now rewrite IH.
Qed.

Lemma collect_buffers
  (body1 : nat * nat -> list (list bool) -> option (bool * list (list bool)))
  (body2 : nat * nat -> build_state (E := bool)
           -> option (bool * build_state (E := bool)))
  (n : nat) (slots : list (nat * nat)) :
  (forall ij st, length (levels st) = n ->
     body1 ij (levels st ++ [bs_L st]) = buffers_of (body2 ij st) /\
     forall b st', body2 ij st = Some (b, st') -> length (levels st') = n) ->
  forall st, length (levels st) = n ->
    collect body1 slots (levels st ++ [bs_L st]) =
    match collect body2 slots st with
    | Some (C, st') => Some (C, levels st' ++ [bs_L st'])
    | None => None
    end /\
    forall C st', collect body2 slots st = Some (C, st') ->
                  length (levels st') = n.
Proof.
  intros Hb. induction slots as [|ij slots IH]; intros st Hst; cbn [collect].
  - split; [reflexivity|]. now intros C st' [= _ <-].
  - destruct (Hb ij st Hst) as [H1 H2]. rewrite H1.
    destruct (body2 ij st) as [[b st1]|]; cbn [buffers_of];
      [|split; [reflexivity|discriminate]].
    destruct (IH st1 (H2 b st1 eq_refl)) as [H3 H4]. rewrite H3.
    destruct (collect body2 slots st1) as [[C st2]|];
      [|split; [reflexivity|discriminate]].
    split; [reflexivity|]. intros C' st' [= _ <-]. now apply (H4 C).
Qed.

Lemma bool_buildFromMatrix_buffers (kr kc h fuel : nat) :
  forall (mat : matrix_type bool) (st : build_state (E := bool))
         (numRows numCols l p q : nat),
    1 <= l <= h -> length (levels st) = h - 1 ->
    KrKcTree_bool.buildFromMatrix kr kc h fuel mat (levels st ++ [bs_L st])
      numRows numCols l p q =
    buffers_of (buildFromMatrix kr kc h false fuel mat st numRows numCols l p q)
    /\
    forall b st',
      buildFromMatrix kr kc h false fuel mat st numRows numCols l p q
      = Some (b, st') ->
      length (levels st') = h - 1.
Proof.
  induction fuel as [|fuel IH]; intros mat st numRows numCols l p q Hl Hst.
  - split; [reflexivity|discriminate].
  - cbn [KrKcTree_bool.buildFromMatrix buildFromMatrix].
    assert (Hoff : offset_from l 1 = Some (l - 1)).
    { unfold offset_from. now destruct (Nat.leb_spec 1 l); [|lia]. }
    destruct (Nat.eqb_spec l h) as [->|Hne].
    + unfold KrKcTree_bool.leaf_group.
      destruct (mapM _ (child_slots kr kc)) as [C|]; cbn [obind buffers_of];
        [|split; [reflexivity|discriminate]].
      rewrite isAll_false.
      destruct (isAllZero C); cbn [buffers_of levels bs_L].
      * split; [reflexivity|]. now intros b st' [= _ <-].
      * rewrite Hoff. cbn [obind].
        rewrite <- Hst, append_level_app_last. cbn [obind].
        split; [reflexivity|]. now intros b st' [= _ <-].
    + destruct (collect_buffers
                  (fun ij lv =>
                     KrKcTree_bool.buildFromMatrix kr kc h fuel mat lv
                       (numRows / kr) (numCols / kc) (l + 1)
                       (p + fst ij * (numRows / kr))
                       (q + snd ij * (numCols / kc)))
                  (fun ij st' =>
                     buildFromMatrix kr kc h false fuel mat st'
                       (numRows / kr) (numCols / kc) (l + 1)
                       (p + fst ij * (numRows / kr))
                       (q + snd ij * (numCols / kc)))
                  (h - 1) (child_slots kr kc)
                  (fun ij st' Hst' =>
                     IH mat st' (numRows / kr) (numCols / kc) (l + 1)
                        (p + fst ij * (numRows / kr))
                        (q + snd ij * (numCols / kc)) ltac:(lia) Hst')
                  st Hst) as [H1 H2].
      rewrite H1.
      destruct (collect _ (child_slots kr kc) st) as [[C st1]|];
        [|split; [reflexivity|discriminate]].
      specialize (H2 C st1 eq_refl).
      destruct (isAllZero C); cbn [buffers_of levels bs_L].
      * split; [reflexivity|]. now intros b st' [= _ <-].
      * rewrite Hoff. cbn [obind].
        rewrite append_level_app_front by lia.
        destruct (append_level_Some (levels st1) C (l - 1) ltac:(lia))
          as (lv' & -> & Hlen & _).
        cbn [option_map obind buffers_of levels bs_L].
        split; [reflexivity|]. intros b st' [= _ <-]. cbn [levels]. lia.
Qed.

(** The matrix constructor of the specialisation [KrKcTree<bool>], which
    collects the leaf level in a buffer of its own, builds the structure
    the generic matrix constructor builds for [E = bool] and
    [null = false]: the same [T_], the same [L_], the same parameters. *)
Theorem bool_KrKcTree_of_matrix_generic (mat : matrix_type bool)
  (kr kc : nat) :
  KrKcTree_bool.KrKcTree_of_matrix mat kr kc
  = KrKcTree_of_matrix mat kr kc false.
Proof.
  unfold KrKcTree_bool.KrKcTree_of_matrix, KrKcTree_of_matrix.
  destruct (nth_error mat 0) as [row0|]; [|reflexivity].
  cbn [obind]. cbv zeta.
  pose proof (derived_height_pos (length mat) (length row0) kr kc) as Hh.
  set (h := derived_height _ _ _ _) in *.
  destruct (pow_size_type kr h) as [numRows|]; [|reflexivity].
  destruct (pow_size_type kc h) as [numCols|]; [|reflexivity].
  cbn [obind].
  replace (repeat (@nil bool) h) with (repeat (@nil bool) (h - 1) ++ [[]]).
  2:{ replace h with (h - 1 + 1) at 2 by lia. now rewrite repeat_app. }
  destruct (bool_buildFromMatrix_buffers kr kc h h mat
              (mkBuildState (repeat [] (h - 1)) []) numRows numCols 1 0 0
              ltac:(lia) (repeat_length _ _)) as [H1 H2].
  cbn [levels bs_L] in H1. rewrite H1.
  destruct (buildFromMatrix kr kc h false h mat _ numRows numCols 1 0 0)
    as [[b st]|]; cbn [buffers_of]; [|reflexivity].
  specialize (H2 b st eq_refl).
  rewrite firstn_app, H2, Nat.sub_diag, firstn_O, app_nil_r.
  rewrite <- H2 at 2. rewrite app_nth2, H2, Nat.sub_diag by lia.
  reflexivity.
Qed.

(** ** Every leaf belongs to a cell *)

Lemma ones_nth_set (l : list bool) :
  forall m, m < ones l ->
  exists n, nth_error l n = Some true /\ ones (firstn n l) = m.
Proof.
  induction l as [|b l IH]; intros m Hm; [cbn in Hm; lia|].
  change (ones (b :: l)) with (ones ([b] ++ l)) in Hm.
  rewrite ones_app in Hm.
  destruct b.
  - destruct m as [|m].
    + exists 0. split; reflexivity.
    + destruct (IH m) as (n & Hn & Ho); [cbn in Hm; lia|].
      exists (S n). split; [exact Hn|].
      change (firstn (S n) (true :: l)) with ([true] ++ firstn n l).
      rewrite ones_app, Ho. reflexivity.
  - destruct (IH m) as (n & Hn & Ho); [cbn in Hm; lia|].
    exists (S n). split; [exact Hn|].
    change (firstn (S n) (false :: l)) with ([false] ++ firstn n l).
    rewrite ones_app, Ho. reflexivity.
Qed.

Section Reach.

Context {E : Type} `{ElemType E}.

Variable t : KrKcTree E.

Local Abbreviation T := (T_ t).
Local Abbreviation L := (L_ t).
Local Abbreviation kr := (kr_ t).
Local Abbreviation kc := (kc_ t).
Local Abbreviation K := (groupSize t).

Hypothesis Hkr : 2 <= kr.
Hypothesis Hkc : 2 <= kc.
Hypothesis Hshape :
  fst (level t (h_ t - 1)) = length T /\
  length L = K * snd (level t (h_ t - 1)).

(** A group below the root is the group of a set bit of the level above. *)
Lemma Grp_parent (k y : nat) :
  Grp t (S k) y ->
  exists y' s, Grp t k y' /\ s < K /\ nth_error T (y' + s) = Some true /\
               rank T (y' + s + 1) * kr * kc = y.
Proof.
  intros (m & Hm & ->). cbn [level snd] in Hm.
  set (o := fst (level t k)) in *. set (c := snd (level t k)) in *.
  destruct (ones_nth_set _ m Hm) as (n & Hn & Ho).
  rewrite nth_error_firstn in Hn.
  destruct (Nat.ltb_spec n (K * c)) as [Hlt|]; [|discriminate].
  rewrite nth_error_skipn in Hn.
  rewrite firstn_firstn, Nat.min_l in Ho by lia.
  assert (HK : 0 < K) by (unfold groupSize; nia).
  pose proof (Nat.div_mod_eq n K) as Hdm.
  pose proof (Nat.mod_upper_bound n K ltac:(lia)) as Hmod.
  assert (Hi : n / K < c).
  { apply Nat.Div0.div_lt_upper_bound. lia. }
  exists (o + K * (n / K)), (n mod K).
  split; [exists (n / K); split; [exact Hi|reflexivity]|].
  split; [exact Hmod|].
  assert (Hbit : nth_error T (o + K * (n / K) + n mod K) = Some true).
  { rewrite <- Hn. f_equal. lia. }
  split; [exact Hbit|].
  destruct (Grp_step_index t k (n / K) (n mod K) Hi Hmod Hbit) as [Hr _].
  fold o in Hr. rewrite Hr. rewrite <- Hdm, Ho. reflexivity.
Qed.

(** The descent from the root reaches every group: the cells of one block
    of the matrix are those of the group. *)
Lemma Grp_reached (k : nat) :
  forall d y, k + d = h_ t - 1 -> Grp t k y ->
  exists P Q, P < kr ^ k /\ Q < kc ^ k /\
    forall p q, p < kr ^ S d -> q < kc ^ S d ->
      leafG t (h_ t - 1) 0 (P * kr ^ S d + p) (Q * kc ^ S d + q)
      = leafG t d y p q.
Proof.
  induction k as [|k IH]; intros d y Hkd HG.
  - exists 0, 0. cbn [Nat.pow]. split; [lia|]. split; [lia|].
    intros p q _ _. cbn [Nat.mul Nat.add].
    destruct HG as (i & Hi & ->). cbn [level fst snd] in *.
    replace i with 0 by lia. rewrite Nat.mul_0_r.
    replace (h_ t - 1) with d by lia. reflexivity.
  - destruct (Grp_parent k y HG) as (y' & s & HG' & Hs & Hbit & Hy).
    destruct (IH (S d) y' ltac:(lia) HG') as (P & Q & HP & HQ & Hcell).
    assert (Hc0 : 0 < kc) by lia.
    pose proof (Nat.div_mod_eq s kc) as Hdm.
    pose proof (Nat.mod_upper_bound s kc ltac:(lia)) as Hb.
    assert (Ha : s / kc < kr).
    { apply Nat.Div0.div_lt_upper_bound. unfold groupSize in Hs. nia. }
    exists (P * kr + s / kc), (Q * kc + s mod kc).
    split; [rewrite Nat.pow_succ_r'; nia|].
    split; [rewrite Nat.pow_succ_r'; nia|].
    intros p q Hp Hq.
    pose proof (pow_ge_1 kr (S d) ltac:(lia)) as Hmr.
    pose proof (pow_ge_1 kc (S d) ltac:(lia)) as Hmc.
    replace ((P * kr + s / kc) * kr ^ S d + p)
      with (P * kr ^ S (S d) + (s / kc * kr ^ S d + p))
      by (rewrite (Nat.pow_succ_r' kr (S d)); nia).
    replace ((Q * kc + s mod kc) * kc ^ S d + q)
      with (Q * kc ^ S (S d) + (s mod kc * kc ^ S d + q))
      by (rewrite (Nat.pow_succ_r' kc (S d)); nia).
    rewrite Hcell
      by (rewrite ?(Nat.pow_succ_r' kr (S d)), ?(Nat.pow_succ_r' kc (S d));
          nia).
    rewrite (leafG_S t Hkr Hkc d y'). cbv zeta.
    rewrite !div_mul_add, !mod_mul_add by assumption.
    replace (y' + s / kc * kc + s mod kc) with (y' + s) by lia.
    pose proof (Grp_slot_lt t k y' s HG' Hs) as Hlt.
    pose proof (level_off_mono t (S k) (h_ t - 1) ltac:(lia)) as Hmono.
    destruct Hshape as [HT _].
    destruct (Nat.leb_spec (length T) (y' + s)); [lia|].
    rewrite Hbit. cbn [obind]. now rewrite Hy.
Qed.

Lemma leaf_reached (a : nat) :
  a < length L ->
  exists i j, i < kr ^ S (h_ t - 1) /\ j < kc ^ S (h_ t - 1) /\
              leafG t (h_ t - 1) 0 i j = Some (Some a).
Proof.
  intros Ha. destruct Hshape as [HT HL].
  assert (HK : 0 < K) by (unfold groupSize; nia).
  pose proof (Nat.div_mod_eq a K) as Hdm.
  pose proof (Nat.mod_upper_bound a K ltac:(lia)) as Hmod.
  assert (Hg : a / K < snd (level t (h_ t - 1))).
  { apply Nat.Div0.div_lt_upper_bound. lia. }
  assert (HG : Grp t (h_ t - 1) (length T + K * (a / K))).
  { exists (a / K). split; [exact Hg|]. now rewrite HT. }
  destruct (Grp_reached (h_ t - 1) 0 _ ltac:(lia) HG)
    as (P & Q & HP & HQ & Hcell).
  pose proof (Nat.div_mod_eq (a mod K) kc) as Hdm'.
  pose proof (Nat.mod_upper_bound (a mod K) kc ltac:(lia)) as Hb.
  assert (Hs : a mod K / kc < kr).
  { apply Nat.Div0.div_lt_upper_bound. rewrite (Nat.mul_comm kc kr).
    exact Hmod. }
  exists (P * kr ^ 1 + a mod K / kc), (Q * kc ^ 1 + (a mod K) mod kc).
  split; [rewrite Nat.pow_1_r, Nat.pow_succ_r'; nia|].
  split; [rewrite Nat.pow_1_r, Nat.pow_succ_r'; nia|].
  rewrite Hcell by (rewrite Nat.pow_1_r; assumption).
  destruct (leafG_Node_0 t Hkr Hkc _ (a mod K / kc) ((a mod K) mod kc)
              (Grp_Node t (conj HT HL) 0 (h_ t - 1) _ ltac:(lia) HG)
              ltac:(rewrite Nat.pow_1_r; assumption)
              ltac:(rewrite Nat.pow_1_r; assumption)) as [-> _].
  f_equal. f_equal. lia.
Qed.

End Reach.

(** ** [countElements] *)

Lemma countElements_filter {E : Type} `{ElemType E} (t : KrKcTree E) :
  countElements t
  = length (filter (fun v => negb (elem_eqb v (null_ t))) (L_ t)).
Proof.
  unfold countElements.
  assert (Hacc : forall l acc,
             fold_left (fun cnt v => cnt + Nat.b2n (negb (elem_eqb v (null_ t))))
                       l acc
             = acc + length (filter (fun v => negb (elem_eqb v (null_ t))) l)).
  { induction l as [|v l IH]; intros acc; cbn [fold_left filter length];
      [lia|].
    rewrite IH. destruct (negb (elem_eqb v (null_ t))); cbn [Nat.b2n length];
      lia. }
  apply Hacc.
Qed.

Lemma length_filter_indices {A : Type} (f : A -> bool) (l : list A) :
  length (filter f l)
  = length (filter (fun a => match nth_error l a with
                             | Some v => f v
                             | None => false
                             end)
                   (seq 0 (length l))).
Proof.
  induction l as [|x l IH] using rev_ind; [reflexivity|].
  rewrite length_app, Nat.add_comm. cbn [length Nat.add].
  rewrite seq_S, !filter_app, !length_app, IH. cbn [Nat.add].
  f_equal.
  - f_equal. apply filter_ext_in'. intros a Ha. apply in_seq in Ha.
    now rewrite nth_error_app1 by lia.
  - cbn [filter]. rewrite nth_error_app2, Nat.sub_diag by lia.
    cbn [nth_error]. now destruct (f x).
Qed.

Lemma NoDup_list_prod {A B : Type} (l1 : list A) (l2 : list B) :
  NoDup l1 -> NoDup l2 -> NoDup (list_prod l1 l2).
Proof.
  intros H1 H2. induction H1 as [|x l1 Hx _ IH]; cbn [list_prod];
    [constructor|].
  apply NoDup_app.
  - apply NoDup_map_NoDup_ForallPairs; [|exact H2].
    intros a b _ _ Hab. now injection Hab.
  - exact IH.
  - intros [a b] Hin Hin'. apply in_map_iff in Hin.
    destruct Hin as (b' & [= <- <-] & _).
    apply in_prod_iff in Hin'. now apply Hx.
Qed.

(** [countElements()] counts the cells with a value: on a well-formed
    structure every entry of [L_] is the leaf of exactly one cell. *)
Lemma countElements_count {E : Type} `{ElemType E} (t : KrKcTree E) :
  well_formed t ->
  countElements t =
  length (filter (fun ij => not_null t (getElement t (fst ij) (snd ij)))
                 (list_prod (seq 0 (numRows_ t)) (seq 0 (numCols_ t)))).
Proof.
  intros Hwf. rewrite countElements_filter, length_filter_indices.
  change (fun a => match nth_error (L_ t) a with
                   | Some v => negb (elem_eqb v (null_ t))
                   | None => false
                   end)
    with (fun a => not_null t (nth_error (L_ t) a)).
  set (A := filter _ (seq 0 (length (L_ t)))).
  set (C := filter _ (list_prod _ _)).
  destruct (L_empty t) eqn:HL.
  - assert (HLnil : L_ t = []).
    { unfold L_empty in HL. now destruct (L_ t). }
    unfold A, C. rewrite HLnil. cbn [length seq filter].
    rewrite filter_false; [reflexivity|]. intros ij _.
    rewrite getElement_empty by assumption. apply not_null_null.
  - pose proof (wf_kr t Hwf) as Hkr. pose proof (wf_kc t Hwf) as Hkc.
    pose proof (L_empty_false_shape t Hwf HL) as Hshape.
    set (phi := fun ij : nat * nat =>
                  match cell_leaf t (fst ij) (snd ij) with
                  | Some (Some a) => a
                  | _ => 0
                  end).
    assert (HC : forall ij, In ij C ->
                   fst ij < numRows_ t /\ snd ij < numCols_ t /\
                   exists a, cell_leaf t (fst ij) (snd ij) = Some (Some a) /\
                             In a A).
    { intros [i j] Hin. apply filter_In in Hin. destruct Hin as [Hin Hnn].
      apply in_prod_iff in Hin. destruct Hin as [Hi Hj].
      apply in_seq in Hi, Hj. cbn [fst snd] in *.
      split; [lia|]. split; [lia|].
      rewrite getElement_cell_leaf in Hnn.
      destruct (cell_leaf t i j) as [[a|]|].
      - exists a. split; [reflexivity|]. apply filter_In. split; [|exact Hnn].
        apply in_seq. split; [lia|]. cbn [Nat.add].
        apply nth_error_Some. intros Hnone. rewrite Hnone in Hnn. discriminate.
      - rewrite not_null_null in Hnn. discriminate.
      - discriminate. }
    assert (Hlen : length (map phi C) = length C) by apply length_map.
    rewrite <- Hlen. apply Nat.le_antisymm.
    + (* every leaf with a value is the leaf of a cell *)
      apply NoDup_incl_length; [apply NoDup_filter, seq_NoDup|].
      intros a Ha. apply filter_In in Ha. destruct Ha as [Ha Hnn].
      apply in_seq in Ha.
      destruct (leaf_reached t Hkr Hkc Hshape a ltac:(lia))
        as (i & j & Hi & Hj & Hleaf).
      rewrite <- (cell_leaf_leafG t i j Hwf HL) in Hleaf.
      apply in_map_iff. exists (i, j). split.
      * unfold phi. cbn [fst snd]. now rewrite Hleaf.
      * apply filter_In. split.
        -- apply in_prod_iff. rewrite !in_seq.
           rewrite (wf_numRows t Hwf), (wf_numCols t Hwf). lia.
        -- cbn [fst snd]. rewrite getElement_cell_leaf, Hleaf. exact Hnn.
    + (* distinct cells have distinct leaves *)
      apply NoDup_incl_length.
      * apply NoDup_map_NoDup_ForallPairs.
        -- intros [i j] [i' j'] Hin Hin' Heq.
           destruct (HC _ Hin) as (Hi & Hj & a & Ha & _).
           destruct (HC _ Hin') as (Hi' & Hj' & a' & Ha' & _).
           cbn [fst snd] in *. unfold phi in Heq. cbn [fst snd] in Heq.
           rewrite Ha, Ha' in Heq. subst a'.
           destruct (cell_leaf_inj t i j i' j' a Hwf Hi Hj Hi' Hj' Ha Ha')
             as [-> ->].
           reflexivity.
        -- apply NoDup_filter, NoDup_list_prod; apply seq_NoDup.
      * intros a Ha. apply in_map_iff in Ha. destruct Ha as (ij & <- & Hin).
        destruct (HC _ Hin) as (_ & _ & a & Ha & HA).
        unfold phi. now rewrite Ha.
Qed.

(** ** No position is listed twice *)

Lemma foldM_app_NoDup {A B : Type} (body : A -> list B -> option (list B))
  (P : A -> B -> Prop) (xs : list A) :
  NoDup xs ->
  (forall x x' b, In x xs -> In x' xs -> P x b -> P x' b -> x = x') ->
  (forall x s, In x xs ->
     exists out, body x s = Some (s ++ out) /\ NoDup out /\
                 forall b, In b out -> P x b) ->
  forall s,
    exists out, foldM body xs s = Some (s ++ out) /\ NoDup out /\
                forall b, In b out -> exists x, In x xs /\ P x b.
Proof.
  induction xs as [|x xs IH]; intros Hnd Hdisj Hb s; cbn [foldM].
  - exists []. rewrite app_nil_r. split; [reflexivity|].
    split; [constructor|]. contradiction.
  - inversion Hnd as [|? ? Hx Hnd']; subst.
    destruct (Hb x s (or_introl eq_refl)) as (o1 & -> & N1 & H1).
    destruct (IH Hnd'
                (fun a a' b Ha Ha' => Hdisj a a' b (or_intror Ha) (or_intror Ha'))
                (fun a s' Ha => Hb a s' (or_intror Ha)) (s ++ o1))
      as (o2 & -> & N2 & H2).
    exists (o1 ++ o2). rewrite app_assoc. split; [reflexivity|]. split.
    + apply NoDup_app; [exact N1|exact N2|].
      intros b Hb1 Hb2. destruct (H2 b Hb2) as (x' & Hx' & Hp').
      apply Hx.
      now rewrite (Hdisj x x' b (or_introl eq_refl) (or_intror Hx')
                     (H1 b Hb1) Hp').
    + intros b Hin. apply in_app_or in Hin. destruct Hin as [Hin|Hin].
      * exists x. split; [now left|]. now apply H1.
      * destruct (H2 b Hin) as (x' & Hx' & Hp'). exists x'.
        split; [now right|exact Hp'].
Qed.

Section RangesOnce.

Context {E : Type} `{ElemType E}.

Variable t : KrKcTree E.

Local Abbreviation T := (T_ t).
Local Abbreviation L := (L_ t).
Local Abbreviation kr := (kr_ t).
Local Abbreviation kc := (kc_ t).

Hypothesis Hkr : 2 <= kr.
Hypothesis Hkc : 2 <= kc.

Lemma range_group_once (fuel d y dp dq p1 p2 q1 q2 : nat) :
  (forall z p1' p2' q1' q2' dp' dq',
      Entry t d z -> p1' <= p2' < kr ^ d -> q1' <= q2' < kc ^ d ->
      RangeOnce
        (fun pairs => rangePos t fuel pairs (kr ^ d) (kc ^ d)
                        p1' p2' q1' q2' dp' dq' z)
        dp' dq' (kr ^ d) (kc ^ d)) ->
  Node t d y -> p1 <= p2 < kr ^ S d -> q1 <= q2 < kc ^ S d ->
  RangeOnce
    (fun pairs =>
       foldM (fun i pairs1 =>
                foldM (fun j pairs2 =>
                         rangePos t fuel pairs2 (kr ^ d) (kc ^ d)
                           (Nat.b2n (i =? p1 / kr ^ d) * (p1 mod kr ^ d))
                           (if i =? p2 / kr ^ d then p2 mod kr ^ d
                            else kr ^ d - 1)
                           (Nat.b2n (j =? q1 / kc ^ d) * (q1 mod kc ^ d))
                           (if j =? q2 / kc ^ d then q2 mod kc ^ d
                            else kc ^ d - 1)
                           (dp + kr ^ d * i) (dq + kc ^ d * j) (y + kc * i + j))
                      (range_incl (q1 / kc ^ d) (q2 / kc ^ d)) pairs1)
             (range_incl (p1 / kr ^ d) (p2 / kr ^ d)) pairs)
    dp dq (kr ^ S d) (kc ^ S d).
Proof.
  intros Hentry HN Hp Hq pairs.
  pose proof (pow_ge_1 kr d ltac:(lia)) as Hmr.
  pose proof (pow_ge_1 kc d ltac:(lia)) as Hmc.
  pose proof (div_pow_lt kr d p2 ltac:(lia) ltac:(lia)) as Hp2.
  pose proof (div_pow_lt kc d q2 ltac:(lia) ltac:(lia)) as Hq2.
  destruct (foldM_app_NoDup
              (fun i pairs1 =>
                 foldM (fun j pairs2 =>
                          rangePos t fuel pairs2 (kr ^ d) (kc ^ d)
                            (Nat.b2n (i =? p1 / kr ^ d) * (p1 mod kr ^ d))
                            (if i =? p2 / kr ^ d then p2 mod kr ^ d
                             else kr ^ d - 1)
                            (Nat.b2n (j =? q1 / kc ^ d) * (q1 mod kc ^ d))
                            (if j =? q2 / kc ^ d then q2 mod kc ^ d
                             else kc ^ d - 1)
                            (dp + kr ^ d * i) (dq + kc ^ d * j) (y + kc * i + j))
                       (range_incl (q1 / kc ^ d) (q2 / kc ^ d)) pairs1)
              (fun i (ab : nat * nat) =>
                 dp + kr ^ d * i <= fst ab < dp + kr ^ d * i + kr ^ d /\
                 dq <= snd ab < dq + kc ^ S d)
              (range_incl (p1 / kr ^ d) (p2 / kr ^ d))) with pairs
    as (out & Hrun & Hnd & Hmem).
  - apply seq_NoDup.
  - intros i i' ab _ _ [Hi _] [Hi' _]. nia.
  - intros i s Hi. apply in_range_incl in Hi.
    destruct (foldM_app_NoDup
                (fun j pairs2 =>
                   rangePos t fuel pairs2 (kr ^ d) (kc ^ d)
                     (Nat.b2n (i =? p1 / kr ^ d) * (p1 mod kr ^ d))
                     (if i =? p2 / kr ^ d then p2 mod kr ^ d
                      else kr ^ d - 1)
                     (Nat.b2n (j =? q1 / kc ^ d) * (q1 mod kc ^ d))
                     (if j =? q2 / kc ^ d then q2 mod kc ^ d
                      else kc ^ d - 1)
                     (dp + kr ^ d * i) (dq + kc ^ d * j) (y + kc * i + j))
                (fun j (ab : nat * nat) =>
                   dp + kr ^ d * i <= fst ab < dp + kr ^ d * i + kr ^ d /\
                   dq + kc ^ d * j <= snd ab < dq + kc ^ d * j + kc ^ d)
                (range_incl (q1 / kc ^ d) (q2 / kc ^ d))) with s
      as (o & Hr & Hn & Hm).
    + apply seq_NoDup.
    + intros j j' ab _ _ [_ Hj] [_ Hj']. nia.
    + intros j s' Hj. apply in_range_incl in Hj.
      apply Hentry.
      * replace (y + kc * i + j) with (y + (i * kc + j)) by lia.
        apply Node_Entry; [exact HN|]. apply slot_lt; lia.
      * apply clip_bounds; lia.
      * apply clip_bounds; lia.
    + exists o. split; [exact Hr|]. split; [exact Hn|].
      intros ab Hab. destruct (Hm ab Hab) as (j & Hj & Hi' & Hj').
      apply in_range_incl in Hj. split; [exact Hi'|].
      rewrite Nat.pow_succ_r'. nia.
  - exists out. split; [exact Hrun|]. split; [exact Hnd|].
    intros ab Hab. destruct (Hmem ab Hab) as (i & Hi & Hi' & Hj').
    apply in_range_incl in Hi. split; [|exact Hj'].
    rewrite Nat.pow_succ_r'. nia.
Qed.

Lemma rangePos_entry_once (d : nat) :
  forall fuel z p1 p2 q1 q2 dp dq,
    d < fuel -> Entry t d z -> p1 <= p2 < kr ^ d -> q1 <= q2 < kc ^ d ->
    RangeOnce
      (fun pairs => rangePos t fuel pairs (kr ^ d) (kc ^ d) p1 p2 q1 q2 dp dq z)
      dp dq (kr ^ d) (kc ^ d).
Proof.
  induction d as [|d IH]; intros [|fuel] z p1 p2 q1 q2 dp dq Hf Hz Hp Hq pairs;
    try lia.
  - cbn [rangePos]. rewrite (Entry_0_leaf t z Hz).
    destruct (Entry_0_read t z Hz) as [v Hv]. rewrite Hv. cbn [obind].
    destruct (negb (elem_eqb v (null_ t))).
    + exists [(dp, dq)]. split; [reflexivity|]. split.
      * constructor; [intros []|constructor].
      * intros ab [<-|[]]. cbn [fst snd Nat.pow]. lia.
    + exists []. rewrite app_nil_r. split; [reflexivity|].
      split; [constructor|contradiction].
  - cbn [rangePos]. rewrite (Entry_S_not_leaf t d z Hz).
    destruct (Entry_S_read t d z Hz) as [b Hb]. rewrite Hb. cbn [obind].
    destruct b.
    + cbv zeta. rewrite !pow_div by lia.
      pose proof Hz as [_ Hsub]. specialize (Hsub Hb).
      exact (range_group_once fuel d (rank T (z + 1) * kr * kc) dp dq
               p1 p2 q1 q2
               (fun z' p1' p2' q1' q2' dp' dq' Hz' Hp' Hq' =>
                  IH fuel z' p1' p2' q1' q2' dp' dq' ltac:(lia) Hz' Hp' Hq')
               Hsub Hp Hq pairs).
    + exists []. rewrite app_nil_r. split; [reflexivity|].
      split; [constructor|contradiction].
Qed.

End RangesOnce.

(** [getPositionsInRange] on a well-formed structure: the cells of the
    rectangle with a value, each of them once. *)
Lemma getPositionsInRange_spec {E : Type} `{ElemType E}
  (t : KrKcTree E) (i1 i2 j1 j2 : nat) :
  well_formed t -> i1 <= i2 < numRows_ t -> j1 <= j2 < numCols_ t ->
  exists out,
    getPositionsInRange t i1 i2 j1 j2 = Some out /\ NoDup out /\
    forall i j, In (i, j) out <->
                (i1 <= i <= i2 /\ j1 <= j <= j2 /\
                 not_null t (getElement t i j) = true).
Proof.
  intros Hwf Hi Hj. unfold getPositionsInRange, rangePosInit.
  destruct (L_empty t) eqn:HL.
  - exists []. split; [reflexivity|]. split; [constructor|].
    intros i j. split; [contradiction|].
    intros (_ & _ & Hv).
    rewrite getElement_empty, not_null_null in Hv by assumption.
    discriminate.
  - pose proof (wf_kr t Hwf) as Hkr. pose proof (wf_kc t Hwf) as Hkc.
    rewrite (wf_numRows t Hwf) in Hi. rewrite (wf_numCols t Hwf) in Hj.
    cbv zeta. rewrite (wf_numRows_div t Hwf), (wf_numCols_div t Hwf).
    pose proof (wf_h t Hwf) as Hh.
    destruct (range_group t Hkr Hkc (h_ t) (h_ t - 1) 0 0 0 i1 i2 j1 j2
                (fun z p1' p2' q1' q2' dp' dq' Hz' Hp' Hq' =>
                   rangePos_entry t Hkr Hkc (h_ t - 1) (h_ t) z p1' p2' q1' q2'
                     dp' dq' ltac:(lia) Hz' Hp' Hq')
                (wf_root t Hwf HL) Hi Hj []) as (out & Hrun & Hmem).
    destruct (range_group_once t Hkr Hkc (h_ t) (h_ t - 1) 0 0 0 i1 i2 j1 j2
                (fun z p1' p2' q1' q2' dp' dq' Hz' Hp' Hq' =>
                   rangePos_entry_once t Hkr Hkc (h_ t - 1) (h_ t) z
                     p1' p2' q1' q2' dp' dq' ltac:(lia) Hz' Hp' Hq')
                (wf_root t Hwf HL) Hi Hj []) as (out' & Hrun' & Hnd & _).
    rewrite Hrun in Hrun'. injection Hrun' as <-.
    cbn [Nat.add app] in Hrun.
    exists out. split; [exact Hrun|]. split; [exact Hnd|].
    intros i j. rewrite Hmem. split.
    + intros (p & q & Hab & Hpr & Hqr & Hnn). cbn [Nat.add] in Hab.
      injection Hab as -> ->. split; [exact Hpr|]. split; [exact Hqr|].
      unfold getElement. now rewrite (getInit_getG t Hwf p q HL).
    + intros (Hpr & Hqr & Hv). exists i, j. split; [reflexivity|].
      split; [exact Hpr|]. split; [exact Hqr|].
      unfold getElement in Hv. now rewrite (getInit_getG t Hwf i j HL) in Hv.
Qed.

Lemma NoDup_same_length {A : Type} (l l' : list A) :
  NoDup l -> NoDup l' -> (forall x, In x l <-> In x l') ->
  length l = length l'.
Proof.
  intros N N' Hin. apply Nat.le_antisymm; apply NoDup_incl_length;
    try assumption; intros x Hx; now apply Hin.
Qed.

(** On a well-formed structure and a rectangle with [i1 <= i2 < numRows_]
    and [j1 <= j2 < numCols_], [getPositionsInRange(i1, i2, j1, j2)] lists
    no position twice: its length is the number of cells [(i, j)] of the
    rectangle with [getElement(i, j) != null_]. *)
Theorem getPositionsInRange_once {E : Type} `{ElemType E}
  (t : KrKcTree E) (i1 i2 j1 j2 : nat) :
  well_formed t -> i1 <= i2 < numRows_ t -> j1 <= j2 < numCols_ t ->
  exists out,
    getPositionsInRange t i1 i2 j1 j2 = Some out /\ NoDup out /\
    length out =
    length (filter (fun ij => not_null t (getElement t (fst ij) (snd ij)))
                   (list_prod (range_incl i1 i2) (range_incl j1 j2))).
Proof.
  intros Hwf Hi Hj.
  destruct (getPositionsInRange_spec t i1 i2 j1 j2 Hwf Hi Hj)
    as (out & Hrun & Hnd & Hmem).
  exists out. split; [exact Hrun|]. split; [exact Hnd|].
  apply NoDup_same_length; [exact Hnd| |].
  - apply NoDup_filter, NoDup_list_prod; apply seq_NoDup.
  - intros [i j]. rewrite Hmem, filter_In, in_prod_iff, !in_range_incl.
    cbn [fst snd]. tauto.
Qed.

Lemma getPositionsInRange_once_example :
  (well_formed exampleTree /\ 0 <= 1 < numRows_ exampleTree /\
   2 <= 3 < numCols_ exampleTree) /\
  exists out,
    getPositionsInRange exampleTree 0 1 2 3 = Some out /\ NoDup out /\
    length out =
    length (filter (fun ij => not_null exampleTree
                                (getElement exampleTree (fst ij) (snd ij)))
                   (list_prod (range_incl 0 1) (range_incl 2 3))).
Proof.
  split.
  - split; [example_well_formed | cbn; lia].
  - apply (getPositionsInRange_once exampleTree 0 1 2 3);
      [example_well_formed | cbn; lia | cbn; lia].
Defined.

(** On a well-formed structure [getAllPositions()] lists the cells [(i, j)]
    of the matrix with [getElement(i, j) != null_], each of them once, and
    [countElements()] is their number. *)
Theorem countElements_getAllPositions {E : Type} `{ElemType E}
  (t : KrKcTree E) :
  well_formed t ->
  exists out,
    getAllPositions t = Some out /\ NoDup out /\
    (forall i j, In (i, j) out <->
                 (i < numRows_ t /\ j < numCols_ t /\
                  exists v, getElement t i j = Some v /\ v <> null_ t)) /\
    countElements t = length out.
Proof.
  intros Hwf.
  pose proof (wf_numRows t Hwf) as HnR. pose proof (wf_numCols t Hwf) as HnC.
  pose proof (pow_ge_1 (kr_ t) (S (h_ t - 1))
                ltac:(pose proof (wf_kr t Hwf); lia)) as HR1.
  pose proof (pow_ge_1 (kc_ t) (S (h_ t - 1))
                ltac:(pose proof (wf_kc t Hwf); lia)) as HC1.
  destruct (getPositionsInRange_spec t 0 (numRows_ t - 1) 0 (numCols_ t - 1)
              Hwf ltac:(lia) ltac:(lia)) as (out & Hrun & Hnd & Hmem).
  exists out. split; [exact Hrun|]. split; [exact Hnd|]. split.
  - intros i j. rewrite Hmem, not_null_true. split.
    + intros (Hi & Hj & Hv). split; [lia|]. split; [lia|exact Hv].
    + intros (Hi & Hj & Hv). split; [lia|]. split; [lia|exact Hv].
  - rewrite (countElements_count t Hwf). symmetry.
    apply NoDup_same_length; [exact Hnd| |].
    + apply NoDup_filter, NoDup_list_prod; apply seq_NoDup.
    + intros [i j]. rewrite Hmem, filter_In, in_prod_iff, !in_seq.
      cbn [fst snd]. split.
      * intros (Hi & Hj & Hv). split; [lia|exact Hv].
      * intros ((Hi & Hj) & Hv). split; [lia|]. split; [lia|exact Hv].
Qed.

Lemma countElements_getAllPositions_example :
  well_formed exampleTree /\
  exists out,
    getAllPositions exampleTree = Some out /\ NoDup out /\
    (forall i j, In (i, j) out <->
                 (i < numRows_ exampleTree /\ j < numCols_ exampleTree /\
                  exists v, getElement exampleTree i j = Some v /\
                            v <> null_ exampleTree)) /\
    countElements exampleTree = length out.
Proof.
  split; [example_well_formed|].
  apply (countElements_getAllPositions exampleTree). example_well_formed.
Defined.

(** ** The values Mode L2 stores *)

Lemma Forall_list_update {A : Type} (P : A -> Prop) (l : list A) (i : nat)
  (x : A) :
  Forall P l -> P x -> Forall P (list_update l i x).
Proof.
  intros Hl Hx. revert i. induction Hl as [|y l Hy Hl IH]; intros [|i];
    cbn [list_update]; constructor; auto.
Qed.

Lemma Forall_write_at {A : Type} (P : A -> Prop) (l l' : list A) (i : nat)
  (x : A) :
  write_at l i x = Some l' -> Forall P l -> P x -> Forall P l'.
Proof.
  unfold write_at. destruct (i <? length l); [|discriminate].
  intros [= <-]. apply Forall_list_update.
Qed.

Lemma Forall_insert_at {A : Type} (P : A -> Prop) (l l' : list A)
  (pos count : nat) (x : A) :
  insert_at l pos count x = Some l' -> Forall P l -> P x -> Forall P l'.
Proof.
  unfold insert_at. destruct (pos <=? length l); [|discriminate].
  intros [= <-] Hl Hx. rewrite <- (firstn_skipn pos l) in Hl.
  apply Forall_app in Hl. destruct Hl as [Hl1 Hl2].
  apply Forall_app. split; [exact Hl1|].
  apply Forall_app. split; [|exact Hl2].
  apply Forall_forall. intros y Hy. apply repeat_spec in Hy. now subst.
Qed.

Lemma foldM_invariant {A S : Type} (body : A -> S -> option S) (I : S -> Prop)
  (xs : list A) :
  (forall x s s', body x s = Some s' -> I s -> I s') ->
  forall s s', foldM body xs s = Some s' -> I s -> I s'.
Proof.
  intros Hb. induction xs as [|x xs IH]; intros s s' Hrun Hs; cbn [foldM] in Hrun.
  - now injection Hrun as <-.
  - destruct (body x s) as [s1|] eqn:H1; [|discriminate].
    exact (IH s1 s' Hrun (Hb x s s1 H1 Hs)).
Qed.

Section DynamicValues.

Context {E : Type} `{ElemType E}.

Variables (kr kc h rows cols : nat) (null : E).

Local Abbreviation stored := (fun v : E => v = null \/ v = elem_one).

Lemma insert_stored (fuel : nat) :
  forall st numRows numCols p q val z l st',
    insert kr kc h null fuel st numRows numCols p q val z l = Some st' ->
    Forall stored (ds_L st) -> Forall stored (ds_L st').
Proof.
  induction fuel as [|fuel IH];
    intros st numRows numCols p q val z l st' Hrun HL; [discriminate|].
  cbn [insert] in Hrun.
  destruct (nth_error (ds_T st) z) as [b|]; [|discriminate].
  cbn [obind] in Hrun. destruct b; cbn [negb] in Hrun.
  - destruct (dyn_rank (ds_R st) (z + 1)) as [r|]; [|discriminate].
    cbn [obind] in Hrun. destruct (l + 1 =? h).
    + destruct (offset_from _ _) as [i|]; [|discriminate].
      cbn [obind] in Hrun.
      destruct (write_at (ds_L st) i elem_one) as [L1|] eqn:HL1;
        [|discriminate].
      cbn [obind] in Hrun. injection Hrun as <-. cbn [ds_L].
      apply (Forall_write_at _ _ _ _ _ HL1 HL). now right.
    + exact (IH _ _ _ _ _ _ _ _ _ Hrun HL).
  - destruct (write_at (ds_T st) z true) as [T1|]; [|discriminate].
    cbn [obind] in Hrun.
    destruct (dyn_rank _ (z + 1)) as [r|]; [|discriminate].
    cbn [obind] in Hrun. destruct (l + 1 =? h).
    + destruct (offset_from (r * kr * kc) _) as [pos|]; [|discriminate].
      cbn [obind] in Hrun.
      destruct (insert_at (ds_L st) pos (kr * kc) null) as [L1|] eqn:HL1;
        [|discriminate].
      cbn [obind] in Hrun.
      destruct (offset_from _ _) as [i|]; [|discriminate].
      cbn [obind] in Hrun.
      destruct (write_at L1 i elem_one) as [L2|] eqn:HL2; [|discriminate].
      cbn [obind] in Hrun. injection Hrun as <-. cbn [ds_L].
      apply (Forall_write_at _ _ _ _ _ HL2); [|now right].
      apply (Forall_insert_at _ _ _ _ _ _ HL1 HL). now left.
    + destruct (insert_at T1 _ _ false) as [T2|]; [|discriminate].
      cbn [obind] in Hrun.
      exact (IH _ _ _ _ _ _ _ _ _ Hrun HL).
Qed.

Lemma insertInit_stored (st st' : dynamic_state) (p q : nat) (val : E) :
  insertInit kr kc h rows cols null st p q val = Some st' ->
  Forall stored (ds_L st) -> Forall stored (ds_L st').
Proof.
  unfold insertInit. intros Hrun HL.
  apply (insert_stored _ _ _ _ _ _ _ _ _ _ Hrun).
  now destruct (ds_T st).
Qed.

End DynamicValues.

(** For a height of two or more, the list constructor with [mode = 2]
    stores no value of the relation: every entry of the [L_] it builds is
    [null_] or the element [1], whatever values the lists hold. *)
Theorem dynamic_bitmaps_values {E : Type} `{ElemType E}
  (lists : list (list (nat * E))) (kr kc : nat) (null : E) (t : KrKcTree E) :
  KrKcTree_of_lists_dynamic lists kr kc null = Some t ->
  h_ t <> 1 ->
  Forall (fun v => v = null \/ v = elem_one) (L_ t).
Proof.
  unfold KrKcTree_of_lists_dynamic. cbv zeta.
  set (h := derived_height _ _ _ _).
  destruct (pow_size_type kr h) as [numRows|]; [|discriminate].
  destruct (pow_size_type kc h) as [numCols|]; [|discriminate].
  cbn [obind].
  destruct (buildFromListsDynamicBitmaps kr kc h numRows numCols null lists)
    as [[T L]|] eqn:Hb; [|discriminate].
  intros [= <-] Hh. cbn [h_ L_] in *.
  unfold buildFromListsDynamicBitmaps in Hb.
  destruct (Nat.eqb_spec h 1); [contradiction|].
  destruct (for_each_entry _ lists (mkDynamicState [] [] [])) as [st|] eqn:Hrun;
    [|discriminate].
  cbn [obind] in Hb. injection Hb as _ <-.
  unfold for_each_entry in Hrun.
  apply (foldM_invariant _ (fun st => Forall (fun v => v = null \/ v = elem_one)
                                             (ds_L st)) _
           (fun irow s s' Hrow =>
              foldM_invariant _ _ (snd irow)
                (fun e s1 s2 => insertInit_stored kr kc h numRows numCols null
                                  s1 s2 (fst irow) (fst e) (snd e))
                s s' Hrow)
           _ _ Hrun).
  constructor.
Qed.

Lemma dynamic_bitmaps_values_example :
  (KrKcTree_of_lists_dynamic valuedLists 2 2 0%Z =
     Some (mkKrKcTree [true; true; false; true]
                      [1; 0; 0; 0;  0; 0; 0; 1;  0; 0; 1; 0]%Z
                      2 2 2 4 4 0%Z) /\
   2 <> 1) /\
  Forall (fun v => v = 0%Z \/ v = elem_one)
         [1; 0; 0; 0;  0; 0; 0; 1;  0; 0; 1; 0]%Z.
Proof.
  split.
  - split; [reflexivity|lia].
  - apply (dynamic_bitmaps_values valuedLists 2 2 0%Z
             (mkKrKcTree [true; true; false; true]
                         [1; 0; 0; 0;  0; 0; 0; 1;  0; 0; 1; 0]%Z
                         2 2 2 4 4 0%Z));
      [reflexivity|cbn; lia].
Defined.

(** ** Mode L0 builds what Mode M builds *)

Section CursorRows.

Context {E : Type} `{ElemType E}.

Variable null : E.

Local Abbreviation nn := (fun e : nat * E => negb (elem_eqb (snd e) null)).
Local Abbreviation rowOf s vals :=
  (filter nn (combine (seq s (length vals)) vals)).
Local Abbreviation read c row :=
  (match nth_error row (entries_before c row) with
   | Some e => if c =? fst e then snd e else null
   | None => null
   end).

Lemma rowOf_first (s : nat) (vals : list E) (e : nat * E) :
  In e (rowOf s vals) -> s <= fst e.
Proof.
  intros He. apply filter_In in He. destruct He as [He _].
  destruct e as [c v]. apply in_combine_l in He. apply in_seq in He.
  cbn [fst]. lia.
Qed.

Lemma entries_before_first (c s : nat) (vals : list E) :
  c <= s -> entries_before c (rowOf s vals) = 0.
Proof.
  intros Hc. unfold entries_before. rewrite filter_false; [reflexivity|].
  intros e He. apply rowOf_first in He.
  destruct (Nat.ltb_spec (fst e) c); [lia|reflexivity].
Qed.

Lemma read_first (c s : nat) (vals : list E) :
  c < s -> read c (rowOf s vals) = null.
Proof.
  intros Hc. rewrite entries_before_first by lia.
  destruct (rowOf s vals) as [|e rest] eqn:Hrow; [reflexivity|].
  cbn [nth_error].
  assert (He : s <= fst e).
  { apply (rowOf_first s vals). rewrite Hrow. now left. }
  destruct (Nat.eqb_spec c (fst e)); [lia|reflexivity].
Qed.

Lemma entries_before_cons (c : nat) (e : nat * E) (row : list (nat * E)) :
  entries_before c (e :: row)
  = Nat.b2n (fst e <? c) + entries_before c row.
Proof.
  unfold entries_before. cbn [filter]. now destruct (fst e <? c).
Qed.

(** Reading at the cursor yields the entry of the column when the row has
    one, and the cursor then moves by one. *)
Lemma rowOf_read_step (vals : list E) :
  forall s c, s <= c ->
    read c (rowOf s vals) = nth (c - s) vals null /\
    entries_before (S c) (rowOf s vals) =
    entries_before c (rowOf s vals)
    + Nat.b2n (negb (elem_eqb (nth (c - s) vals null) null)).
Proof.
  assert (Hself : negb (elem_eqb null null) = false).
  { destruct (elem_eqb_eq null null) as [_ Hn]. now rewrite (Hn eq_refl). }
  induction vals as [|v vs IH]; intros s c Hc.
  - cbn. destruct (c - s); rewrite Hself; split; reflexivity.
  - cbn [length seq combine filter snd].
    destruct (Nat.eq_dec c s) as [->|Hne].
    + rewrite Nat.sub_diag. cbn [nth].
      destruct (negb (elem_eqb v null)) eqn:Hv.
      * rewrite !entries_before_cons. cbn [fst].
        rewrite Nat.ltb_irrefl, (proj2 (Nat.ltb_lt s (S s))) by lia.
        rewrite !entries_before_first by lia.
        cbn [Nat.b2n Nat.add nth_error fst snd]. rewrite Nat.eqb_refl.
        split; reflexivity.
      * assert (Hvn : v = null).
        { apply negb_false_iff in Hv. now apply (elem_eqb_eq v null). }
        pose proof (read_first s (S s) vs ltac:(lia)) as Hr.
        rewrite Hr, !entries_before_first by lia.
        split; [now symmetry|reflexivity].
    + destruct (IH (S s) c ltac:(lia)) as [Hr Hs].
      replace (c - s) with (S (c - S s)) by lia. cbn [nth].
      destruct (negb (elem_eqb v null)) eqn:Hv.
      * rewrite !entries_before_cons. cbn [fst].
        rewrite (proj2 (Nat.ltb_lt s c)), (proj2 (Nat.ltb_lt s (S c))) by lia.
        cbn [Nat.b2n Nat.add nth_error]. split; [exact Hr|].
        rewrite Hs. lia.
      * split; [exact Hr|exact Hs].
Qed.

End CursorRows.

Lemma collect_values_eq {S : Type}
  (body : nat * nat -> S -> option (bool * S)) (slots : list (nat * nat)) :
  forall st, collect body slots st = collect_values body slots st.
Proof.
  induction slots as [|ij slots IH]; intros st; cbn [collect collect_values];
    [reflexivity|].
  destruct (body ij st) as [[b st1]|]; [|reflexivity]. now rewrite IH.
Qed.

Lemma collect_values_app {A S : Type}
  (body : nat * nat -> S -> option (A * S)) (l1 l2 : list (nat * nat)) :
  forall st,
    collect_values body (l1 ++ l2) st =
    match collect_values body l1 st with
    | Some (C1, st1) =>
        match collect_values body l2 st1 with
        | Some (C2, st2) => Some (C1 ++ C2, st2)
        | None => None
        end
    | None => None
    end.
Proof.
  induction l1 as [|ij l1 IH]; intros st; cbn [app collect_values].
  - now destruct (collect_values body l2 st) as [[C2 st2]|].
  - destruct (body ij st) as [[v st1]|]; [|reflexivity].
    rewrite IH. destruct (collect_values body l1 st1) as [[C1 st2]|];
      [|reflexivity].
    now destruct (collect_values body l2 st2) as [[C2 st3]|].
Qed.

Lemma bump_same (B : nat -> nat) (a len c : nat) :
  (forall r, a <= r < a + len -> B r = c) ->
  forall r, B r = bump B a len c r.
Proof.
  intros HB r. unfold bump.
  destruct (Nat.leb_spec a r); destruct (Nat.ltb_spec r (a + len));
    cbn [andb]; try reflexivity.
  apply HB. lia.
Qed.

(** The loops over the [kr] by [kc] children of a block, for a builder that
    moves the cursors of the rows of each child from the first to the last
    column of the child. *)
Section Grid.

Context {A SL SM : Type}.

Variables (kr kc p q m n : nat).
Variable Rel : (nat -> nat) -> SL -> SM -> Prop.
Variable bodyL : nat * nat -> SL -> option (A * SL).
Variable bodyM : nat * nat -> SM -> option (A * SM).

Hypothesis Rel_ext :
  forall B B' sl sm, (forall r, B r = B' r) -> Rel B sl sm -> Rel B' sl sm.

Hypothesis Hbody :
  forall i j B sl sm a sm',
    i < kr -> j < kc -> Rel B sl sm ->
    (forall r, p + i * m <= r < p + i * m + m -> B r = q + j * n) ->
    bodyM (i, j) sm = Some (a, sm') ->
    exists sl', bodyL (i, j) sl = Some (a, sl') /\
                Rel (bump B (p + i * m) m (q + j * n + n)) sl' sm'.

Lemma grid_row (i : nat) (len : nat) :
  forall j0 B sl sm C sm',
    i < kr -> j0 + len <= kc -> Rel B sl sm ->
    (forall r, p + i * m <= r < p + i * m + m -> B r = q + j0 * n) ->
    collect_values bodyM (map (fun y => (i, y)) (seq j0 len)) sm = Some (C, sm') ->
    exists sl',
      collect_values bodyL (map (fun y => (i, y)) (seq j0 len)) sl = Some (C, sl') /\
      Rel (bump B (p + i * m) m (q + (j0 + len) * n)) sl' sm'.
Proof.
  induction len as [|len IH]; intros j0 B sl sm C sm' Hi Hj HR HB Hrun;
    cbn [seq map collect_values] in *.
  - injection Hrun as <- <-. exists sl. split; [reflexivity|].
    apply (Rel_ext B); [|exact HR].
    apply bump_same. intros r Hr. rewrite Nat.add_0_r. now apply HB.
  - destruct (bodyM (i, j0) sm) as [[a sm1]|] eqn:Hm; [|discriminate].
    destruct (collect_values bodyM _ sm1) as [[C1 sm2]|] eqn:Hrest;
      [|discriminate].
    injection Hrun as <- <-.
    destruct (Hbody i j0 B sl sm a sm1 Hi ltac:(lia) HR HB Hm)
      as (sl1 & -> & HR1).
    destruct (IH (S j0) _ sl1 sm1 C1 sm2 Hi ltac:(lia) HR1) as (sl2 & -> & HR2).
    + intros r Hr. unfold bump.
      destruct (Nat.leb_spec (p + i * m) r);
        destruct (Nat.ltb_spec r (p + i * m + m)); cbn [andb]; lia.
    + exact Hrest.
    + exists sl2. split; [reflexivity|].
      apply (Rel_ext (bump (bump B (p + i * m) m (q + j0 * n + n))
                           (p + i * m) m (q + (S j0 + len) * n)));
        [|exact HR2].
      intros r. unfold bump.
      destruct (Nat.leb_spec (p + i * m) r);
        destruct (Nat.ltb_spec r (p + i * m + m)); cbn [andb];
        try reflexivity.
      f_equal. lia.
Qed.

Lemma grid_rows (len : nat) :
  forall i0 B sl sm C sm',
    i0 + len <= kr -> Rel B sl sm ->
    (forall r, p + i0 * m <= r < p + (i0 + len) * m -> B r = q) ->
    collect_values bodyM (list_prod (seq i0 len) (seq 0 kc)) sm
    = Some (C, sm') ->
    exists sl',
      collect_values bodyL (list_prod (seq i0 len) (seq 0 kc)) sl
      = Some (C, sl') /\
      Rel (bump B (p + i0 * m) (len * m) (q + kc * n)) sl' sm'.
Proof.
  induction len as [|len IH]; intros i0 B sl sm C sm' Hi HR HB Hrun;
    cbn [seq list_prod] in *.
  - cbn [collect_values] in *. injection Hrun as <- <-.
    exists sl. split; [reflexivity|].
    apply (Rel_ext B); [|exact HR].
    intros r. unfold bump. cbn [Nat.mul].
    destruct (Nat.leb_spec (p + i0 * m) r);
      destruct (Nat.ltb_spec r (p + i0 * m + 0)); cbn [andb];
      try reflexivity.
    lia.
  - rewrite collect_values_app in Hrun. rewrite collect_values_app.
    destruct (collect_values bodyM (map _ (seq 0 kc)) sm) as [[C1 sm1]|] eqn:H1;
      [|discriminate].
    destruct (collect_values bodyM (list_prod _ _) sm1) as [[C2 sm2]|] eqn:H2;
      [|discriminate].
    injection Hrun as <- <-.
    destruct (grid_row i0 kc 0 B sl sm C1 sm1 ltac:(lia) ltac:(lia) HR)
      as (sl1 & -> & HR1).
    + intros r Hr. rewrite Nat.mul_0_l, Nat.add_0_r. apply HB. nia.
    + exact H1.
    + destruct (IH (S i0) _ sl1 sm1 C2 sm2 ltac:(lia) HR1) as (sl2 & -> & HR2).
      * intros r Hr. unfold bump.
        destruct (Nat.leb_spec (p + i0 * m) r);
          destruct (Nat.ltb_spec r (p + i0 * m + m)); cbn [andb];
          try (apply HB; nia).
        nia.
      * exact H2.
      * exists sl2. split; [reflexivity|].
        apply (Rel_ext (bump (bump B (p + i0 * m) m (q + (0 + kc) * n))
                             (p + S i0 * m) (len * m) (q + kc * n)));
          [|exact HR2].
        intros r. unfold bump.
        destruct (Nat.leb_spec (p + S i0 * m) r);
          destruct (Nat.ltb_spec r (p + S i0 * m + len * m));
          destruct (Nat.leb_spec (p + i0 * m) r);
          destruct (Nat.ltb_spec r (p + i0 * m + m));
          destruct (Nat.ltb_spec r (p + i0 * m + S len * m));
          cbn [andb]; try reflexivity; try nia.
Qed.

Lemma grid (B : nat -> nat) (sl : SL) (sm : SM) (C : list A) (sm' : SM) :
  Rel B sl sm ->
  (forall r, p <= r < p + kr * m -> B r = q) ->
  collect_values bodyM (child_slots kr kc) sm = Some (C, sm') ->
  exists sl',
    collect_values bodyL (child_slots kr kc) sl = Some (C, sl') /\
    Rel (bump B p (kr * m) (q + kc * n)) sl' sm'.
Proof.
  intros HR HB Hrun. unfold child_slots in *.
  destruct (grid_rows kr 0 B sl sm C sm' ltac:(lia) HR) as (sl' & Hl & HR').
  - intros r Hr. apply HB. lia.
  - exact Hrun.
  - exists sl'. split; [exact Hl|].
    now rewrite Nat.mul_0_l, Nat.add_0_r in HR'.
Qed.

End Grid.

Lemma CursorsAt_ext {E : Type} (lists : list (list (nat * E)))
  (B B' : nat -> nat) (cursors : list nat) :
  (forall r, B r = B' r) -> CursorsAt lists B cursors ->
  CursorsAt lists B' cursors.
Proof.
  intros HB [Hlen Hc]. split; [exact Hlen|].
  intros r Hr. rewrite <- HB. now apply Hc.
Qed.

Lemma CursorsAt_begin {E : Type} (lists : list (list (nat * E))) :
  CursorsAt lists (fun _ => 0) (map (fun _ => 0) lists).
Proof.
  split; [apply length_map|].
  intros r Hr. rewrite nth_error_map.
  destruct (nth_error lists r) as [row|] eqn:Hrow.
  - cbn [option_map]. f_equal. unfold entries_before.
    rewrite filter_false; [reflexivity|]. intros e _. reflexivity.
  - apply nth_error_None in Hrow. lia.
Qed.

(** With the rows of a matrix as relation lists, the builder with cursors
    runs as the builder on the matrix does, and leaves the cursors of the
    rows of a block behind its last column. *)
Section CursorsSimulation.

Context {E : Type} `{ElemType E}.

Variables (mat : matrix_type E) (kr kc h : nat) (null : E).

Hypothesis Htruthy : forall v, elem_to_bool v = negb (elem_eqb v null).
Hypothesis Hrows :
  Forall (fun row => length row <= length (nth 0 mat [])) mat.
Hypothesis Hrect :
  forall i, i < length mat -> length (nth 0 mat []) <= length (nth i mat []).

Local Abbreviation lists := (lists_of_matrix mat null).

Lemma readCursor_matrix (B : nat -> nat) (cursors : list nat) (r c : nat) :
  CursorsAt lists B cursors -> B r = c ->
  exists cursors',
    readCursor null lists cursors r c = Some (mat_at mat null r c, cursors') /\
    CursorsAt lists (bump B r 1 (c + 1)) cursors'.
Proof.
  intros [Hlen Hc] HB.
  assert (Hself : elem_to_bool null = false).
  { rewrite Htruthy. destruct (elem_eqb_eq null null) as [_ Hn].
    now rewrite (Hn eq_refl). }
  assert (Hll : length lists = length mat) by apply length_map.
  unfold readCursor, list_type.
  destruct (Nat.ltb_spec r (length lists)) as [Hr|Hr].
  - rewrite (Hc r Hr). cbn [obind].
    assert (Hrow : nth r lists [] =
                   filter (fun e => negb (elem_eqb (snd e) null))
                     (combine (seq 0 (length (nth r mat []))) (nth r mat []))).
    { unfold lists_of_matrix.
      apply nth_error_nth. rewrite nth_error_map.
      rewrite nth_error_nth' with (d := []) by lia. reflexivity. }
    rewrite Hrow, HB.
    destruct (rowOf_read_step null (nth r mat []) 0 c ltac:(lia))
      as [Hread Hstep].
    rewrite Nat.sub_0_r in Hread, Hstep. rewrite Hread.
    assert (Hval : nth c (nth r mat []) null = mat_at mat null r c).
    { unfold mat_at. destruct (Nat.ltb_spec r (length mat)); [|lia].
      destruct (Nat.ltb_spec c (length (nth 0 mat []))); [reflexivity|].
      cbn [andb]. apply nth_overflow.
      rewrite Forall_forall in Hrows.
      assert (Hin : In (nth r mat []) mat) by (apply nth_In; lia).
      specialize (Hrows _ Hin). cbn beta in Hrows. lia. }
    rewrite Hval in *. rewrite Htruthy.
    destruct (negb (elem_eqb (mat_at mat null r c) null)) eqn:Hnn;
      cbn [Nat.b2n] in Hstep.
    + eexists. split; [reflexivity|]. split.
      * now rewrite length_list_update.
      * intros r' Hr'. unfold bump.
        destruct (Nat.eq_dec r r') as [<-|Hne].
        -- rewrite nth_error_list_update_eq by lia.
           destruct (Nat.leb_spec r r); [|lia].
           destruct (Nat.ltb_spec r (r + 1)); [|lia]. cbn [andb].
           rewrite Hrow. f_equal. rewrite !Nat.add_1_r, Hstep. lia.
        -- rewrite nth_error_list_update_neq by exact Hne.
           destruct (Nat.leb_spec r r'); destruct (Nat.ltb_spec r' (r + 1));
             cbn [andb]; try lia; now apply Hc.
    + eexists. split; [reflexivity|]. split; [exact Hlen|].
      intros r' Hr'. unfold bump.
      destruct (Nat.leb_spec r r'); destruct (Nat.ltb_spec r' (r + 1));
        cbn [andb]; try now apply Hc.
      assert (r' = r) as -> by lia.
      rewrite (Hc r Hr), Hrow, HB, Nat.add_1_r, Hstep. f_equal. lia.
  - cbn [obind]. rewrite Hself.
    exists cursors. split.
    + f_equal. f_equal. symmetry. apply mat_at_outside. left. lia.
    + split; [exact Hlen|]. intros r' Hr'. unfold bump.
      destruct (Nat.leb_spec r r'); destruct (Nat.ltb_spec r' (r + 1));
        cbn [andb]; try now apply Hc.
      lia.
Qed.

Hypothesis Hkr : 1 <= kr.
Hypothesis Hkc : 1 <= kc.

Lemma buildFromLists_matrix (d : nat) :
  forall B cursors bst p q b bst',
    d < h ->
    CursorsAt lists B cursors ->
    (forall r, p <= r < p + kr ^ S d -> B r = q) ->
    buildFromMatrix kr kc h null (S d) mat bst (kr ^ S d) (kc ^ S d)
      (h - d) p q = Some (b, bst') ->
    exists cursors',
      buildFromLists kr kc h null (S d) lists (cursors, bst)
        (kr ^ S d) (kc ^ S d) (h - d) p q = Some (b, (cursors', bst')) /\
      CursorsAt lists (bump B p (kr ^ S d) (q + kc ^ S d)) cursors'.
Proof.
  induction d as [|d IH]; intros B cursors bst p q b bst' Hd HC HB Hrun.
  - cbn [buildFromMatrix] in Hrun. cbn [buildFromLists].
    rewrite Nat.sub_0_r, Nat.eqb_refl in *. cbn [fst snd].
    rewrite (mapM_map _ (fun ij => mat_at mat null (p + fst ij) (q + snd ij)))
      in Hrun by (intros ij; now apply mat_read_mat_at).
    cbn [obind] in Hrun.
    destruct (grid kr kc p q 1 1
                (fun B' (sl : list nat) (_ : unit) => CursorsAt lists B' sl)
                (fun ij cursors0 =>
                   readCursor null lists cursors0 (p + fst ij) (q + snd ij))
                (fun ij (u : unit) =>
                   Some (mat_at mat null (p + fst ij) (q + snd ij), u)))
      with (B := B) (sl := cursors) (sm := tt)
           (C := map (fun ij => mat_at mat null (p + fst ij) (q + snd ij))
                     (child_slots kr kc)) (sm' := tt)
      as (cursors' & HL & HC').
    + intros B1 B2 sl _ HB12 HC1. exact (CursorsAt_ext _ _ _ _ HB12 HC1).
    + intros i j B1 sl sm a sm' Hi Hj HC1 HB1 Hm. cbn [fst snd] in *.
      injection Hm as <- <-.
      destruct (readCursor_matrix B1 sl (p + i) (q + j) HC1) as (sl' & Hr & HC2).
      { rewrite (HB1 (p + i)) by lia. lia. }
      exists sl'. split; [exact Hr|].
      now rewrite !Nat.mul_1_r.
    + exact HC.
    + intros r Hr. apply HB. rewrite Nat.pow_1_r. lia.
    + generalize (child_slots kr kc). intros slots.
      induction slots as [|ij slots IHs]; [reflexivity|].
      cbn [collect_values map]. now rewrite IHs.
    + rewrite HL.
      assert (HC'' : CursorsAt lists (bump B p (kr ^ 1) (q + kc ^ 1)) cursors').
      { rewrite !Nat.pow_1_r. now rewrite !Nat.mul_1_r in HC'. }
      destruct (isAll _ null); injection Hrun as <- <-;
        exists cursors'; split; [reflexivity|exact HC''|reflexivity|exact HC''].
  - cbn [buildFromMatrix] in Hrun. cbn [buildFromLists].
    destruct (Nat.eqb_spec (h - S d) h) as [Heq|_]; [lia|].
    assert (Hdr : kr ^ S (S d) / kr = kr ^ S d).
    { rewrite (Nat.pow_succ_r' kr (S d)), Nat.mul_comm. apply Nat.div_mul. lia. }
    assert (Hdc : kc ^ S (S d) / kc = kc ^ S d).
    { rewrite (Nat.pow_succ_r' kc (S d)), Nat.mul_comm. apply Nat.div_mul. lia. }
    rewrite Hdr, Hdc in *.
    replace (h - S d + 1) with (h - d) in * by lia.
    rewrite collect_values_eq in Hrun. rewrite collect_values_eq.
    match type of Hrun with
    | match collect_values ?bM _ _ with _ => _ end = _ =>
        destruct (collect_values bM (child_slots kr kc) bst)
          as [[C bst1]|] eqn:HM; [|discriminate];
        match goal with
        | |- context [collect_values ?bL _ (cursors, bst)] =>
            destruct (grid kr kc p q (kr ^ S d) (kc ^ S d)
                        (fun B' (sl : list nat * build_state)
                             (sm : build_state) =>
                           CursorsAt lists B' (fst sl) /\ snd sl = sm)
                        bL bM)
              with (B := B) (sl := (cursors, bst)) (sm := bst)
                   (C := C) (sm' := bst1)
              as ([cursors' bst1'] & HL & HC' & Hst)
        end
    end.
    + intros B1 B2 sl sm HB12 [HC1 Hs]. split; [|exact Hs].
      exact (CursorsAt_ext _ _ _ _ HB12 HC1).
    + intros i j B1 [c0 b0] sm a sm' Hi Hj [HC1 Hs] HB1 Hm.
      cbn [fst snd] in *. subst b0.
      destruct (IH B1 c0 sm (p + i * kr ^ S d) (q + j * kc ^ S d) a sm'
                  ltac:(lia) HC1 HB1 Hm) as (c1 & Hr & HC2).
      exists (c1, sm'). split; [exact Hr|]. split; [exact HC2|reflexivity].
    + split; [exact HC|reflexivity].
    + intros r Hr. apply HB. rewrite (Nat.pow_succ_r' kr (S d)). exact Hr.
    + exact HM.
    + rewrite HL. cbn [fst snd] in *. subst bst1'.
      assert (HC'' : CursorsAt lists
                       (bump B p (kr ^ S (S d)) (q + kc ^ S (S d))) cursors').
      { now rewrite (Nat.pow_succ_r' kr (S d)), (Nat.pow_succ_r' kc (S d)). }
      destruct (isAllZero C).
      * injection Hrun as <- <-.
        exists cursors'. split; [reflexivity|exact HC''].
      * destruct (offset_from (h - S d) 1) as [i|]; [|discriminate].
        cbn [obind] in *.
        destruct (append_level (levels bst1) i C) as [lvls|]; [|discriminate].
        cbn [obind] in *. injection Hrun as <- <-.
        exists cursors'. split; [reflexivity|exact HC''].
Qed.

End CursorsSimulation.

(** On the rows of a matrix, all as long as the first, and while the
    powers are exact, the list constructor with cursors builds the
    structure [matrixTree] of the height it derives from the lists. *)
Lemma KrKcTree_of_lists_cursors_matrixTree {E : Type} `{ElemType E}
  (mat : matrix_type E) (kr kc : nat) (null : E) :
  1 <= kr -> 1 <= kc ->
  (forall v, elem_to_bool v = negb (elem_eqb v null)) ->
  Forall (fun row => length row = length (nth 0 mat [])) mat ->
  (Z.of_nat (kr ^ derived_height (length mat)
                     (lists_maxCol (lists_of_matrix mat null) + 1) kr kc)
   <= 2 ^ 53)%Z ->
  (Z.of_nat (kc ^ derived_height (length mat)
                     (lists_maxCol (lists_of_matrix mat null) + 1) kr kc)
   <= 2 ^ 53)%Z ->
  KrKcTree_of_lists_cursors (lists_of_matrix mat null) kr kc null =
  Some (matrixTree mat kr kc null
          (derived_height (length mat)
             (lists_maxCol (lists_of_matrix mat null) + 1) kr kc)).
Proof.
  intros Hkr Hkc Htruthy Hrows Hbr Hbc.
  assert (Hle : Forall (fun row => length row <= length (nth 0 mat [])) mat).
  { eapply Forall_impl; [|exact Hrows]. cbn beta. intros row ->. lia. }
  pose proof (rows_rect mat _ Hrows) as Hrect.
  unfold KrKcTree_of_lists_cursors, list_type. cbv zeta.
  replace (length (lists_of_matrix mat null)) with (length mat)
    by (symmetry; apply length_map).
  rewrite (pow_size_type_exact kr _ Hbr), (pow_size_type_exact kc _ Hbc).
  cbn [obind].
  pose proof (derived_height_pos (length mat)
                (lists_maxCol (lists_of_matrix mat null) + 1) kr kc) as Hh.
  set (h := derived_height _ _ _ _) in *.
  destruct (buildFromMatrix_matrixTree mat kr kc null h Hkr Hkc Hh Hrect)
    as (b & st & Hb & Ht).
  destruct h as [|h']; [lia|].
  pose proof (buildFromLists_matrix mat kr kc (S h') null Htruthy Hle Hrect
                Hkr Hkc
                h' (fun _ => 0) (map (fun _ => 0) (lists_of_matrix mat null))
                (mkBuildState (repeat [] (S h' - 1)) []) 0 0 b st ltac:(lia)
                (CursorsAt_begin _) (fun _ _ => eq_refl)) as Hsim.
  replace (S h' - h') with 1 in Hsim by lia.
  destruct (Hsim Hb) as (cursors' & Hl & _).
  rewrite Hl. now rewrite Ht.
Qed.

(** Take a matrix with at least one row and [cols] entries in every row,
    whose relation lists give the height its dimensions give, and powers
    [kr ^ h] and [kc ^ h] that are exact (at most [2 ^ 53]).  Then the
    matrix constructor and the list constructor with [mode = 0], given the
    rows of the matrix as lists, both terminate, and with the same
    structure: the same [T_], [L_] and parameters.  This needs values that
    are truthy exactly when they differ from [null], as the cursors advance
    on [if (C.back())]. *)
Theorem KrKcTree_of_lists_cursors_of_matrix {E : Type} `{ElemType E}
  (mat : matrix_type E) (kr kc : nat) (null : E) (cols : nat) :
  2 <= kr -> 2 <= kc ->
  (forall v, elem_to_bool v = negb (elem_eqb v null)) ->
  mat <> [] ->
  Forall (fun row => length row = cols) mat ->
  derived_height (length mat) (lists_maxCol (lists_of_matrix mat null) + 1)
                 kr kc
  = derived_height (length mat) cols kr kc ->
  (Z.of_nat (kr ^ derived_height (length mat) cols kr kc) <= 2 ^ 53)%Z ->
  (Z.of_nat (kc ^ derived_height (length mat) cols kr kc) <= 2 ^ 53)%Z ->
  exists t,
    KrKcTree_of_matrix mat kr kc null = Some t /\
    KrKcTree_of_lists_cursors (lists_of_matrix mat null) kr kc null = Some t.
Proof.
  intros Hkr Hkc Htruthy Hmat Hrows Hh Hbr Hbc.
  destruct (rows_of_equal_length mat cols Hmat Hrows) as [Hc0 Hrect].
  subst cols.
  eexists. split.
  - exact (KrKcTree_of_matrix_eq mat kr kc null Hkr Hkc Hmat Hrect Hbr Hbc).
  - rewrite <- Hh in Hbr, Hbc.
    rewrite (KrKcTree_of_lists_cursors_matrixTree mat kr kc null
               ltac:(lia) ltac:(lia) Htruthy Hrows Hbr Hbc).
    now rewrite Hh.
Qed.

Lemma KrKcTree_of_lists_cursors_of_matrix_example :
  (2 <= 2 /\
   (forall v : Z, elem_to_bool v = negb (elem_eqb v 0%Z)) /\
   valuedMatrix <> [] /\
   Forall (fun row => length row = 4) valuedMatrix /\
   derived_height (length valuedMatrix)
     (lists_maxCol (lists_of_matrix valuedMatrix 0%Z) + 1) 2 2
   = derived_height (length valuedMatrix) 4 2 2 /\
   (Z.of_nat (2 ^ derived_height (length valuedMatrix) 4 2 2) <= 2 ^ 53)%Z) /\
  exists t,
    KrKcTree_of_matrix valuedMatrix 2 2 0%Z = Some t /\
    KrKcTree_of_lists_cursors (lists_of_matrix valuedMatrix 0%Z) 2 2 0%Z
    = Some t.
Proof.
  assert (Ht : forall v : Z, elem_to_bool v = negb (elem_eqb v 0%Z))
    by (intros v; reflexivity).
  assert (Hr : Forall (fun row => length row = 4) valuedMatrix)
    by (repeat constructor).
  split.
  - split; [lia|]. split; [exact Ht|]. split; [discriminate|].
    split; [exact Hr|]. split; [reflexivity|cbn; lia].
  - apply (KrKcTree_of_lists_cursors_of_matrix valuedMatrix 2 2 0%Z 4);
      [lia|lia|exact Ht|discriminate|exact Hr|reflexivity|cbn; lia|cbn; lia].
Defined.

(** ** What the list constructor with cursors stores *)

Lemma fold_max_bound {E : Type} (row : list (nat * E)) :
  forall m,
    m <= fold_left (fun m' e => Nat.max m' (fst e)) row m /\
    forall e, In e row ->
      fst e <= fold_left (fun m' e => Nat.max m' (fst e)) row m.
Proof.
  induction row as [|x row IH]; intros m; cbn [fold_left].
  - split; [lia|]. intros e [].
  - destruct (IH (Nat.max m (fst x))) as [Hm He]. split; [lia|].
    intros e [<-|Hin]; [lia|]. now apply He.
Qed.

Lemma lists_maxCol_bound {E : Type} (lists : list (list (nat * E)))
  (row : list (nat * E)) (e : nat * E) :
  In row lists -> In e row -> fst e <= lists_maxCol lists.
Proof.
  unfold lists_maxCol, list_type. generalize 0.
  induction lists as [|r lists IH]; intros m Hrow He; [destruct Hrow|].
  cbn [fold_left].
  assert (Hmono : forall l m',
             m' <= fold_left (fun m0 (row0 : list (nat * E)) =>
                                fold_left (fun m1 e0 => Nat.max m1 (fst e0))
                                          row0 m0) l m').
  { induction l as [|r' l IHl]; intros m'; cbn [fold_left]; [lia|].
    etransitivity; [|apply IHl]. apply (fold_max_bound r' m'). }
  destruct Hrow as [->|Hrow].
  - etransitivity; [|apply Hmono]. now apply (fold_max_bound row m).
  - now apply IH.
Qed.

Lemma list_value_none {E : Type} (null : E) (row : list (nat * E)) (c : nat) :
  (forall e, In e row -> fst e <> c) -> list_value null row c = null.
Proof.
  intros Hrow. unfold list_value.
  destruct (find (fun e => fst e =? c) row) as [e|] eqn:Hf; [|reflexivity].
  apply find_some in Hf. destruct Hf as [Hin Hc].
  apply Nat.eqb_eq in Hc. now contradiction (Hrow e Hin).
Qed.

(** A row with ascending columns and no [null] value is the list of the
    cells other than [null] of its dense form. *)
Lemma lists_of_matrix_row {E : Type} `{ElemType E} (null : E) (n : nat) :
  forall s (row : list (nat * E)),
    StronglySorted lt (map fst row) ->
    Forall (fun e => snd e <> null) row ->
    Forall (fun e => s <= fst e < s + n) row ->
    filter (fun e => negb (elem_eqb (snd e) null))
           (combine (seq s n) (map (list_value null row) (seq s n)))
    = row.
Proof.
  induction n as [|n IH]; intros s row Hs Hv Hr.
  - destruct row as [|e row]; [reflexivity|]. inversion Hr; subst. lia.
  - cbn [seq map combine filter snd].
    destruct row as [|[c v] rest].
    + change (list_value null [] s) with null. cbn [snd].
      destruct (elem_eqb_eq null null) as [_ Hn]. rewrite (Hn eq_refl).
      cbn [negb]. apply IH; constructor.
    + cbn [map fst] in Hs. inversion Hs as [|? ? Hs' Hlt]; subst.
      inversion Hv as [|? ? Hv1 Hv']; subst. cbn [snd] in Hv1.
      inversion Hr as [|? ? Hr1 Hr']; subst. cbn [fst] in Hr1.
      rewrite Forall_map in Hlt.
      destruct (Nat.eq_dec c s) as [->|Hne].
      * assert (Hval : list_value null ((s, v) :: rest) s = v).
        { unfold list_value. cbn [find fst]. now rewrite Nat.eqb_refl. }
        rewrite Hval. cbn [snd].
        destruct (elem_eqb v null) eqn:Hvn.
        { apply (elem_eqb_eq v null) in Hvn. contradiction. }
        cbn [negb]. f_equal.
        rewrite (map_ext_in (list_value null ((s, v) :: rest))
                            (list_value null rest)).
        -- apply IH; [exact Hs'|exact Hv'|].
           rewrite Forall_forall in *. intros e He.
           specialize (Hlt e He). specialize (Hr' e He). cbn beta in *. lia.
        -- intros c' Hc'. apply in_seq in Hc'. unfold list_value.
           cbn [find fst]. destruct (Nat.eqb_spec s c'); [lia|reflexivity].
      * rewrite list_value_none.
        -- cbn [snd].
           destruct (elem_eqb_eq null null) as [_ Hn]. rewrite (Hn eq_refl).
           cbn [negb]. apply IH; [exact Hs|exact Hv|].
           constructor; [cbn [fst]; lia|].
           rewrite Forall_forall in *. intros e He.
           specialize (Hlt e He). specialize (Hr' e He). cbn beta in *. lia.
        -- intros e [<-|He]; cbn [fst]; [lia|].
           rewrite Forall_forall in Hlt. specialize (Hlt e He).
           cbn beta in Hlt. lia.
Qed.

Section ListsAsMatrix.

Context {E : Type} `{ElemType E}.

Variables (lists : list (list (nat * E))) (null : E) (cols : nat).

Hypothesis Hsorted : Forall (fun row => Sorted lt (map fst row)) lists.
Hypothesis Hvalues :
  Forall (fun row => Forall (fun e => snd e <> null) row) lists.
Hypothesis Hcols : forall row e, In row lists -> In e row -> fst e < cols.

Lemma lists_of_matrix_of_lists :
  lists_of_matrix (matrix_of_lists lists null cols) null = lists.
Proof.
  unfold lists_of_matrix, matrix_of_lists. rewrite map_map.
  rewrite <- (map_id lists) at 2. apply map_ext_in. intros row Hrow.
  rewrite length_map, length_seq.
  rewrite Forall_forall in Hsorted, Hvalues.
  apply lists_of_matrix_row.
  - apply Sorted_StronglySorted; [exact Nat.lt_trans|]. now apply Hsorted.
  - now apply Hvalues.
  - apply Forall_forall. intros e He. specialize (Hcols row e Hrow He). lia.
Qed.

Lemma matrix_of_lists_rows :
  Forall (fun row => length row
                     = length (nth 0 (matrix_of_lists lists null cols) []))
         (matrix_of_lists lists null cols).
Proof.
  unfold matrix_of_lists. destruct lists as [|row0 rest]; [constructor|].
  cbn [map nth]. apply Forall_forall. intros row Hrow.
  assert (Hlen : length row = cols).
  { destruct Hrow as [<-|Hrow]; [now rewrite length_map, length_seq|].
    apply in_map_iff in Hrow. destruct Hrow as (r & <- & _).
    now rewrite length_map, length_seq. }
  now rewrite Hlen, length_map, length_seq.
Qed.

Lemma mat_at_matrix_of_lists (i j : nat) :
  mat_at (matrix_of_lists lists null cols) null i j
  = list_value null (nth i lists []) j.
Proof.
  destruct (Nat.lt_ge_cases i (length lists)) as [Hi|Hi].
  - assert (Hrow : nth i (matrix_of_lists lists null cols) []
                   = map (list_value null (nth i lists [])) (seq 0 cols)).
    { unfold matrix_of_lists. apply nth_error_nth. rewrite nth_error_map.
      rewrite nth_error_nth' with (d := []) by lia. reflexivity. }
    assert (Hc0 : length (nth 0 (matrix_of_lists lists null cols) []) = cols).
    { unfold matrix_of_lists. destruct lists as [|row0 rest];
        [cbn [length] in Hi; lia|].
      cbn [map nth]. now rewrite length_map, length_seq. }
    destruct (Nat.lt_ge_cases j cols) as [Hj|Hj].
    + rewrite mat_at_inside;
        [|unfold matrix_of_lists; rewrite length_map; lia|lia].
      rewrite Hrow. apply nth_error_nth. rewrite nth_error_map.
      rewrite nth_error_nth' with (d := 0) by (rewrite length_seq; lia).
      rewrite seq_nth by lia. reflexivity.
    + rewrite mat_at_outside by (right; lia).
      symmetry. apply list_value_none. intros e He.
      specialize (Hcols (nth i lists []) e (nth_In lists [] Hi) He). lia.
  - rewrite mat_at_outside
      by (left; unfold matrix_of_lists; rewrite length_map; lia).
    rewrite (nth_overflow lists [] Hi). reflexivity.
Qed.

End ListsAsMatrix.

(** For relation lists whose rows have strictly ascending columns and no
    [null] value, values that are truthy exactly when they differ from
    [null], and powers [kr ^ h] and [kc ^ h] that are exact (at most
    [2 ^ 53]) for the height [h] derived from the lists, the list
    constructor with [mode = 0] terminates with a structure that stores its
    parameters, satisfies the class invariant, keeps no empty group, covers
    every entry of the lists, and on which [getElement(i, j)] is the value
    the lists give to column [j] of row [i], or [null] when they give
    none. *)
Theorem KrKcTree_of_lists_cursors_getElement {E : Type} `{ElemType E}
  (lists : list (list (nat * E))) (kr kc : nat) (null : E) :
  2 <= kr -> 2 <= kc ->
  (forall v, elem_to_bool v = negb (elem_eqb v null)) ->
  Forall (fun row => Sorted lt (map fst row)) lists ->
  Forall (fun row => Forall (fun e => snd e <> null) row) lists ->
  (Z.of_nat (kr ^ derived_height (length lists) (lists_maxCol lists + 1) kr kc)
   <= 2 ^ 53)%Z ->
  (Z.of_nat (kc ^ derived_height (length lists) (lists_maxCol lists + 1) kr kc)
   <= 2 ^ 53)%Z ->
  exists t,
    KrKcTree_of_lists_cursors lists kr kc null = Some t /\
    kr_ t = kr /\ kc_ t = kc /\ null_ t = null /\
    h_ t = derived_height (length lists) (lists_maxCol lists + 1) kr kc /\
    well_formed t /\ pruned t /\
    length lists <= numRows_ t /\
    (forall row e, In row lists -> In e row -> fst e < numCols_ t) /\
    forall i j, i < numRows_ t -> j < numCols_ t ->
      getElement t i j = Some (list_value null (nth i lists []) j).
Proof.
  intros Hkr Hkc Htruthy Hsorted Hvalues Hbr Hbc.
  set (cols := lists_maxCol lists + 1) in *.
  assert (Hcols : forall row e, In row lists -> In e row -> fst e < cols).
  { intros row e Hrow He.
    pose proof (lists_maxCol_bound lists row e Hrow He). unfold cols. lia. }
  pose proof (lists_of_matrix_of_lists lists null cols Hsorted Hvalues Hcols)
    as Hrt.
  pose proof (KrKcTree_of_lists_cursors_matrixTree
                (matrix_of_lists lists null cols) kr kc null
                ltac:(lia) ltac:(lia) Htruthy
                (matrix_of_lists_rows lists null cols Hsorted Hvalues Hcols))
    as Ht.
  rewrite Hrt in Ht.
  replace (length (matrix_of_lists lists null cols)) with (length lists) in Ht
    by (symmetry; apply length_map).
  fold cols in Ht. specialize (Ht Hbr Hbc).
  pose proof (derived_height_pos (length lists) cols kr kc) as Hh.
  pose proof (derived_height_covers (length lists) cols kr kc Hkr Hkc)
    as Hcover.
  set (h := derived_height (length lists) cols kr kc) in *.
  eexists. split; [exact Ht|].
  cbn [kr_ kc_ null_ h_ matrixTree].
  repeat (split; [reflexivity|]).
  split; [now apply matrixTree_well_formed|].
  split; [apply matrixTree_pruned; lia|].
  cbn [numRows_ numCols_ matrixTree].
  split; [exact (proj1 Hcover)|].
  split.
  - intros row e Hrow He. specialize (Hcols row e Hrow He). lia.
  - intros i j Hi Hj.
    rewrite (matrixTree_getElement _ kr kc null Hkr Hkc h i j Hh Hi Hj).
    f_equal.
    exact (mat_at_matrix_of_lists lists null cols Hsorted Hvalues Hcols i j).
Qed.

Lemma KrKcTree_of_lists_cursors_getElement_example :
  (2 <= 2 /\
   (forall v : Z, elem_to_bool v = negb (elem_eqb v 0%Z)) /\
   Forall (fun row => Sorted lt (map fst row)) valuedLists /\
   Forall (fun row => Forall (fun e => snd e <> 0%Z) row) valuedLists /\
   (Z.of_nat (2 ^ derived_height (length valuedLists)
                    (lists_maxCol valuedLists + 1) 2 2) <= 2 ^ 53)%Z) /\
  exists t,
    KrKcTree_of_lists_cursors valuedLists 2 2 0%Z = Some t /\
    kr_ t = 2 /\ kc_ t = 2 /\ null_ t = 0%Z /\
    h_ t = derived_height (length valuedLists) (lists_maxCol valuedLists + 1)
             2 2 /\
    well_formed t /\ pruned t /\
    length valuedLists <= numRows_ t /\
    (forall row e, In row valuedLists -> In e row -> fst e < numCols_ t) /\
    forall i j, i < numRows_ t -> j < numCols_ t ->
      getElement t i j = Some (list_value 0%Z (nth i valuedLists []) j).
Proof.
  assert (Ht : forall v : Z, elem_to_bool v = negb (elem_eqb v 0%Z))
    by (intros v; reflexivity).
  assert (Hs : Forall (fun row => Sorted lt (map fst row)) valuedLists)
    by (repeat constructor).
  assert (Hv : Forall (fun row => Forall (fun e => snd e <> 0%Z) row)
                      valuedLists)
    by (repeat constructor; cbn; lia).
  split.
  - split; [lia|]. split; [exact Ht|]. split; [exact Hs|].
    split; [exact Hv|cbn; lia].
  - apply (KrKcTree_of_lists_cursors_getElement valuedLists 2 2 0%Z);
      [lia|lia|exact Ht|exact Hs|exact Hv|cbn; lia|cbn; lia].
Defined.

(** ** Values beside positions *)

Lemma foldM_osim {A S S' : Type} (R : S -> S' -> Prop)
  (body : A -> S -> option S) (body' : A -> S' -> option S') (xs : list A) :
  (forall x s s', R s s' -> osim R (body x s) (body' x s')) ->
  forall s s', R s s' -> osim R (foldM body xs s) (foldM body' xs s').
Proof.
  intros Hb. induction xs as [|x xs IH]; intros s s' HR; cbn [foldM].
  - exact HR.
  - specialize (Hb x s s' HR). unfold osim in Hb.
    destruct (body x s) as [s1|], (body' x s') as [s1'|]; try contradiction.
    + now apply IH.
    + exact I.
Qed.

Lemma osim_backfill {S S' : Type} (R R' : S -> S' -> Prop) (g : S' -> S')
  (o : option S) (o' : option S') :
  osim R o o' -> (forall s s', R s s' -> R' s (g s')) ->
  osim R' o (s1 <- o' ;; Some (g s1)).
Proof.
  intros Ho Hg. unfold osim in *.
  destruct o as [s|], o' as [s'|]; cbn [obind]; try contradiction.
  - now apply Hg.
  - exact I.
Qed.

Lemma restrict_true {E : Type} `{ElemType E} (t : KrKcTree E) :
  restrict t (fun _ => true) = t.
Proof.
  unfold restrict, with_L. rewrite map_id. now destruct t.
Qed.

Lemma well_formed_restrict {E : Type} `{ElemType E} (t : KrKcTree E)
  (f : E -> bool) : well_formed t -> well_formed (restrict t f).
Proof.
  intros Hwf. apply well_formed_with_L; [exact Hwf|apply length_map].
Qed.

Lemma L_empty_restrict {E : Type} `{ElemType E} (t : KrKcTree E)
  (f : E -> bool) : L_empty (restrict t f) = L_empty t.
Proof. apply L_empty_length. apply length_map. Qed.

(** A cell of the restricted structure holds a value exactly when the cell
    holds one that passes [f]. *)
Lemma not_null_restrict {E : Type} `{ElemType E} (t : KrKcTree E)
  (f : E -> bool) (i j : nat) :
  not_null (restrict t f) (getElement (restrict t f) i j) = true ->
  exists v, getElement t i j = Some v /\ f v = true /\ v <> null_ t.
Proof.
  rewrite !getElement_cell_leaf. unfold restrict at 2.
  rewrite cell_leaf_with_L by apply length_map.
  assert (Hnull : not_null (restrict t f) (Some (null_ t)) = false)
    by apply (not_null_null (restrict t f)).
  destruct (cell_leaf t i j) as [[a|]|]; cbn [restrict with_L L_ null_].
  - rewrite nth_error_map. destruct (nth_error (L_ t) a) as [v|];
      cbn [option_map]; [|discriminate].
    destruct (f v) eqn:Hf.
    + intros Hnn. exists v. split; [reflexivity|]. split; [exact Hf|].
      apply (not_null_true (restrict t f)) in Hnn.
      destruct Hnn as (v' & [= <-] & Hne). exact Hne.
    + intros Hnn. rewrite Hnull in Hnn. discriminate.
  - intros Hnn. rewrite Hnull in Hnn. discriminate.
  - discriminate.
Qed.

Section RangeValues.

Context {E : Type} `{ElemType E}.

Variable t : KrKcTree E.

Local Abbreviation vals :=
  (fun (s : list E) (s' : list (ValuedPosition E)) => s = map vp_val s').

Lemma rangeElem_rangeValPos (fuel : nat) :
  forall s s' nR nC p1 p2 q1 q2 dp dq z,
    vals s s' ->
    osim vals (rangeElem t fuel s nR nC p1 p2 q1 q2 dp dq z)
              (rangeValPos t fuel s' nR nC p1 p2 q1 q2 dp dq z).
Proof.
  induction fuel as [|fuel IH]; intros s s' nR nC p1 p2 q1 q2 dp dq z HR;
    cbn [rangeElem rangeValPos]; [exact I|].
  destruct (length (T_ t) <=? z).
  - destruct (nth_error (L_ t) (z - length (T_ t))) as [v|];
      cbn [obind osim]; [|exact I].
    rewrite HR. destruct (negb (elem_eqb v (null_ t))); [|reflexivity].
    now rewrite map_app.
  - destruct (nth_error (T_ t) z) as [[|]|]; cbn [obind osim];
      [|exact HR|exact I].
    cbv zeta. apply foldM_osim; [|exact HR]. intros i s1 s1' HR1.
    apply foldM_osim; [|exact HR1]. intros j s2 s2' HR2. now apply IH.
Qed.

Lemma getElementsInRange_values (i1 i2 j1 j2 : nat) :
  osim vals (getElementsInRange t i1 i2 j1 j2)
            (getValuedPositionsInRange t i1 i2 j1 j2).
Proof.
  unfold getElementsInRange, getValuedPositionsInRange, rangeElemInit,
    rangeValPosInit.
  destruct (L_empty t); [reflexivity|]. cbv zeta.
  apply foldM_osim; [|reflexivity]. intros i s1 s1' HR1.
  apply foldM_osim; [|exact HR1]. intros j s2 s2' HR2.
  now apply rangeElem_rangeValPos.
Qed.

Variable f : E -> bool.

Local Abbreviation kept :=
  (fun (s : list (nat * nat)) (s' : list (ValuedPosition E)) =>
     s = map vp_pos (filter (fun x => f (vp_val x)) s')).

Lemma rangePos_rangeValPos (fuel : nat) :
  forall s s' nR nC p1 p2 q1 q2 dp dq z,
    kept s s' ->
    osim kept (rangePos (restrict t f) fuel s nR nC p1 p2 q1 q2 dp dq z)
              (rangeValPos t fuel s' nR nC p1 p2 q1 q2 dp dq z).
Proof.
  induction fuel as [|fuel IH]; intros s s' nR nC p1 p2 q1 q2 dp dq z HR;
    cbn [rangePos rangeValPos]; [exact I|].
  cbn [restrict with_L T_ L_ kr_ kc_ null_].
  destruct (length (T_ t) <=? z).
  - rewrite nth_error_map.
    destruct (nth_error (L_ t) (z - length (T_ t))) as [v|];
      cbn [option_map obind osim]; [|exact I].
    rewrite HR. destruct (f v) eqn:Hf.
    + destruct (negb (elem_eqb v (null_ t))); [|reflexivity].
      rewrite filter_app, map_app. cbn [filter vp_val]. rewrite Hf.
      reflexivity.
    + destruct (elem_eqb_eq (null_ t) (null_ t)) as [_ Hn].
      rewrite (Hn eq_refl). cbn [negb].
      destruct (negb (elem_eqb v (null_ t))); [|reflexivity].
      rewrite filter_app. cbn [filter vp_val]. rewrite Hf.
      now rewrite app_nil_r.
  - destruct (nth_error (T_ t) z) as [[|]|]; cbn [obind osim];
      [|exact HR|exact I].
    cbv zeta. apply foldM_osim; [|exact HR]. intros i s1 s1' HR1.
    apply foldM_osim; [|exact HR1]. intros j s2 s2' HR2. now apply IH.
Qed.

Lemma getPositionsInRange_restrict (i1 i2 j1 j2 : nat) :
  osim kept (getPositionsInRange (restrict t f) i1 i2 j1 j2)
            (getValuedPositionsInRange t i1 i2 j1 j2).
Proof.
  unfold getPositionsInRange, getValuedPositionsInRange, rangePosInit,
    rangeValPosInit.
  rewrite L_empty_restrict. destruct (L_empty t); [reflexivity|].
  cbn [restrict with_L kr_ kc_ numRows_ numCols_ h_]. cbv zeta.
  apply foldM_osim; [|reflexivity]. intros i s1 s1' HR1.
  apply foldM_osim; [|exact HR1]. intros j s2 s2' HR2.
  now apply rangePos_rangeValPos.
Qed.

End RangeValues.

(** The triples of a list whose positions are the cells with a value that
    satisfy [P], each with the value of its cell. *)
Lemma valued_members {E : Type} `{ElemType E} (t : KrKcTree E)
  (pairs : list (ValuedPosition E)) (P : nat -> nat -> Prop) :
  (forall i j, In (i, j) (map vp_pos pairs) <->
               (P i j /\ not_null t (getElement t i j) = true)) ->
  Forall (fun s => getElement t (vp_row s) (vp_col s) = Some (vp_val s))
         pairs ->
  forall i j v,
    In (mkValuedPosition i j v) pairs <->
    (P i j /\ getElement t i j = Some v /\ v <> null_ t).
Proof.
  intros Hmem Hsound i j v. rewrite Forall_forall in Hsound. split.
  - intros Hin. pose proof (Hsound _ Hin) as Hv.
    cbn [vp_row vp_col vp_val] in Hv.
    assert (Hp : In (i, j) (map vp_pos pairs))
      by exact (in_map vp_pos _ _ Hin).
    apply Hmem in Hp. destruct Hp as (HP & Hnn).
    apply not_null_true in Hnn. destruct Hnn as (v' & Hv' & Hne).
    rewrite Hv in Hv'. injection Hv' as <-.
    split; [exact HP|]. split; [exact Hv|exact Hne].
  - intros (HP & Hv & Hne).
    assert (Hp : In (i, j) (map vp_pos pairs)).
    { apply Hmem. split; [exact HP|]. apply not_null_true. now exists v. }
    apply in_map_iff in Hp. destruct Hp as (s & Hs & Hin).
    pose proof (Hsound _ Hin) as Hv'.
    destruct s as [r c w]. unfold vp_pos in Hs.
    cbn [vp_row vp_col vp_val] in *. injection Hs as -> ->.
    rewrite Hv in Hv'. now injection Hv' as <-.
Qed.

(** The triples of [getValuedPositionsInRange]. *)
Lemma getValuedPositionsInRange_spec {E : Type} `{ElemType E}
  (t : KrKcTree E) (i1 i2 j1 j2 : nat) :
  well_formed t -> i1 <= i2 < numRows_ t -> j1 <= j2 < numCols_ t ->
  exists pairs,
    getValuedPositionsInRange t i1 i2 j1 j2 = Some pairs /\
    getPositionsInRange t i1 i2 j1 j2 = Some (map vp_pos pairs) /\
    getElementsInRange t i1 i2 j1 j2 = Some (map vp_val pairs) /\
    Forall (fun s => getElement t (vp_row s) (vp_col s) = Some (vp_val s))
           pairs.
Proof.
  intros Hwf Hi Hj.
  destruct (getPositionsInRange_spec t i1 i2 j1 j2 Hwf Hi Hj)
    as (out & Hout & _ & _).
  pose proof (getPositionsInRange_restrict t (fun _ => true) i1 i2 j1 j2)
    as Hsim.
  rewrite restrict_true, Hout in Hsim. unfold osim in Hsim.
  destruct (getValuedPositionsInRange t i1 i2 j1 j2) as [pairs|] eqn:Hp;
    [|contradiction].
  exists pairs. split; [reflexivity|].
  assert (Hall : filter (fun _ : ValuedPosition E => true) pairs = pairs).
  { clear. induction pairs as [|x l IH]; cbn [filter]; [reflexivity|].
    now rewrite IH. }
  rewrite Hall in Hsim. split; [now rewrite Hout, Hsim|].
  split.
  - pose proof (getElementsInRange_values t i1 i2 j1 j2) as He.
    rewrite Hp in He. unfold osim in He.
    destruct (getElementsInRange t i1 i2 j1 j2); [now rewrite He|contradiction].
  - apply Forall_forall. intros s Hs.
    set (f := fun v => elem_eqb v (vp_val s)).
    pose proof (getPositionsInRange_restrict t f i1 i2 j1 j2) as Hf.
    rewrite Hp in Hf.
    destruct (getPositionsInRange_spec (restrict t f) i1 i2 j1 j2
                (well_formed_restrict t f Hwf) Hi Hj) as (o & Ho & _ & Hmem).
    rewrite Ho in Hf. unfold osim in Hf.
    assert (Hin : In (vp_row s, vp_col s) o).
    { rewrite Hf. apply (in_map vp_pos _ s). apply filter_In.
      split; [exact Hs|]. unfold f. now apply (elem_eqb_eq (vp_val s)). }
    apply Hmem in Hin. destruct Hin as (_ & _ & Hnn).
    apply not_null_restrict in Hnn. destruct Hnn as (v & Hv & Hfv & _).
    rewrite Hv. f_equal. unfold f in Hfv. now apply (elem_eqb_eq v).
Qed.

(** On a well-formed structure and a rectangle with [i1 <= i2 < numRows_]
    and [j1 <= j2 < numCols_], [getValuedPositionsInRange] terminates with
    exactly the triples [(i, j, v)] of the cells of the rectangle whose value
    [v = getElement(i, j)] differs from [null_], no cell twice; their
    positions are, in the same order, what [getPositionsInRange] returns,
    and their values what [getElementsInRange] returns. *)
Theorem getValuedPositionsInRange_values {E : Type} `{ElemType E}
  (t : KrKcTree E) (i1 i2 j1 j2 : nat) :
  well_formed t -> i1 <= i2 < numRows_ t -> j1 <= j2 < numCols_ t ->
  exists pairs,
    getValuedPositionsInRange t i1 i2 j1 j2 = Some pairs /\
    getPositionsInRange t i1 i2 j1 j2 = Some (map vp_pos pairs) /\
    getElementsInRange t i1 i2 j1 j2 = Some (map vp_val pairs) /\
    NoDup (map vp_pos pairs) /\
    forall i j v,
      In (mkValuedPosition i j v) pairs <->
      ((i1 <= i <= i2 /\ j1 <= j <= j2) /\
       getElement t i j = Some v /\ v <> null_ t).
Proof.
  intros Hwf Hi Hj.
  destruct (getValuedPositionsInRange_spec t i1 i2 j1 j2 Hwf Hi Hj)
    as (pairs & Hrun & Hpos & Helem & Hsound).
  destruct (getPositionsInRange_spec t i1 i2 j1 j2 Hwf Hi Hj)
    as (out & Hout & Hnd & Hmem).
  rewrite Hout in Hpos. injection Hpos as ->.
  exists pairs. split; [exact Hrun|]. split; [exact Hout|].
  split; [exact Helem|]. split; [exact Hnd|].
  apply (valued_members t pairs
           (fun i j => i1 <= i <= i2 /\ j1 <= j <= j2)); [|exact Hsound].
  intros i j. rewrite Hmem. split.
  - intros (Hi' & Hj' & Hnn). split; [split|]; assumption.
  - intros ((Hi' & Hj') & Hnn). split; [|split]; assumption.
Qed.

Lemma getValuedPositionsInRange_values_example :
  (well_formed exampleTree /\ 0 <= 3 < numRows_ exampleTree /\
   1 <= 3 < numCols_ exampleTree) /\
  exists pairs,
    getValuedPositionsInRange exampleTree 0 3 1 3 = Some pairs /\
    getPositionsInRange exampleTree 0 3 1 3 = Some (map vp_pos pairs) /\
    getElementsInRange exampleTree 0 3 1 3 = Some (map vp_val pairs) /\
    NoDup (map vp_pos pairs) /\
    forall i j v,
      In (mkValuedPosition i j v) pairs <->
      ((0 <= i <= 3 /\ 1 <= j <= 3) /\
       getElement exampleTree i j = Some v /\ v <> null_ exampleTree).
Proof.
  split.
  - split; [example_well_formed | cbn; lia].
  - apply (getValuedPositionsInRange_values exampleTree 0 3 1 3);
      [example_well_formed | cbn; lia | cbn; lia].
Defined.

(** On a well-formed structure [getAllValuedPositions()] terminates with
    exactly the triples [(i, j, v)] of the cells of the matrix whose value
    [v = getElement(i, j)] differs from [null_], no cell twice;
    [getAllElements()] returns their values in the same order, and
    [countElements()] is their number. *)
Theorem getAllValuedPositions_complete {E : Type} `{ElemType E}
  (t : KrKcTree E) :
  well_formed t ->
  exists pairs,
    getAllValuedPositions t = Some pairs /\
    getAllElements t = Some (map vp_val pairs) /\
    NoDup (map vp_pos pairs) /\
    length pairs = countElements t /\
    forall i j v,
      In (mkValuedPosition i j v) pairs <->
      (i < numRows_ t /\ j < numCols_ t /\
       getElement t i j = Some v /\ v <> null_ t).
Proof.
  intros Hwf.
  pose proof (wf_numRows t Hwf) as HnR. pose proof (wf_numCols t Hwf) as HnC.
  pose proof (pow_ge_1 (kr_ t) (S (h_ t - 1))
                ltac:(pose proof (wf_kr t Hwf); lia)) as HR1.
  pose proof (pow_ge_1 (kc_ t) (S (h_ t - 1))
                ltac:(pose proof (wf_kc t Hwf); lia)) as HC1.
  destruct (getValuedPositionsInRange_spec t 0 (numRows_ t - 1)
              0 (numCols_ t - 1) Hwf ltac:(lia) ltac:(lia))
    as (pairs & Hrun & Hpos & Helem & Hsound).
  destruct (getPositionsInRange_spec t 0 (numRows_ t - 1) 0 (numCols_ t - 1)
              Hwf ltac:(lia) ltac:(lia)) as (out & Hout & Hnd & Hmem).
  rewrite Hout in Hpos. injection Hpos as ->.
  exists pairs. split; [exact Hrun|]. split; [exact Helem|].
  split; [exact Hnd|]. split.
  - rewrite <- (length_map vp_pos pairs), (countElements_count t Hwf).
    apply NoDup_same_length; [exact Hnd| |].
    + apply NoDup_filter, NoDup_list_prod; apply seq_NoDup.
    + intros [i j]. rewrite Hmem, filter_In, in_prod_iff, !in_seq.
      cbn [fst snd]. split.
      * intros (Hi & Hj & Hv). split; [lia|exact Hv].
      * intros ((Hi & Hj) & Hv). split; [lia|]. split; [lia|exact Hv].
  - intros i j v.
    rewrite (valued_members t pairs
               (fun i j => i < numRows_ t /\ j < numCols_ t)); [tauto| |exact Hsound].
    intros i' j'. rewrite Hmem. split.
    + intros (Hi & Hj & Hnn). split; [lia|exact Hnn].
    + intros ((Hi & Hj) & Hnn). split; [lia|]. split; [lia|exact Hnn].
Qed.

Lemma getAllValuedPositions_complete_example :
  well_formed exampleTree /\
  exists pairs,
    getAllValuedPositions exampleTree = Some pairs /\
    getAllElements exampleTree = Some (map vp_val pairs) /\
    NoDup (map vp_pos pairs) /\
    length pairs = countElements exampleTree /\
    forall i j v,
      In (mkValuedPosition i j v) pairs <->
      (i < numRows_ exampleTree /\ j < numCols_ exampleTree /\
       getElement exampleTree i j = Some v /\ v <> null_ exampleTree).
Proof.
  split; [example_well_formed|].
  apply (getAllValuedPositions_complete exampleTree). example_well_formed.
Defined.

(** ** Successors and predecessors with their values *)

Lemma kept_push {E A : Type} `{ElemType E} (f : E -> bool) (null : E)
  (proj : ValuedPosition E -> A) (s : list A) (s' : list (ValuedPosition E))
  (x : ValuedPosition E) :
  s = map proj (filter (fun y => f (vp_val y)) s') ->
  (if negb (elem_eqb (if f (vp_val x) then vp_val x else null) null)
   then s ++ [proj x] else s)
  = map proj (filter (fun y => f (vp_val y))
                     (if negb (elem_eqb (vp_val x) null) then s' ++ [x]
                      else s')).
Proof.
  intros ->. destruct (f (vp_val x)) eqn:Hf.
  - destruct (negb (elem_eqb (vp_val x) null)); [|reflexivity].
    rewrite filter_app, map_app. cbn [filter]. now rewrite Hf.
  - destruct (elem_eqb_eq null null) as [_ Hn]. rewrite (Hn eq_refl).
    cbn [negb]. destruct (negb (elem_eqb (vp_val x) null)); [|reflexivity].
    rewrite filter_app. cbn [filter]. rewrite Hf. now rewrite app_nil_r.
Qed.

Lemma vals_push {E : Type} `{ElemType E} (null : E) (s : list E)
  (s' : list (ValuedPosition E)) (x : ValuedPosition E) :
  s = map vp_val s' ->
  (if negb (elem_eqb (vp_val x) null) then s ++ [vp_val x] else s)
  = map vp_val (if negb (elem_eqb (vp_val x) null) then s' ++ [x] else s').
Proof.
  intros ->. destruct (negb (elem_eqb (vp_val x) null)); [|reflexivity].
  now rewrite map_app.
Qed.

(** Setting the row or the column of every triple keeps what the values
    select. *)
Lemma kept_backfill {E A : Type} (f : E -> bool)
  (proj : ValuedPosition E -> A) (g : ValuedPosition E -> ValuedPosition E)
  (l : list (ValuedPosition E)) :
  (forall x, vp_val (g x) = vp_val x) -> (forall x, proj (g x) = proj x) ->
  map proj (filter (fun y => f (vp_val y)) (map g l))
  = map proj (filter (fun y => f (vp_val y)) l).
Proof.
  intros Hv Hp. induction l as [|x l IH]; cbn [map filter]; [reflexivity|].
  rewrite Hv. destruct (f (vp_val x)); cbn [map]; now rewrite ?Hp, IH.
Qed.

Section SuccessorValues.

Context {E : Type} `{ElemType E}.

Variable t : KrKcTree E.

Local Abbreviation vals :=
  (fun (s : list E) (s' : list (ValuedPosition E)) => s = map vp_val s').

Lemma scanLeavesElem_scanLeavesValPos (p n : nat) :
  forall newDq y nc s s',
    vals s s' ->
    osim vals (scanLeavesElem t n newDq y nc s)
              (scanLeavesValPos t p n newDq y nc s').
Proof.
  induction n as [|n IH]; intros newDq y nc s s' HR;
    cbn [scanLeavesElem scanLeavesValPos]; [exact HR|].
  destruct (nth_error (L_ t) y) as [v|]; cbn [obind]; [|exact I].
  apply IH. exact (vals_push (null_ t) s s' (mkValuedPosition p newDq v) HR).
Qed.

Lemma drainQueueElem_drainQueueValPos (p : nat) (queue : list SubrowInfo) :
  forall relP nr nc lenT s s',
    vals s s' ->
    osim vals (drainQueueElem t queue relP nr nc lenT s)
              (drainQueueValPos t p queue relP nr nc lenT s').
Proof.
  induction queue as [|cur queue IH]; intros relP nr nc lenT s s' HR;
    cbn [drainQueueElem drainQueueValPos]; [exact HR|].
  destruct (nth_error (T_ t) (si_z cur)) as [[|]|]; cbn [obind];
    [|now apply IH|exact I].
  pose proof (scanLeavesElem_scanLeavesValPos p (kc_ t) (si_dq cur)
                (rank (T_ t) (si_z cur + 1) * kr_ t * kc_ t
                 + kc_ t * (relP / nr) - lenT) nc s s' HR) as Hs.
  unfold osim in Hs.
  destruct (scanLeavesElem t _ _ _ _ s) as [s1|],
           (scanLeavesValPos t p _ _ _ _ s') as [s1'|];
    try contradiction; cbn [obind]; [now apply IH|exact I].
Qed.

Lemma getSuccessorElements_values (i : nat) :
  osim vals (getSuccessorElements t i) (getSuccessorValuedPositions t i).
Proof.
  unfold getSuccessorElements, getSuccessorValuedPositions,
    allSuccessorElementsIterative, allSuccessorValuedPositionsIterative.
  destruct (L_empty t); [reflexivity|]. cbv zeta.
  destruct (length (T_ t) =? 0).
  - now apply scanLeavesElem_scanLeavesValPos.
  - destruct (successorLevels t _ _ _ _ _) as [[queue [relP [nr nc]]]|];
      cbn [obind]; [|exact I].
    now apply drainQueueElem_drainQueueValPos.
Qed.

Lemma successorsElem_successorsValPos (fuel : nat) :
  forall s s' nR nC p q z,
    vals s s' ->
    osim vals (successorsElem t fuel s nR nC p q z)
              (successorsValPos t fuel s' nR nC p q z).
Proof.
  induction fuel as [|fuel IH]; intros s s' nR nC p q z HR;
    cbn [successorsElem successorsValPos]; [exact I|].
  destruct (length (T_ t) <=? z).
  - destruct (nth_error (L_ t) (z - length (T_ t))) as [v|];
      cbn [obind osim]; [|exact I].
    exact (vals_push (null_ t) s s' (mkValuedPosition 0 q v) HR).
  - destruct (nth_error (T_ t) z) as [[|]|]; cbn [obind osim];
      [|exact HR|exact I].
    cbv zeta. apply foldM_osim; [|exact HR]. intros j s1 s1' HR1.
    now apply IH.
Qed.

Lemma successorsElemInit_values (i : nat) :
  osim vals (successorsElemInit t [] i) (successorsValPosInit t [] i).
Proof.
  unfold successorsElemInit, successorsValPosInit.
  destruct (L_empty t); [reflexivity|]. cbv zeta.
  apply (osim_backfill vals vals _ _ _
           (foldM_osim vals
                   (fun j succs' =>
                      successorsElem t (h_ t) succs' (numRows_ t / kr_ t)
                        (numCols_ t / kc_ t) (i mod (numRows_ t / kr_ t))
                        (numCols_ t / kc_ t * j)
                        (kc_ t * (i / (numRows_ t / kr_ t)) + j))
                   (fun j succs' =>
                      successorsValPos t (h_ t) succs' (numRows_ t / kr_ t)
                        (numCols_ t / kc_ t) (i mod (numRows_ t / kr_ t))
                        (numCols_ t / kc_ t * j)
                        (kc_ t * (i / (numRows_ t / kr_ t)) + j))
                   (seq 0 (kc_ t))
                   (fun j s s' HR =>
                      successorsElem_successorsValPos (h_ t) s s' _ _ _ _ _ HR)
                   [] [] eq_refl)).
  intros s s' ->. now rewrite map_map.
Qed.

Lemma predecessorsElem_predecessorsValPos (fuel : nat) :
  forall s s' nR nC q p z,
    vals s s' ->
    osim vals (predecessorsElem t fuel s nR nC q p z)
              (predecessorsValPos t fuel s' nR nC q p z).
Proof.
  induction fuel as [|fuel IH]; intros s s' nR nC q p z HR;
    cbn [predecessorsElem predecessorsValPos]; [exact I|].
  destruct (length (T_ t) <=? z).
  - destruct (nth_error (L_ t) (z - length (T_ t))) as [v|];
      cbn [obind osim]; [|exact I].
    exact (vals_push (null_ t) s s' (mkValuedPosition p 0 v) HR).
  - destruct (nth_error (T_ t) z) as [[|]|]; cbn [obind osim];
      [|exact HR|exact I].
    cbv zeta. apply foldM_osim; [|exact HR]. intros j s1 s1' HR1.
    now apply IH.
Qed.

Lemma getPredecessorElements_valued (j : nat) :
  osim vals (getPredecessorElements t j) (getPredecessorValuedPositions t j).
Proof.
  unfold getPredecessorElements, getPredecessorValuedPositions,
    predecessorsElemInit, predecessorsValPosInit.
  destruct (L_empty t); [reflexivity|]. cbv zeta.
  apply (osim_backfill vals vals _ _ _
           (foldM_osim vals
                   (fun i preds' =>
                      predecessorsElem t (h_ t) preds' (numRows_ t / kr_ t)
                        (numCols_ t / kc_ t) (j mod (numCols_ t / kc_ t))
                        (numRows_ t / kr_ t * i)
                        (j / (numCols_ t / kc_ t) + i * kc_ t))
                   (fun i preds' =>
                      predecessorsValPos t (h_ t) preds' (numRows_ t / kr_ t)
                        (numCols_ t / kc_ t) (j mod (numCols_ t / kc_ t))
                        (numRows_ t / kr_ t * i)
                        (j / (numCols_ t / kc_ t) + i * kc_ t))
                   (seq 0 (kr_ t))
                   (fun i s s' HR =>
                      predecessorsElem_predecessorsValPos (h_ t) s s' _ _ _ _ _ HR)
                   [] [] eq_refl)).
  intros s s' ->. now rewrite map_map.
Qed.

Variable f : E -> bool.

Local Abbreviation keptBy proj :=
  (fun (s : list nat) (s' : list (ValuedPosition E)) =>
     s = map proj (filter (fun x => f (vp_val x)) s')).

Lemma expandQueue_restrict (queue : list SubrowInfo) :
  forall next relP nr nc,
    expandQueue (restrict t f) queue next relP nr nc
    = expandQueue t queue next relP nr nc.
Proof.
  induction queue as [|cur queue IH]; intros next relP nr nc;
    cbn [expandQueue]; [reflexivity|].
  cbn [restrict with_L T_ kr_ kc_].
  destruct (nth_error (T_ t) (si_z cur)) as [b|]; cbn [obind];
    [|reflexivity].
  apply IH.
Qed.

Lemma successorLevels_restrict (fuel : nat) :
  forall queue relP nr nc,
    successorLevels (restrict t f) fuel queue relP nr nc
    = successorLevels t fuel queue relP nr nc.
Proof.
  induction fuel as [|fuel IH]; intros queue relP nr nc;
    cbn [successorLevels]; [reflexivity|].
  destruct (1 <? nr); [|reflexivity].
  rewrite expandQueue_restrict.
  destruct (expandQueue t queue [] relP nr nc) as [queue'|]; cbn [obind];
    [|reflexivity].
  cbn [restrict with_L kr_ kc_]. apply IH.
Qed.

Lemma scanLeaves_scanLeavesValPos (p n : nat) :
  forall newDq y nc s s',
    keptBy vp_col s s' ->
    osim (keptBy vp_col) (scanLeaves (restrict t f) n newDq y nc s)
                         (scanLeavesValPos t p n newDq y nc s').
Proof.
  induction n as [|n IH]; intros newDq y nc s s' HR;
    cbn [scanLeaves scanLeavesValPos]; [exact HR|].
  cbn [restrict with_L L_ null_]. rewrite nth_error_map.
  destruct (nth_error (L_ t) y) as [v|]; cbn [option_map obind]; [|exact I].
  apply IH.
  exact (kept_push f (null_ t) vp_col s s' (mkValuedPosition p newDq v) HR).
Qed.

Lemma drainQueue_drainQueueValPos (p : nat) (queue : list SubrowInfo) :
  forall relP nr nc lenT s s',
    keptBy vp_col s s' ->
    osim (keptBy vp_col) (drainQueue (restrict t f) queue relP nr nc lenT s)
                         (drainQueueValPos t p queue relP nr nc lenT s').
Proof.
  induction queue as [|cur queue IH]; intros relP nr nc lenT s s' HR;
    cbn [drainQueue drainQueueValPos]; [exact HR|].
  cbn [restrict with_L T_ kr_ kc_].
  destruct (nth_error (T_ t) (si_z cur)) as [[|]|]; cbn [obind];
    [|now apply IH|exact I].
  pose proof (scanLeaves_scanLeavesValPos p (kc_ t) (si_dq cur)
                (rank (T_ t) (si_z cur + 1) * kr_ t * kc_ t
                 + kc_ t * (relP / nr) - lenT) nc s s' HR) as Hs.
  unfold osim in Hs.
  destruct (scanLeaves (restrict t f) _ _ _ _ s) as [s1|],
           (scanLeavesValPos t p _ _ _ _ s') as [s1'|];
    try contradiction; cbn [obind]; [now apply IH|exact I].
Qed.

Lemma getSuccessorPositions_restrict (i : nat) :
  osim (keptBy vp_col) (getSuccessorPositions (restrict t f) i)
                       (getSuccessorValuedPositions t i).
Proof.
  unfold getSuccessorPositions, getSuccessorValuedPositions,
    allSuccessorPositionsIterative, allSuccessorValuedPositionsIterative.
  rewrite L_empty_restrict. destruct (L_empty t); [reflexivity|]. cbv zeta.
  cbn [restrict with_L T_ kr_ kc_ numRows_ numCols_ h_].
  destruct (length (T_ t) =? 0).
  - now apply scanLeaves_scanLeavesValPos.
  - pose proof (successorLevels_restrict (h_ t)) as Hl.
    cbn [restrict with_L T_ kr_ kc_ numRows_ numCols_ h_] in Hl.
    rewrite Hl.
    destruct (successorLevels t _ _ _ _ _) as [[queue [relP [nr nc]]]|];
      cbn [obind]; [|exact I].
    now apply drainQueue_drainQueueValPos.
Qed.

Lemma successorsPos_successorsValPos (fuel : nat) :
  forall s s' nR nC p q z,
    keptBy vp_col s s' ->
    osim (keptBy vp_col) (successorsPos (restrict t f) fuel s nR nC p q z)
                         (successorsValPos t fuel s' nR nC p q z).
Proof.
  induction fuel as [|fuel IH]; intros s s' nR nC p q z HR;
    cbn [successorsPos successorsValPos]; [exact I|].
  cbn [restrict with_L T_ L_ kr_ kc_ null_].
  destruct (length (T_ t) <=? z).
  - rewrite nth_error_map.
    destruct (nth_error (L_ t) (z - length (T_ t))) as [v|];
      cbn [option_map obind osim]; [|exact I].
    exact (kept_push f (null_ t) vp_col s s' (mkValuedPosition 0 q v) HR).
  - destruct (nth_error (T_ t) z) as [[|]|]; cbn [obind osim];
      [|exact HR|exact I].
    cbv zeta. apply foldM_osim; [|exact HR]. intros j s1 s1' HR1.
    now apply IH.
Qed.

Lemma successorsPosInit_restrict (i : nat) :
  osim (keptBy vp_col) (successorsPosInit (restrict t f) [] i)
                       (successorsValPosInit t [] i).
Proof.
  unfold successorsPosInit, successorsValPosInit.
  rewrite L_empty_restrict. destruct (L_empty t); [reflexivity|]. cbv zeta.
  cbn [restrict with_L T_ kr_ kc_ numRows_ numCols_ h_].
  apply (osim_backfill (keptBy vp_col) (keptBy vp_col) _ _ _
           (foldM_osim (keptBy vp_col)
                   (fun j succs' =>
                      successorsPos (restrict t f) (h_ t) succs'
                        (numRows_ t / kr_ t)
                        (numCols_ t / kc_ t) (i mod (numRows_ t / kr_ t))
                        (numCols_ t / kc_ t * j)
                        (kc_ t * (i / (numRows_ t / kr_ t)) + j))
                   (fun j succs' =>
                      successorsValPos t (h_ t) succs' (numRows_ t / kr_ t)
                        (numCols_ t / kc_ t) (i mod (numRows_ t / kr_ t))
                        (numCols_ t / kc_ t * j)
                        (kc_ t * (i / (numRows_ t / kr_ t)) + j))
                   (seq 0 (kc_ t))
                   (fun j s s' HR =>
                      successorsPos_successorsValPos (h_ t) s s' _ _ _ _ _ HR)
                   [] [] eq_refl)).
  intros s s' ->. symmetry. now apply kept_backfill.
Qed.

Lemma predecessorsPos_predecessorsValPos (fuel : nat) :
  forall s s' nR nC q p z,
    keptBy vp_row s s' ->
    osim (keptBy vp_row) (predecessorsPos (restrict t f) fuel s nR nC q p z)
                         (predecessorsValPos t fuel s' nR nC q p z).
Proof.
  induction fuel as [|fuel IH]; intros s s' nR nC q p z HR;
    cbn [predecessorsPos predecessorsValPos]; [exact I|].
  cbn [restrict with_L T_ L_ kr_ kc_ null_].
  destruct (length (T_ t) <=? z).
  - rewrite nth_error_map.
    destruct (nth_error (L_ t) (z - length (T_ t))) as [v|];
      cbn [option_map obind osim]; [|exact I].
    exact (kept_push f (null_ t) vp_row s s' (mkValuedPosition p 0 v) HR).
  - destruct (nth_error (T_ t) z) as [[|]|]; cbn [obind osim];
      [|exact HR|exact I].
    cbv zeta. apply foldM_osim; [|exact HR]. intros j s1 s1' HR1.
    now apply IH.
Qed.

Lemma getPredecessorPositions_restrict (j : nat) :
  osim (keptBy vp_row) (getPredecessorPositions (restrict t f) j)
                       (getPredecessorValuedPositions t j).
Proof.
  unfold getPredecessorPositions, getPredecessorValuedPositions,
    predecessorsPosInit, predecessorsValPosInit.
  rewrite L_empty_restrict. destruct (L_empty t); [reflexivity|]. cbv zeta.
  cbn [restrict with_L T_ kr_ kc_ numRows_ numCols_ h_].
  apply (osim_backfill (keptBy vp_row) (keptBy vp_row) _ _ _
           (foldM_osim (keptBy vp_row)
                   (fun i preds' =>
                      predecessorsPos (restrict t f) (h_ t) preds'
                        (numRows_ t / kr_ t)
                        (numCols_ t / kc_ t) (j mod (numCols_ t / kc_ t))
                        (numRows_ t / kr_ t * i)
                        (j / (numCols_ t / kc_ t) + i * kc_ t))
                   (fun i preds' =>
                      predecessorsValPos t (h_ t) preds' (numRows_ t / kr_ t)
                        (numCols_ t / kc_ t) (j mod (numCols_ t / kc_ t))
                        (numRows_ t / kr_ t * i)
                        (j / (numCols_ t / kc_ t) + i * kc_ t))
                   (seq 0 (kr_ t))
                   (fun i s s' HR =>
                      predecessorsPos_predecessorsValPos (h_ t) s s' _ _ _ _ _ HR)
                   [] [] eq_refl)).
  intros s s' ->. symmetry. now apply kept_backfill.
Qed.

End SuccessorValues.

(** What the positions of the restricted structures tell about the values
    of the triples: a query for the cells [cellAt k], [k < n], whose
    triples carry [k] as [proj]. *)
Lemma values_from_positions {E : Type} `{ElemType E} (t : KrKcTree E)
  (proj : ValuedPosition E -> nat) (cellAt : nat -> nat * nat) (n : nat)
  (posRun : KrKcTree E -> option (list nat))
  (valRun : option (list (ValuedPosition E))) :
  (forall f,
     osim (fun s s' => s = map proj (filter (fun x => f (vp_val x)) s'))
          (posRun (restrict t f)) valRun) ->
  (forall f,
     posRun (restrict t f) =
     Some (filter (fun k => not_null (restrict t f)
                              (getElement (restrict t f) (fst (cellAt k))
                                          (snd (cellAt k))))
                  (seq 0 n))) ->
  exists out,
    valRun = Some out /\
    posRun t = Some (map proj out) /\
    Forall (fun s => getElement t (fst (cellAt (proj s))) (snd (cellAt (proj s)))
                     = Some (vp_val s)) out.
Proof.
  intros Hsim Hspec.
  pose proof (Hsim (fun _ => true)) as H1.
  pose proof (Hspec (fun _ => true)) as H2. rewrite restrict_true in H1, H2.
  rewrite H2 in H1. unfold osim in H1.
  destruct valRun as [out|]; [|contradiction].
  assert (Hall : filter (fun _ : ValuedPosition E => true) out = out).
  { clear. induction out as [|x l IH]; cbn [filter]; [reflexivity|].
    now rewrite IH. }
  rewrite Hall in H1. exists out. split; [reflexivity|].
  split; [now rewrite H2, H1|].
  apply Forall_forall. intros s Hs.
  set (f := fun v => elem_eqb v (vp_val s)).
  specialize (Hsim f). rewrite (Hspec f) in Hsim. unfold osim in Hsim.
  assert (Hin : In (proj s)
                   (filter (fun k => not_null (restrict t f)
                                       (getElement (restrict t f)
                                          (fst (cellAt k)) (snd (cellAt k))))
                           (seq 0 n))).
  { rewrite Hsim. apply in_map. apply filter_In. split; [exact Hs|].
    unfold f. now apply (elem_eqb_eq (vp_val s)). }
  apply filter_In in Hin. destruct Hin as [_ Hnn].
  apply not_null_restrict in Hnn. destruct Hnn as (v & Hv & Hfv & _).
  rewrite Hv. f_equal. unfold f in Hfv. now apply (elem_eqb_eq v).
Qed.

Lemma scanLeavesValPos_rows {E : Type} `{ElemType E} (t : KrKcTree E)
  (p n : nat) :
  forall newDq y nc s out,
    Forall (fun x => vp_row x = p) s ->
    scanLeavesValPos t p n newDq y nc s = Some out ->
    Forall (fun x => vp_row x = p) out.
Proof.
  induction n as [|n IH]; intros newDq y nc s out Hs Hrun;
    cbn [scanLeavesValPos] in Hrun.
  - now injection Hrun as <-.
  - destruct (nth_error (L_ t) y) as [v|]; cbn [obind] in Hrun;
      [|discriminate].
    refine (IH _ _ _ _ _ _ Hrun).
    destruct (negb (elem_eqb v (null_ t))); [|exact Hs].
    apply Forall_app. split; [exact Hs|]. now constructor.
Qed.

Lemma drainQueueValPos_rows {E : Type} `{ElemType E} (t : KrKcTree E)
  (p : nat) (queue : list SubrowInfo) :
  forall relP nr nc lenT s out,
    Forall (fun x => vp_row x = p) s ->
    drainQueueValPos t p queue relP nr nc lenT s = Some out ->
    Forall (fun x => vp_row x = p) out.
Proof.
  induction queue as [|cur queue IH]; intros relP nr nc lenT s out Hs Hrun;
    cbn [drainQueueValPos] in Hrun.
  - now injection Hrun as <-.
  - destruct (nth_error (T_ t) (si_z cur)) as [[|]|]; cbn [obind] in Hrun;
      [| |discriminate].
    + destruct (scanLeavesValPos t p _ _ _ _ s) as [s1|] eqn:Hscan;
        cbn [obind] in Hrun; [|discriminate].
      apply (IH _ _ _ _ _ _ (scanLeavesValPos_rows t p _ _ _ _ _ _ Hs Hscan)
               Hrun).
    + exact (IH _ _ _ _ _ _ Hs Hrun).
Qed.

Lemma getSuccessorValuedPositions_rows {E : Type} `{ElemType E}
  (t : KrKcTree E) (i : nat) (out : list (ValuedPosition E)) :
  getSuccessorValuedPositions t i = Some out ->
  Forall (fun x => vp_row x = i) out.
Proof.
  unfold getSuccessorValuedPositions, allSuccessorValuedPositionsIterative.
  destruct (L_empty t); [now intros [= <-]|]. cbv zeta.
  destruct (length (T_ t) =? 0).
  - apply scanLeavesValPos_rows. constructor.
  - destruct (successorLevels t _ _ _ _ _) as [[queue [relP [nr nc]]]|];
      cbn [obind]; [|discriminate].
    apply drainQueueValPos_rows. constructor.
Qed.

(** The recursive [successorsPosInit] on a well-formed structure. *)
Lemma successorsPosInit_spec {E : Type} `{ElemType E}
  (t : KrKcTree E) (i : nat) (succs : list nat) :
  well_formed t -> i < numRows_ t ->
  successorsPosInit t succs i =
  Some (succs ++ filter (fun j => not_null t (getElement t i j))
                        (seq 0 (numCols_ t))).
Proof.
  intros Hwf Hi.
  unfold successorsPosInit. destruct (L_empty t) eqn:HL.
  - f_equal. rewrite filter_false; [now rewrite app_nil_r|]. intros j _.
    rewrite getElement_empty by assumption. apply not_null_null.
  - pose proof (wf_kr t Hwf) as Hkr. pose proof (wf_kc t Hwf) as Hkc.
    rewrite (wf_numRows t Hwf) in Hi.
    cbv zeta. rewrite (wf_numRows_div t Hwf), (wf_numCols_div t Hwf).
    pose proof (wf_h t Hwf) as Hh.
    pose proof (successors_group t Hkr Hkc (h_ t) (h_ t - 1) 0 i 0 succs
                  (fun z p' q0' succs' =>
                     successorsPos_entry t Hkr Hkc (h_ t - 1) (h_ t)
                       z p' q0' succs' ltac:(lia))
                  (wf_root t Hwf HL) Hi) as Hg.
    cbn [Nat.add] in Hg. rewrite Hg. f_equal. f_equal.
    rewrite map_id. unfold rowG. rewrite <- (wf_numCols t Hwf).
    apply filter_ext_in'. intros j _. unfold getElement.
    now rewrite (getInit_getG t Hwf i j HL).
Qed.

(** The triples of [getSuccessorValuedPositions]. *)
Lemma getSuccessorValuedPositions_spec {E : Type} `{ElemType E}
  (t : KrKcTree E) (i : nat) :
  well_formed t -> i < numRows_ t ->
  exists succs,
    getSuccessorValuedPositions t i = Some succs /\
    getSuccessorPositions t i = Some (map vp_col succs) /\
    getSuccessorElements t i = Some (map vp_val succs) /\
    Forall (fun s => vp_row s = i /\
                     getElement t i (vp_col s) = Some (vp_val s)) succs.
Proof.
  intros Hwf Hi.
  destruct (values_from_positions t vp_col (fun k => (i, k)) (numCols_ t)
              (fun t' => getSuccessorPositions t' i)
              (getSuccessorValuedPositions t i))
    as (out & Hout & Hpos & Hval).
  - intros f. apply getSuccessorPositions_restrict.
  - intros f.
    exact (getSuccessorPositions_spec (restrict t f) i
             (well_formed_restrict t f Hwf) Hi).
  - exists out. split; [exact Hout|]. split; [exact Hpos|]. split.
    + pose proof (getSuccessorElements_values t i) as He.
      rewrite Hout in He. unfold osim in He.
      destruct (getSuccessorElements t i); [now rewrite He|contradiction].
    + pose proof (getSuccessorValuedPositions_rows t i out Hout) as Hrows.
      rewrite Forall_forall in *. intros s Hs.
      split; [now apply Hrows|]. now apply (Hval s).
Qed.

(** The triples of the recursive [successorsValPosInit]. *)
Lemma successorsValPosInit_spec {E : Type} `{ElemType E}
  (t : KrKcTree E) (i : nat) :
  well_formed t -> i < numRows_ t ->
  exists succs,
    successorsValPosInit t [] i = Some succs /\
    successorsPosInit t [] i = Some (map vp_col succs) /\
    successorsElemInit t [] i = Some (map vp_val succs) /\
    Forall (fun s => vp_row s = i /\
                     getElement t i (vp_col s) = Some (vp_val s)) succs.
Proof.
  intros Hwf Hi.
  destruct (values_from_positions t vp_col (fun k => (i, k)) (numCols_ t)
              (fun t' => successorsPosInit t' [] i)
              (successorsValPosInit t [] i))
    as (out & Hout & Hpos & Hval).
  - intros f. apply successorsPosInit_restrict.
  - intros f.
    exact (successorsPosInit_spec (restrict t f) i []
             (well_formed_restrict t f Hwf) Hi).
  - exists out. split; [exact Hout|]. split; [exact Hpos|]. split.
    + pose proof (successorsElemInit_values t i) as He.
      rewrite Hout in He. unfold osim in He.
      destruct (successorsElemInit t [] i); [now rewrite He|contradiction].
    + assert (Hrows : Forall (fun x => vp_row x = i) out).
      { unfold successorsValPosInit in Hout.
        destruct (L_empty t); [injection Hout as <-; constructor|].
        destruct (foldM _ _ _) as [s1|]; cbn [obind] in Hout; [|discriminate].
        injection Hout as <-. apply Forall_forall. intros x Hx.
        apply in_map_iff in Hx. now destruct Hx as (y & <- & _). }
      rewrite Forall_forall in *. intros s Hs.
      split; [now apply Hrows|]. now apply (Hval s).
Qed.

Lemma pos_in_row {E : Type} (i : nat) (l : list (ValuedPosition E)) :
  Forall (fun s => vp_row s = i) l ->
  forall r c, In (r, c) (map vp_pos l) <-> (r = i /\ In c (map vp_col l)).
Proof.
  intros Hl r c. rewrite Forall_forall in Hl. rewrite !in_map_iff. split.
  - intros (s & Hs & Hin). unfold vp_pos in Hs. injection Hs as <- <-.
    split; [now apply Hl|]. now exists s.
  - intros (-> & s & <- & Hin). exists s. split; [|exact Hin].
    unfold vp_pos. now rewrite (Hl s Hin).
Qed.

Lemma pos_in_col {E : Type} (j : nat) (l : list (ValuedPosition E)) :
  Forall (fun s => vp_col s = j) l ->
  forall r c, In (r, c) (map vp_pos l) <-> (c = j /\ In r (map vp_row l)).
Proof.
  intros Hl r c. rewrite Forall_forall in Hl. rewrite !in_map_iff. split.
  - intros (s & Hs & Hin). unfold vp_pos in Hs. injection Hs as <- <-.
    split; [now apply Hl|]. now exists s.
  - intros (-> & s & <- & Hin). exists s. split; [|exact Hin].
    unfold vp_pos. now rewrite (Hl s Hin).
Qed.

Lemma valued_rows_eq {E : Type} (i : nat) (val_at : nat -> option E)
  (l1 : list (ValuedPosition E)) :
  forall l2,
    map vp_col l1 = map vp_col l2 ->
    Forall (fun s => vp_row s = i /\ val_at (vp_col s) = Some (vp_val s)) l1 ->
    Forall (fun s => vp_row s = i /\ val_at (vp_col s) = Some (vp_val s)) l2 ->
    l1 = l2.
Proof.
  induction l1 as [|x l1 IH]; intros [|y l2] Hm H1 H2; cbn [map] in Hm;
    try discriminate; [reflexivity|].
  injection Hm as Hc Hm.
  inversion H1 as [|? ? [Hr1 Hv1] H1']; subst.
  inversion H2 as [|? ? [Hr2 Hv2] H2']; subst.
  f_equal; [|now apply IH].
  destruct x as [r c v], y as [r' c' v']. cbn [vp_row vp_col vp_val] in *.
  subst. rewrite Hv1 in Hv2. now injection Hv2 as ->.
Qed.

(** On a well-formed structure and a row [i < numRows_],
    [getSuccessorValuedPositions(i)] terminates with exactly the triples
    [(i, j, v)] of the cells of row [i] whose value [v = getElement(i, j)]
    differs from [null_], by strictly ascending column; their columns are
    what [getSuccessorPositions(i)] returns, and their values, in the same
    order, what [getSuccessorElements(i)] returns. *)
Theorem getSuccessorValuedPositions_values {E : Type} `{ElemType E}
  (t : KrKcTree E) (i : nat) :
  well_formed t -> i < numRows_ t ->
  exists succs,
    getSuccessorValuedPositions t i = Some succs /\
    getSuccessorPositions t i = Some (map vp_col succs) /\
    getSuccessorElements t i = Some (map vp_val succs) /\
    StronglySorted lt (map vp_col succs) /\
    forall r j v,
      In (mkValuedPosition r j v) succs <->
      ((r = i /\ j < numCols_ t) /\
       getElement t r j = Some v /\ v <> null_ t).
Proof.
  intros Hwf Hi.
  destruct (getSuccessorValuedPositions_spec t i Hwf Hi)
    as (succs & Hrun & Hpos & Helem & Hsound).
  pose proof Hpos as Hcols.
  rewrite (getSuccessorPositions_spec t i Hwf Hi) in Hcols.
  injection Hcols as Hcols.
  exists succs. split; [exact Hrun|]. split; [exact Hpos|].
  split; [exact Helem|]. split.
  - rewrite <- Hcols. apply StronglySorted_filter_lt, StronglySorted_seq.
  - apply (valued_members t succs (fun r j => r = i /\ j < numCols_ t)).
    + intros r j.
      rewrite (pos_in_row i succs
                 (Forall_impl _ (fun s Hs => proj1 Hs) Hsound)).
      rewrite <- Hcols, filter_In, in_seq. cbn [Nat.add]. split.
      * intros (-> & Hj & Hnn). split; [split; [reflexivity|lia]|exact Hnn].
      * intros ((-> & Hj) & Hnn). split; [reflexivity|].
        split; [lia|exact Hnn].
    + apply (Forall_impl _ (P := fun s => vp_row s = i /\
                                 getElement t i (vp_col s) = Some (vp_val s)));
        [|exact Hsound].
      intros s [-> Hv]. exact Hv.
Qed.

Lemma getSuccessorValuedPositions_values_example :
  (well_formed exampleTree /\ 1 < numRows_ exampleTree) /\
  exists succs,
    getSuccessorValuedPositions exampleTree 1 = Some succs /\
    getSuccessorPositions exampleTree 1 = Some (map vp_col succs) /\
    getSuccessorElements exampleTree 1 = Some (map vp_val succs) /\
    StronglySorted lt (map vp_col succs) /\
    forall r j v,
      In (mkValuedPosition r j v) succs <->
      ((r = 1 /\ j < numCols_ exampleTree) /\
       getElement exampleTree r j = Some v /\ v <> null_ exampleTree).
Proof.
  split.
  - split; [example_well_formed | cbn; lia].
  - apply (getSuccessorValuedPositions_values exampleTree 1);
      [example_well_formed | cbn; lia].
Defined.

(** The recursive variants that the successor queries no longer call
    return what the iterative ones return: on a well-formed structure and a
    row [i < numRows_], [successorsValPosInit], which pushes the triples
    with row [0] and sets the rows at the end, yields the triples of
    [getSuccessorValuedPositions(i)], and [successorsElemInit] yields the
    values of [getSuccessorElements(i)]. *)
Theorem successorsValPosInit_getSuccessorValuedPositions
  {E : Type} `{ElemType E} (t : KrKcTree E) (i : nat) :
  well_formed t -> i < numRows_ t ->
  exists succs,
    getSuccessorValuedPositions t i = Some succs /\
    successorsValPosInit t [] i = Some succs /\
    getSuccessorElements t i = Some (map vp_val succs) /\
    successorsElemInit t [] i = Some (map vp_val succs).
Proof.
  intros Hwf Hi.
  destruct (getSuccessorValuedPositions_spec t i Hwf Hi)
    as (it & Hit & Hpos & Helem & Hsound).
  destruct (successorsValPosInit_spec t i Hwf Hi)
    as (rc & Hrc & Hpos' & Helem' & Hsound').
  assert (Heq : rc = it).
  { apply (valued_rows_eq i (getElement t i)); [|exact Hsound'|exact Hsound].
    rewrite (successorsPosInit_spec t i [] Hwf Hi) in Hpos'.
    rewrite (getSuccessorPositions_spec t i Hwf Hi) in Hpos.
    cbn [app] in Hpos'. congruence. }
  subst rc. exists it. repeat split; assumption.
Qed.

Lemma successorsValPosInit_getSuccessorValuedPositions_example :
  (well_formed exampleTree /\ 1 < numRows_ exampleTree) /\
  exists succs,
    getSuccessorValuedPositions exampleTree 1 = Some succs /\
    successorsValPosInit exampleTree [] 1 = Some succs /\
    getSuccessorElements exampleTree 1 = Some (map vp_val succs) /\
    successorsElemInit exampleTree [] 1 = Some (map vp_val succs).
Proof.
  split.
  - split; [example_well_formed | cbn; lia].
  - apply (successorsValPosInit_getSuccessorValuedPositions exampleTree 1);
      [example_well_formed | cbn; lia].
Defined.

(** The triples of [getPredecessorValuedPositions]. *)
Lemma getPredecessorValuedPositions_spec {E : Type} `{ElemType E}
  (t : KrKcTree E) (j : nat) :
  well_formed t -> j < numCols_ t ->
  exists preds,
    getPredecessorValuedPositions t j = Some preds /\
    getPredecessorPositions t j = Some (map vp_row preds) /\
    getPredecessorElements t j = Some (map vp_val preds) /\
    Forall (fun s => vp_col s = j /\
                     getElement t (vp_row s) j = Some (vp_val s)) preds.
Proof.
  intros Hwf Hj.
  destruct (values_from_positions t vp_row (fun k => (k, j)) (numRows_ t)
              (fun t' => getPredecessorPositions t' j)
              (getPredecessorValuedPositions t j))
    as (out & Hout & Hpos & Hval).
  - intros f. apply getPredecessorPositions_restrict.
  - intros f.
    exact (getPredecessorPositions_spec (restrict t f) j
             (well_formed_restrict t f Hwf) Hj).
  - exists out. split; [exact Hout|]. split; [exact Hpos|]. split.
    + pose proof (getPredecessorElements_valued t j) as He.
      rewrite Hout in He. unfold osim in He.
      destruct (getPredecessorElements t j); [now rewrite He|contradiction].
    + assert (Hcols : Forall (fun x => vp_col x = j) out).
      { unfold getPredecessorValuedPositions, predecessorsValPosInit in Hout.
        destruct (L_empty t); [injection Hout as <-; constructor|].
        destruct (foldM _ _ _) as [s1|]; cbn [obind] in Hout; [|discriminate].
        injection Hout as <-. apply Forall_forall. intros x Hx.
        apply in_map_iff in Hx. now destruct Hx as (y & <- & _). }
      rewrite Forall_forall in *. intros s Hs.
      split; [now apply Hcols|]. now apply (Hval s).
Qed.

(** On a well-formed structure and a column [j < numCols_],
    [getPredecessorValuedPositions(j)] terminates with exactly the triples
    [(i, j, v)] of the cells of column [j] whose value [v = getElement(i, j)]
    differs from [null_], by strictly ascending row; their rows are what
    [getPredecessorPositions(j)] returns, and their values, in the same
    order, what [getPredecessorElements(j)] returns. *)
Theorem getPredecessorValuedPositions_values {E : Type} `{ElemType E}
  (t : KrKcTree E) (j : nat) :
  well_formed t -> j < numCols_ t ->
  exists preds,
    getPredecessorValuedPositions t j = Some preds /\
    getPredecessorPositions t j = Some (map vp_row preds) /\
    getPredecessorElements t j = Some (map vp_val preds) /\
    StronglySorted lt (map vp_row preds) /\
    forall i c v,
      In (mkValuedPosition i c v) preds <->
      ((c = j /\ i < numRows_ t) /\
       getElement t i c = Some v /\ v <> null_ t).
Proof.
  intros Hwf Hj.
  destruct (getPredecessorValuedPositions_spec t j Hwf Hj)
    as (preds & Hrun & Hpos & Helem & Hsound).
  pose proof Hpos as Hrows.
  rewrite (getPredecessorPositions_spec t j Hwf Hj) in Hrows.
  injection Hrows as Hrows.
  exists preds. split; [exact Hrun|]. split; [exact Hpos|].
  split; [exact Helem|]. split.
  - rewrite <- Hrows. apply StronglySorted_filter_lt, StronglySorted_seq.
  - apply (valued_members t preds (fun i c => c = j /\ i < numRows_ t)).
    + intros i c.
      rewrite (pos_in_col j preds
                 (Forall_impl _ (fun s Hs => proj1 Hs) Hsound)).
      rewrite <- Hrows, filter_In, in_seq. cbn [Nat.add]. split.
      * intros (-> & Hi & Hnn). split; [split; [reflexivity|lia]|exact Hnn].
      * intros ((-> & Hi) & Hnn). split; [reflexivity|].
        split; [lia|exact Hnn].
    + apply (Forall_impl _ (P := fun s => vp_col s = j /\
                                 getElement t (vp_row s) j = Some (vp_val s)));
        [|exact Hsound].
      intros s [Hc Hv]. now rewrite Hc.
Qed.

Lemma getPredecessorValuedPositions_values_example :
  (well_formed exampleTree /\ 3 < numCols_ exampleTree) /\
  exists preds,
    getPredecessorValuedPositions exampleTree 3 = Some preds /\
    getPredecessorPositions exampleTree 3 = Some (map vp_row preds) /\
    getPredecessorElements exampleTree 3 = Some (map vp_val preds) /\
    StronglySorted lt (map vp_row preds) /\
    forall i c v,
      In (mkValuedPosition i c v) preds <->
      ((c = 3 /\ i < numRows_ exampleTree) /\
       getElement exampleTree i c = Some v /\ v <> null_ exampleTree).
Proof.
  split.
  - split; [example_well_formed | cbn; lia].
  - apply (getPredecessorValuedPositions_values exampleTree 3);
      [example_well_formed | cbn; lia].
Defined.

(** ** Mode P: the counting sort *)

Lemma foldM_seq_inv {St : Type} (Inv : nat -> St -> Prop)
  (body : nat -> St -> option St) (n : nat) :
  forall a st,
    (forall i st1, a <= i < a + n -> Inv i st1 ->
       exists st2, body i st1 = Some st2 /\ Inv (S i) st2) ->
    Inv a st ->
    exists st', foldM body (seq a n) st = Some st' /\ Inv (a + n) st'.
Proof.
  induction n as [|n IH]; intros a st Hb H0; cbn [seq foldM].
  - exists st. split; [reflexivity|]. now rewrite Nat.add_0_r.
  - destruct (Hb a st ltac:(lia) H0) as (st1 & -> & H1).
    destruct (IH (S a) st1) as (st' & Hrun & H').
    + intros i st2 Hi. apply Hb. lia.
    + exact H1.
    + exists st'. split; [exact Hrun|].
      now replace (a + S n) with (S a + n) by lia.
Qed.

Lemma foldM_prefix_inv {A S : Type} (Inv : list A -> S -> Prop)
  (body : A -> S -> option S) (l : list A) :
  (forall pre x post st, l = pre ++ x :: post -> Inv pre st ->
     exists st', body x st = Some st' /\ Inv (pre ++ [x]) st') ->
  forall post pre st,
    l = pre ++ post -> Inv pre st ->
    exists st', foldM body post st = Some st' /\ Inv l st'.
Proof.
  intros Hb post. induction post as [|x post IH]; intros pre st Hl H0;
    cbn [foldM].
  - exists st. split; [reflexivity|]. now rewrite Hl, app_nil_r.
  - destruct (Hb pre x post st Hl H0) as (st1 & -> & H1).
    apply (IH (pre ++ [x])); [|exact H1].
    now rewrite <- app_assoc.
Qed.

Lemma nth_error_slice {A : Type} (l : list A) (a b j : nat) :
  nth_error (slice l a b) j
  = if j <? b - a then nth_error l (a + j) else None.
Proof.
  unfold slice. rewrite nth_error_firstn.
  destruct (j <? b - a); [apply nth_error_skipn|reflexivity].
Qed.

Lemma length_slice {A : Type} (l : list A) (a b : nat) :
  a <= b <= length l -> length (slice l a b) = b - a.
Proof.
  intros Hab. unfold slice. rewrite length_firstn, length_skipn. lia.
Qed.

Lemma slice_ext {A : Type} (l l' : list A) (a b : nat) :
  (forall x, a <= x < b -> nth_error l' x = nth_error l x) ->
  slice l' a b = slice l a b.
Proof.
  intros Hx. apply nth_error_ext. intros j. rewrite !nth_error_slice.
  destruct (Nat.ltb_spec j (b - a)); [|reflexivity]. apply Hx. lia.
Qed.

Lemma slice_eq {A : Type} (l b : list A) (a : nat) :
  a + length b <= length l ->
  (forall j, j < length b -> nth_error l (a + j) = nth_error b j) ->
  slice l a (a + length b) = b.
Proof.
  intros Hlen Hj. apply nth_error_ext. intros j. rewrite nth_error_slice.
  replace (a + length b - a) with (length b) by lia.
  destruct (Nat.ltb_spec j (length b)); [now apply Hj|].
  symmetry. now apply nth_error_None.
Qed.

(** The loops over [sp.left .. sp.right - 1] that read [pairs[i]] run over
    the entries of the slice. *)
Lemma foldM_seq_slice {A St : Type} (l : list A)
  (body : A -> St -> option St) (n : nat) :
  forall a st,
    a + n <= length l ->
    foldM (fun i st1 => x <- nth_error l i ;; body x st1) (seq a n) st
    = foldM body (slice l a (a + n)) st.
Proof.
  induction n as [|n IH]; intros a st Ha.
  - unfold slice. replace (a + 0 - a) with 0 by lia. reflexivity.
  - cbn [seq foldM].
    destruct (nth_error l a) as [x|] eqn:Hx;
      [|apply nth_error_None in Hx; lia].
    cbn [obind].
    assert (Hs : slice l a (a + S n) = x :: slice l (S a) (S a + n)).
    { apply nth_error_ext. intros [|j]; rewrite nth_error_slice.
      - destruct (Nat.ltb_spec 0 (a + S n - a)); [|lia].
        now rewrite Nat.add_0_r.
      - cbn [nth_error]. rewrite nth_error_slice.
        replace (a + S n - a) with (S n) by lia.
        replace (S a + n - S a) with n by lia.
        change (S j <? S n) with (j <? n).
        destruct (j <? n); [|reflexivity]. f_equal. lia. }
    rewrite Hs. cbn [foldM].
    destruct (body x st) as [st1|]; [|reflexivity]. apply IH. lia.
Qed.

Lemma foldM_ext {A St : Type} (body body' : A -> St -> option St)
  (xs : list A) :
  (forall x st, body x st = body' x st) ->
  forall st, foldM body xs st = foldM body' xs st.
Proof.
  intros Hb. induction xs as [|x xs IH]; intros st; cbn [foldM];
    [reflexivity|].
  rewrite Hb. destruct (body' x st); [apply IH|reflexivity].
Qed.

Lemma write_at_Some {A : Type} (v : list A) (i : nat) (x : A) :
  i < length v -> write_at v i x = Some (list_update v i x).
Proof.
  intros Hi. unfold write_at. now destruct (Nat.ltb_spec i (length v)); [|lia].
Qed.

Lemma filter_all {A : Type} (f : A -> bool) (l : list A) :
  (forall x, In x l -> f x = true) -> filter f l = l.
Proof.
  induction l as [|x l IH]; intros Hf; cbn [filter]; [reflexivity|].
  rewrite (Hf x (or_introl eq_refl)). f_equal. apply IH.
  intros y Hy. apply Hf. now right.
Qed.

Lemma length_filter_lt_S {A : Type} (f : A -> nat) (l : list A) (k : nat) :
  length (filter (fun s => f s <? S k) l)
  = length (filter (fun s => f s <? k) l)
    + length (filter (fun s => f s =? k) l).
Proof.
  induction l as [|x l IH]; cbn [filter]; [reflexivity|].
  destruct (Nat.ltb_spec (f x) (S k)); destruct (Nat.ltb_spec (f x) k);
    destruct (Nat.eqb_spec (f x) k); cbn [length]; lia.
Qed.

Section CountingSort.

Context {E : Type} `{ElemType E}.

Variables (kc : nat) (pairs : list (ValuedPosition E)) (sp : Subproblem).
Variables (widthRow widthCol sup : nat) (key : ValuedPosition E -> nat).

Local Abbreviation left := (sp_left sp).
Local Abbreviation right := (sp_right sp).
Local Abbreviation sl := (slice pairs (sp_left sp) (sp_right sp)).
Local Abbreviation bucket k := (filter (fun s => key s =? k) sl).
Local Abbreviation cnt k := (length (filter (fun s => key s =? k) sl)).
Local Abbreviation start k := (length (filter (fun s => key s <? k) sl)).

Hypothesis Hrange : left <= right <= length pairs.
Hypothesis Hkey :
  forall s, In s sl ->
            computeKey kc s sp widthRow widthCol = Some (key s) /\ key s < sup.

Lemma start_S (k : nat) : start (S k) = start k + cnt k.
Proof. apply length_filter_lt_S. Qed.

Lemma start_mono (k k' : nat) : k <= k' -> start k <= start k'.
Proof.
  induction 1 as [|k' _ IH]; [lia|]. rewrite (start_S k'). lia.
Qed.

Lemma start_sup : start sup = right - left.
Proof.
  rewrite <- (length_slice pairs left right Hrange). f_equal.
  apply filter_all. intros s Hs. apply Nat.ltb_lt. now apply Hkey.
Qed.

Lemma bucket_unique (k k' j j' : nat) :
  j < cnt k -> j' < cnt k' -> start k + j = start k' + j' ->
  k = k' /\ j = j'.
Proof.
  intros Hj Hj' Heq.
  destruct (Nat.lt_trichotomy k k') as [Hlt|[->|Hlt]].
  - pose proof (start_mono (S k) k' Hlt). rewrite start_S in *. lia.
  - split; [reflexivity|lia].
  - pose proof (start_mono (S k') k Hlt). rewrite start_S in *. lia.
Qed.

Lemma bucket_locate (m : nat) :
  forall x, x < start m ->
            exists k j, k < m /\ j < cnt k /\ x = start k + j.
Proof.
  induction m as [|m IH]; intros x Hx.
  - cbn in Hx. rewrite filter_false in Hx; [cbn in Hx; lia|].
    intros; reflexivity.
  - rewrite start_S in Hx. destruct (Nat.lt_ge_cases x (start m)) as [Hlt|Hge].
    + destruct (IH x Hlt) as (k & j & Hk & Hj & ->).
      exists k, j. split; [lia|]. split; [exact Hj|reflexivity].
    + exists m, (x - start m). split; [lia|]. split; lia.
Qed.

Lemma filter_key_snoc (k : nat) (pre : list (ValuedPosition E))
  (x : ValuedPosition E) :
  filter (fun s => key s =? k) (pre ++ [x])
  = filter (fun s => key s =? k) pre ++ (if key x =? k then [x] else []).
Proof. rewrite filter_app. cbn [filter]. now destruct (key x =? k). Qed.

Lemma countKeys_spec :
  exists counts,
    countKeys kc pairs sp widthRow widthCol (repeat 0 sup) = Some counts /\
    length counts = sup /\
    forall k, k < sup -> nth_error counts k = Some (cnt k).
Proof.
  unfold countKeys.
  rewrite (foldM_seq_slice pairs
             (fun pair counts1 =>
                key0 <- computeKey kc pair sp widthRow widthCol ;;
                c <- nth_error counts1 key0 ;;
                write_at counts1 key0 (c + 1))
             (right - left) left (repeat 0 sup) ltac:(lia)).
  replace (left + (right - left)) with right by lia.
  apply (foldM_prefix_inv
           (fun pre counts =>
              length counts = sup /\
              forall k, k < sup ->
                nth_error counts k
                = Some (length (filter (fun s => key s =? k) pre)))
           _ sl) with (pre := []).
  - intros pre x post counts Hsl [Hlen Hc].
    destruct (Hkey x) as [Hk Hlt].
    { rewrite Hsl. apply in_or_app. right. now left. }
    rewrite Hk. cbn [obind]. rewrite (Hc _ Hlt). cbn [obind].
    rewrite write_at_Some by lia. eexists. split; [reflexivity|].
    split; [now rewrite length_list_update|].
    intros k Hk'. rewrite filter_key_snoc, length_app.
    destruct (Nat.eqb_spec (key x) k) as [<-|Hne].
    + rewrite nth_error_list_update_eq by lia. reflexivity.
    + rewrite nth_error_list_update_neq by exact Hne.
      rewrite (Hc k Hk'). cbn [length]. f_equal. lia.
  - reflexivity.
  - split; [apply repeat_length|].
    intros k Hk. now apply nth_error_repeat.
Qed.

Lemma startIndices_spec (counts : list nat) (intervals : list (nat * nat)) :
  length counts = sup ->
  (forall k, k < sup -> nth_error counts k = Some (cnt k)) ->
  sup <= length intervals ->
  exists counts' intervals' total,
    startIndices sup counts intervals = Some (counts', intervals', total) /\
    length counts' = sup /\
    (forall k, k < sup -> nth_error counts' k = Some (start k)) /\
    length intervals' = length intervals /\
    (forall k, k < sup ->
               nth_error intervals' k = Some (start k, start (S k))).
Proof.
  intros Hlen Hc Hiv. unfold startIndices.
  destruct (foldM_seq_inv
              (fun k (st : list nat * list (nat * nat) * nat) =>
                 snd st = start k /\
                 length (fst (fst st)) = sup /\
                 (forall x, x < sup ->
                    nth_error (fst (fst st)) x
                    = Some (if x <? k then start x else cnt x)) /\
                 length (snd (fst st)) = length intervals /\
                 (forall x, x < k ->
                    nth_error (snd (fst st)) x = Some (start x, start (S x))))
              (fun key0 st =>
                 let '(counts1, intervals1, total) := st in
                 tmp <- nth_error counts1 key0 ;;
                 counts2 <- write_at counts1 key0 total ;;
                 intervals2 <- write_at intervals1 key0 (total, total + tmp) ;;
                 Some (counts2, intervals2, total + tmp))
              sup 0 (counts, intervals, 0))
    as ([[c i] tot] & Hrun & Htot & Hlc & Hcx & Hli & Hix).
  - intros k [[c i] tot] Hk (Htot & Hlc & Hcx & Hli & Hix).
    cbn [fst snd] in *. rewrite (Hcx k ltac:(lia)).
    destruct (Nat.ltb_spec k k); [lia|]. cbn [obind].
    rewrite write_at_Some by lia. cbn [obind].
    rewrite write_at_Some by lia. cbn [obind].
    eexists. split; [reflexivity|]. cbn [fst snd].
    split; [rewrite start_S; lia|].
    split; [now rewrite length_list_update|].
    split.
    { intros x Hx. destruct (Nat.eq_dec k x) as [<-|Hne].
      - rewrite nth_error_list_update_eq by lia.
        destruct (Nat.ltb_spec k (S k)); [|lia]. now rewrite Htot.
      - rewrite nth_error_list_update_neq by exact Hne. rewrite (Hcx x Hx).
        destruct (Nat.ltb_spec x k); destruct (Nat.ltb_spec x (S k));
          try reflexivity; lia. }
    split; [now rewrite length_list_update|].
    intros x Hx. destruct (Nat.eq_dec k x) as [<-|Hne].
    + rewrite nth_error_list_update_eq by lia.
      now rewrite start_S, Htot.
    + rewrite nth_error_list_update_neq by exact Hne. apply Hix. lia.
  - cbn [fst snd]. split.
    { rewrite filter_false; [reflexivity|]. intros; reflexivity. }
    split; [exact Hlen|]. split; [|split; [reflexivity|intros; lia]].
    intros x Hx. now rewrite (Hc x Hx).
  - cbn [fst snd Nat.add] in *. exists c, i, tot. split; [exact Hrun|].
    split; [exact Hlc|]. split.
    + intros k Hk. rewrite (Hcx k Hk).
      now destruct (Nat.ltb_spec k sup); [|lia].
    + split; [exact Hli|exact Hix].
Qed.

Lemma reorder_spec (counts : list nat) :
  length counts = sup ->
  (forall k, k < sup -> nth_error counts k = Some (start k)) ->
  exists counts' tmpPairs,
    reorder kc pairs sp widthRow widthCol counts
      (repeat None (right - left + 1)) = Some (counts', tmpPairs) /\
    forall k j, k < sup -> j < cnt k ->
      nth_error tmpPairs (start k + j) = Some (nth_error (bucket k) j).
Proof.
  intros Hlen Hc. unfold reorder.
  rewrite (foldM_ext _
             (fun i (st1 : list nat * list (option (ValuedPosition E))) =>
                x <- nth_error pairs i ;;
                (let '(counts1, tmpPairs1) := st1 in
                 key0 <- computeKey kc x sp widthRow widthCol ;;
                 c <- nth_error counts1 key0 ;;
                 tmpPairs2 <- write_at tmpPairs1 c (Some x) ;;
                 counts2 <- write_at counts1 key0 (c + 1) ;;
                 Some (counts2, tmpPairs2))))
    by (intros i [c tmp]; reflexivity).
  rewrite (foldM_seq_slice pairs
             (fun pair (st : list nat * list (option (ValuedPosition E))) =>
                let '(counts1, tmpPairs1) := st in
                key0 <- computeKey kc pair sp widthRow widthCol ;;
                c <- nth_error counts1 key0 ;;
                tmpPairs2 <- write_at tmpPairs1 c (Some pair) ;;
                counts2 <- write_at counts1 key0 (c + 1) ;;
                Some (counts2, tmpPairs2))
             (right - left) left _ ltac:(lia)).
  replace (left + (right - left)) with right by lia.
  destruct (foldM_prefix_inv
              (fun pre (st : list nat * list (option (ValuedPosition E))) =>
                 length (fst st) = sup /\
                 (forall k, k < sup ->
                    nth_error (fst st) k
                    = Some (start k
                            + length (filter (fun s => key s =? k) pre))) /\
                 length (snd st) = right - left + 1 /\
                 (forall k j, k < sup -> j < cnt k ->
                    nth_error (snd st) (start k + j)
                    = Some (nth_error (filter (fun s => key s =? k) pre) j)))
              (fun pair (st : list nat * list (option (ValuedPosition E))) =>
                 let '(counts1, tmpPairs1) := st in
                 key0 <- computeKey kc pair sp widthRow widthCol ;;
                 c <- nth_error counts1 key0 ;;
                 tmpPairs2 <- write_at tmpPairs1 c (Some pair) ;;
                 counts2 <- write_at counts1 key0 (c + 1) ;;
                 Some (counts2, tmpPairs2))
              sl) with (post := sl) (pre := @nil (ValuedPosition E))
                       (st := (counts, repeat (@None (ValuedPosition E))
                                              (right - left + 1)))
    as ([c tmp] & Hrun & _ & _ & _ & Htmp).
  - intros pre x post [c tmp] Hsl (Hlc & Hcx & Hlt & Htx).
    cbn [fst snd] in *.
    destruct (Hkey x) as [Hk Hkx].
    { rewrite Hsl. apply in_or_app. right. now left. }
    rewrite Hk. cbn [obind]. rewrite (Hcx _ Hkx). cbn [obind].
    set (k0 := key x) in *.
    remember (length (filter (fun s => key s =? k0) pre)) as j0 eqn:Ej0.
    assert (Hj0 : j0 < cnt k0).
    { rewrite Hsl, filter_app, length_app. cbn [filter]. unfold k0 at 2.
      rewrite Nat.eqb_refl. cbn [length]. lia. }
    assert (Hin : start k0 + j0 < right - left).
    { pose proof (start_mono (S k0) sup ltac:(lia)) as Hm.
      rewrite start_S, start_sup in Hm. lia. }
    rewrite write_at_Some by lia. cbn [obind].
    rewrite write_at_Some by lia. cbn [obind].
    eexists. split; [reflexivity|]. cbn [fst snd].
    split; [now rewrite length_list_update|]. split.
    { intros k Hk'. rewrite filter_key_snoc, length_app. fold k0.
      destruct (Nat.eqb_spec k0 k) as [<-|Hne].
      - rewrite nth_error_list_update_eq by lia. cbn [length].
        f_equal. lia.
      - rewrite nth_error_list_update_neq by exact Hne.
        rewrite (Hcx k Hk'). cbn [length]. f_equal. lia. }
    split; [now rewrite length_list_update|].
    intros k j Hk' Hj. rewrite filter_key_snoc. fold k0.
    destruct (Nat.eq_dec (start k0 + j0) (start k + j)) as [Heq|Hne].
    + destruct (bucket_unique k0 k j0 j Hj0 Hj Heq) as [<- <-].
      rewrite nth_error_list_update_eq by lia.
      rewrite Nat.eqb_refl, nth_error_app2 by lia.
      now rewrite <- Ej0, Nat.sub_diag.
    + rewrite nth_error_list_update_neq by exact Hne.
      rewrite (Htx k j Hk' Hj). f_equal.
      destruct (Nat.eqb_spec k0 k) as [<-|Hk0]; [|now rewrite app_nil_r].
      destruct (Nat.lt_ge_cases j j0) as [Hlt'|Hge].
      * now rewrite nth_error_app1 by lia.
      * rewrite nth_error_app2 by lia. rewrite <- Ej0.
        destruct (j - j0) as [|d] eqn:Hd; [lia|]. cbn [nth_error].
        rewrite (proj2 (nth_error_None _ _)) by lia.
        now destruct d.
  - reflexivity.
  - cbn [fst snd]. split; [exact Hlen|]. split.
    { intros k Hk. rewrite (Hc k Hk). cbn [filter length]. f_equal. lia. }
    split; [apply repeat_length|].
    intros k j Hk Hj. cbn [filter nth_error].
    rewrite nth_error_repeat.
    + now destruct j.
    + pose proof (start_mono (S k) sup ltac:(lia)) as Hm.
      rewrite start_S, start_sup in Hm. lia.
  - exists c, tmp. split; [exact Hrun|]. exact Htmp.
Qed.

Lemma copyBack_spec (tmpPairs : list (option (ValuedPosition E))) :
  (forall k j, k < sup -> j < cnt k ->
     nth_error tmpPairs (start k + j) = Some (nth_error (bucket k) j)) ->
  exists pairs',
    copyBack pairs sp tmpPairs = Some pairs' /\
    length pairs' = length pairs /\
    (forall k j, k < sup -> j < cnt k ->
       nth_error pairs' (left + start k + j) = nth_error (bucket k) j) /\
    (forall x, x < left \/ right <= x ->
       nth_error pairs' x = nth_error pairs x).
Proof.
  intros Htmp. unfold copyBack.
  destruct (foldM_seq_inv
              (fun i (p : list (ValuedPosition E)) =>
                 length p = length pairs /\
                 (forall k j, k < sup -> j < cnt k ->
                    left + start k + j < i ->
                    nth_error p (left + start k + j) = nth_error (bucket k) j) /\
                 (forall x, x < left \/ i <= x ->
                    nth_error p x = nth_error pairs x))
              (fun i pairs1 =>
                 o <- nth_error tmpPairs (i - left) ;;
                 pair <- o ;;
                 write_at pairs1 i pair)
              (right - left) left pairs)
    as (p' & Hrun & Hlp & Hb & Hout).
  - intros i p Hi (Hlp & Hb & Hout).
    destruct (bucket_locate sup (i - left)) as (k0 & j0 & Hk0 & Hj0 & Hx).
    { rewrite start_sup. lia. }
    rewrite Hx, (Htmp k0 j0 Hk0 Hj0). cbn [obind].
    destruct (nth_error (bucket k0) j0) as [s|] eqn:Hs;
      [|apply nth_error_None in Hs; lia].
    cbn [obind]. rewrite write_at_Some by lia.
    eexists. split; [reflexivity|].
    split; [now rewrite length_list_update|]. split.
    + intros k j Hk Hj Hlt.
      destruct (Nat.eq_dec i (left + start k + j)) as [Heq|Hne].
      * destruct (bucket_unique k0 k j0 j Hj0 Hj ltac:(lia)) as [<- <-].
        rewrite <- Heq, nth_error_list_update_eq by lia. now symmetry.
      * rewrite nth_error_list_update_neq by exact Hne.
        apply Hb; [assumption|assumption|lia].
    + intros x Hx'. rewrite nth_error_list_update_neq by lia.
      apply Hout. lia.
  - split; [reflexivity|]. split; [intros; lia|reflexivity].
  - exists p'. split; [exact Hrun|]. split; [exact Hlp|]. split.
    + intros k j Hk Hj. apply Hb; [assumption|assumption|].
      pose proof (start_mono (S k) sup ltac:(lia)) as Hm.
      rewrite start_S, start_sup in Hm. lia.
    + intros x Hx. apply Hout. lia.
Qed.

(** [countingSort] groups the pairs of the subproblem by their keys, in
    the order they had, leaves the other pairs where they are, and sets
    every interval to the range of its key. *)
Lemma countingSort_spec (intervals : list (nat * nat)) :
  sup <= length intervals ->
  exists pairs' intervals',
    countingSort kc pairs intervals sp widthRow widthCol sup
    = Some (pairs', intervals') /\
    length pairs' = length pairs /\
    length intervals' = length intervals /\
    (forall k, k < sup ->
               nth_error intervals' k = Some (start k, start (S k))) /\
    (forall k, k < sup ->
               slice pairs' (left + start k) (left + start (S k)) = bucket k) /\
    (forall x, x < left \/ right <= x ->
               nth_error pairs' x = nth_error pairs x).
Proof.
  intros Hiv. unfold countingSort.
  destruct countKeys_spec as (counts & -> & Hlc & Hc). cbn [obind].
  destruct (startIndices_spec counts intervals Hlc Hc Hiv)
    as (counts1 & intervals1 & total & -> & Hlc1 & Hc1 & Hli & Hi).
  cbn [obind].
  destruct (reorder_spec counts1 Hlc1 Hc1) as (counts2 & tmp & -> & Htmp).
  cbn [obind snd].
  destruct (copyBack_spec tmp Htmp) as (pairs' & -> & Hlp & Hb & Hout).
  cbn [obind]. exists pairs', intervals1. split; [reflexivity|].
  split; [exact Hlp|]. split; [exact Hli|]. split; [exact Hi|].
  split; [|exact Hout].
  intros k Hk. rewrite start_S, Nat.add_assoc. apply slice_eq.
  - pose proof (start_mono (S k) sup ltac:(lia)) as Hm.
    rewrite start_S, start_sup in Hm. lia.
  - intros j Hj. now apply Hb.
Qed.

End CountingSort.

(** ** Mode P: blocks and keys *)

Lemma div_eq_iff (x m a : nat) :
  1 <= m -> (x / m = a <-> a * m <= x < a * m + m).
Proof.
  intros Hm. pose proof (Nat.div_mod_eq x m) as Hx.
  pose proof (Nat.mod_upper_bound x m ltac:(lia)) as Hr. split.
  - intros <-. lia.
  - intros Ha. symmetry. apply (Nat.div_unique x m a (x - a * m)); lia.
Qed.

Lemma slot_decompose (kc i a b : nat) :
  b < kc -> (a * kc + b = i <-> (a = i / kc /\ b = i mod kc)).
Proof.
  intros Hb. split.
  - intros <-. split; [now rewrite div_mul_add|now rewrite mod_mul_add].
  - intros [-> ->]. pose proof (Nat.div_mod_eq i kc). lia.
Qed.

Lemma child_slots_seq (kr kc : nat) :
  1 <= kc ->
  child_slots kr kc = map (fun i => (i / kc, i mod kc)) (seq 0 (kr * kc)).
Proof.
  intros Hkc. apply nth_error_ext. intros x.
  destruct (Nat.lt_ge_cases x (kr * kc)) as [Hx|Hx].
  - rewrite nth_error_map, nth_error_seq.
    destruct (Nat.ltb_spec x (kr * kc)); [|lia]. cbn [option_map Nat.add].
    pose proof (Nat.div_mod_eq x kc) as Hd.
    pose proof (Nat.mod_upper_bound x kc ltac:(lia)) as Hm.
    assert (Ha : x / kc < kr).
    { apply Nat.Div0.div_lt_upper_bound. lia. }
    rewrite <- (nth_error_child_slots kr kc (x / kc) (x mod kc) Ha Hm).
    f_equal. lia.
  - rewrite (proj2 (nth_error_None _ _))
      by (rewrite length_child_slots; exact Hx).
    symmetry. apply nth_error_None. now rewrite length_map, length_seq.
Qed.

Lemma filter_filter {A : Type} (f g : A -> bool) (l : list A) :
  filter f (filter g l) = filter (fun x => g x && f x) l.
Proof.
  induction l as [|x l IH]; cbn [filter]; [reflexivity|].
  destruct (g x); cbn [filter andb]; [|exact IH].
  destruct (f x); now rewrite IH.
Qed.

Lemma existsb_swap {A B : Type} (f : A -> B -> bool) (l1 : list A)
  (l2 : list B) :
  existsb (fun a => existsb (f a) l2) l1
  = existsb (fun b => existsb (fun a => f a b) l1) l2.
Proof.
  apply Bool.eq_iff_eq_true. rewrite !existsb_exists. split.
  - intros (a & Ha & Hb). apply existsb_exists in Hb.
    destruct Hb as (b & Hb & Hf). exists b. split; [exact Hb|].
    apply existsb_exists. now exists a.
  - intros (b & Hb & Ha). apply existsb_exists in Ha.
    destruct Ha as (a & Ha & Hf). exists a. split; [exact Ha|].
    apply existsb_exists. now exists b.
Qed.

Lemma existsb_filter_length {A : Type} (f : A -> bool) (l : list A) :
  existsb f l = (0 <? length (filter f l)).
Proof.
  induction l as [|x l IH]; cbn [existsb filter]; [reflexivity|].
  destruct (f x); cbn [orb length]; [reflexivity|exact IH].
Qed.

Lemma in_block_spec {E : Type} (p q m n : nat) (s : ValuedPosition E) :
  in_block p q m n s = true <->
  (p <= vp_row s < p + m /\ q <= vp_col s < q + n).
Proof.
  unfold in_block. rewrite !andb_true_iff, !Nat.leb_le, !Nat.ltb_lt. lia.
Qed.

Section BlocksOfPairs.

Context {E : Type} `{ElemType E}.

Variables (kr kc : nat).

Hypothesis Hkr : 2 <= kr.
Hypothesis Hkc : 2 <= kc.

(** The child of a block for the key [i]. *)
Local Abbreviation kidAt e fr fc i :=
  (fr + (i / kc) * kr ^ e, fc + (i mod kc) * kc ^ e).

Lemma kids_seq (e fr fc : nat) :
  kids kr kc e (fr, fc) = map (fun i => kidAt e fr fc i) (seq 0 (kr * kc)).
Proof.
  unfold kids. rewrite child_slots_seq by lia. rewrite map_map.
  reflexivity.
Qed.

(** A pair of a block lies in the child with the number [computeKey]
    yields for it. *)
Lemma in_block_kid (e fr fc i : nat) (s : ValuedPosition E) :
  i < kr * kc ->
  in_block fr fc (kr ^ S e) (kc ^ S e) s = true ->
  ((vp_row s - fr) / kr ^ e * kc + (vp_col s - fc) / kc ^ e =? i)
  = in_block (fr + (i / kc) * kr ^ e) (fc + (i mod kc) * kc ^ e)
             (kr ^ e) (kc ^ e) s.
Proof.
  intros Hi Hs. apply in_block_spec in Hs. destruct Hs as [Hr Hc].
  pose proof (pow_ge_1 kr e ltac:(lia)) as Hpr.
  pose proof (pow_ge_1 kc e ltac:(lia)) as Hpc.
  assert (Hb : (vp_col s - fc) / kc ^ e < kc).
  { apply div_pow_lt; lia. }
  apply Bool.eq_iff_eq_true.
  rewrite Nat.eqb_eq, in_block_spec, (slot_decompose kc i _ _ Hb).
  rewrite (div_eq_iff (vp_row s - fr) (kr ^ e) (i / kc) Hpr).
  assert (Hcm : (vp_col s - fc) / kc ^ e = i mod kc <->
                i mod kc * kc ^ e <= vp_col s - fc
                < i mod kc * kc ^ e + kc ^ e).
  { apply div_eq_iff. exact Hpc. }
  split.
  - intros [Ha Hb']. apply Hcm in Hb'. lia.
  - intros [Ha Hb']. split; [lia|]. apply Hcm. lia.
Qed.

Lemma kid_in_block (e fr fc i : nat) (s : ValuedPosition E) :
  i < kr * kc ->
  in_block (fr + (i / kc) * kr ^ e) (fc + (i mod kc) * kc ^ e)
           (kr ^ e) (kc ^ e) s = true ->
  in_block fr fc (kr ^ S e) (kc ^ S e) s = true.
Proof.
  intros Hi Hs. apply in_block_spec in Hs. apply in_block_spec.
  assert (Ha : i / kc < kr) by (apply Nat.Div0.div_lt_upper_bound; lia).
  pose proof (Nat.mod_upper_bound i kc ltac:(lia)) as Hb.
  rewrite !Nat.pow_succ_r'. nia.
Qed.

Lemma key_bound (e fr fc : nat) (s : ValuedPosition E) :
  in_block fr fc (kr ^ S e) (kc ^ S e) s = true ->
  (vp_row s - fr) / kr ^ e * kc + (vp_col s - fc) / kc ^ e < kr * kc.
Proof.
  intros Hs. apply in_block_spec in Hs. destruct Hs as [Hr Hc].
  assert (Ha : (vp_row s - fr) / kr ^ e < kr) by (apply div_pow_lt; lia).
  assert (Hb : (vp_col s - fc) / kc ^ e < kc) by (apply div_pow_lt; lia).
  nia.
Qed.

(** The pairs of a child among the pairs of its block. *)
Lemma bucket_kid (orig : list (ValuedPosition E)) (e fr fc i : nat) :
  i < kr * kc ->
  filter (fun s => (vp_row s - fr) / kr ^ e * kc + (vp_col s - fc) / kc ^ e
                   =? i)
         (filter (in_block fr fc (kr ^ S e) (kc ^ S e)) orig)
  = filter (in_block (fr + (i / kc) * kr ^ e) (fc + (i mod kc) * kc ^ e)
                     (kr ^ e) (kc ^ e)) orig.
Proof.
  intros Hi. rewrite filter_filter. apply filter_ext_in'. intros s _.
  destruct (in_block fr fc (kr ^ S e) (kc ^ S e) s) eqn:Hs; cbn [andb].
  - now apply in_block_kid.
  - destruct (in_block (fr + _) _ _ _ s) eqn:Hk; [|reflexivity].
    apply (kid_in_block e fr fc i s Hi) in Hk. congruence.
Qed.

(** A block holds a pair exactly when one of its children does. *)
Lemma in_block_kids (e fr fc : nat) (s : ValuedPosition E) :
  existsb (fun n => in_block (fst n) (snd n) (kr ^ e) (kc ^ e) s)
          (kids kr kc e (fr, fc))
  = in_block fr fc (kr ^ S e) (kc ^ S e) s.
Proof.
  rewrite kids_seq, existsb_map. cbn [fst snd].
  apply Bool.eq_iff_eq_true. rewrite existsb_exists. split.
  - intros (i & Hi & Hs). apply in_seq in Hi.
    apply (kid_in_block e fr fc i s); [lia|exact Hs].
  - intros Hs. pose proof (key_bound e fr fc s Hs) as Hk.
    exists ((vp_row s - fr) / kr ^ e * kc + (vp_col s - fc) / kc ^ e).
    split; [apply in_seq; lia|].
    rewrite <- (in_block_kid e fr fc _ s Hk Hs). apply Nat.eqb_refl.
Qed.

End BlocksOfPairs.

(** ** Mode P: the loop of [buildFromListsInplace] *)

Lemma StronglySorted_map_lt {B : Type} (R : B -> B -> Prop) (g : nat -> B)
  (l : list nat) :
  (forall a b, a < b -> R (g a) (g b)) ->
  StronglySorted lt l -> StronglySorted R (map g l).
Proof.
  intros Hg. induction 1 as [|x l Hs IH Hx]; cbn [map]; constructor.
  - exact IH.
  - rewrite Forall_map. apply (Forall_impl _ (fun b Hb => Hg x b Hb) Hx).
Qed.

Lemma StronglySorted_app_iff {A : Type} (R : A -> A -> Prop) (l1 l2 : list A) :
  StronglySorted R (l1 ++ l2) <->
  (StronglySorted R l1 /\ StronglySorted R l2 /\
   forall a b, In a l1 -> In b l2 -> R a b).
Proof.
  induction l1 as [|x l1 IH]; cbn [app].
  - split.
    + intros Hs. split; [constructor|]. split; [exact Hs|]. intros a b [].
    + now intros (_ & Hs & _).
  - split.
    + intros Hs. inversion Hs as [|? ? Hs' Hx]; subst.
      apply IH in Hs'. destruct Hs' as (H1 & H2 & H12).
      rewrite Forall_app in Hx. destruct Hx as [Hx1 Hx2].
      split; [now constructor|]. split; [exact H2|].
      intros a b [<-|Ha] Hb.
      * rewrite Forall_forall in Hx2. now apply Hx2.
      * now apply H12.
    + intros (H1 & H2 & H12). inversion H1 as [|? ? Hs' Hx]; subst.
      constructor.
      * apply IH. split; [exact Hs'|]. split; [exact H2|].
        intros a b Ha Hb. apply H12; [now right|exact Hb].
      * apply Forall_app. split; [exact Hx|].
        apply Forall_forall. intros b Hb. apply H12; [now left|exact Hb].
Qed.

Lemma pair_value_snoc {E : Type} (def : E) (pre : list (ValuedPosition E))
  (x : ValuedPosition E) (i j : nat) :
  pair_value def (pre ++ [x]) i j
  = if (vp_row x =? i) && (vp_col x =? j) then vp_val x
    else pair_value def pre i j.
Proof.
  unfold pair_value. rewrite rev_app_distr. cbn [rev app find].
  now destruct ((vp_row x =? i) && (vp_col x =? j)).
Qed.

Lemma find_filter {A : Type} (p g : A -> bool) (l : list A) :
  (forall x, p x = true -> g x = true) ->
  find p (filter g l) = find p l.
Proof.
  intros Hpg. induction l as [|x l IH]; cbn [filter find]; [reflexivity|].
  destruct (p x) eqn:Hp.
  - rewrite (Hpg x Hp). cbn [find]. now rewrite Hp.
  - destruct (g x); cbn [find]; [rewrite Hp|]; exact IH.
Qed.

Lemma pair_value_filter {E : Type} (def : E) (g : ValuedPosition E -> bool)
  (l : list (ValuedPosition E)) (i j : nat) :
  (forall s, vp_row s = i -> vp_col s = j -> g s = true) ->
  pair_value def (filter g l) i j = pair_value def l i j.
Proof.
  intros Hg. unfold pair_value. rewrite <- filter_rev, find_filter;
    [reflexivity|].
  intros s Hs. apply andb_true_iff in Hs. destruct Hs as [Hr Hc].
  apply Nat.eqb_eq in Hr, Hc. now apply Hg.
Qed.

Section InplaceSpec.

Context {E : Type} `{ElemType E}.

Variables (mat : matrix_type E) (kr kc : nat) (null : E).
Variable orig : list (ValuedPosition E).

Hypothesis Hkr : 2 <= kr.
Hypothesis Hkc : 2 <= kc.
Hypothesis Hcell :
  forall i j, mat_at mat null i j = pair_value elem_default orig i j.
Hypothesis Hne :
  forall d p q,
    nonempty mat kr kc null d (p, q)
    = existsb (in_block p q (kr ^ d) (kc ^ d)) orig.

Local Abbreviation K := (kr * kc).
Local Abbreviation Good := (GoodSubproblem kr kc orig).
Local Abbreviation before :=
  (fun a b : Subproblem => sp_right a <= sp_left b).
Local Abbreviation block sp := (sp_firstRow sp, sp_firstCol sp).
Local Abbreviation keyAt e sp :=
  (fun s : ValuedPosition E =>
     (vp_row s - sp_firstRow sp) / kr ^ e * kc
     + (vp_col s - sp_firstCol sp) / kc ^ e).

(** A subproblem stays what it is when the pairs change outside its
    range. *)
Lemma Good_outside (e : nat) (pairs pairs' : list (ValuedPosition E))
  (sp : Subproblem) (l r : nat) :
  Good e pairs sp ->
  sp_right sp <= l \/ r <= sp_left sp ->
  length pairs' = length pairs ->
  (forall x, x < l \/ r <= x -> nth_error pairs' x = nth_error pairs x) ->
  Good e pairs' sp.
Proof.
  intros (HR & HC & Hrange & Hslice) Hdis Hlen Hout.
  split; [exact HR|]. split; [exact HC|]. split; [now rewrite Hlen|].
  rewrite <- Hslice. apply slice_ext. intros x Hx. apply Hout. lia.
Qed.

Lemma pushSubproblems_spec (sp : Subproblem) (Sr Sc : nat)
  (intervals : list (nat * nat)) (a b : nat -> nat) (ks : list nat) :
  (forall k, In k ks -> nth_error intervals k = Some (a k, b k)) ->
  forall queue T,
    foldM (fun i (st : list Subproblem * list bool) =>
             let '(queue1, T1) := st in
             iv <- nth_error intervals i ;;
             if fst iv <? snd iv then
               Some (queue1 ++
                     [mkSubproblem
                        (sp_firstRow sp + (i / kc) * (Sr / kr))
                        (sp_firstRow sp + (i / kc + 1) * (Sr / kr) - 1)
                        (sp_firstCol sp + (i mod kc) * (Sc / kc))
                        (sp_firstCol sp + (i mod kc + 1) * (Sc / kc) - 1)
                        (sp_left sp + fst iv) (sp_left sp + snd iv)],
                     T1 ++ [true])
             else Some (queue1, T1 ++ [false]))
          ks (queue, T)
    = Some (queue ++
            map (fun i =>
                   mkSubproblem
                     (sp_firstRow sp + (i / kc) * (Sr / kr))
                     (sp_firstRow sp + (i / kc + 1) * (Sr / kr) - 1)
                     (sp_firstCol sp + (i mod kc) * (Sc / kc))
                     (sp_firstCol sp + (i mod kc + 1) * (Sc / kc) - 1)
                     (sp_left sp + a i) (sp_left sp + b i))
                (filter (fun i => a i <? b i) ks),
            T ++ map (fun i => a i <? b i) ks).
Proof.
  induction ks as [|k ks IH]; intros Hiv queue T; cbn [foldM filter map].
  - now rewrite !app_nil_r.
  - rewrite (Hiv k (or_introl eq_refl)). cbn [obind fst snd].
    destruct (a k <? b k); cbn [map].
    + rewrite IH by (intros; apply Hiv; now right).
      rewrite <- !app_assoc. reflexivity.
    + rewrite IH by (intros; apply Hiv; now right).
      rewrite <- !app_assoc. reflexivity.
Qed.

(** One iteration for a subproblem above the leaf groups: the pairs of the
    subproblem are grouped by child, the bits of the group of its block
    are appended to [T], and its kept children are queued. *)
Lemma inplaceStep_internal (d : nat) (sp : Subproblem)
  (queue : list Subproblem) (st : inplace_state) :
  Good (S d) (ip_pairs st) sp -> length (ip_intervals st) = K ->
  exists ch pairs' iv',
    inplaceStep kr kc sp queue st
    = Some (mkInplaceState (queue ++ ch)
              (ip_T st ++ map (nonempty mat kr kc null (S d))
                              (kids kr kc (S d) (block sp)))
              (ip_L st) pairs' iv') /\
    blocks ch = filter (nonempty mat kr kc null (S d))
                       (kids kr kc (S d) (block sp)) /\
    Forall (Good d pairs') ch /\
    StronglySorted before ch /\
    Forall (fun c => sp_left sp <= sp_left c /\ sp_right c <= sp_right sp)
           ch /\
    length pairs' = length (ip_pairs st) /\ length iv' = K /\
    forall x, x < sp_left sp \/ sp_right sp <= x ->
              nth_error pairs' x = nth_error (ip_pairs st) x.
Proof.
  intros (HR & HC & Hrange & Hslice) Hiv.
  pose proof (pow_ge_1 kr (S (S d)) ltac:(lia)) as HpR.
  pose proof (pow_ge_1 kc (S (S d)) ltac:(lia)) as HpC.
  pose proof (pow_ge_1 kr (S d) ltac:(lia)) as HpR1.
  pose proof (pow_ge_1 kc (S d) ltac:(lia)) as HpC1.
  unfold inplaceStep. cbv zeta.
  replace (sp_lastRow sp - sp_firstRow sp + 1) with (kr ^ S (S d)) by lia.
  replace (sp_lastCol sp - sp_firstCol sp + 1) with (kc ^ S (S d)) by lia.
  assert (Hgt : (kr <? kr ^ S (S d)) = true).
  { apply Nat.ltb_lt. rewrite !Nat.pow_succ_r'.
    pose proof (pow_ge_1 kr d ltac:(lia)). nia. }
  rewrite Hgt.
  rewrite (pow_div kr (S d)), (pow_div kc (S d)) by lia.
  assert (Hkey : forall s,
             In s (slice (ip_pairs st) (sp_left sp) (sp_right sp)) ->
             computeKey kc s sp (kr ^ S d) (kc ^ S d)
             = Some (keyAt (S d) sp s) /\ keyAt (S d) sp s < K).
  { intros s Hs. rewrite Hslice in Hs. apply filter_In in Hs.
    destruct Hs as [_ Hs]. split; [|now apply key_bound].
    apply in_block_spec in Hs. unfold computeKey, offset_from.
    destruct (Nat.leb_spec (sp_firstRow sp) (vp_row s)); [|lia].
    destruct (Nat.leb_spec (sp_firstCol sp) (vp_col s)); [|lia].
    cbn [obind].
    destruct (Nat.eqb_spec (kr ^ S d) 0); [lia|].
    destruct (Nat.eqb_spec (kc ^ S d) 0); [lia|]. reflexivity. }
  destruct (countingSort_spec kc (ip_pairs st) sp (kr ^ S d) (kc ^ S d) K
              (keyAt (S d) sp) Hrange Hkey (ip_intervals st) ltac:(lia))
    as (pairs' & iv' & -> & Hlp & Hli & Hivs & Hbuck & Hout).
  cbn [obind fst snd]. unfold pushSubproblems.
  set (sl := slice (ip_pairs st) (sp_left sp) (sp_right sp)) in *.
  set (startf := fun k =>
                   length (filter (fun s => keyAt (S d) sp s <? k) sl)).
  assert (Hmono : forall k k', k <= k' -> startf k <= startf k').
  { intros k k'.
    exact (start_mono kc (ip_pairs st) sp (kr ^ S d) (kc ^ S d) K
             (keyAt (S d) sp) Hrange Hkey k k'). }
  assert (Hsup : startf K = sp_right sp - sp_left sp).
  { exact (start_sup kc (ip_pairs st) sp (kr ^ S d) (kc ^ S d) K
             (keyAt (S d) sp) Hrange Hkey). }
  assert (Hbit : forall k, k < K ->
             (startf k <? startf (S k))
             = nonempty mat kr kc null (S d)
                 (sp_firstRow sp + k / kc * kr ^ S d,
                  sp_firstCol sp + k mod kc * kc ^ S d)).
  { intros k Hk. rewrite Hne, existsb_filter_length.
    rewrite <- (bucket_kid kr kc Hkr Hkc orig (S d) _ _ k Hk), <- Hslice.
    unfold startf. rewrite length_filter_lt_S. fold sl.
    destruct (Nat.ltb_spec
                (length (filter (fun s => keyAt (S d) sp s <? k) sl))
                (length (filter (fun s => keyAt (S d) sp s <? k) sl)
                 + length (filter (fun s => keyAt (S d) sp s =? k) sl)));
      destruct (Nat.ltb_spec 0
                  (length (filter (fun s => keyAt (S d) sp s =? k) sl)));
      try reflexivity; lia. }
  rewrite (pushSubproblems_spec sp (kr ^ S (S d)) (kc ^ S (S d)) iv'
             startf (fun k => startf (S k)) (seq 0 K))
    by (intros k Hk; apply in_seq in Hk; apply Hivs; lia).
  cbn [obind fst snd].
  rewrite (pow_div kr (S d)), (pow_div kc (S d)) by lia.
  eexists. exists pairs', iv'. split.
  { f_equal. f_equal. f_equal.
    rewrite kids_seq by assumption. rewrite map_map.
    apply map_ext_in. intros k Hk. apply in_seq in Hk. apply Hbit. lia. }
  split.
  { unfold blocks. rewrite map_map. cbn [sp_firstRow sp_firstCol].
    rewrite kids_seq by assumption. rewrite filter_map_comm. f_equal.
    apply filter_ext_in'. intros k Hk. apply in_seq in Hk. apply Hbit. lia. }
  split.
  { apply Forall_forall. intros c Hc. apply in_map_iff in Hc.
    destruct Hc as (k & <- & Hk). apply filter_In in Hk.
    destruct Hk as [Hk Hlt]. apply in_seq in Hk. apply Nat.ltb_lt in Hlt.
    pose proof (Hmono (S k) K ltac:(lia)) as Hm.
    unfold GoodSubproblem.
    cbn [sp_firstRow sp_lastRow sp_firstCol sp_lastCol sp_left sp_right].
    split; [rewrite Nat.mul_add_distr_r; lia|].
    split; [rewrite Nat.mul_add_distr_r; lia|].
    split; [lia|].
    unfold startf. rewrite (Hbuck k ltac:(lia)), Hslice.
    apply (bucket_kid kr kc Hkr Hkc orig (S d)). lia. }
  split.
  { apply StronglySorted_map_lt;
      [|apply StronglySorted_filter_lt, StronglySorted_seq].
    intros a b Hab. cbn [sp_left sp_right].
    pose proof (Hmono (S a) b ltac:(lia)). lia. }
  split.
  { apply Forall_forall. intros c Hc. apply in_map_iff in Hc.
    destruct Hc as (k & <- & Hk). apply filter_In in Hk.
    destruct Hk as [Hk _]. apply in_seq in Hk. cbn [sp_left sp_right].
    pose proof (Hmono (S k) K ltac:(lia)). lia. }
  split; [exact Hlp|]. split; [lia|exact Hout].
Qed.

(** The leaf group of a subproblem: the values of the cells of its block. *)
Lemma fillLeaves_spec (pairs : list (ValuedPosition E)) (sp : Subproblem) :
  Good 0 pairs sp ->
  fillLeaves kr kc pairs sp
  = Some (map (fun n => mat_at mat null (fst n) (snd n))
              (kids kr kc 0 (block sp))).
Proof.
  intros (_ & _ & Hrange & Hslice). unfold fillLeaves.
  rewrite (foldM_seq_slice pairs
             (fun pair appToL =>
                r <- offset_from (vp_row pair) (sp_firstRow sp) ;;
                c <- offset_from (vp_col pair) (sp_firstCol sp) ;;
                write_at appToL (r * kc + c) (vp_val pair))
             (sp_right sp - sp_left sp) (sp_left sp) _ ltac:(lia)).
  replace (sp_left sp + (sp_right sp - sp_left sp)) with (sp_right sp) by lia.
  set (sl := slice pairs (sp_left sp) (sp_right sp)) in *.
  destruct (foldM_prefix_inv
              (fun pre appToL =>
                 appToL
                 = map (fun ij => pair_value elem_default pre
                                    (sp_firstRow sp + fst ij)
                                    (sp_firstCol sp + snd ij))
                       (child_slots kr kc))
              (fun pair appToL =>
                 r <- offset_from (vp_row pair) (sp_firstRow sp) ;;
                 c <- offset_from (vp_col pair) (sp_firstCol sp) ;;
                 write_at appToL (r * kc + c) (vp_val pair))
              sl) with (post := sl) (pre := @nil (ValuedPosition E))
                       (st := repeat (@elem_default E _) K)
    as (app & -> & Happ).
  - intros pre x post appToL Hsl ->.
    assert (Hx : in_block (sp_firstRow sp) (sp_firstCol sp) (kr ^ 1) (kc ^ 1) x
                 = true).
    { assert (Hin : In x sl) by (rewrite Hsl; apply in_or_app; right; now left).
      rewrite Hslice in Hin. apply filter_In in Hin. exact (proj2 Hin). }
    apply in_block_spec in Hx. rewrite !Nat.pow_1_r in Hx.
    unfold offset_from.
    destruct (Nat.leb_spec (sp_firstRow sp) (vp_row x)); [|lia].
    destruct (Nat.leb_spec (sp_firstCol sp) (vp_col x)); [|lia].
    cbn [obind].
    set (r := vp_row x - sp_firstRow sp). set (c := vp_col x - sp_firstCol sp).
    assert (Hr : r < kr) by (unfold r; lia).
    assert (Hc : c < kc) by (unfold c; lia).
    rewrite write_at_Some
      by (rewrite length_map, length_child_slots; nia).
    eexists. split; [reflexivity|].
    apply nth_error_ext. intros n.
    destruct (Nat.eq_dec (r * kc + c) n) as [<-|Hn].
    + rewrite nth_error_list_update_eq
        by (rewrite length_map, length_child_slots; nia).
      rewrite nth_error_map, (nth_error_child_slots kr kc r c Hr Hc).
      cbn [option_map fst snd]. rewrite pair_value_snoc.
      replace (sp_firstRow sp + r) with (vp_row x) by (unfold r; lia).
      replace (sp_firstCol sp + c) with (vp_col x) by (unfold c; lia).
      now rewrite !Nat.eqb_refl.
    + rewrite nth_error_list_update_neq by exact Hn.
      rewrite !nth_error_map, (child_slots_seq kr kc) by lia.
      rewrite nth_error_map, nth_error_seq.
      destruct (n <? K); [|reflexivity]. cbn [option_map fst snd Nat.add].
      f_equal. rewrite pair_value_snoc.
      destruct (Nat.eqb_spec (vp_row x) (sp_firstRow sp + n / kc));
        [|reflexivity].
      destruct (Nat.eqb_spec (vp_col x) (sp_firstCol sp + n mod kc));
        [|reflexivity].
      exfalso. apply Hn.
      apply (slot_decompose kc n r c Hc). unfold r, c. lia.
  - reflexivity.
  - unfold pair_value. cbn [rev find]. rewrite map_const.
    now rewrite length_child_slots.
  - f_equal. unfold kids. rewrite map_map, Happ. apply map_ext_in.
    intros [i j] Hij. unfold child_slots in Hij.
    apply in_prod_iff in Hij. rewrite !in_seq in Hij.
    cbn [fst snd]. rewrite !Nat.pow_0_r, !Nat.mul_1_r, Hcell.
    rewrite Hslice. apply pair_value_filter.
    intros s Hr Hc. apply in_block_spec. rewrite !Nat.pow_1_r. lia.
Qed.

(** The iterations for the blocks of the leaf groups. *)
Lemma inplace_leaf_level (Q1 : list Subproblem) :
  forall Q2 T L pairs iv fuel,
    Forall (Good 0 pairs) Q1 ->
    inplaceLoop kr kc (length Q1 + fuel)
      (mkInplaceState (Q1 ++ Q2) T L pairs iv)
    = inplaceLoop kr kc fuel
        (mkInplaceState Q2 T (L ++ leavesOf mat kr kc null 0 (blocks Q1))
                        pairs iv).
Proof.
  induction Q1 as [|sp Q1 IH]; intros Q2 T L pairs iv fuel HQ.
  - cbn [length Nat.add app blocks map leavesOf flat_map].
    now rewrite app_nil_r.
  - inversion HQ as [|? ? Hsp HQ']; subst.
    cbn [length Nat.add app inplaceLoop ip_queue].
    unfold inplaceStep. cbv zeta. cbn [ip_pairs ip_T ip_L ip_intervals].
    destruct Hsp as (HR & HC & Hrest).
    pose proof (pow_ge_1 kr 1 ltac:(lia)) as HpR.
    replace (sp_lastRow sp - sp_firstRow sp + 1) with (kr ^ 1) by lia.
    rewrite Nat.pow_1_r, Nat.ltb_irrefl.
    rewrite (fillLeaves_spec pairs sp (conj HR (conj HC Hrest))).
    cbn [obind]. rewrite (IH Q2 T _ pairs iv fuel HQ').
    f_equal. f_equal.
    cbn [blocks map leavesOf flat_map]. rewrite map_app, app_assoc.
    reflexivity.
Qed.

(** The iterations for the blocks of one level above the leaf groups:
    their bits are appended to [T], and their kept children are queued
    behind the subproblems [Q2] that were queued before. *)
Lemma inplace_level (d : nat) (Q1 : list Subproblem) :
  forall Q2 T L pairs iv fuel,
    Forall (Good (S d) pairs) Q1 -> Forall (Good d pairs) Q2 ->
    StronglySorted before (Q2 ++ Q1) -> length iv = K ->
    exists Q1' pairs' iv',
      inplaceLoop kr kc (length Q1 + fuel)
        (mkInplaceState (Q1 ++ Q2) T L pairs iv)
      = inplaceLoop kr kc fuel
          (mkInplaceState (Q2 ++ Q1')
             (T ++ groupBits mat kr kc null (S d) (blocks Q1)) L pairs' iv') /\
      blocks Q1' = nextForest mat kr kc null (S d) (blocks Q1) /\
      Forall (Good d pairs') (Q2 ++ Q1') /\
      StronglySorted before (Q2 ++ Q1') /\ length iv' = K.
Proof.
  induction Q1 as [|sp Q1 IH]; intros Q2 T L pairs iv fuel HQ1 HQ2 Hs Hiv.
  - exists [], pairs, iv.
    cbn [length Nat.add app blocks map groupBits nextForest flat_map filter].
    rewrite !app_nil_r in *. repeat split; assumption.
  - inversion HQ1 as [|? ? Hsp HQ1']; subst.
    apply StronglySorted_app_iff in Hs. destruct Hs as (Hs2 & Hs1 & H21).
    inversion Hs1 as [|? ? Hs1' Hsp1]; subst.
    rewrite Forall_forall in Hsp1.
    destruct (inplaceStep_internal d sp (Q1 ++ Q2)
                (mkInplaceState (sp :: Q1 ++ Q2) T L pairs iv) Hsp Hiv)
      as (ch & pairs1 & iv1 & Hstep & Hblocks & Hch & Hchs & Hin & Hlp
          & Hli & Hout).
    cbn [ip_pairs ip_T ip_L ip_intervals] in *.
    assert (Hkeep : forall e sp', Good e pairs sp' ->
                      (sp_right sp' <= sp_left sp \/ sp_right sp <= sp_left sp') ->
                      Good e pairs1 sp').
    { intros e sp' Hg Hd.
      exact (Good_outside e pairs pairs1 sp' (sp_left sp) (sp_right sp)
               Hg Hd Hlp Hout). }
    rewrite Forall_forall in Hin.
    destruct (IH (Q2 ++ ch) (T ++ map (nonempty mat kr kc null (S d))
                                      (kids kr kc (S d) (block sp)))
                L pairs1 iv1 fuel)
      as (Q1' & pairs' & iv' & Hrun & Hb' & Hg' & Hs' & Hiv').
    + apply Forall_forall. intros sp' Hsp'.
      rewrite Forall_forall in HQ1'.
      apply (Hkeep _ _ (HQ1' sp' Hsp')). right. now apply Hsp1.
    + apply Forall_app. split; [|exact Hch].
      apply Forall_forall. intros sp' Hsp'.
      rewrite Forall_forall in HQ2.
      apply (Hkeep _ _ (HQ2 sp' Hsp')). left.
      apply (H21 sp' sp Hsp'). now left.
    + apply StronglySorted_app_iff. split; [|split; [exact Hs1'|]].
      * apply StronglySorted_app_iff. split; [exact Hs2|].
        split; [exact Hchs|].
        intros a b Ha Hb. pose proof (H21 a sp Ha (or_introl eq_refl)).
        destruct (Hin b Hb). cbn beta in *. lia.
      * intros a b Ha Hb. apply in_app_or in Ha. destruct Ha as [Ha|Ha].
        -- apply (H21 a b Ha). now right.
        -- destruct (Hin a Ha). pose proof (Hsp1 b Hb). cbn beta in *. lia.
    + exact Hli.
    + exists (ch ++ Q1'), pairs', iv'.
      cbn [length Nat.add app inplaceLoop ip_queue].
      rewrite Hstep. cbn [obind]. rewrite <- app_assoc, Hrun.
      split.
      { f_equal. rewrite !app_assoc. f_equal.
        unfold groupBits. cbn [blocks map flat_map].
        rewrite map_app, <- !app_assoc. reflexivity. }
      split.
      { unfold blocks in *. rewrite map_app, Hblocks, Hb'.
        unfold nextForest. cbn [map flat_map]. now rewrite filter_app. }
      rewrite app_assoc. split; [exact Hg'|]. split; [exact Hs'|exact Hiv'].
Qed.

(** The loop from a queue that holds the blocks of one level. *)
Lemma inplace_run (e : nat) :
  forall Q T L pairs iv fuel,
    Forall (Good e pairs) Q -> StronglySorted before Q -> length iv = K ->
    exists pairs' iv',
      inplaceLoop kr kc (stepsOf mat kr kc null e (blocks Q) + fuel)
        (mkInplaceState Q T L pairs iv)
      = inplaceLoop kr kc fuel
          (mkInplaceState []
             (T ++ concat (levelsOf mat kr kc null e (blocks Q)))
             (L ++ leavesOf mat kr kc null e (blocks Q)) pairs' iv').
Proof.
  induction e as [|d IH]; intros Q T L pairs iv fuel HQ Hs Hiv.
  - exists pairs, iv. cbn [stepsOf levelsOf concat].
    unfold blocks at 1. rewrite length_map, app_nil_r.
    rewrite <- (app_nil_r Q) at 2. now apply inplace_leaf_level.
  - destruct (inplace_level d Q [] T L pairs iv
                (stepsOf mat kr kc null d
                   (nextForest mat kr kc null (S d) (blocks Q)) + fuel)
                HQ (Forall_nil _) Hs Hiv)
      as (Q1' & pairs1 & iv1 & Hrun & Hb & Hg & Hs' & Hiv1).
    cbn [app] in *. rewrite app_nil_r in Hrun.
    destruct (IH Q1' (T ++ groupBits mat kr kc null (S d) (blocks Q)) L
                pairs1 iv1 fuel Hg Hs' Hiv1) as (pairs' & iv' & Hrun').
    exists pairs', iv'. cbn [stepsOf levelsOf leavesOf concat].
    unfold blocks at 1. rewrite length_map, <- Nat.add_assoc, Hrun.
    rewrite <- Hb, Hrun'. now rewrite <- app_assoc.
Qed.

Lemma stepsOf_bound (e : nat) :
  forall F, stepsOf mat kr kc null e F <= length F * queueFuel kr kc e.
Proof.
  induction e as [|d IH]; intros F; cbn [stepsOf queueFuel]; [lia|].
  specialize (IH (nextForest mat kr kc null (S d) F)).
  assert (Hlen : length (nextForest mat kr kc null (S d) F) <= K * length F).
  { unfold nextForest.
    rewrite <- (length_flat_map_uniform (kids kr kc (S d)) K F)
      by (intros; unfold kids; now rewrite length_map, length_child_slots).
    apply filter_length_le. }
  nia.
Qed.

(** [buildFromListsInplace] on pairs that lie within the matrix: the
    levels and the leaves of the blocks that hold a pair. *)
Lemma buildFromListsInplace_spec (h : nat) :
  1 <= h ->
  Forall (fun s => in_block 0 0 (kr ^ h) (kc ^ h) s = true) orig ->
  exists pairs',
    buildFromListsInplace kr kc h (kr ^ h) (kc ^ h) orig
    = Some (concat (levelsOf mat kr kc null (h - 1) [(0, 0)]),
            leavesOf mat kr kc null (h - 1) [(0, 0)], pairs').
Proof.
  intros Hh Hin. unfold buildFromListsInplace.
  set (root := mkSubproblem 0 (kr ^ h - 1) 0 (kc ^ h - 1) 0 (length orig)).
  pose proof (stepsOf_bound (h - 1) [(0, 0)]) as Hb. cbn [length] in Hb.
  destruct (inplace_run (h - 1) [root] [] [] orig (repeat (0, 0) K)
              (queueFuel kr kc (h - 1)
               - stepsOf mat kr kc null (h - 1) [(0, 0)] + 1))
    as (pairs' & iv' & Hrun).
  - constructor; [|constructor]. unfold GoodSubproblem, root.
    cbn [sp_firstRow sp_lastRow sp_firstCol sp_lastCol sp_left sp_right].
    replace (S (h - 1)) with h by lia.
    split; [reflexivity|]. split; [reflexivity|]. split; [lia|].
    unfold slice. rewrite Nat.sub_0_r. cbn [skipn]. rewrite firstn_all.
    symmetry. apply filter_all. now apply Forall_forall.
  - constructor; [constructor|constructor].
  - apply repeat_length.
  - cbn [blocks map sp_firstRow sp_firstCol root] in Hrun.
    replace (queueFuel kr kc (h - 1) + 1)
      with (stepsOf mat kr kc null (h - 1) [(0, 0)]
            + (queueFuel kr kc (h - 1)
               - stepsOf mat kr kc null (h - 1) [(0, 0)] + 1)) by lia.
    unfold root in Hrun |- *. rewrite Hrun.
    rewrite Nat.add_1_r. cbn [inplaceLoop ip_queue obind ip_T ip_L ip_pairs].
    now exists pairs'.
Qed.

End InplaceSpec.

(** ** Mode P builds what Mode M builds *)

Lemma fold_left_max_bound {A : Type} (f : A -> nat) (l : list A) :
  forall m,
    m <= fold_left (fun m' x => Nat.max m' (f x)) l m /\
    forall x, In x l -> f x <= fold_left (fun m' x => Nat.max m' (f x)) l m.
Proof.
  induction l as [|y l IH]; intros m; cbn [fold_left].
  - split; [lia|]. intros x [].
  - destruct (IH (Nat.max m (f y))) as [Hm Hx]. split; [lia|].
    intros x [<-|Hin]; [lia|]. now apply Hx.
Qed.

Lemma existsb_ext_in {A : Type} (f g : A -> bool) (l : list A) :
  (forall x, In x l -> f x = g x) -> existsb f l = existsb g l.
Proof.
  induction l as [|x l IH]; intros Hfg; cbn [existsb]; [reflexivity|].
  rewrite (Hfg x (or_introl eq_refl)), IH; [reflexivity|].
  intros y Hy. apply Hfg. now right.
Qed.

(** The cells of the matrix of a list of pairs. *)
Lemma mat_at_matrix_of_pairs {E : Type} `{ElemType E}
  (pairs : list (ValuedPosition E)) (def : E) (rows cols i j : nat) :
  1 <= rows ->
  Forall (fun s => vp_row s < rows /\ vp_col s < cols) pairs ->
  mat_at (matrix_of_pairs pairs def rows cols) def i j
  = pair_value def pairs i j.
Proof.
  intros Hrows Hin.
  assert (Hlen : length (matrix_of_pairs pairs def rows cols) = rows).
  { unfold matrix_of_pairs. now rewrite length_map, length_seq. }
  assert (Hc0 : length (nth 0 (matrix_of_pairs pairs def rows cols) []) = cols).
  { unfold matrix_of_pairs. destruct rows as [|r]; [lia|].
    cbn [seq map nth]. now rewrite length_map, length_seq. }
  destruct (Nat.lt_ge_cases i rows) as [Hi|Hi];
    [destruct (Nat.lt_ge_cases j cols) as [Hj|Hj]|].
  - rewrite mat_at_inside by lia.
    assert (Hrow : nth i (matrix_of_pairs pairs def rows cols) []
                   = map (pair_value def pairs i) (seq 0 cols)).
    { unfold matrix_of_pairs. apply nth_error_nth.
      rewrite nth_error_map, nth_error_seq.
      now destruct (Nat.ltb_spec i rows); [|lia]. }
    rewrite Hrow. apply nth_error_nth.
    rewrite nth_error_map, nth_error_seq.
    now destruct (Nat.ltb_spec j cols); [|lia].
  - rewrite mat_at_outside by (right; lia).
    unfold pair_value.
    destruct (find _ (rev pairs)) as [s|] eqn:Hf; [|reflexivity].
    apply find_some in Hf. destruct Hf as [Hs Hat].
    apply in_rev in Hs. rewrite Forall_forall in Hin.
    specialize (Hin s Hs). apply andb_true_iff in Hat.
    destruct Hat as [_ Hc]. apply Nat.eqb_eq in Hc. lia.
  - rewrite mat_at_outside by (left; lia).
    unfold pair_value.
    destruct (find _ (rev pairs)) as [s|] eqn:Hf; [|reflexivity].
    apply find_some in Hf. destruct Hf as [Hs Hat].
    apply in_rev in Hs. rewrite Forall_forall in Hin.
    specialize (Hin s Hs). apply andb_true_iff in Hat.
    destruct Hat as [Hr _]. apply Nat.eqb_eq in Hr. lia.
Qed.

(** A cell holds a value exactly when the list has a pair for it. *)
Lemma pair_value_not_null {E : Type} `{ElemType E}
  (pairs : list (ValuedPosition E)) (null : E) (i j : nat) :
  Forall (fun s => vp_val s <> null) pairs ->
  negb (elem_eqb (pair_value null pairs i j) null)
  = existsb (in_block i j 1 1) pairs.
Proof.
  intros Hv. rewrite Forall_forall in Hv. unfold pair_value.
  destruct (find _ (rev pairs)) as [s|] eqn:Hf.
  - apply find_some in Hf. destruct Hf as [Hs Hat]. apply in_rev in Hs.
    apply andb_true_iff in Hat. destruct Hat as [Hr Hc].
    apply Nat.eqb_eq in Hr, Hc.
    destruct (elem_eqb (vp_val s) null) eqn:He.
    { apply (elem_eqb_eq (vp_val s) null) in He. now contradiction (Hv s Hs). }
    cbn [negb]. symmetry. apply existsb_exists. exists s.
    split; [exact Hs|]. apply in_block_spec. lia.
  - destruct (elem_eqb_eq null null) as [_ Hn]. rewrite (Hn eq_refl).
    cbn [negb]. symmetry. apply Bool.not_true_is_false. intros Hex.
    apply existsb_exists in Hex. destruct Hex as (s & Hs & Hb).
    apply in_block_spec in Hb.
    pose proof (find_none _ _ Hf s (proj1 (in_rev _ _) Hs)) as Hno.
    cbn beta in Hno. apply andb_false_iff in Hno.
    destruct Hno as [Hno|Hno]; apply Nat.eqb_neq in Hno; lia.
Qed.

(** A block of the matrix of a list of pairs is kept exactly when it holds
    a pair. *)
Lemma nonempty_pairs {E : Type} `{ElemType E} (mat : matrix_type E)
  (kr kc : nat) (null : E) (pairs : list (ValuedPosition E)) :
  2 <= kr -> 2 <= kc ->
  (forall i j, mat_at mat null i j = pair_value null pairs i j) ->
  Forall (fun s => vp_val s <> null) pairs ->
  forall d p q,
    nonempty mat kr kc null d (p, q)
    = existsb (in_block p q (kr ^ d) (kc ^ d)) pairs.
Proof.
  intros Hkr Hkc Hcell Hv. induction d as [|d IH]; intros p q.
  - cbn [nonempty fst snd Nat.pow]. rewrite Hcell.
    now apply pair_value_not_null.
  - cbn [nonempty].
    rewrite (existsb_ext_in _
               (fun n => existsb (fun s => in_block (fst n) (snd n)
                                              (kr ^ d) (kc ^ d) s) pairs))
      by (intros [a b] _; apply IH).
    rewrite existsb_swap. apply existsb_ext_in. intros s _.
    now apply in_block_kids.
Qed.

(** The constructor from a list of pairs builds the structure
    [matrixTree] of the matrix of the pairs. *)
Lemma KrKcTree_of_pairs_matrixTree {E : Type} `{ElemType E}
  (pairs : list (ValuedPosition E)) (kr kc : nat) (null : E) :
  2 <= kr -> 2 <= kc -> null = elem_default ->
  Forall (fun s => vp_val s <> null) pairs ->
  (Z.of_nat (kr ^ derived_height (pairs_maxRow pairs + 1)
                     (pairs_maxCol pairs + 1) kr kc) <= 2 ^ 53)%Z ->
  (Z.of_nat (kc ^ derived_height (pairs_maxRow pairs + 1)
                     (pairs_maxCol pairs + 1) kr kc) <= 2 ^ 53)%Z ->
  exists pairs',
    KrKcTree_of_pairs pairs kr kc null
    = Some (matrixTree
              (matrix_of_pairs pairs null (pairs_maxRow pairs + 1)
                               (pairs_maxCol pairs + 1))
              kr kc null
              (derived_height (pairs_maxRow pairs + 1)
                              (pairs_maxCol pairs + 1) kr kc),
            pairs').
Proof.
  intros Hkr Hkc Hdef Hv Hbr Hbc.
  set (rows := pairs_maxRow pairs + 1) in *.
  set (cols := pairs_maxCol pairs + 1) in *.
  set (mat := matrix_of_pairs pairs null rows cols).
  pose proof (derived_height_pos rows cols kr kc) as Hh.
  assert (Hin : Forall (fun s => vp_row s < rows /\ vp_col s < cols) pairs).
  { apply Forall_forall. intros s Hs. unfold rows, cols.
    pose proof (proj2 (fold_left_max_bound vp_row pairs 0) s Hs).
    pose proof (proj2 (fold_left_max_bound vp_col pairs 0) s Hs).
    unfold pairs_maxRow, pairs_maxCol. lia. }
  assert (Hcell : forall i j, mat_at mat null i j = pair_value null pairs i j).
  { intros i j. apply mat_at_matrix_of_pairs; [unfold rows; lia|exact Hin]. }
  pose proof (nonempty_pairs mat kr kc null pairs Hkr Hkc Hcell Hv) as Hne.
  unfold KrKcTree_of_pairs. cbv zeta. fold rows cols.
  rewrite (pow_size_type_exact kr _ Hbr), (pow_size_type_exact kc _ Hbc).
  cbn [obind].
  destruct (derived_height_covers rows cols kr kc Hkr Hkc) as [HR HC].
  set (h := derived_height rows cols kr kc) in *.
  assert (Hblock : Forall (fun s => in_block 0 0 (kr ^ h) (kc ^ h) s = true)
                          pairs).
  { apply (Forall_impl _ (P := fun s => vp_row s < rows /\ vp_col s < cols));
      [|exact Hin].
    intros s [Hr Hc]. apply in_block_spec. lia. }
  destruct pairs as [|s0 pairs0] eqn:Hp.
  - cbn [length Nat.eqb]. exists []. f_equal. f_equal.
    unfold matrixTree, rootForest. rewrite Hne. cbn [existsb].
    now rewrite (levelsOf_nil mat kr kc null), concat_repeat_nil,
      (leavesOf_nil mat kr kc null).
  - rewrite <- Hp in *. replace (length pairs =? 0) with false
      by (rewrite Hp; reflexivity).
    destruct (buildFromListsInplace_spec mat kr kc null pairs Hkr Hkc
                ltac:(intros; rewrite <- Hdef; apply Hcell) Hne h Hh Hblock)
      as (pairs' & ->).
    cbn [obind]. exists pairs'. f_equal. f_equal.
    unfold matrixTree, rootForest. rewrite Hne.
    replace (existsb (in_block 0 0 (kr ^ h) (kc ^ h)) pairs) with true;
      [reflexivity|].
    symmetry. rewrite Hp. cbn [existsb].
    rewrite Hp in Hblock. inversion Hblock as [|? ? Hs0 _]; subst.
    now rewrite Hs0.
Qed.

(** The matrix of a list of pairs has the rows and columns it is given. *)
Lemma matrix_of_pairs_rows {E : Type} (pairs : list (ValuedPosition E))
  (null : E) (rows cols : nat) :
  length (matrix_of_pairs pairs null rows cols) = rows /\
  Forall (fun row => length row = cols) (matrix_of_pairs pairs null rows cols).
Proof.
  unfold matrix_of_pairs. split; [now rewrite length_map, length_seq|].
  apply Forall_forall. intros row Hrow. apply in_map_iff in Hrow.
  destruct Hrow as (i & <- & _). now rewrite length_map, length_seq.
Qed.

(** For [kr, kc >= 2], a [null] that is the value-initialised element,
    pairs whose values differ from [null], and powers [kr ^ h] and
    [kc ^ h] that are exact (at most [2 ^ 53]) for the height [h] derived
    from the largest row and column, the constructor from a list of pairs
    terminates with exactly the structure the matrix constructor builds
    from the matrix of the pairs (the same [T_], [L_] and parameters), in
    whatever order the pairs come and also when a cell has several pairs,
    of which the last one counts. *)
Theorem KrKcTree_of_pairs_of_matrix {E : Type} `{ElemType E}
  (pairs : list (ValuedPosition E)) (kr kc : nat) (null : E) :
  2 <= kr -> 2 <= kc -> null = elem_default ->
  Forall (fun s => vp_val s <> null) pairs ->
  (Z.of_nat (kr ^ derived_height (pairs_maxRow pairs + 1)
                     (pairs_maxCol pairs + 1) kr kc) <= 2 ^ 53)%Z ->
  (Z.of_nat (kc ^ derived_height (pairs_maxRow pairs + 1)
                     (pairs_maxCol pairs + 1) kr kc) <= 2 ^ 53)%Z ->
  exists t pairs',
    KrKcTree_of_pairs pairs kr kc null = Some (t, pairs') /\
    KrKcTree_of_matrix
      (matrix_of_pairs pairs null (pairs_maxRow pairs + 1)
                       (pairs_maxCol pairs + 1)) kr kc null
    = Some t.
Proof.
  intros Hkr Hkc Hdef Hv Hbr Hbc.
  destruct (KrKcTree_of_pairs_matrixTree pairs kr kc null Hkr Hkc Hdef Hv
              Hbr Hbc) as (pairs' & Hrun).
  eexists. exists pairs'. split; [exact Hrun|].
  set (rows := pairs_maxRow pairs + 1) in *.
  set (cols := pairs_maxCol pairs + 1) in *.
  destruct (matrix_of_pairs_rows pairs null rows cols) as [Hlen Hrows].
  assert (Hmat : matrix_of_pairs pairs null rows cols <> []).
  { intros Hnil. rewrite Hnil in Hlen. cbn in Hlen. unfold rows in Hlen. lia. }
  destruct (rows_of_equal_length _ cols Hmat Hrows) as [Hc0 Hrect].
  pose proof (KrKcTree_of_matrix_eq _ kr kc null Hkr Hkc Hmat Hrect) as Heq.
  rewrite Hlen, Hc0 in Heq. exact (Heq Hbr Hbc).
Qed.

Lemma KrKcTree_of_pairs_of_matrix_example :
  (2 <= 2 /\ 0%Z = elem_default /\
   Forall (fun s => vp_val s <> 0%Z)
          [mkValuedPosition 3 2 9%Z; mkValuedPosition 0 0 5%Z;
           mkValuedPosition 1 3 7%Z] /\
   (Z.of_nat (2 ^ derived_height
                    (pairs_maxRow [mkValuedPosition 3 2 9%Z;
                                   mkValuedPosition 0 0 5%Z;
                                   mkValuedPosition 1 3 7%Z] + 1)
                    (pairs_maxCol [mkValuedPosition 3 2 9%Z;
                                   mkValuedPosition 0 0 5%Z;
                                   mkValuedPosition 1 3 7%Z] + 1) 2 2)
    <= 2 ^ 53)%Z) /\
  exists t pairs',
    KrKcTree_of_pairs
      [mkValuedPosition 3 2 9%Z; mkValuedPosition 0 0 5%Z;
       mkValuedPosition 1 3 7%Z] 2 2 0%Z = Some (t, pairs') /\
    KrKcTree_of_matrix
      (matrix_of_pairs
         [mkValuedPosition 3 2 9%Z; mkValuedPosition 0 0 5%Z;
          mkValuedPosition 1 3 7%Z] 0%Z
         (pairs_maxRow [mkValuedPosition 3 2 9%Z; mkValuedPosition 0 0 5%Z;
                        mkValuedPosition 1 3 7%Z] + 1)
         (pairs_maxCol [mkValuedPosition 3 2 9%Z; mkValuedPosition 0 0 5%Z;
                        mkValuedPosition 1 3 7%Z] + 1)) 2 2 0%Z
    = Some t.
Proof.
  assert (Hv : Forall (fun s => vp_val s <> 0%Z)
                 [mkValuedPosition 3 2 9%Z; mkValuedPosition 0 0 5%Z;
                  mkValuedPosition 1 3 7%Z])
    by (repeat constructor; cbn; lia).
  split.
  - split; [lia|]. split; [reflexivity|]. split; [exact Hv|cbn; lia].
  - apply (KrKcTree_of_pairs_of_matrix _ 2 2 0%Z);
      [lia|lia|reflexivity|exact Hv|cbn; lia|cbn; lia].
Defined.

(** Under the same conditions (kr, kc >= 2, a [null] that is the
    value-initialised element, pairs whose values differ from [null], exact
    powers), the constructor from a list of pairs terminates with a
    structure that stores its parameters, satisfies the class invariant,
    keeps no empty group, covers every pair, and on which
    [getElement(i, j)] is the value of the last pair for the cell
    [(i, j)], or [null] when the list has none. *)
Theorem KrKcTree_of_pairs_getElement {E : Type} `{ElemType E}
  (pairs : list (ValuedPosition E)) (kr kc : nat) (null : E) :
  2 <= kr -> 2 <= kc -> null = elem_default ->
  Forall (fun s => vp_val s <> null) pairs ->
  (Z.of_nat (kr ^ derived_height (pairs_maxRow pairs + 1)
                     (pairs_maxCol pairs + 1) kr kc) <= 2 ^ 53)%Z ->
  (Z.of_nat (kc ^ derived_height (pairs_maxRow pairs + 1)
                     (pairs_maxCol pairs + 1) kr kc) <= 2 ^ 53)%Z ->
  exists t pairs',
    KrKcTree_of_pairs pairs kr kc null = Some (t, pairs') /\
    kr_ t = kr /\ kc_ t = kc /\ null_ t = null /\
    h_ t = derived_height (pairs_maxRow pairs + 1) (pairs_maxCol pairs + 1)
             kr kc /\
    well_formed t /\ pruned t /\
    Forall (fun s => vp_row s < numRows_ t /\ vp_col s < numCols_ t) pairs /\
    forall i j, i < numRows_ t -> j < numCols_ t ->
      getElement t i j = Some (pair_value null pairs i j).
Proof.
  intros Hkr Hkc Hdef Hv Hbr Hbc.
  destruct (KrKcTree_of_pairs_matrixTree pairs kr kc null Hkr Hkc Hdef Hv
              Hbr Hbc) as (pairs' & Hrun).
  set (rows := pairs_maxRow pairs + 1) in *.
  set (cols := pairs_maxCol pairs + 1) in *.
  pose proof (derived_height_pos rows cols kr kc) as Hh.
  destruct (derived_height_covers rows cols kr kc Hkr Hkc) as [HR HC].
  set (h := derived_height rows cols kr kc) in *.
  assert (Hin : Forall (fun s => vp_row s < rows /\ vp_col s < cols) pairs).
  { apply Forall_forall. intros s Hs. unfold rows, cols.
    pose proof (proj2 (fold_left_max_bound vp_row pairs 0) s Hs).
    pose proof (proj2 (fold_left_max_bound vp_col pairs 0) s Hs).
    unfold pairs_maxRow, pairs_maxCol. lia. }
  eexists. exists pairs'. split; [exact Hrun|].
  cbn [kr_ kc_ null_ h_ matrixTree].
  repeat (split; [reflexivity|]).
  split; [now apply matrixTree_well_formed|].
  split; [apply matrixTree_pruned; lia|].
  cbn [numRows_ numCols_ matrixTree]. split.
  - apply (Forall_impl _ (P := fun s => vp_row s < rows /\ vp_col s < cols));
      [|exact Hin].
    intros s [Hr Hc]. lia.
  - intros i j Hi Hj.
    rewrite (matrixTree_getElement _ kr kc null Hkr Hkc h i j Hh Hi Hj).
    f_equal. apply mat_at_matrix_of_pairs; [unfold rows; lia|exact Hin].
Qed.

Lemma KrKcTree_of_pairs_getElement_example :
  (2 <= 2 /\ 0%Z = elem_default /\
   Forall (fun s => vp_val s <> 0%Z)
          [mkValuedPosition 3 2 9%Z; mkValuedPosition 0 0 5%Z;
           mkValuedPosition 1 3 7%Z] /\
   (Z.of_nat (2 ^ derived_height
                    (pairs_maxRow [mkValuedPosition 3 2 9%Z;
                                   mkValuedPosition 0 0 5%Z;
                                   mkValuedPosition 1 3 7%Z] + 1)
                    (pairs_maxCol [mkValuedPosition 3 2 9%Z;
                                   mkValuedPosition 0 0 5%Z;
                                   mkValuedPosition 1 3 7%Z] + 1) 2 2)
    <= 2 ^ 53)%Z) /\
  exists t pairs',
    KrKcTree_of_pairs
      [mkValuedPosition 3 2 9%Z; mkValuedPosition 0 0 5%Z;
       mkValuedPosition 1 3 7%Z] 2 2 0%Z = Some (t, pairs') /\
    kr_ t = 2 /\ kc_ t = 2 /\ null_ t = 0%Z /\
    h_ t = derived_height
             (pairs_maxRow [mkValuedPosition 3 2 9%Z; mkValuedPosition 0 0 5%Z;
                            mkValuedPosition 1 3 7%Z] + 1)
             (pairs_maxCol [mkValuedPosition 3 2 9%Z; mkValuedPosition 0 0 5%Z;
                            mkValuedPosition 1 3 7%Z] + 1) 2 2 /\
    well_formed t /\ pruned t /\
    Forall (fun s => vp_row s < numRows_ t /\ vp_col s < numCols_ t)
           [mkValuedPosition 3 2 9%Z; mkValuedPosition 0 0 5%Z;
            mkValuedPosition 1 3 7%Z] /\
    forall i j, i < numRows_ t -> j < numCols_ t ->
      getElement t i j
      = Some (pair_value 0%Z
                [mkValuedPosition 3 2 9%Z; mkValuedPosition 0 0 5%Z;
                 mkValuedPosition 1 3 7%Z] i j).
Proof.
  assert (Hv : Forall (fun s => vp_val s <> 0%Z)
                 [mkValuedPosition 3 2 9%Z; mkValuedPosition 0 0 5%Z;
                  mkValuedPosition 1 3 7%Z])
    by (repeat constructor; cbn; lia).
  split.
  - split; [lia|]. split; [reflexivity|]. split; [exact Hv|cbn; lia].
  - apply (KrKcTree_of_pairs_getElement _ 2 2 0%Z);
      [lia|lia|reflexivity|exact Hv|cbn; lia|cbn; lia].
Defined.

(** ** Mode P: what a run that returns leaves behind *)

Lemma foldM_success_each {A St : Type} (body : A -> St -> option St)
  (I : St -> Prop) (P : A -> Prop) (xs : list A) :
  (forall x s s', body x s = Some s' -> I s -> I s' /\ P x) ->
  forall s s', foldM body xs s = Some s' -> I s -> Forall P xs.
Proof.
  intros Hb. induction xs as [|x xs IH]; intros s s' Hrun Hs;
    cbn [foldM] in Hrun; [constructor|].
  destruct (body x s) as [s1|] eqn:H1; [|discriminate].
  destruct (Hb x s s1 H1 Hs) as [Hs1 Hx].
  constructor; [exact Hx|exact (IH s1 s' Hrun Hs1)].
Qed.

Lemma length_write_at {A : Type} (v v' : list A) (i : nat) (x : A) :
  write_at v i x = Some v' -> length v' = length v /\ i < length v.
Proof.
  unfold write_at. destruct (Nat.ltb_spec i (length v)); [|discriminate].
  intros [= <-]. split; [apply length_list_update|assumption].
Qed.

Lemma slice_app {A : Type} (l : list A) (a b c : nat) :
  a <= b <= c -> slice l a c = slice l a b ++ slice l b c.
Proof.
  intros Habc. unfold slice.
  replace (c - a) with ((b - a) + (c - b)) by lia.
  rewrite firstn_add, skipn_skipn.
  now replace (b - a + a) with b by lia.
Qed.

Lemma slice_split {A : Type} (l : list A) (a b : nat) :
  a <= b -> l = firstn a l ++ slice l a b ++ skipn b l.
Proof.
  intros Hab. unfold slice.
  rewrite <- (firstn_skipn a l) at 1. f_equal.
  rewrite <- (firstn_skipn (b - a) (skipn a l)) at 1. f_equal.
  rewrite skipn_skipn. now replace (b - a + a) with b by lia.
Qed.

Lemma filter_lt_S_perm {A : Type} (f : A -> nat) (l : list A) (k : nat) :
  Permutation (filter (fun s => f s <? k) l ++ filter (fun s => f s =? k) l)
              (filter (fun s => f s <? S k) l).
Proof.
  induction l as [|x l IH]; cbn [filter]; [constructor|].
  destruct (Nat.ltb_spec (f x) (S k)); destruct (Nat.ltb_spec (f x) k);
    destruct (Nat.eqb_spec (f x) k); try lia; cbn [app].
  - now constructor.
  - apply Permutation_sym, Permutation_cons_app, Permutation_sym, IH.
  - exact IH.
Qed.

Lemma buckets_perm {A : Type} (f : A -> nat) (l : list A) (m : nat) :
  Permutation (concat (map (fun k => filter (fun s => f s =? k) l) (seq 0 m)))
              (filter (fun s => f s <? m) l).
Proof.
  induction m as [|m IH].
  - cbn [seq map concat]. rewrite filter_false; [constructor|].
    intros x _. reflexivity.
  - rewrite seq_S, map_app, concat_app. cbn [Nat.add map concat].
    rewrite app_nil_r.
    eapply Permutation_trans; [|apply filter_lt_S_perm].
    now apply Permutation_app_tail.
Qed.

(** A vector whose part [a .. b) holds the buckets of the keys one after
    the other, and which is unchanged elsewhere, is a permutation. *)
Lemma grouped_perm {A : Type} (f : A -> nat) (l l' : list A) (a b sup : nat) :
  a <= b <= length l -> length l' = length l ->
  (forall s, In s (slice l a b) -> f s < sup) ->
  (forall k, k < sup ->
     slice l' (a + length (filter (fun s => f s <? k) (slice l a b)))
              (a + length (filter (fun s => f s <? S k) (slice l a b)))
     = filter (fun s => f s =? k) (slice l a b)) ->
  (forall x, x < a \/ b <= x -> nth_error l' x = nth_error l x) ->
  Permutation l l'.
Proof.
  intros Hab Hlen Hsup Hb Hout.
  set (sl := slice l a b) in *.
  set (start := fun k => length (filter (fun s => f s <? k) sl)).
  assert (Hmono : forall k, start k <= start (S k)).
  { intros k. unfold start. rewrite length_filter_lt_S. lia. }
  assert (Hpre : forall m, m <= sup ->
            slice l' a (a + start m)
            = concat (map (fun k => filter (fun s => f s =? k) sl) (seq 0 m))).
  { induction m as [|m IH]; intros Hm.
    - unfold start. rewrite filter_false by (intros; reflexivity).
      cbn [length seq map concat]. unfold slice.
      now replace (a + 0 - a) with 0 by lia.
    - rewrite seq_S, map_app, concat_app. cbn [Nat.add map concat].
      rewrite app_nil_r, <- IH by lia.
      rewrite <- (Hb m) by lia. fold (start m) (start (S m)).
      apply slice_app. pose proof (Hmono m). lia. }
  assert (Hall : start sup = b - a).
  { unfold start. rewrite filter_all.
    - unfold sl. now apply length_slice.
    - intros s Hs. apply Nat.ltb_lt. now apply Hsup. }
  specialize (Hpre sup (le_n _)). rewrite Hall in Hpre.
  replace (a + (b - a)) with b in Hpre by lia.
  rewrite (slice_split l a b) at 1 by lia.
  rewrite (slice_split l' a b) by lia.
  replace (firstn a l') with (firstn a l).
  2:{ apply nth_error_ext. intros i. rewrite !nth_error_firstn.
      destruct (Nat.ltb_spec i a); [|reflexivity].
      symmetry. apply Hout. now left. }
  replace (skipn b l') with (skipn b l).
  2:{ apply nth_error_ext. intros i. rewrite !nth_error_skipn.
      symmetry. apply Hout. right. lia. }
  apply Permutation_app_head, Permutation_app_tail.
  rewrite Hpre. fold sl. apply Permutation_sym.
  eapply Permutation_trans; [apply buckets_perm|].
  rewrite filter_all; [apply Permutation_refl|].
  intros s Hs. apply Nat.ltb_lt. now apply Hsup.
Qed.

Section InplaceRuns.

Context {E : Type} `{ElemType E}.
Variables (kr kc : nat).

Lemma countKeys_success (pairs : list (ValuedPosition E)) (sp : Subproblem)
  (widthRow widthCol sup : nat) (counts : list nat) :
  countKeys kc pairs sp widthRow widthCol (repeat 0 sup) = Some counts ->
  Forall (fun i => exists pair k,
            nth_error pairs i = Some pair /\
            computeKey kc pair sp widthRow widthCol = Some k /\ k < sup)
         (seq (sp_left sp) (sp_right sp - sp_left sp)).
Proof.
  unfold countKeys. intros Hrun.
  refine (foldM_success_each _ (fun c => length c = sup) _ _ _ _ _ Hrun _);
    [|apply repeat_length].
  intros i c c' Hb Hc.
  destruct (nth_error pairs i) as [pair|]; [|discriminate].
  cbn [obind] in Hb.
  destruct (computeKey kc pair sp widthRow widthCol) as [k|] eqn:Hkey;
    [|discriminate].
  cbn [obind] in Hb.
  destruct (nth_error c k) as [n|]; [|discriminate]. cbn [obind] in Hb.
  destruct (length_write_at _ _ _ _ Hb) as [Hl Hk].
  split; [lia|]. exists pair, k.
  split; [reflexivity|]. split; [exact Hkey|lia].
Qed.

Lemma startIndices_success (sup : nat) (counts : list nat)
  (intervals : list (nat * nat)) st :
  startIndices sup counts intervals = Some st -> sup <= length intervals.
Proof.
  unfold startIndices. intros Hrun.
  assert (Hall : Forall (fun k => k < length intervals) (seq 0 sup)).
  { refine (foldM_success_each _
              (fun s => length (snd (fst s)) = length intervals) _ _ _ _ _
              Hrun eq_refl).
    intros k [[c iv] total] s' Hb Hs. cbn [fst snd] in Hs.
    destruct (nth_error c k) as [tmp|]; [|discriminate]. cbn [obind] in Hb.
    destruct (write_at c k total) as [c2|]; [|discriminate].
    cbn [obind] in Hb.
    destruct (write_at iv k (total, total + tmp)) as [iv2|] eqn:Hw;
      [|discriminate].
    cbn [obind] in Hb. injection Hb as <-. cbn [fst snd].
    destruct (length_write_at _ _ _ _ Hw). lia. }
  destruct sup as [|sup]; [lia|].
  rewrite Forall_forall in Hall.
  specialize (Hall sup). rewrite in_seq in Hall. lia.
Qed.

(** Whenever [countingSort] returns, it has permuted the pairs. *)
Lemma countingSort_perm (pairs pairs1 : list (ValuedPosition E))
  (intervals intervals1 : list (nat * nat)) (sp : Subproblem)
  (widthRow widthCol sup : nat) :
  countingSort kc pairs intervals sp widthRow widthCol sup
  = Some (pairs1, intervals1) ->
  Permutation pairs pairs1.
Proof.
  intros Hrun. pose proof Hrun as Hrun'. unfold countingSort in Hrun'.
  destruct (countKeys kc pairs sp widthRow widthCol (repeat 0 sup))
    as [counts|] eqn:Hck; [|discriminate].
  cbn [obind] in Hrun'.
  destruct (startIndices sup counts intervals) as [[[c1 iv1] total]|]
    eqn:Hsi; [|discriminate].
  cbn [obind] in Hrun'.
  destruct (reorder kc pairs sp widthRow widthCol c1 _) as [ct|];
    [|discriminate].
  cbn [obind] in Hrun'.
  destruct (copyBack pairs sp (snd ct)) as [p1|] eqn:Hcb; [|discriminate].
  cbn [obind] in Hrun'. injection Hrun' as <- <-.
  destruct (Nat.le_gt_cases (sp_right sp) (sp_left sp)) as [Hle|Hlt].
  - unfold copyBack in Hcb.
    replace (sp_right sp - sp_left sp) with 0 in Hcb by lia.
    cbn [seq foldM] in Hcb. injection Hcb as <-. apply Permutation_refl.
  - pose proof (countKeys_success _ _ _ _ _ _ Hck) as Hkeys.
    rewrite Forall_forall in Hkeys.
    assert (Hrange : sp_left sp <= sp_right sp <= length pairs).
    { split; [lia|].
      destruct (Hkeys (sp_right sp - 1)) as (pair & _ & Hp & _).
      - apply in_seq. lia.
      - assert (sp_right sp - 1 < length pairs)
          by (apply nth_error_Some; congruence).
        lia. }
    set (key := fun s : ValuedPosition E =>
                  match computeKey kc s sp widthRow widthCol with
                         | Some k => k
                         | None => 0
                         end).
    assert (Hkey : forall s, In s (slice pairs (sp_left sp) (sp_right sp)) ->
              computeKey kc s sp widthRow widthCol = Some (key s) /\
              key s < sup).
    { intros s Hs. apply In_nth_error in Hs. destruct Hs as [j Hj].
      rewrite nth_error_slice in Hj.
      destruct (Nat.ltb_spec j (sp_right sp - sp_left sp)); [|discriminate].
      destruct (Hkeys (sp_left sp + j)) as (pair & k & Hp & Hk & Hlt').
      - apply in_seq. lia.
      - rewrite Hj in Hp. injection Hp as <-. unfold key. rewrite Hk.
        now split. }
    destruct (countingSort_spec kc pairs sp widthRow widthCol sup key
                Hrange Hkey intervals (startIndices_success _ _ _ _ Hsi))
      as (pairs' & intervals' & Heq & Hlen & _ & _ & Hb & Hout).
    rewrite Hrun in Heq. injection Heq as <- <-.
    apply (grouped_perm key pairs p1 (sp_left sp) (sp_right sp) sup
             Hrange Hlen).
    + intros s Hs. now apply Hkey.
    + exact Hb.
    + exact Hout.
Qed.

Lemma fillLeaves_values (pairs : list (ValuedPosition E)) (sp : Subproblem)
  (appToL : list E) :
  fillLeaves kr kc pairs sp = Some appToL ->
  Forall (fun v => v = elem_default \/ exists s, In s pairs /\ v = vp_val s)
         appToL.
Proof.
  unfold fillLeaves. intros Hrun.
  refine (foldM_invariant _ _ _ _ _ _ Hrun _).
  - intros i a a' Hb Ha.
    destruct (nth_error pairs i) as [pair|] eqn:Hp; [|discriminate].
    cbn [obind] in Hb.
    destruct (offset_from (vp_row pair) (sp_firstRow sp)) as [r|];
      [|discriminate].
    cbn [obind] in Hb.
    destruct (offset_from (vp_col pair) (sp_firstCol sp)) as [c|];
      [|discriminate].
    cbn [obind] in Hb.
    apply (Forall_write_at _ _ _ _ _ Hb Ha).
    right. exists pair. split; [exact (nth_error_In _ _ Hp)|reflexivity].
  - apply Forall_forall. intros v Hv. left. exact (repeat_spec _ _ _ Hv).
Qed.

Variable orig : list (ValuedPosition E).

Local Abbreviation keptPairs st :=
  (Permutation orig (ip_pairs st) /\
   Forall (fun v => v = elem_default \/ exists s, In s orig /\ v = vp_val s)
          (ip_L st)).

Lemma inplaceStep_kept (sp : Subproblem) (queue : list Subproblem)
  (st st' : inplace_state) :
  inplaceStep kr kc sp queue st = Some st' -> keptPairs st -> keptPairs st'.
Proof.
  unfold inplaceStep. cbv zeta. intros Hstep [Hperm HL].
  destruct (kr <? sp_lastRow sp - sp_firstRow sp + 1).
  - destruct (countingSort kc (ip_pairs st) (ip_intervals st) sp _ _ _)
      as [[pairs1 intervals1]|] eqn:Hsort; [|discriminate].
    cbn [obind fst snd] in Hstep.
    destruct (pushSubproblems kr kc sp _ _ intervals1 queue (ip_T st))
      as [qt|]; [|discriminate].
    cbn [obind] in Hstep. injection Hstep as <-. cbn [ip_pairs ip_L].
    split; [|exact HL].
    exact (Permutation_trans Hperm (countingSort_perm _ _ _ _ _ _ _ _ Hsort)).
  - destruct (fillLeaves kr kc (ip_pairs st) sp) as [appToL|] eqn:Hfill;
      [|discriminate].
    cbn [obind] in Hstep. injection Hstep as <-. cbn [ip_pairs ip_L].
    split; [exact Hperm|]. apply Forall_app. split; [exact HL|].
    eapply Forall_impl; [|exact (fillLeaves_values _ _ _ Hfill)].
    intros v [Hv|(s & Hs & Hv)]; [now left|right].
    exists s. split; [|exact Hv].
    exact (Permutation_in _ (Permutation_sym Hperm) Hs).
Qed.

Lemma inplaceLoop_kept (fuel : nat) :
  forall st st',
    inplaceLoop kr kc fuel st = Some st' -> keptPairs st -> keptPairs st'.
Proof.
  induction fuel as [|fuel IH]; intros st st' Hrun Hst;
    cbn [inplaceLoop] in Hrun; [discriminate|].
  destruct (ip_queue st) as [|sp queue].
  - now injection Hrun as <-.
  - destruct (inplaceStep kr kc sp queue st) as [st1|] eqn:Hstep;
      [|discriminate].
    cbn [obind] in Hrun.
    exact (IH st1 st' Hrun (inplaceStep_kept _ _ _ _ Hstep Hst)).
Qed.

End InplaceRuns.

(** Whenever the constructor from pairs returns, it leaves a permutation
    of the pairs behind and has written to [L_] nothing but values of pairs
    over value-initialised elements. *)
Lemma KrKcTree_of_pairs_kept {E : Type} `{ElemType E}
  (pairs pairs' : list (ValuedPosition E)) (kr kc : nat) (null : E)
  (t : KrKcTree E) :
  KrKcTree_of_pairs pairs kr kc null = Some (t, pairs') ->
  null_ t = null /\
  Permutation pairs pairs' /\
  Forall (fun v => v = elem_default \/ exists s, In s pairs /\ v = vp_val s)
         (L_ t).
Proof.
  unfold KrKcTree_of_pairs. cbv zeta.
  set (h := derived_height _ _ _ _).
  destruct (pow_size_type kr h) as [numRows|]; [|discriminate].
  destruct (pow_size_type kc h) as [numCols|]; [|discriminate].
  cbn [obind].
  destruct (length pairs =? 0).
  - intros [= <- <-]. cbn [null_ L_].
    split; [reflexivity|]. split; [apply Permutation_refl|constructor].
  - destruct (buildFromListsInplace kr kc h numRows numCols pairs)
      as [[[T L] p1]|] eqn:Hb; [|discriminate].
    cbn [obind]. intros [= <- <-]. cbn [null_ L_].
    split; [reflexivity|].
    unfold buildFromListsInplace in Hb.
    destruct (inplaceLoop kr kc _ _) as [st|] eqn:Hrun; [|discriminate].
    cbn [obind] in Hb. injection Hb as <- <- <-.
    refine (inplaceLoop_kept kr kc pairs _ _ _ Hrun _). cbn [ip_pairs ip_L].
    split; [apply Permutation_refl|constructor].
Qed.

(** Whenever the constructor from a vector of pairs runs to its end (no
    access out of range, no difference in [computeKey] that wraps around),
    the vector it was given, which it sorts in place, holds the same pairs
    as before, each as often as before: [countingSort] only moves pairs. *)
Theorem KrKcTree_of_pairs_permutation {E : Type} `{ElemType E}
  (pairs pairs' : list (ValuedPosition E)) (kr kc : nat) (null : E)
  (t : KrKcTree E) :
  KrKcTree_of_pairs pairs kr kc null = Some (t, pairs') ->
  Permutation pairs pairs'.
Proof.
  intros Hrun.
  now destruct (KrKcTree_of_pairs_kept _ _ _ _ _ _ Hrun) as (_ & ? & _).
Qed.

Lemma KrKcTree_of_pairs_permutation_example :
  KrKcTree_of_pairs
    [mkValuedPosition 3 2 9%Z; mkValuedPosition 0 0 5%Z;
     mkValuedPosition 1 3 7%Z] 2 2 0%Z
  = Some (mkKrKcTree [true; true; false; true]
                     [5; 0; 0; 0;  0; 0; 0; 7;  0; 0; 9; 0]%Z
                     2 2 2 4 4 0%Z,
          [mkValuedPosition 0 0 5%Z; mkValuedPosition 1 3 7%Z;
           mkValuedPosition 3 2 9%Z]) /\
  Permutation
    [mkValuedPosition 3 2 9%Z; mkValuedPosition 0 0 5%Z;
     mkValuedPosition 1 3 7%Z]
    [mkValuedPosition 0 0 5%Z; mkValuedPosition 1 3 7%Z;
     mkValuedPosition 3 2 9%Z].
Proof.
  split; [reflexivity|].
  apply (KrKcTree_of_pairs_permutation _ _ 2 2 0%Z
           (mkKrKcTree [true; true; false; true]
                       [5; 0; 0; 0;  0; 0; 0; 7;  0; 0; 9; 0]%Z
                       2 2 2 4 4 0%Z)).
  reflexivity.
Defined.

(** The constructor from pairs allocates every leaf group as
    [std::vector<elem_type>(kr_ * kc_)] and never writes [null_]: whenever
    it runs to its end, every entry of [L_] is the value-initialised element
    or the value of a pair.  So when [null] is not the value-initialised element
    and no pair holds it, no entry of [L_] is [null_], and [countElements()]
    is [L_.size()], the number of cells in the leaf groups, not the number
    of cells that were given a pair. *)
Theorem KrKcTree_of_pairs_leaf_values {E : Type} `{ElemType E}
  (pairs pairs' : list (ValuedPosition E)) (kr kc : nat) (null : E)
  (t : KrKcTree E) :
  KrKcTree_of_pairs pairs kr kc null = Some (t, pairs') ->
  Forall (fun v => v = elem_default \/ exists s, In s pairs /\ v = vp_val s)
         (L_ t) /\
  (null <> elem_default -> Forall (fun s => vp_val s <> null) pairs ->
   Forall (fun v => v <> null_ t) (L_ t) /\
   countElements t = length (L_ t)).
Proof.
  intros Hrun.
  destruct (KrKcTree_of_pairs_kept _ _ _ _ _ _ Hrun) as (Hnull & _ & HL).
  split; [exact HL|]. intros Hd Hv.
  assert (Hno : Forall (fun v => v <> null_ t) (L_ t)).
  { rewrite Hnull. eapply Forall_impl; [|exact HL].
    intros v [->|(s & Hs & ->)]; [congruence|].
    rewrite Forall_forall in Hv. now apply Hv. }
  split; [exact Hno|].
  rewrite countElements_filter, filter_all; [reflexivity|].
  intros v Hin. rewrite Forall_forall in Hno. specialize (Hno v Hin).
  destruct (elem_eqb v (null_ t)) eqn:Heq; [|reflexivity].
  exact (False_ind _ (Hno (proj1 (elem_eqb_eq v (null_ t)) Heq))).
Qed.

Lemma KrKcTree_of_pairs_leaf_values_example :
  (KrKcTree_of_pairs
     [mkValuedPosition 3 2 9%Z; mkValuedPosition 0 0 5%Z;
      mkValuedPosition 1 3 7%Z] 2 2 (-1)%Z
   = Some (mkKrKcTree [true; true; false; true]
                      [5; 0; 0; 0;  0; 0; 0; 7;  0; 0; 9; 0]%Z
                      2 2 2 4 4 (-1)%Z,
           [mkValuedPosition 0 0 5%Z; mkValuedPosition 1 3 7%Z;
            mkValuedPosition 3 2 9%Z]) /\
   (-1)%Z <> elem_default /\
   Forall (fun s => vp_val s <> (-1)%Z)
          [mkValuedPosition 3 2 9%Z; mkValuedPosition 0 0 5%Z;
           mkValuedPosition 1 3 7%Z]) /\
  Forall (fun v => v = elem_default \/
                   exists s, In s [mkValuedPosition 3 2 9%Z;
                                   mkValuedPosition 0 0 5%Z;
                                   mkValuedPosition 1 3 7%Z] /\
                             v = vp_val s)
         [5; 0; 0; 0;  0; 0; 0; 7;  0; 0; 9; 0]%Z /\
  Forall (fun v => v <> (-1)%Z) [5; 0; 0; 0;  0; 0; 0; 7;  0; 0; 9; 0]%Z /\
  countElements (mkKrKcTree [true; true; false; true]
                            [5; 0; 0; 0;  0; 0; 0; 7;  0; 0; 9; 0]%Z
                            2 2 2 4 4 (-1)%Z) = 12.
Proof.
  assert (Hrun : KrKcTree_of_pairs
                   [mkValuedPosition 3 2 9%Z; mkValuedPosition 0 0 5%Z;
                    mkValuedPosition 1 3 7%Z] 2 2 (-1)%Z
                 = Some (mkKrKcTree [true; true; false; true]
                           [5; 0; 0; 0;  0; 0; 0; 7;  0; 0; 9; 0]%Z
                           2 2 2 4 4 (-1)%Z,
                         [mkValuedPosition 0 0 5%Z; mkValuedPosition 1 3 7%Z;
                          mkValuedPosition 3 2 9%Z]))
    by reflexivity.
  assert (Hd : (-1)%Z <> elem_default) by (cbn; lia).
  assert (Hv : Forall (fun s => vp_val s <> (-1)%Z)
                 [mkValuedPosition 3 2 9%Z; mkValuedPosition 0 0 5%Z;
                  mkValuedPosition 1 3 7%Z])
    by (repeat constructor; cbn; lia).
  split.
  - split; [exact Hrun|]. split; [exact Hd|exact Hv].
  - destruct (KrKcTree_of_pairs_leaf_values _ _ _ _ _ _ Hrun) as [HL Hno].
    split; [exact HL|exact (Hno Hd Hv)].
Defined.
